(** * Memory-Management-Simulator: a shallow embedding and its properties

    The simulation engines of the repository are embedded as pure
    state-passing functions, one module per C++ class:

    - [Cache] and [CacheHierarchy]   (src/cache/cache_simulator.cpp)
    - [VirtualMemorySimulator]       (src/virtual_memory/virtual_memory_simulator.cpp)
    - [MemoryManager]                (src/allocator/memory_allocator.cpp)
    - [BuddyAllocator]               (src/buddy/buddy_allocator.cpp)
    - [UnifiedMemorySystem]          (src/main.cpp), which drives them

    Conventions.  A [size_t] is a [Z] in [0, 2^64) and its arithmetic is
    wrapped with [wrap64]; an [int] used as a statistics counter or a
    logical clock is an unbounded [Z] (signed overflow is undefined in C++,
    so the model describes runs in which no counter reaches 2^31).  A
    [std::vector] is a list read with [vget] and written with [valter];
    indexing outside the vector is undefined in C++ and is modelled as a
    read that finds nothing and a write that changes nothing.  Console
    output is not modelled. *)

From Stdlib Require Import ZArith Lia Bool String.
From stdpp Require Import base option list gmap.

Local Open Scope Z_scope.

(** ** Machine integers and vectors *)

Definition wrap64 (z : Z) : Z := z mod 2 ^ 64.

(** Conversion of a [size_t] to [int] (two's complement, 32 bits). *)
Definition to_int (z : Z) : Z := (z + 2 ^ 31) mod 2 ^ 32 - 2 ^ 31.

Definition INT32_MAX : Z := 2 ^ 31 - 1.

Definition vget {A} (l : list A) (i : Z) : option A :=
  if i <? 0 then None else l !! Z.to_nat i.

Definition valter {A} (f : A → A) (i : Z) (l : list A) : list A :=
  if i <? 0 then l else alter f (Z.to_nat i) l.

(** The index sequence [lo, lo+1, ..., hi-1] of a [for] loop. *)
Definition zrange (lo hi : Z) : list Z :=
  (λ k : nat, lo + Z.of_nat k) <$> seq 0 (Z.to_nat (hi - lo)).

(** ** Cache level *)

Module Cache.

Inductive ReplacementPolicy := FIFO | LRU.
Inductive WritePolicy := WRITE_THROUGH | WRITE_BACK.
Inductive AssociativityType :=
  DIRECT_MAPPED | TWO_WAY | FOUR_WAY | FULLY_ASSOCIATIVE.

Definition is_LRU (p : ReplacementPolicy) : bool :=
  match p with LRU => true | FIFO => false end.
Definition is_WB (p : WritePolicy) : bool :=
  match p with WRITE_BACK => true | WRITE_THROUGH => false end.

Record CacheLine := {
  valid : bool;
  tag : Z;
  dirty : bool;
  insertion_order : Z;
  last_access_time : Z
}.

(** [CacheLine()] *)
Definition CacheLine_new : CacheLine :=
  {| valid := false; tag := 0; dirty := false;
     insertion_order := 0; last_access_time := 0 |}.

Record t := {
  name : string;
  capacity : Z;
  block_size : Z;
  associativity : AssociativityType;
  replacement_policy : ReplacementPolicy;
  write_policy : WritePolicy;
  num_sets : Z;
  ways : Z;
  cache : list (list CacheLine);
  next_insertion_order : Z;
  access_counter : Z;
  hits : Z;
  misses : Z;
  writes : Z;
  write_hits : Z;
  write_misses : Z;
  writebacks : Z
}.

(** Field assignments. *)
Definition set_cache (v : list (list CacheLine)) (c : t) : t :=
  {| name := name c; capacity := capacity c; block_size := block_size c;
     associativity := associativity c;
     replacement_policy := replacement_policy c;
     write_policy := write_policy c; num_sets := num_sets c; ways := ways c;
     cache := v; next_insertion_order := next_insertion_order c;
     access_counter := access_counter c; hits := hits c; misses := misses c;
     writes := writes c; write_hits := write_hits c;
     write_misses := write_misses c; writebacks := writebacks c |}.

Definition set_counters (nio ac h m w wh wm wb : Z) (c : t) : t :=
  {| name := name c; capacity := capacity c; block_size := block_size c;
     associativity := associativity c;
     replacement_policy := replacement_policy c;
     write_policy := write_policy c; num_sets := num_sets c; ways := ways c;
     cache := cache c; next_insertion_order := nio;
     access_counter := ac; hits := h; misses := m;
     writes := w; write_hits := wh;
     write_misses := wm; writebacks := wb |}.

Definition set_next_insertion_order (v : Z) (c : t) : t :=
  set_counters v (access_counter c) (hits c) (misses c) (writes c)
    (write_hits c) (write_misses c) (writebacks c) c.
Definition set_access_counter (v : Z) (c : t) : t :=
  set_counters (next_insertion_order c) v (hits c) (misses c) (writes c)
    (write_hits c) (write_misses c) (writebacks c) c.
Definition set_hits (v : Z) (c : t) : t :=
  set_counters (next_insertion_order c) (access_counter c) v (misses c)
    (writes c) (write_hits c) (write_misses c) (writebacks c) c.
Definition set_misses (v : Z) (c : t) : t :=
  set_counters (next_insertion_order c) (access_counter c) (hits c) v
    (writes c) (write_hits c) (write_misses c) (writebacks c) c.
Definition set_writes (v : Z) (c : t) : t :=
  set_counters (next_insertion_order c) (access_counter c) (hits c)
    (misses c) v (write_hits c) (write_misses c) (writebacks c) c.
Definition set_write_hits (v : Z) (c : t) : t :=
  set_counters (next_insertion_order c) (access_counter c) (hits c)
    (misses c) (writes c) v (write_misses c) (writebacks c) c.
Definition set_write_misses (v : Z) (c : t) : t :=
  set_counters (next_insertion_order c) (access_counter c) (hits c)
    (misses c) (writes c) (write_hits c) v (writebacks c) c.
Definition set_writebacks (v : Z) (c : t) : t :=
  set_counters (next_insertion_order c) (access_counter c) (hits c)
    (misses c) (writes c) (write_hits c) (write_misses c) v c.

Definition set_valid (v : bool) (l : CacheLine) : CacheLine :=
  {| valid := v; tag := tag l; dirty := dirty l;
     insertion_order := insertion_order l;
     last_access_time := last_access_time l |}.
Definition set_tag (v : Z) (l : CacheLine) : CacheLine :=
  {| valid := valid l; tag := v; dirty := dirty l;
     insertion_order := insertion_order l;
     last_access_time := last_access_time l |}.
Definition set_dirty (v : bool) (l : CacheLine) : CacheLine :=
  {| valid := valid l; tag := tag l; dirty := v;
     insertion_order := insertion_order l;
     last_access_time := last_access_time l |}.
Definition set_insertion_order (v : Z) (l : CacheLine) : CacheLine :=
  {| valid := valid l; tag := tag l; dirty := dirty l;
     insertion_order := v;
     last_access_time := last_access_time l |}.
Definition set_last_access_time (v : Z) (l : CacheLine) : CacheLine :=
  {| valid := valid l; tag := tag l; dirty := dirty l;
     insertion_order := insertion_order l;
     last_access_time := v |}.

(** [cache[set_index][way]], read and written in place. *)
Definition line_at (c : t) (set_index way : Z) : option CacheLine :=
  vget (cache c) set_index ≫= λ row, vget row way.

Definition alter_line (f : CacheLine → CacheLine) (set_index way : Z)
    (c : t) : t :=
  set_cache (valter (valter f way) set_index (cache c)) c.

(** A field of [cache[set_index][way]]; the default stands for the
    undefined out-of-range read. *)
Definition line_field {A} (f : CacheLine → A) (d : A) (c : t)
    (set_index way : Z) : A :=
  from_option f d (line_at c set_index way).

(** [int Cache::getSetIndex(size_t address)] *)
Definition getSetIndex (c : t) (address : Z) : Z :=
  let block_number := address / wrap64 (block_size c) in
  to_int (block_number mod wrap64 (num_sets c)).

(** [size_t Cache::getTag(size_t address)] *)
Definition getTag (c : t) (address : Z) : Z :=
  let block_number := address / wrap64 (block_size c) in
  block_number / wrap64 (num_sets c).

(** The running minimum kept by the two victim scans: the loop over
    [way = 1 .. ways-1] replaces the candidate on a strictly smaller key. *)
Definition scan_min (key : Z → Z) (ways : Z) : Z :=
  fst (fold_left
         (λ (acc : Z * Z) way,
            if key way <? snd acc then (way, key way) else acc)
         (zrange 1 ways) (0, key 0)).

(** [int Cache::findFIFOVictimInSet(int set_index)] *)
Definition findFIFOVictimInSet (c : t) (set_index : Z) : Z :=
  scan_min (line_field insertion_order 0 c set_index) (ways c).

(** [int Cache::findLRUVictimInSet(int set_index)] *)
Definition findLRUVictimInSet (c : t) (set_index : Z) : Z :=
  scan_min (line_field last_access_time 0 c set_index) (ways c).

(** [int Cache::findVictimInSet(int set_index)] *)
Definition findVictimInSet (c : t) (set_index : Z) : Z :=
  match find (λ way, negb (line_field valid false c set_index way))
             (zrange 0 (ways c)) with
  | Some way => way
  | None =>
      match replacement_policy c with
      | FIFO => findFIFOVictimInSet c set_index
      | LRU => findLRUVictimInSet c set_index
      end
  end.

(** The hit test of [read], [write], [insert] and [evict]: the first way
    of the set whose line is valid and carries the tag. *)
Definition line_hit (tg : Z) (l : CacheLine) : bool :=
  valid l && (tag l =? tg).

Definition find_hit (c : t) (set_index tg : Z) : option Z :=
  find (λ way, line_field (line_hit tg) false c set_index way)
       (zrange 0 (ways c)).

(** The constructor. *)
Definition new (cache_name : string) (total_lines blk_size : Z)
    (assoc : AssociativityType) (repl_pol : ReplacementPolicy)
    (wr_pol : WritePolicy) : t :=
  let '(w, n) :=
    match assoc with
    | DIRECT_MAPPED => (1, total_lines)
    | TWO_WAY => (2, Z.quot total_lines 2)
    | FOUR_WAY => (4, Z.quot total_lines 4)
    | FULLY_ASSOCIATIVE => (total_lines, 1)
    end in
  {| name := cache_name; capacity := total_lines; block_size := blk_size;
     associativity := assoc; replacement_policy := repl_pol;
     write_policy := wr_pol; num_sets := n; ways := w;
     cache := replicate (Z.to_nat n) (replicate (Z.to_nat w) CacheLine_new);
     next_insertion_order := 0; access_counter := 0;
     hits := 0; misses := 0; writes := 0; write_hits := 0;
     write_misses := 0; writebacks := 0 |}.

(** [bool Cache::read(size_t address)] *)
Definition read (c : t) (address : Z) : t * bool :=
  let c := set_access_counter (access_counter c + 1) c in
  let set_index := getSetIndex c address in
  let tg := getTag c address in
  match find_hit c set_index tg with
  | Some way =>
      let c := set_hits (hits c + 1) c in
      let c :=
        if is_LRU (replacement_policy c)
        then alter_line (set_last_access_time (access_counter c))
               set_index way c
        else c in
      (c, true)
  | None => (set_misses (misses c + 1) c, false)
  end.

(** The replacement step shared by the miss paths of [write] and
    [insert]: count a writeback when the victim is valid, dirty and the
    level is write-back. *)
Definition count_victim_writeback (set_index victim_way : Z) (c : t) : t :=
  if line_field valid false c set_index victim_way
     && line_field dirty false c set_index victim_way
     && is_WB (write_policy c)
  then set_writebacks (writebacks c + 1) c
  else c.

(** [bool Cache::write(size_t address)] *)
Definition write (c : t) (address : Z) : t * bool :=
  let c := set_access_counter (access_counter c + 1) c in
  let c := set_writes (writes c + 1) c in
  let set_index := getSetIndex c address in
  let tg := getTag c address in
  match find_hit c set_index tg with
  | Some way =>
      let c := set_write_hits (write_hits c + 1) c in
      let c := set_hits (hits c + 1) c in
      let c :=
        if is_LRU (replacement_policy c)
        then alter_line (set_last_access_time (access_counter c))
               set_index way c
        else c in
      let c :=
        if is_WB (write_policy c)
        then alter_line (set_dirty true) set_index way c
        else c in
      (c, true)
  | None =>
      let c := set_write_misses (write_misses c + 1) c in
      let c := set_misses (misses c + 1) c in
      let victim_way := findVictimInSet c set_index in
      let c := count_victim_writeback set_index victim_way c in
      let c := alter_line (set_valid true) set_index victim_way c in
      let c := alter_line (set_tag tg) set_index victim_way c in
      let c := alter_line (set_insertion_order (next_insertion_order c))
                 set_index victim_way c in
      let c := set_next_insertion_order (next_insertion_order c + 1) c in
      let c := alter_line (set_last_access_time (access_counter c))
                 set_index victim_way c in
      let c := alter_line (set_dirty (is_WB (write_policy c)))
                 set_index victim_way c in
      (c, false)
  end.

(** [void Cache::insert(size_t address, bool is_dirty)] *)
Definition insert (c : t) (address : Z) (is_dirty : bool) : t :=
  let set_index := getSetIndex c address in
  let tg := getTag c address in
  let actual_dirty := if is_WB (write_policy c) then is_dirty else false in
  match find_hit c set_index tg with
  | Some way =>
      let c :=
        if is_LRU (replacement_policy c)
        then
          let c := set_access_counter (access_counter c + 1) c in
          alter_line (set_last_access_time (access_counter c))
            set_index way c
        else c in
      if actual_dirty then alter_line (set_dirty true) set_index way c
      else c
  | None =>
      let victim_way := findVictimInSet c set_index in
      let c := count_victim_writeback set_index victim_way c in
      let c := alter_line (set_valid true) set_index victim_way c in
      let c := alter_line (set_tag tg) set_index victim_way c in
      let c := alter_line (set_dirty actual_dirty) set_index victim_way c in
      let c := alter_line (set_insertion_order (next_insertion_order c))
                 set_index victim_way c in
      let c := set_next_insertion_order (next_insertion_order c + 1) c in
      let c := set_access_counter (access_counter c + 1) c in
      alter_line (set_last_access_time (access_counter c))
        set_index victim_way c
  end.

(** [bool Cache::evict(size_t address, bool& was_dirty)]; the result is
    the new state, the returned flag and the value left in [was_dirty]. *)
Definition evict (c : t) (address : Z) : t * bool * bool :=
  let set_index := getSetIndex c address in
  let tg := getTag c address in
  match find_hit c set_index tg with
  | Some way =>
      let was_dirty := line_field dirty false c set_index way in
      let c := alter_line (set_valid false) set_index way c in
      let c := alter_line (set_dirty false) set_index way c in
      let c :=
        if was_dirty && is_WB (write_policy c)
        then set_writebacks (writebacks c + 1) c
        else c in
      (c, true, was_dirty)
  | None => (c, false, false)
  end.

(** [void Cache::clear()]: the two nested loops run over
    [set < num_sets] and [way < ways]. *)
Definition clear (c : t) : t :=
  let invalidate c sw :=
    alter_line (set_dirty false) sw.1 sw.2
      (alter_line (set_valid false) sw.1 sw.2 c) in
  let c :=
    fold_left invalidate
      (s ← zrange 0 (num_sets c); (λ w, (s, w)) <$> zrange 0 (ways c)) c in
  set_counters 0 0 0 0 0 0 0 0 c.

Definition getWritePolicy (c : t) : WritePolicy := write_policy c.
Definition getWritebacks (c : t) : Z := writebacks c.
Definition getTotalAccesses (c : t) : Z := hits c + misses c.

(** Observations used to state properties: whether the level holds the
    block of an address (the hit test of the four operations), and whether
    the line that holds it is dirty. *)
Definition holds (c : t) (address : Z) : bool :=
  bool_decide (is_Some (find_hit c (getSetIndex c address) (getTag c address))).

Definition holds_dirty (c : t) (address : Z) : bool :=
  match find_hit c (getSetIndex c address) (getTag c address) with
  | Some way => line_field dirty false c (getSetIndex c address) way
  | None => false
  end.

(** The public operations that change a level, as a command language. *)
Inductive op :=
| Read (address : Z)
| Write (address : Z)
| Insert (address : Z) (is_dirty : bool)
| Evict (address : Z)
| Clear.

Definition step (c : t) (o : op) : t :=
  match o with
  | Read a => fst (read c a)
  | Write a => fst (write c a)
  | Insert a d => insert c a d
  | Evict a => fst (fst (evict c a))
  | Clear => clear c
  end.

Definition run (c : t) (ops : list op) : t := fold_left step ops c.

End Cache.

(** ** Cache hierarchy *)

Module CacheHierarchy.

Import Cache.

(** The pointers [l2] and [l3] are null exactly when [has_l2] and [has_l3]
    are false (the constructor sets both together and nothing changes them
    afterwards), so a level is an [option] and the flag is its presence. *)
Record t := {
  l1 : Cache.t;
  l2 : option Cache.t;
  l3 : option Cache.t;
  total_accesses : Z;
  total_reads : Z;
  total_writes : Z;
  l1_hits : Z;
  l2_hits : Z;
  l3_hits : Z;
  memory_accesses : Z;
  memory_writes : Z;
  l1_penalty : Z;
  l2_penalty : Z;
  l3_penalty : Z;
  memory_penalty : Z;
  total_penalty_cycles : Z
}.

Definition has_l2 (h : t) : bool := bool_decide (is_Some (l2 h)).
Definition has_l3 (h : t) : bool := bool_decide (is_Some (l3 h)).

Definition set_levels (a : Cache.t) (b c : option Cache.t) (h : t) : t :=
  {| l1 := a; l2 := b; l3 := c;
     total_accesses := total_accesses h; total_reads := total_reads h;
     total_writes := total_writes h; l1_hits := l1_hits h;
     l2_hits := l2_hits h; l3_hits := l3_hits h;
     memory_accesses := memory_accesses h; memory_writes := memory_writes h;
     l1_penalty := l1_penalty h; l2_penalty := l2_penalty h;
     l3_penalty := l3_penalty h; memory_penalty := memory_penalty h;
     total_penalty_cycles := total_penalty_cycles h |}.

Definition set_stats (ta tr tw h1 h2 h3 ma mw tpc : Z) (h : t) : t :=
  {| l1 := l1 h; l2 := l2 h; l3 := l3 h;
     total_accesses := ta; total_reads := tr; total_writes := tw;
     l1_hits := h1; l2_hits := h2; l3_hits := h3;
     memory_accesses := ma; memory_writes := mw;
     l1_penalty := l1_penalty h; l2_penalty := l2_penalty h;
     l3_penalty := l3_penalty h; memory_penalty := memory_penalty h;
     total_penalty_cycles := tpc |}.

Definition set_l1 (c : Cache.t) (h : t) : t := set_levels c (l2 h) (l3 h) h.
Definition set_l2 (c : Cache.t) (h : t) : t :=
  set_levels (l1 h) (Some c) (l3 h) h.
Definition set_l3 (c : Cache.t) (h : t) : t :=
  set_levels (l1 h) (l2 h) (Some c) h.

Definition set_total_accesses (v : Z) (h : t) : t :=
  set_stats v (total_reads h) (total_writes h) (l1_hits h) (l2_hits h)
    (l3_hits h) (memory_accesses h) (memory_writes h)
    (total_penalty_cycles h) h.
Definition set_total_reads (v : Z) (h : t) : t :=
  set_stats (total_accesses h) v (total_writes h) (l1_hits h) (l2_hits h)
    (l3_hits h) (memory_accesses h) (memory_writes h)
    (total_penalty_cycles h) h.
Definition set_total_writes (v : Z) (h : t) : t :=
  set_stats (total_accesses h) (total_reads h) v (l1_hits h) (l2_hits h)
    (l3_hits h) (memory_accesses h) (memory_writes h)
    (total_penalty_cycles h) h.
Definition set_l1_hits (v : Z) (h : t) : t :=
  set_stats (total_accesses h) (total_reads h) (total_writes h) v
    (l2_hits h) (l3_hits h) (memory_accesses h) (memory_writes h)
    (total_penalty_cycles h) h.
Definition set_l2_hits (v : Z) (h : t) : t :=
  set_stats (total_accesses h) (total_reads h) (total_writes h) (l1_hits h)
    v (l3_hits h) (memory_accesses h) (memory_writes h)
    (total_penalty_cycles h) h.
Definition set_l3_hits (v : Z) (h : t) : t :=
  set_stats (total_accesses h) (total_reads h) (total_writes h) (l1_hits h)
    (l2_hits h) v (memory_accesses h) (memory_writes h)
    (total_penalty_cycles h) h.
Definition set_memory_accesses (v : Z) (h : t) : t :=
  set_stats (total_accesses h) (total_reads h) (total_writes h) (l1_hits h)
    (l2_hits h) (l3_hits h) v (memory_writes h) (total_penalty_cycles h) h.
Definition set_memory_writes (v : Z) (h : t) : t :=
  set_stats (total_accesses h) (total_reads h) (total_writes h) (l1_hits h)
    (l2_hits h) (l3_hits h) (memory_accesses h) v (total_penalty_cycles h) h.
Definition set_total_penalty_cycles (v : Z) (h : t) : t :=
  set_stats (total_accesses h) (total_reads h) (total_writes h) (l1_hits h)
    (l2_hits h) (l3_hits h) (memory_accesses h) (memory_writes h) v h.

(** The constructor: L1 always, L2 and L3 when their line count is
    positive; the four penalties are the constants 1, 10, 50 and 100. *)
Definition new
    (l1_lines l1_block : Z) (l1_assoc : AssociativityType)
    (l1_repl : ReplacementPolicy) (l1_write : WritePolicy)
    (l2_lines l2_block : Z) (l2_assoc : AssociativityType)
    (l2_repl : ReplacementPolicy) (l2_write : WritePolicy)
    (l3_lines l3_block : Z) (l3_assoc : AssociativityType)
    (l3_repl : ReplacementPolicy) (l3_write : WritePolicy) : t :=
  {| l1 := Cache.new "L1" l1_lines l1_block l1_assoc l1_repl l1_write;
     l2 := if 0 <? l2_lines
           then Some (Cache.new "L2" l2_lines l2_block l2_assoc l2_repl
                        l2_write)
           else None;
     l3 := if 0 <? l3_lines
           then Some (Cache.new "L3" l3_lines l3_block l3_assoc l3_repl
                        l3_write)
           else None;
     total_accesses := 0; total_reads := 0; total_writes := 0;
     l1_hits := 0; l2_hits := 0; l3_hits := 0;
     memory_accesses := 0; memory_writes := 0;
     l1_penalty := 1; l2_penalty := 10; l3_penalty := 50;
     memory_penalty := 100; total_penalty_cycles := 0 |}.

(** [if (has_lN) lN->insert(address, is_dirty)] on an optional level. *)
Definition insert_opt (o : option Cache.t) (address : Z) (is_dirty : bool)
    : option Cache.t :=
  (λ c, Cache.insert c address is_dirty) <$> o.

(** The last two statements of [read] and [write] on the path through
    main memory: [total_penalty_cycles += penalty; return true]. *)
Definition finish (penalty : Z) (h : t) : t * bool :=
  (set_total_penalty_cycles (total_penalty_cycles h + penalty) h, true).

(** [bool CacheHierarchy::read(size_t address, bool verbose)];
    [verbose] only selects what is printed. *)
Definition read (h : t) (address : Z) (verbose : bool) : t * bool :=
  let h := set_total_accesses (total_accesses h + 1) h in
  let h := set_total_reads (total_reads h + 1) h in
  let penalty := 0 in
  (* Step 1: try L1 *)
  let '(c1, hit1) := Cache.read (l1 h) address in
  let h := set_l1 c1 h in
  if hit1 then
    let h := set_l1_hits (l1_hits h + 1) h in
    let penalty := 1 in
    (set_total_penalty_cycles (total_penalty_cycles h + penalty) h, false)
  else
  let penalty := penalty + l1_penalty h in
  (* Step 3 and step 4, entered after L2 is absent or has missed *)
  let from_l3 (h : t) (penalty : Z) : t * bool :=
    let memory (h : t) (penalty : Z) : t * bool :=
      let h := set_memory_accesses (memory_accesses h + 1) h in
      let penalty := penalty + memory_penalty h in
      let h := set_levels (l1 h) (l2 h) (insert_opt (l3 h) address false) h in
      let h := set_levels (l1 h) (insert_opt (l2 h) address false) (l3 h) h in
      let h := set_l1 (Cache.insert (l1 h) address false) h in
      finish penalty h in
    match l3 h with
    | Some c3 =>
        let '(c3, hit3) := Cache.read c3 address in
        let h := set_l3 c3 h in
        if hit3 then
          let h := set_l3_hits (l3_hits h + 1) h in
          let penalty := penalty + 50 in
          let h :=
            set_levels (l1 h) (insert_opt (l2 h) address false) (l3 h) h in
          let h := set_l1 (Cache.insert (l1 h) address false) h in
          (set_total_penalty_cycles (total_penalty_cycles h + penalty) h,
           false)
        else memory h (penalty + l3_penalty h)
    | None => memory h penalty
    end in
  (* Step 2: try L2 *)
  match l2 h with
  | Some c2 =>
      let '(c2, hit2) := Cache.read c2 address in
      let h := set_l2 c2 h in
      if hit2 then
        let h := set_l2_hits (l2_hits h + 1) h in
        let penalty := penalty + 10 in
        let h := set_l1 (Cache.insert (l1 h) address false) h in
        (set_total_penalty_cycles (total_penalty_cycles h + penalty) h,
         false)
      else from_l3 h (penalty + l2_penalty h)
  | None => from_l3 h penalty
  end.

(** [bool CacheHierarchy::write(size_t address, bool verbose)] *)
Definition write (h : t) (address : Z) (verbose : bool) : t * bool :=
  let h := set_total_accesses (total_accesses h + 1) h in
  let h := set_total_writes (total_writes h + 1) h in
  let penalty := 0 in
  (* "For write-through, every write goes to memory immediately" *)
  let write_through (h : t) : t :=
    if is_WB (Cache.getWritePolicy (l1 h)) then h
    else set_memory_writes (memory_writes h + 1) h in
  (* Step 1: try L1 *)
  let '(c1, hit1) := Cache.write (l1 h) address in
  let h := set_l1 c1 h in
  if hit1 then
    let h := set_l1_hits (l1_hits h + 1) h in
    let penalty := 1 in
    let h := write_through h in
    (set_total_penalty_cycles (total_penalty_cycles h + penalty) h, false)
  else
  let penalty := penalty + l1_penalty h in
  let from_l3 (h : t) (penalty : Z) : t * bool :=
    let memory (h : t) (penalty : Z) : t * bool :=
      (* Step 4: memory access (write-allocate policy) *)
      let h := set_memory_accesses (memory_accesses h + 1) h in
      let penalty := penalty + memory_penalty h in
      let is_write_through := negb (is_WB (Cache.getWritePolicy (l1 h))) in
      let h := write_through h in
      let mark_dirty := negb is_write_through in
      let h :=
        set_levels (l1 h) (l2 h) (insert_opt (l3 h) address mark_dirty) h in
      let h :=
        set_levels (l1 h) (insert_opt (l2 h) address mark_dirty) (l3 h) h in
      let h := set_l1 (Cache.insert (l1 h) address mark_dirty) h in
      finish penalty h in
    (* Step 3: try L3 *)
    match l3 h with
    | Some c3 =>
        let '(c3, hit3) := Cache.write c3 address in
        let h := set_l3 c3 h in
        if hit3 then
          let h := set_l3_hits (l3_hits h + 1) h in
          let penalty := penalty + 50 in
          let is_write_through :=
            negb (is_WB (Cache.getWritePolicy (l1 h))) in
          let h := write_through h in
          let mark_dirty := negb is_write_through in
          let h :=
            set_levels (l1 h) (insert_opt (l2 h) address mark_dirty) (l3 h)
              h in
          let h := set_l1 (Cache.insert (l1 h) address mark_dirty) h in
          (set_total_penalty_cycles (total_penalty_cycles h + penalty) h,
           false)
        else memory h (penalty + l3_penalty h)
    | None => memory h penalty
    end in
  (* Step 2: try L2 *)
  match l2 h with
  | Some c2 =>
      let '(c2, hit2) := Cache.write c2 address in
      let h := set_l2 c2 h in
      if hit2 then
        let h := set_l2_hits (l2_hits h + 1) h in
        let penalty := penalty + 10 in
        let h := write_through h in
        let h :=
          set_l1 (Cache.insert (l1 h) address
                    (is_WB (Cache.getWritePolicy (l1 h)))) h in
        (set_total_penalty_cycles (total_penalty_cycles h + penalty) h,
         false)
      else from_l3 h (penalty + l2_penalty h)
  | None => from_l3 h penalty
  end.

(** Observations used to state properties: level [k] of the hierarchy,
    and the topmost level that holds the block of an address, if any. *)
Definition level (k : nat) (h : t) : option Cache.t :=
  match k with
  | 1%nat => Some (l1 h)
  | 2%nat => l2 h
  | 3%nat => l3 h
  | _ => None
  end.

Definition holds_opt (o : option Cache.t) (address : Z) : bool :=
  from_option (λ c, Cache.holds c address) false o.

Definition hit_level (h : t) (address : Z) : option nat :=
  if Cache.holds (l1 h) address then Some 1%nat
  else if holds_opt (l2 h) address then Some 2%nat
  else if holds_opt (l3 h) address then Some 3%nat
  else None.

(** [bool CacheHierarchy::access(size_t address, bool verbose)] *)
Definition access (h : t) (address : Z) (verbose : bool) : t * bool :=
  read h address verbose.

(** [void CacheHierarchy::clearAll()] *)
Definition clearAll (h : t) : t :=
  let h := set_levels (Cache.clear (l1 h)) (Cache.clear <$> l2 h)
             (Cache.clear <$> l3 h) h in
  set_stats 0 0 0 0 0 0 0 0 0 h.

End CacheHierarchy.

(** ** Virtual memory *)

Module VirtualMemorySimulator.

Inductive PageReplacementPolicy := FIFO | LRU.

Record PageTableEntry := {
  valid : bool;
  frame_number : Z;
  dirty : bool;
  last_access_time : Z;
  load_time : Z;
  access_count : Z
}.

(** [PageTableEntry()] *)
Definition PageTableEntry_new : PageTableEntry :=
  {| valid := false; frame_number := -1; dirty := false;
     last_access_time := 0; load_time := 0; access_count := 0 |}.

Record t := {
  virtual_memory_size : Z;
  physical_memory_size : Z;
  page_size : Z;
  num_virtual_pages : Z;
  num_physical_frames : Z;
  policy : PageReplacementPolicy;
  page_table : list PageTableEntry;
  frame_to_page : list Z;
  frame_used : list bool;
  page_faults : Z;
  page_hits : Z;
  total_accesses : Z;
  disk_reads : Z;
  disk_writes : Z;
  current_time : Z;
  verbose : bool
}.

Definition set_tables (pt : list PageTableEntry) (ftp : list Z)
    (fu : list bool) (s : t) : t :=
  {| virtual_memory_size := virtual_memory_size s;
     physical_memory_size := physical_memory_size s;
     page_size := page_size s; num_virtual_pages := num_virtual_pages s;
     num_physical_frames := num_physical_frames s; policy := policy s;
     page_table := pt; frame_to_page := ftp; frame_used := fu;
     page_faults := page_faults s; page_hits := page_hits s;
     total_accesses := total_accesses s; disk_reads := disk_reads s;
     disk_writes := disk_writes s; current_time := current_time s;
     verbose := verbose s |}.

Definition set_stats (pf ph ta dr dw ct : Z) (s : t) : t :=
  {| virtual_memory_size := virtual_memory_size s;
     physical_memory_size := physical_memory_size s;
     page_size := page_size s; num_virtual_pages := num_virtual_pages s;
     num_physical_frames := num_physical_frames s; policy := policy s;
     page_table := page_table s; frame_to_page := frame_to_page s;
     frame_used := frame_used s;
     page_faults := pf; page_hits := ph; total_accesses := ta;
     disk_reads := dr; disk_writes := dw; current_time := ct;
     verbose := verbose s |}.

Definition set_mode (p : PageReplacementPolicy) (v : bool) (s : t) : t :=
  {| virtual_memory_size := virtual_memory_size s;
     physical_memory_size := physical_memory_size s;
     page_size := page_size s; num_virtual_pages := num_virtual_pages s;
     num_physical_frames := num_physical_frames s; policy := p;
     page_table := page_table s; frame_to_page := frame_to_page s;
     frame_used := frame_used s;
     page_faults := page_faults s; page_hits := page_hits s;
     total_accesses := total_accesses s; disk_reads := disk_reads s;
     disk_writes := disk_writes s; current_time := current_time s;
     verbose := v |}.

Definition set_page_table (v : list PageTableEntry) (s : t) : t :=
  set_tables v (frame_to_page s) (frame_used s) s.
Definition set_frame_to_page (v : list Z) (s : t) : t :=
  set_tables (page_table s) v (frame_used s) s.
Definition set_frame_used (v : list bool) (s : t) : t :=
  set_tables (page_table s) (frame_to_page s) v s.
Definition set_page_faults (v : Z) (s : t) : t :=
  set_stats v (page_hits s) (total_accesses s) (disk_reads s)
    (disk_writes s) (current_time s) s.
Definition set_page_hits (v : Z) (s : t) : t :=
  set_stats (page_faults s) v (total_accesses s) (disk_reads s)
    (disk_writes s) (current_time s) s.
Definition set_total_accesses (v : Z) (s : t) : t :=
  set_stats (page_faults s) (page_hits s) v (disk_reads s)
    (disk_writes s) (current_time s) s.
Definition set_disk_reads (v : Z) (s : t) : t :=
  set_stats (page_faults s) (page_hits s) (total_accesses s) v
    (disk_writes s) (current_time s) s.
Definition set_disk_writes (v : Z) (s : t) : t :=
  set_stats (page_faults s) (page_hits s) (total_accesses s) (disk_reads s)
    v (current_time s) s.
Definition set_current_time (v : Z) (s : t) : t :=
  set_stats (page_faults s) (page_hits s) (total_accesses s) (disk_reads s)
    (disk_writes s) v s.

Definition set_valid (v : bool) (e : PageTableEntry) : PageTableEntry :=
  {| valid := v; frame_number := frame_number e; dirty := dirty e;
     last_access_time := last_access_time e; load_time := load_time e;
     access_count := access_count e |}.
Definition set_frame_number (v : Z) (e : PageTableEntry) : PageTableEntry :=
  {| valid := valid e; frame_number := v; dirty := dirty e;
     last_access_time := last_access_time e; load_time := load_time e;
     access_count := access_count e |}.
Definition set_dirty (v : bool) (e : PageTableEntry) : PageTableEntry :=
  {| valid := valid e; frame_number := frame_number e; dirty := v;
     last_access_time := last_access_time e; load_time := load_time e;
     access_count := access_count e |}.
Definition set_last_access_time (v : Z) (e : PageTableEntry)
    : PageTableEntry :=
  {| valid := valid e; frame_number := frame_number e; dirty := dirty e;
     last_access_time := v; load_time := load_time e;
     access_count := access_count e |}.
Definition set_load_time (v : Z) (e : PageTableEntry) : PageTableEntry :=
  {| valid := valid e; frame_number := frame_number e; dirty := dirty e;
     last_access_time := last_access_time e; load_time := v;
     access_count := access_count e |}.
Definition set_access_count (v : Z) (e : PageTableEntry) : PageTableEntry :=
  {| valid := valid e; frame_number := frame_number e; dirty := dirty e;
     last_access_time := last_access_time e; load_time := load_time e;
     access_count := v |}.

(** [page_table[page_number]] as a reference: read (a default-constructed
    entry stands for the undefined out-of-range read) and update. *)
Definition pte (s : t) (page_number : Z) : PageTableEntry :=
  default PageTableEntry_new (vget (page_table s) page_number).

Definition alter_pte (f : PageTableEntry → PageTableEntry) (page_number : Z)
    (s : t) : t :=
  set_page_table (valter f page_number (page_table s)) s.

(** The constructor. *)
Definition new (vm_size pm_size pg_size : Z) (policy_str : string) : t :=
  let pages := to_int (vm_size / pg_size) in
  let frames := to_int (pm_size / pg_size) in
  let clamp := pages <? frames in
  let frames' := if clamp then pages else frames in
  {| virtual_memory_size := vm_size;
     physical_memory_size :=
       if clamp then wrap64 (frames' * pg_size) else pm_size;
     page_size := pg_size;
     num_virtual_pages := pages;
     num_physical_frames := frames';
     policy := if String.eqb policy_str "lru" then LRU else FIFO;
     page_table := replicate (Z.to_nat pages) PageTableEntry_new;
     frame_to_page := replicate (Z.to_nat frames') (-1);
     frame_used := replicate (Z.to_nat frames') false;
     page_faults := 0; page_hits := 0; total_accesses := 0;
     disk_reads := 0; disk_writes := 0; current_time := 0;
     verbose := false |}.

(** [void setReplacementPolicy(string policy_str)] *)
Definition setReplacementPolicy (s : t) (policy_str : string) : t :=
  if String.eqb policy_str "lru" then set_mode LRU (verbose s) s
  else if String.eqb policy_str "fifo" then set_mode FIFO (verbose s) s
  else s.

(** [void setVerbose(bool v)] *)
Definition setVerbose (s : t) (v : bool) : t := set_mode (policy s) v s.

(** [int findFreeFrame()] *)
Definition findFreeFrame (s : t) : Z :=
  default (-1)
    (find (λ i, negb (default true (vget (frame_used s) i)))
          (zrange 0 (num_physical_frames s))).

(** The scan of [selectVictimPage]: over the frames in index order, keep
    the resident valid page whose key is strictly below the running
    minimum, which starts at [INT32_MAX] with no victim. *)
Definition scan_victim (key : PageTableEntry → Z) (s : t) : Z :=
  fst (fold_left
         (λ (acc : Z * Z) i,
            let page_idx := default (-1) (vget (frame_to_page s) i) in
            if negb (page_idx =? -1) && valid (pte s page_idx)
            then if key (pte s page_idx) <? snd acc
                 then (page_idx, key (pte s page_idx))
                 else acc
            else acc)
         (zrange 0 (num_physical_frames s)) (-1, INT32_MAX)).

(** [int selectVictimPage()] *)
Definition selectVictimPage (s : t) : Z :=
  match policy s with
  | FIFO => scan_victim load_time s
  | LRU => scan_victim last_access_time s
  end.

(** [int evictPage(int page_number)]: the new state and the freed frame.
    [disk_writes] is incremented inside the [verbose] block and again
    after it. *)
Definition evictPage (s : t) (page_number : Z) : t * Z :=
  if negb (valid (pte s page_number)) then (s, -1)
  else
    let frame := frame_number (pte s page_number) in
    let s :=
      if verbose s
      then if dirty (pte s page_number)
           then set_disk_writes (disk_writes s + 1) s
           else s
      else s in
    let s :=
      if dirty (pte s page_number)
      then set_disk_writes (disk_writes s + 1) s
      else s in
    let s := alter_pte (set_valid false) page_number s in
    let s := alter_pte (set_frame_number (-1)) page_number s in
    let s := alter_pte (set_dirty false) page_number s in
    let s := set_frame_to_page (valter (λ _, -1) frame (frame_to_page s)) s in
    let s := set_frame_used (valter (λ _, false) frame (frame_used s)) s in
    (s, frame).

(** [void loadPage(int page_number, int frame_number)] *)
Definition loadPage (s : t) (page_number frame : Z) : t :=
  let s := set_disk_reads (disk_reads s + 1) s in
  let s := alter_pte (set_valid true) page_number s in
  let s := alter_pte (set_frame_number frame) page_number s in
  let s := alter_pte (set_dirty false) page_number s in
  let s := alter_pte (set_load_time (current_time s)) page_number s in
  let s := alter_pte (set_last_access_time (current_time s)) page_number s in
  let s :=
    alter_pte (λ e, set_access_count (access_count e + 1) e) page_number s in
  let s :=
    set_frame_to_page (valter (λ _, page_number) frame (frame_to_page s)) s in
  set_frame_used (valter (λ _, true) frame (frame_used s)) s.

(** [void handlePageFault(int page_number)] *)
Definition handlePageFault (s : t) (page_number : Z) : t :=
  let free_frame := findFreeFrame s in
  if free_frame =? -1 then
    let victim_page := selectVictimPage s in
    if victim_page =? -1 then s
    else
      let '(s, free_frame) := evictPage s victim_page in
      loadPage s page_number free_frame
  else loadPage s page_number free_frame.

(** [size_t translateAddress(size_t virtual_address)]; the failure value
    [-1] is the [size_t] 2^64 - 1. *)
Definition translateAddress (s : t) (virtual_address : Z) : t * Z :=
  let s := set_total_accesses (total_accesses s + 1) s in
  let s := set_current_time (current_time s + 1) s in
  if virtual_memory_size s <=? virtual_address then (s, wrap64 (-1))
  else
    let page_number := to_int (virtual_address / page_size s) in
    let offset := to_int (virtual_address mod page_size s) in
    if valid (pte s page_number) then
      let s := set_page_hits (page_hits s + 1) s in
      let s :=
        alter_pte (set_last_access_time (current_time s)) page_number s in
      let s :=
        alter_pte (λ e, set_access_count (access_count e + 1) e)
          page_number s in
      (s, wrap64 (frame_number (pte s page_number) * page_size s + offset))
    else
      let s := set_page_faults (page_faults s + 1) s in
      let s := handlePageFault s page_number in
      (s, wrap64 (frame_number (pte s page_number) * page_size s + offset)).

(** [void access(size_t virtual_address)] *)
Definition access (s : t) (virtual_address : Z) : t :=
  fst (translateAddress s virtual_address).

(** [void clearStats()] *)
Definition clearStats (s : t) : t := set_stats 0 0 0 0 0 0 s.

(** [void reset()] *)
Definition reset (s : t) : t :=
  let s :=
    fold_left (λ s i, alter_pte (λ _, PageTableEntry_new) i s)
      (zrange 0 (num_virtual_pages s)) s in
  let s :=
    fold_left
      (λ s i,
         set_frame_used (valter (λ _, false) i (frame_used s))
           (set_frame_to_page (valter (λ _, -1) i (frame_to_page s)) s))
      (zrange 0 (num_physical_frames s)) s in
  clearStats s.

(** The public operations, as a command language. *)
Inductive op :=
| TranslateAddress (virtual_address : Z)
| Access (virtual_address : Z)
| SetReplacementPolicy (policy_str : string)
| SetVerbose (v : bool)
| ClearStats
| Reset.

Definition step (s : t) (o : op) : t :=
  match o with
  | TranslateAddress va => fst (translateAddress s va)
  | Access va => access s va
  | SetReplacementPolicy p => setReplacementPolicy s p
  | SetVerbose v => setVerbose s v
  | ClearStats => clearStats s
  | Reset => reset s
  end.

Definition run (s : t) (ops : list op) : t := fold_left step ops s.

End VirtualMemorySimulator.

(** ** Contiguous free-list allocator *)

Module MemoryManager.

Record MemoryBlock := {
  start_address : Z;
  size : Z;
  is_allocated : bool;
  block_id : Z
}.

Inductive AllocationStrategy := FIRST_FIT | BEST_FIT | WORST_FIT.

(** The doubly linked list that starts at [head] is the list of its
    blocks in link order; a block pointer is a position in that list. *)
Record t := {
  total_memory : Z;
  head : list MemoryBlock;
  strategy : AllocationStrategy;
  next_block_id : Z;
  allocation_attempts : Z;
  allocation_successes : Z;
  allocation_failures : Z
}.

Definition set_head (v : list MemoryBlock) (m : t) : t :=
  {| total_memory := total_memory m; head := v; strategy := strategy m;
     next_block_id := next_block_id m;
     allocation_attempts := allocation_attempts m;
     allocation_successes := allocation_successes m;
     allocation_failures := allocation_failures m |}.
Definition set_strategy (v : AllocationStrategy) (m : t) : t :=
  {| total_memory := total_memory m; head := head m; strategy := v;
     next_block_id := next_block_id m;
     allocation_attempts := allocation_attempts m;
     allocation_successes := allocation_successes m;
     allocation_failures := allocation_failures m |}.
Definition set_next_block_id (v : Z) (m : t) : t :=
  {| total_memory := total_memory m; head := head m; strategy := strategy m;
     next_block_id := v;
     allocation_attempts := allocation_attempts m;
     allocation_successes := allocation_successes m;
     allocation_failures := allocation_failures m |}.
Definition set_allocation_attempts (v : Z) (m : t) : t :=
  {| total_memory := total_memory m; head := head m; strategy := strategy m;
     next_block_id := next_block_id m;
     allocation_attempts := v;
     allocation_successes := allocation_successes m;
     allocation_failures := allocation_failures m |}.
Definition set_allocation_successes (v : Z) (m : t) : t :=
  {| total_memory := total_memory m; head := head m; strategy := strategy m;
     next_block_id := next_block_id m;
     allocation_attempts := allocation_attempts m;
     allocation_successes := v;
     allocation_failures := allocation_failures m |}.
Definition set_allocation_failures (v : Z) (m : t) : t :=
  {| total_memory := total_memory m; head := head m; strategy := strategy m;
     next_block_id := next_block_id m;
     allocation_attempts := allocation_attempts m;
     allocation_successes := allocation_successes m;
     allocation_failures := v |}.

(** [MemoryManager(size_t size)] *)
Definition new (sz : Z) : t :=
  {| total_memory := sz;
     head := [ {| start_address := 0; size := sz; is_allocated := false;
                  block_id := -1 |} ];
     strategy := FIRST_FIT; next_block_id := 1;
     allocation_attempts := 0; allocation_successes := 0;
     allocation_failures := 0 |}.

(** The test [!current->is_allocated && current->size >= size]. *)
Definition fits (sz : Z) (b : MemoryBlock) : bool :=
  negb (is_allocated b) && (sz <=? size b).

(** [findBlockFirstFit]: the position of the first fitting block. *)
Fixpoint findBlockFirstFit_from (i : nat) (l : list MemoryBlock) (sz : Z)
    : option nat :=
  match l with
  | [] => None
  | current :: rest =>
      if fits sz current then Some i
      else findBlockFirstFit_from (S i) rest sz
  end.

Definition findBlockFirstFit (m : t) (sz : Z) : option nat :=
  findBlockFirstFit_from 0 (head m) sz.

(** [findBlockBestFit]: [min_diff] starts at [total_memory + 1] and a
    block replaces [best] on a strictly smaller difference. *)
Fixpoint findBlockBestFit_from (i : nat) (l : list MemoryBlock) (sz : Z)
    (best : option nat) (min_diff : Z) : option nat :=
  match l with
  | [] => best
  | current :: rest =>
      if fits sz current && (size current - sz <? min_diff)
      then findBlockBestFit_from (S i) rest sz (Some i) (size current - sz)
      else findBlockBestFit_from (S i) rest sz best min_diff
  end.

Definition findBlockBestFit (m : t) (sz : Z) : option nat :=
  findBlockBestFit_from 0 (head m) sz None (wrap64 (total_memory m + 1)).

(** [findBlockWorstFit]: [max_size] starts at 0 and a block replaces
    [worst] on a strictly larger size. *)
Fixpoint findBlockWorstFit_from (i : nat) (l : list MemoryBlock) (sz : Z)
    (worst : option nat) (max_size : Z) : option nat :=
  match l with
  | [] => worst
  | current :: rest =>
      if fits sz current && (max_size <? size current)
      then findBlockWorstFit_from (S i) rest sz (Some i) (size current)
      else findBlockWorstFit_from (S i) rest sz worst max_size
  end.

Definition findBlockWorstFit (m : t) (sz : Z) : option nat :=
  findBlockWorstFit_from 0 (head m) sz None 0.

(** [splitBlock(block, size)]: when the block is larger than the request
    it keeps [size] bytes and a free block with the remainder is linked in
    after it.  The result is what stands in the list in place of [block]. *)
Definition splitBlock (b : MemoryBlock) (sz : Z) : list MemoryBlock :=
  if sz <? size b
  then [ {| start_address := start_address b; size := sz;
            is_allocated := is_allocated b; block_id := block_id b |};
         {| start_address := wrap64 (start_address b + sz);
            size := size b - sz; is_allocated := false; block_id := -1 |} ]
  else [ b ].

Definition mark_allocated (id : Z) (b : MemoryBlock) : MemoryBlock :=
  {| start_address := start_address b; size := size b;
     is_allocated := true; block_id := id |}.

(** [allocate] on the block found at position [i]: [splitBlock], then
    [block->is_allocated = true; block->block_id = next_block_id]. *)
Definition split_and_mark (i : nat) (sz id : Z) (l : list MemoryBlock)
    : list MemoryBlock :=
  match l !! i with
  | Some b =>
      take i l
      ++ match splitBlock b sz with
         | b' :: tl => mark_allocated id b' :: tl
         | [] => []
         end
      ++ drop (S i) l
  | None => l
  end.

(** [coalesceBlocks()]: [current] absorbs its successor while both are
    free and only moves on when they are not. *)
Fixpoint coalesce_from (current : MemoryBlock) (rest : list MemoryBlock)
    : list MemoryBlock :=
  match rest with
  | [] => [ current ]
  | nextBlock :: rest' =>
      if negb (is_allocated current) && negb (is_allocated nextBlock)
      then
        coalesce_from
          {| start_address := start_address current;
             size := wrap64 (size current + size nextBlock);
             is_allocated := is_allocated current;
             block_id := block_id current |}
          rest'
      else current :: coalesce_from nextBlock rest'
  end.

Definition coalesceBlocks (l : list MemoryBlock) : list MemoryBlock :=
  match l with
  | [] => []
  | current :: rest => coalesce_from current rest
  end.

(** [void setStrategy(AllocationStrategy s)] *)
Definition setStrategy (m : t) (s : AllocationStrategy) : t :=
  set_strategy s m.

(** The [switch (strategy)] of [allocate]. *)
Definition find_block (m : t) (sz : Z) : option nat :=
  match strategy m with
  | FIRST_FIT => findBlockFirstFit m sz
  | BEST_FIT => findBlockBestFit m sz
  | WORST_FIT => findBlockWorstFit m sz
  end.

(** [int allocate(size_t size)]: the new state and the block id, or -1. *)
Definition allocate (m : t) (sz : Z) : t * Z :=
  let m := set_allocation_attempts (allocation_attempts m + 1) m in
  if sz =? 0 then
    (set_allocation_failures (allocation_failures m + 1) m, -1)
  else
    let block := find_block m sz in
    match block with
    | None => (set_allocation_failures (allocation_failures m + 1) m, -1)
    | Some i =>
        let m := set_head (split_and_mark i sz (next_block_id m) (head m)) m in
        let m := set_allocation_successes (allocation_successes m + 1) m in
        (set_next_block_id (next_block_id m + 1) m, next_block_id m)
    end.

(** The scan of [deallocate]: the first allocated block with the id is
    released; [None] when the scan reaches the end of the list. *)
Fixpoint release (id : Z) (l : list MemoryBlock)
    : option (list MemoryBlock) :=
  match l with
  | [] => None
  | current :: rest =>
      if is_allocated current && (block_id current =? id)
      then Some ({| start_address := start_address current;
                    size := size current; is_allocated := false;
                    block_id := -1 |} :: rest)
      else (λ rest', current :: rest') <$> release id rest
  end.

(** [bool deallocate(int block_id)] *)
Definition deallocate (m : t) (id : Z) : t * bool :=
  match release id (head m) with
  | Some l => (set_head (coalesceBlocks l) m, true)
  | None => (m, false)
  end.

(** [size_t getUsedMemory()] *)
Definition getUsedMemory (m : t) : Z :=
  fold_left (λ used b, if is_allocated b then wrap64 (used + size b) else used)
    (head m) 0.

Inductive op :=
| Allocate (sz : Z)
| Deallocate (id : Z)
| SetStrategy (s : AllocationStrategy).

Definition step (m : t) (o : op) : t :=
  match o with
  | Allocate sz => fst (allocate m sz)
  | Deallocate id => fst (deallocate m id)
  | SetStrategy s => setStrategy m s
  end.

Definition run (m : t) (ops : list op) : t := fold_left step ops m.

End MemoryManager.

(** ** Buddy allocator *)

Module BuddyAllocator.

Record BuddyBlock := {
  address : Z;
  size : Z;
  is_free : bool;
  block_id : Z
}.

(** [BuddyBlock(addr, sz)] with the default id. *)
Definition BuddyBlock_new (addr sz : Z) : BuddyBlock :=
  {| address := addr; size := sz; is_free := true; block_id := -1 |}.

(** [struct AllocationRecord]; its [address] field is [record_address]
    here, the name [address] being taken by [BuddyBlock]. *)
Record AllocationRecord := {
  record_address : Z;
  requested_size : Z;
  actual_size : Z;
  order : Z
}.

(** A singly linked free list is the list of its blocks, head first;
    [std::map<int, AllocationRecord>] is a finite map. *)
Record t := {
  total_memory : Z;
  min_block_size : Z;
  max_order : Z;
  free_lists : list (list BuddyBlock);
  allocated_blocks : gmap Z AllocationRecord;
  next_block_id : Z;
  total_allocations : Z;
  total_deallocations : Z;
  successful_allocations : Z;
  failed_allocations : Z;
  splits : Z;
  merges : Z;
  total_internal_fragmentation : Z
}.

Definition set_free_lists (v : list (list BuddyBlock)) (s : t) : t :=
  {| total_memory := total_memory s; min_block_size := min_block_size s;
     max_order := max_order s; free_lists := v;
     allocated_blocks := allocated_blocks s;
     next_block_id := next_block_id s;
     total_allocations := total_allocations s;
     total_deallocations := total_deallocations s;
     successful_allocations := successful_allocations s;
     failed_allocations := failed_allocations s;
     splits := splits s; merges := merges s;
     total_internal_fragmentation := total_internal_fragmentation s |}.

Definition set_allocated_blocks (v : gmap Z AllocationRecord) (s : t) : t :=
  {| total_memory := total_memory s; min_block_size := min_block_size s;
     max_order := max_order s; free_lists := free_lists s;
     allocated_blocks := v;
     next_block_id := next_block_id s;
     total_allocations := total_allocations s;
     total_deallocations := total_deallocations s;
     successful_allocations := successful_allocations s;
     failed_allocations := failed_allocations s;
     splits := splits s; merges := merges s;
     total_internal_fragmentation := total_internal_fragmentation s |}.

Definition set_counters (nid ta td sa fa sp mg tif : Z) (s : t) : t :=
  {| total_memory := total_memory s; min_block_size := min_block_size s;
     max_order := max_order s; free_lists := free_lists s;
     allocated_blocks := allocated_blocks s;
     next_block_id := nid;
     total_allocations := ta;
     total_deallocations := td;
     successful_allocations := sa;
     failed_allocations := fa;
     splits := sp; merges := mg;
     total_internal_fragmentation := tif |}.

Definition set_next_block_id (v : Z) (s : t) : t :=
  set_counters v (total_allocations s) (total_deallocations s)
    (successful_allocations s) (failed_allocations s) (splits s) (merges s)
    (total_internal_fragmentation s) s.
Definition set_total_allocations (v : Z) (s : t) : t :=
  set_counters (next_block_id s) v (total_deallocations s)
    (successful_allocations s) (failed_allocations s) (splits s) (merges s)
    (total_internal_fragmentation s) s.
Definition set_total_deallocations (v : Z) (s : t) : t :=
  set_counters (next_block_id s) (total_allocations s) v
    (successful_allocations s) (failed_allocations s) (splits s) (merges s)
    (total_internal_fragmentation s) s.
Definition set_successful_allocations (v : Z) (s : t) : t :=
  set_counters (next_block_id s) (total_allocations s)
    (total_deallocations s) v (failed_allocations s) (splits s) (merges s)
    (total_internal_fragmentation s) s.
Definition set_failed_allocations (v : Z) (s : t) : t :=
  set_counters (next_block_id s) (total_allocations s)
    (total_deallocations s) (successful_allocations s) v (splits s)
    (merges s) (total_internal_fragmentation s) s.
Definition set_splits (v : Z) (s : t) : t :=
  set_counters (next_block_id s) (total_allocations s)
    (total_deallocations s) (successful_allocations s)
    (failed_allocations s) v (merges s) (total_internal_fragmentation s) s.
Definition set_merges (v : Z) (s : t) : t :=
  set_counters (next_block_id s) (total_allocations s)
    (total_deallocations s) (successful_allocations s)
    (failed_allocations s) (splits s) v (total_internal_fragmentation s) s.
Definition set_total_internal_fragmentation (v : Z) (s : t) : t :=
  set_counters (next_block_id s) (total_allocations s)
    (total_deallocations s) (successful_allocations s)
    (failed_allocations s) (splits s) (merges s) v s.

(** [free_lists[order]] as a list head and its two updates. *)
Definition free_list (s : t) (k : Z) : list BuddyBlock :=
  default [] (vget (free_lists s) k).

Definition set_free_list (k : Z) (l : list BuddyBlock) (s : t) : t :=
  set_free_lists (valter (λ _, l) k (free_lists s)) s.

(** [block->next = free_lists[k]; free_lists[k] = block] *)
Definition push (k : Z) (b : BuddyBlock) (s : t) : t :=
  set_free_list k (b :: free_list s k) s.

Definition is_nil {A} (l : list A) : bool :=
  match l with [] => true | _ => false end.

(** [bool isPowerOfTwo(size_t n)] *)
Definition isPowerOfTwo (n : Z) : bool :=
  (0 <? n) && (Z.land n (wrap64 (n - 1)) =? 0).

(** The loop [while (temp > 1) { temp /= 2; order++; }].  A [size_t] is
    at most 1 after 63 halvings, so 64 steps always reach the exit. *)
Fixpoint halve_loop (steps : nat) (temp ord : Z) : Z :=
  match steps with
  | O => ord
  | S steps' =>
      if 1 <? temp then halve_loop steps' (temp / 2) (ord + 1) else ord
  end.

(** [int getOrder(size_t size)] *)
Definition getOrder (s : t) (sz : Z) : Z :=
  if sz <=? min_block_size s then 0
  else halve_loop 64 (sz / min_block_size s) 0.

(** [size_t getBlockSize(int order) const].  In
    [min_block_size * (1 << order)] the shift is one of a 32-bit [int]:
    [1 << 31] is -2^31, which the multiplication by a [size_t] reads as
    2^64 - 2^31.  A shift by 32 or more is undefined in C++; [to_int]
    makes it 0 here. *)
Definition getBlockSize (s : t) (k : Z) : Z :=
  wrap64 (min_block_size s * to_int (Z.shiftl 1 k)).

(** [size_t getBuddyAddress(size_t address, size_t size)] *)
Definition getBuddyAddress (addr sz : Z) : Z := Z.lxor addr sz.

(** The loop [while (power < size) power *= 2].  After 64 doublings a
    [size_t] is 0 and stays 0, so a loop that has not ended by then never
    ends: that is the result [None]. *)
Fixpoint double_loop (steps : nat) (power sz : Z) : option Z :=
  if power <? sz then
    match steps with
    | O => None
    | S steps' => double_loop steps' (wrap64 (power * 2)) sz
    end
  else Some power.

(** [size_t nextPowerOfTwo(size_t size)] *)
Definition nextPowerOfTwo (s : t) (sz : Z) : option Z :=
  if sz =? 0 then Some (min_block_size s)
  else if sz <=? min_block_size s then Some (min_block_size s)
  else double_loop 64 (min_block_size s) sz.

(** [bool splitBlock(int order)].  The recursion goes from [order] to
    [order + 1] and stops at [order >= max_order]; [gap] is
    [max_order - order], zero exactly when that guard fires. *)
Fixpoint splitBlock_rec (gap : nat) (k : Z) (s : t) : t * bool :=
  match gap with
  | O => (s, false)
  | S gap' =>
      let '(s, ok) :=
        if is_nil (free_list s (k + 1)) then splitBlock_rec gap' (k + 1) s
        else (s, true) in
      if negb ok then (s, false)
      else
        match free_list s (k + 1) with
        | [] => (s, false)
        | block :: next =>
            let s := set_free_list (k + 1) next s in
            let new_size := getBlockSize s k in
            let buddy1 := BuddyBlock_new (address block) new_size in
            let buddy2 :=
              BuddyBlock_new (wrap64 (address block + new_size)) new_size in
            let s := push k buddy1 s in
            let s := push k buddy2 s in
            (set_splits (splits s + 1) s, true)
        end
  end.

Definition splitBlock (s : t) (k : Z) : t * bool :=
  splitBlock_rec (Z.to_nat (max_order s - k)) k s.

(** The search of [removeFromFreeList]: unlink the first block with the
    address. *)
Fixpoint unlink (addr : Z) (l : list BuddyBlock)
    : option (BuddyBlock * list BuddyBlock) :=
  match l with
  | [] => None
  | b :: next =>
      if address b =? addr then Some (b, next)
      else (λ r : BuddyBlock * list BuddyBlock, (r.1, b :: r.2))
             <$> unlink addr next
  end.

(** [BuddyBlock* removeFromFreeList(int order, size_t address)] *)
Definition removeFromFreeList (s : t) (k addr : Z) : t * option BuddyBlock :=
  match unlink addr (free_list s k) with
  | Some (b, l) => (set_free_list k l s, Some b)
  | None => (s, None)
  end.

(** [bool mergeBlocks(size_t address, int order)], with [gap] as in
    [splitBlock_rec]. *)
Fixpoint mergeBlocks_rec (gap : nat) (addr k : Z) (s : t) : t * bool :=
  match gap with
  | O => (s, false)
  | S gap' =>
      let block_size := getBlockSize s k in
      let buddy_addr := getBuddyAddress addr block_size in
      match removeFromFreeList s k buddy_addr with
      | (s, None) => (s, false)
      | (s, Some buddy) =>
          let s := fst (removeFromFreeList s k addr) in
          let merged_addr := if addr <? buddy_addr then addr else buddy_addr in
          let merged_size := wrap64 (block_size * 2) in
          let s := push (k + 1) (BuddyBlock_new merged_addr merged_size) s in
          let s := set_merges (merges s + 1) s in
          let s := fst (mergeBlocks_rec gap' merged_addr (k + 1) s) in
          (s, true)
      end
  end.

Definition mergeBlocks (s : t) (addr k : Z) : t * bool :=
  mergeBlocks_rec (Z.to_nat (max_order s - k)) addr k s.

(** [BuddyAllocator(size_t memory_size, size_t min_size)] *)
Definition new (memory_size min_size : Z) : t :=
  let total := if isPowerOfTwo memory_size then memory_size else 1024 in
  let min := if isPowerOfTwo min_size then min_size else 16 in
  let max := halve_loop 64 (total / min) 0 in
  {| total_memory := total; min_block_size := min; max_order := max;
     free_lists :=
       valter (λ _, [ BuddyBlock_new 0 total ]) max
         (replicate (Z.to_nat (max + 1)) []);
     allocated_blocks := ∅;
     next_block_id := 1;
     total_allocations := 0; total_deallocations := 0;
     successful_allocations := 0; failed_allocations := 0;
     splits := 0; merges := 0; total_internal_fragmentation := 0 |}.

Definition fail (s : t) : t * Z :=
  (set_failed_allocations (failed_allocations s + 1) s, -1).

(** [int allocate(size_t requested_size)]: the new state and the block
    id, or -1; [None] when the rounding loop does not terminate. *)
Definition allocate (s : t) (requested : Z) : option (t * Z) :=
  let s := set_total_allocations (total_allocations s + 1) s in
  if requested =? 0 then Some (fail s)
  else if total_memory s <? requested then Some (fail s)
  else
    actual ← nextPowerOfTwo s requested;
    let k := getOrder s actual in
    let '(s, ok) :=
      if is_nil (free_list s k) then splitBlock s k else (s, true) in
    if negb ok then Some (fail s)
    else
      match free_list s k with
      | [] => Some (fail s)
      | block :: next =>
          let s := set_free_list k next s in
          let id := next_block_id s in
          let s := set_next_block_id (id + 1) s in
          let s :=
            set_successful_allocations (successful_allocations s + 1) s in
          let internal_frag := wrap64 (actual - requested) in
          let s :=
            set_total_internal_fragmentation
              (wrap64 (total_internal_fragmentation s + internal_frag)) s in
          let record :=
            {| record_address := address block; requested_size := requested;
               actual_size := actual; order := k |} in
          let s := set_allocated_blocks (<[id := record]> (allocated_blocks s)) s in
          Some (s, id)
      end.

(** [bool deallocate(int block_id)]; [record] is read as it stood in the
    map when it was looked up. *)
Definition deallocate (s : t) (id : Z) : t * bool :=
  match allocated_blocks s !! id with
  | None => (s, false)
  | Some record =>
      let s :=
        push (order record)
          (BuddyBlock_new (record_address record) (actual_size record)) s in
      let s := set_total_deallocations (total_deallocations s + 1) s in
      let internal_frag :=
        wrap64 (actual_size record - requested_size record) in
      let s :=
        set_total_internal_fragmentation
          (wrap64 (total_internal_fragmentation s - internal_frag)) s in
      let s := set_allocated_blocks (delete id (allocated_blocks s)) s in
      let s := fst (mergeBlocks s (record_address record) (order record)) in
      (s, true)
  end.

Inductive op :=
| Allocate (requested : Z)
| Deallocate (id : Z).

Definition step (s : t) (o : op) : option t :=
  match o with
  | Allocate requested => fst <$> allocate s requested
  | Deallocate id => Some (fst (deallocate s id))
  end.

(** A run is [None] when one of its allocations does not terminate. *)
Definition run (s : t) (ops : list op) : option t :=
  foldl (λ (acc : option t) o, acc ≫= λ s, step s o) (Some s) ops.

End BuddyAllocator.

(** ** Runs of the cache hierarchy *)

Module HierarchyRun.
Import Cache CacheHierarchy.

(** The public operations that change a hierarchy. *)
Inductive op :=
| Read (address : Z) (verbose : bool)
| Write (address : Z) (verbose : bool)
| ClearAll.

Definition step (h : t) (o : op) : t :=
  match o with
  | Read a v => (read h a v).1
  | Write a v => (write h a v).1
  | ClearAll => clearAll h
  end.

Definition run (h : t) (ops : list op) : t := fold_left step ops h.

(** What no operation changes: the four penalties, which levels exist,
    and the write policy of L1. *)
Definition config (h : t) : Z * Z * Z * Z * bool * bool * WritePolicy :=
  (l1_penalty h, l2_penalty h, l3_penalty h, memory_penalty h,
   has_l2 h, has_l3 h, write_policy (l1 h)).

End HierarchyRun.

(** ** Statistics of the contiguous allocator *)

Module MemoryManagerStats.
Import MemoryManager.

(** [size_t getFreeMemory()] *)
Definition getFreeMemory (m : t) : Z :=
  wrap64 (total_memory m - getUsedMemory m).

(** [int countFreeBlocks()] *)
Definition countFreeBlocks (m : t) : Z :=
  fold_left (λ count b, if is_allocated b then count else count + 1)
    (head m) 0.

(** [int getAllocationAttempts()], [int getAllocationSuccesses()] and
    [int getAllocationFailures()] *)
Definition getAllocationAttempts (m : t) : Z := allocation_attempts m.
Definition getAllocationSuccesses (m : t) : Z := allocation_successes m.
Definition getAllocationFailures (m : t) : Z := allocation_failures m.

End MemoryManagerStats.

(** ** The unified system of main.cpp *)

Module UnifiedMemorySystem.

(** [class UnifiedMemorySystem]; a null pointer is [None]. *)
Record t := {
  classic_allocator : option MemoryManager.t;
  buddy_allocator : option BuddyAllocator.t;
  use_buddy : bool;
  vm_simulator : option VirtualMemorySimulator.t;
  cache_hierarchy : option CacheHierarchy.t;
  vm_enabled : bool;
  cache_enabled : bool;
  verbose : bool;
  physical_memory_size : Z
}.

(** [UnifiedMemorySystem()] *)
Definition new : t :=
  {| classic_allocator := None; buddy_allocator := None; use_buddy := false;
     vm_simulator := None; cache_hierarchy := None;
     vm_enabled := false; cache_enabled := false; verbose := false;
     physical_memory_size := 0 |}.

Definition set_vm_simulator (v : option VirtualMemorySimulator.t) (u : t)
    : t :=
  {| classic_allocator := classic_allocator u;
     buddy_allocator := buddy_allocator u; use_buddy := use_buddy u;
     vm_simulator := v; cache_hierarchy := cache_hierarchy u;
     vm_enabled := vm_enabled u; cache_enabled := cache_enabled u;
     verbose := verbose u; physical_memory_size := physical_memory_size u |}.

Definition set_cache_hierarchy (v : option CacheHierarchy.t) (u : t) : t :=
  {| classic_allocator := classic_allocator u;
     buddy_allocator := buddy_allocator u; use_buddy := use_buddy u;
     vm_simulator := vm_simulator u; cache_hierarchy := v;
     vm_enabled := vm_enabled u; cache_enabled := cache_enabled u;
     verbose := verbose u; physical_memory_size := physical_memory_size u |}.

(** [bool isPowerOfTwo(size_t n)] *)
Definition isPowerOfTwo (n : Z) : bool :=
  (0 <? n) && (Z.land n (wrap64 (n - 1)) =? 0).

(** [size_t nextPowerOfTwo(size_t n)]; its loop
    [while (power < n) power *= 2] is the loop of the buddy allocator's
    function of the same name, started at 1, and [None] again stands for
    the loop that never ends. *)
Definition nextPowerOfTwo (n : Z) : option Z :=
  if n <=? 1 then Some 1 else BuddyAllocator.double_loop 64 1 n.

(** [void initializeMemory(size_t size, bool use_buddy_system)] *)
Definition initializeMemory (u : t) (size : Z) (use_buddy_system : bool)
    : option t :=
  if use_buddy_system then
    size ← (if negb (isPowerOfTwo size) then nextPowerOfTwo size
            else Some size);
    let min_block := 16 in
    Some {| classic_allocator := classic_allocator u;
            buddy_allocator := Some (BuddyAllocator.new size min_block);
            use_buddy := true;
            vm_simulator := vm_simulator u;
            cache_hierarchy := cache_hierarchy u;
            vm_enabled := vm_enabled u; cache_enabled := cache_enabled u;
            verbose := verbose u; physical_memory_size := size |}
  else
    Some {| classic_allocator := Some (MemoryManager.new size);
            buddy_allocator := buddy_allocator u;
            use_buddy := false;
            vm_simulator := vm_simulator u;
            cache_hierarchy := cache_hierarchy u;
            vm_enabled := vm_enabled u; cache_enabled := cache_enabled u;
            verbose := verbose u; physical_memory_size := size |}.

(** [void initializeVirtualMemory(size_t vm_size, size_t page_size,
    string policy)] *)
Definition initializeVirtualMemory (u : t) (vm_size page_size : Z)
    (policy : string) : t :=
  if physical_memory_size u =? 0 then u
  else
    {| classic_allocator := classic_allocator u;
       buddy_allocator := buddy_allocator u; use_buddy := use_buddy u;
       vm_simulator :=
         Some (VirtualMemorySimulator.new vm_size (physical_memory_size u)
                 page_size policy);
       cache_hierarchy := cache_hierarchy u;
       vm_enabled := true; cache_enabled := cache_enabled u;
       verbose := verbose u; physical_memory_size := physical_memory_size u |}.

(** [void accessMemory(size_t address, bool is_write)]: translation when
    virtual memory is enabled, an early return when it fails, then the
    cache hierarchy when it is enabled.  The third step only prints. *)
Definition accessMemory (u : t) (address : Z) (is_write : bool) : t :=
  let '(u, physical_address, failed) :=
    match (if vm_enabled u then vm_simulator u else None) with
    | Some vm =>
        let r := VirtualMemorySimulator.translateAddress vm address in
        (set_vm_simulator (Some r.1) u, r.2, r.2 =? wrap64 (-1))
    | None => (u, address, false)
    end in
  if failed then u
  else
    match (if cache_enabled u then cache_hierarchy u else None) with
    | Some h =>
        let r :=
          if is_write
          then CacheHierarchy.write h physical_address (verbose u)
          else CacheHierarchy.read h physical_address (verbose u) in
        set_cache_hierarchy (Some r.1) u
    | None => u
    end.

End UnifiedMemorySystem.

(** * Specification vocabulary

    The predicates, observations and concrete scenarios in which the
    properties below are stated. *)

(** ** Vocabulary: cache level *)

Module CacheSpec.
Import Cache.

(** The part of a line that [read] must not touch. *)
Definition line_core (l : CacheLine) : bool * Z * bool * Z :=
  (valid l, tag l, dirty l, insertion_order l).

(** That part of every line of the level, set by set. *)
Definition line_cores (c : t) : list (list (bool * Z * bool * Z)) :=
  (λ row : list CacheLine, line_core <$> row) <$> cache c.

(** No line of the level is dirty. *)
Definition all_clean (c : t) : Prop :=
  Forall (Forall (λ l, dirty l = false)) (cache c).

(** The invariant of a write-through level. *)
Definition wt_inv (c : t) : Prop :=
  write_policy c = WRITE_THROUGH ∧ all_clean c ∧ writebacks c = 0.

End CacheSpec.

(** ** Vocabulary: cache hierarchy *)

Module HierarchySpec.
Import Cache CacheHierarchy.

(** A write-back L1 of one line over a write-through L2 of two lines,
    after read 0; read 64: L2 holds blocks 0 and 1, L1 only block 1. *)
Definition mixed_hierarchy : CacheHierarchy.t :=
  let h :=
    CacheHierarchy.new 1 64 DIRECT_MAPPED LRU WRITE_BACK
      2 64 DIRECT_MAPPED LRU WRITE_THROUGH
      0 64 DIRECT_MAPPED LRU WRITE_THROUGH in
  (read (read h 0 false).1 64 false).1.

(** The three-level refill scenario: 1, 2 and 4 lines of 64 bytes, all
    write-back, and the reads 0, 64, 0. *)
Definition refill_start (a1 a2 a3 : AssociativityType)
    (r1 r2 r3 : ReplacementPolicy) : CacheHierarchy.t :=
  CacheHierarchy.new 1 64 a1 r1 WRITE_BACK 2 64 a2 r2 WRITE_BACK
    4 64 a3 r3 WRITE_BACK.

Definition refill_run (h : CacheHierarchy.t) (v : bool) : CacheHierarchy.t :=
  (read (read (read h 0 v).1 64 v).1 0 v).1.

End HierarchySpec.

(** ** Vocabulary: virtual memory *)

Module VMSpec.
Import VirtualMemorySimulator.

(** No page-table entry is dirty and nothing was written to disk. *)
Definition vm_clean (s : t) : Prop :=
  Forall (λ e, dirty e = false) (page_table s) ∧ disk_writes s = 0.

(** The range check of [translateAddress]. *)
Definition out_of_range (s : t) (va : Z) : bool :=
  virtual_memory_size s <=? va.

(** A sequence of [translateAddress] calls. *)
Definition translate_all (s : t) (vas : list Z) : t :=
  run s (TranslateAddress <$> vas).

(** One frame holding page 0, whose entry has been marked dirty. *)
Definition dirty_resident : t :=
  alter_pte (set_dirty true) 0 (translateAddress (new 8 4 4 "fifo") 0).1.

(** The five statistics a user can compare between two runs. *)
Definition counters (s : t) : Z * Z * Z * Z * Z :=
  (page_hits s, page_faults s, total_accesses s, disk_reads s, disk_writes s).

(** The operations other than [setVerbose]. *)
Definition keeps_verbose (o : op) : bool :=
  match o with SetVerbose _ => false | _ => true end.

(** [evictPage] on a page that is not dirty: nothing is counted. *)
Definition evict_clean (s : t) (page_number : Z) : t * Z :=
  if negb (valid (pte s page_number)) then (s, -1)
  else
    let frame := frame_number (pte s page_number) in
    let s := alter_pte (set_valid false) page_number s in
    let s := alter_pte (set_frame_number (-1)) page_number s in
    let s := alter_pte (set_dirty false) page_number s in
    let s := set_frame_to_page (valter (λ _, -1) frame (frame_to_page s)) s in
    let s := set_frame_used (valter (λ _, false) frame (frame_used s)) s in
    (s, frame).

End VMSpec.

(** ** Vocabulary: contiguous allocator *)

Module MemoryManagerSpec.
Import MemoryManager.

(** The sum of the block sizes. *)
Definition total_size (l : list MemoryBlock) : Z :=
  foldr (λ b n, size b + n) 0 l.

(** The blocks tile the addresses from [a] on without gap or overlap. *)
Fixpoint tiles (a : Z) (l : list MemoryBlock) : Prop :=
  match l with
  | [] => True
  | b :: tl => start_address b = a ∧ tiles (a + size b) tl
  end.

(** Two neighbours in the list are both free. *)
Definition adjacent_free_pair (l : list MemoryBlock) : Prop :=
  ∃ (i : nat) a b,
    l !! i = Some a ∧ l !! S i = Some b
    ∧ is_allocated a = false ∧ is_allocated b = false.

(** The same, as a check that runs down the list: [head_free] tells
    whether the list starts with a free block. *)
Definition head_free (l : list MemoryBlock) : bool :=
  match l with
  | b :: _ => negb (is_allocated b)
  | [] => false
  end.

Fixpoint no_adjacent_free (l : list MemoryBlock) : bool :=
  match l with
  | [] => true
  | a :: tl =>
      negb (negb (is_allocated a) && head_free tl) && no_adjacent_free tl
  end.

(** A requested size is a [size_t]. *)
Definition op_in_range (o : op) : Prop :=
  match o with
  | Allocate sz => 0 ≤ sz < 2 ^ 64
  | _ => True
  end.

(** The layout invariant of the block list. *)
Record layout_inv (m : t) : Prop := {
  inv_bound : total_memory m < 2 ^ 64;
  inv_nonneg : Forall (λ b, 0 ≤ size b) (head m);
  inv_total : total_size (head m) = total_memory m;
  inv_tiles : tiles 0 (head m);
  inv_coalesced : no_adjacent_free (head m) = true
}.

(** What replaces the chosen block. *)
Definition placed (b : MemoryBlock) (sz id : Z) : list MemoryBlock :=
  match splitBlock b sz with
  | b' :: tl => mark_allocated id b' :: tl
  | [] => []
  end.

(** The ids of the live allocations, in list order. *)
Fixpoint live_ids (l : list MemoryBlock) : list Z :=
  match l with
  | [] => []
  | b :: tl => if is_allocated b then block_id b :: live_ids tl else live_ids tl
  end.

(** Live ids are pairwise distinct and below [next_block_id]. *)
Record ids_inv (m : t) : Prop := {
  ids_nodup : NoDup (live_ids (head m));
  ids_below : Forall (λ i, i < next_block_id m) (live_ids (head m))
}.

(** [id] is dead: below the counter and carried by no live block. *)
Definition retired (id : Z) (m : t) : Prop :=
  (id ∉ live_ids (head m)) ∧ id < next_block_id m.

End MemoryManagerSpec.

(** ** Vocabulary: buddy allocator *)

Module BuddySpec.
Import BuddyAllocator.

(** The part of the state that decides [deallocate]'s lookup. *)
Definition book (s : t) : gmap Z AllocationRecord * Z :=
  (allocated_blocks s, next_block_id s).

(** Every recorded id is below [next_block_id]. *)
Definition keys_below (s : t) : Prop :=
  ∀ k, is_Some (allocated_blocks s !! k) → k < next_block_id s.

(** [id] is dead: below the counter and without a record. *)
Definition retired (id : Z) (s : t) : Prop :=
  allocated_blocks s !! id = None ∧ id < next_block_id s.

(** The configuration fixed by the constructor. *)
Definition config (s : t) : Z * Z * Z :=
  (total_memory s, min_block_size s, max_order s).

(** Both sizes are powers of two that fit a [size_t], as the constructor
    leaves them. *)
Definition sized (s : t) : Prop :=
  ∃ a b, 0 ≤ a ≤ 63 ∧ 0 ≤ b ≤ 63
         ∧ total_memory s = 2 ^ a ∧ min_block_size s = 2 ^ b.

(** The addresses on the free lists, order by order, head first. *)
Definition free_addresses (s : t) : list (list Z) :=
  (λ l : list BuddyBlock, address <$> l) <$> free_lists s.

(** Where the block of a live allocation lies. *)
Definition address_of (s : t) (id : Z) : option Z :=
  record_address <$> allocated_blocks s !! id.

End BuddySpec.

(** ** More vocabulary: cache level *)

Module VictimSpec.
Import Cache.

(** The level has the shape its constructor gives it: the line table is
    [num_sets] rows of [ways] lines, the sizes are positive [int]s. *)
Record shaped (c : t) : Prop := {
  shaped_sets : 0 < num_sets c < 2 ^ 31;
  shaped_ways : 0 < ways c < 2 ^ 31;
  shaped_block : 0 < block_size c < 2 ^ 31;
  shaped_rows : length (cache c) = Z.to_nat (num_sets c);
  shaped_cols : Forall (λ row, length row = Z.to_nat (ways c)) (cache c)
}.

End VictimSpec.

Module ShapeSpec.
Import Cache.

(** What decides the shape: the three sizes and the length of every row. *)
Definition shape (c : t) : Z * Z * Z * list nat :=
  (num_sets c, ways c, block_size c, length <$> cache c).

End ShapeSpec.

Module InstallSpec.
Import Cache.

(** The line installed on a miss, from the victim's old content. *)
Definition installed (tg : Z) (d : bool) (io lat : Z) : CacheLine :=
  {| valid := true; tag := tg; dirty := d; insertion_order := io;
     last_access_time := lat |}.

End InstallSpec.

Module LinesSpec.
Import Cache.

(** What a hit leaves of the line it finds: [d] is the dirty bit the
    operation brings. *)
Definition touched (c : t) (d : bool) (l : CacheLine) : CacheLine :=
  {| valid := valid l; tag := tag l; dirty := dirty l || d;
     insertion_order := insertion_order l;
     last_access_time :=
       if is_LRU (replacement_policy c) then access_counter c + 1
       else last_access_time l |}.

(** What [evict] and [clear] leave of a line. *)
Definition dropped (l : CacheLine) : CacheLine :=
  set_dirty false (set_valid false l).

End LinesSpec.

Module ResidencySpec.
Import Cache.

(** No set holds a block twice: two valid lines of a set with the same
    tag are the same way. *)
Definition distinct_tags (c : t) : Prop :=
  ∀ s w1 w2 l1 l2,
    line_at c s w1 = Some l1 → line_at c s w2 = Some l2 →
    valid l1 = true → valid l2 = true → tag l1 = tag l2 → w1 = w2.

End ResidencySpec.

Module TallySpec.
Import Cache.

(** The hit and miss counters of a level, and its two clocks. *)
Definition tallies (c : t) : Z * Z * Z * Z * Z :=
  (hits c, misses c, writes c, write_hits c, write_misses c).

Definition clocks (c : t) : Z * Z := (next_insertion_order c, access_counter c).

(** The calls of a kind made since the level was built or last cleared. *)
Definition count_call (counted : op → bool) (n : Z) (o : op) : Z :=
  match o with
  | Clear => 0
  | _ => if counted o then n + 1 else n
  end.

Definition calls_since_clear (counted : op → bool) (ops : list op) : Z :=
  fold_left (count_call counted) ops 0.

Definition is_access (o : op) : bool :=
  match o with Read _ | Write _ => true | _ => false end.

Definition is_write (o : op) : bool :=
  match o with Write _ => true | _ => false end.

End TallySpec.

Module StampSpec.
Import Cache.

(** The two clocks stamp the valid lines: every valid line carries an
    insertion order below [next_insertion_order] and an access time of at
    most [access_counter], and no two valid lines of the level share
    either stamp. *)
Record stamped (c : t) : Prop := {
  stamped_nio : 0 ≤ next_insertion_order c;
  stamped_ac : 0 ≤ access_counter c;
  stamped_bound : ∀ s w l,
    line_at c s w = Some l → valid l = true →
    0 ≤ insertion_order l < next_insertion_order c
    ∧ 0 < last_access_time l ≤ access_counter c;
  stamped_io : ∀ s1 w1 l1 s2 w2 l2,
    line_at c s1 w1 = Some l1 → line_at c s2 w2 = Some l2 →
    valid l1 = true → valid l2 = true →
    insertion_order l1 = insertion_order l2 → s1 = s2 ∧ w1 = w2;
  stamped_lat : ∀ s1 w1 l1 s2 w2 l2,
    line_at c s1 w1 = Some l1 → line_at c s2 w2 = Some l2 →
    valid l1 = true → valid l2 = true →
    last_access_time l1 = last_access_time l2 → s1 = s2 ∧ w1 = w2 }.

End StampSpec.

(** ** More vocabulary: cache hierarchy *)

Module PathSpec.
Import Cache CacheHierarchy.

(** Whether level [k] is the one that serves the address. *)
Definition served (h : t) (address : Z) (k : nat) : Z :=
  if decide (hit_level h address = Some k) then 1 else 0.

Definition missed (h : t) (address : Z) : Z :=
  if decide (hit_level h address = None) then 1 else 0.

(** The cycles of one access: the miss penalty of every level passed and
    the hit cost 1, 10 or 50 of the level that serves, or the memory
    penalty. *)
Definition path_cost (h : t) (address : Z) : Z :=
  match hit_level h address with
  | Some 1%nat => 1
  | Some 2%nat => l1_penalty h + 10
  | Some _ => l1_penalty h + (if has_l2 h then l2_penalty h else 0) + 50
  | None =>
      l1_penalty h + (if has_l2 h then l2_penalty h else 0)
      + (if has_l3 h then l3_penalty h else 0) + memory_penalty h
  end.

(** A level looked up by a read, and a level looked up and then filled. *)
Definition probe (address : Z) (c : Cache.t) : Cache.t :=
  (Cache.read c address).1.

Definition fill (address : Z) (c : Cache.t) : Cache.t :=
  Cache.insert (Cache.read c address).1 address false.

(** A level written, and a level written and then filled. *)
Definition store (address : Z) (c : Cache.t) : Cache.t :=
  (Cache.write c address).1.

Definition store_fill (address : Z) (d : bool) (c : Cache.t) : Cache.t :=
  Cache.insert (Cache.write c address).1 address d.

End PathSpec.

Module AccountSpec.
Import Cache CacheHierarchy.

(** The accounting invariant, for penalties 1, 10, 50, 100. *)
Record accounted (h : t) : Prop := {
  acc_split : total_accesses h = total_reads h + total_writes h;
  acc_served :
    l1_hits h + l2_hits h + l3_hits h + memory_accesses h = total_accesses h;
  acc_mem_writes :
    memory_writes h
    = if is_WB (write_policy (l1 h)) then 0 else total_writes h;
  acc_cycles :
    total_penalty_cycles h
    = l1_hits h + 11 * l2_hits h
      + (if has_l2 h then 61 else 51) * l3_hits h
      + (101 + (if has_l2 h then 10 else 0) + (if has_l3 h then 50 else 0))
        * memory_accesses h;
  acc_no_l2 : has_l2 h = false → l2_hits h = 0;
  acc_no_l3 : has_l3 h = false → l3_hits h = 0;
  acc_nonneg :
    0 ≤ total_reads h ∧ 0 ≤ total_writes h ∧ 0 ≤ l1_hits h ∧ 0 ≤ l2_hits h
    ∧ 0 ≤ l3_hits h ∧ 0 ≤ memory_accesses h }.

(** The penalties of the constructor. *)
Definition standard_penalties (h : t) : Prop :=
  l1_penalty h = 1 ∧ l2_penalty h = 10 ∧ l3_penalty h = 50
  ∧ memory_penalty h = 100.

End AccountSpec.

Module InclusionSpec.
Import Cache CacheHierarchy VictimSpec.

(** Every level of the hierarchy has the shape its constructor gives. *)
Definition shaped_levels (h : t) : Prop :=
  shaped (l1 h)
  ∧ (∀ c, l2 h = Some c → shaped c) ∧ (∀ c, l3 h = Some c → shaped c).

End InclusionSpec.

(** ** More vocabulary: virtual memory *)

Module PagingSpec.
Import VirtualMemorySimulator.

(** The three tables, read at an index. *)
Definition entry (s : t) (p : Z) : option PageTableEntry :=
  vget (page_table s) p.
Definition owner (s : t) (f : Z) : option Z := vget (frame_to_page s) f.
Definition used (s : t) (f : Z) : option bool := vget (frame_used s) f.

(** What [loadPage], [evictPage] and a page hit make of an entry. *)
Definition loaded (f now : Z) (e : PageTableEntry) : PageTableEntry :=
  {| valid := true; frame_number := f; dirty := false;
     last_access_time := now; load_time := now;
     access_count := access_count e + 1 |}.

Definition evicted (e : PageTableEntry) : PageTableEntry :=
  {| valid := false; frame_number := -1; dirty := false;
     last_access_time := last_access_time e; load_time := load_time e;
     access_count := access_count e |}.

Definition touched (now : Z) (e : PageTableEntry) : PageTableEntry :=
  {| valid := valid e; frame_number := frame_number e; dirty := dirty e;
     last_access_time := now; load_time := load_time e;
     access_count := access_count e + 1 |}.

(** The five sizes fixed by the constructor. *)
Definition dims (s : t) : Z * Z * Z * Z * Z :=
  (virtual_memory_size s, physical_memory_size s, page_size s,
   num_virtual_pages s, num_physical_frames s).

(** The tables have the lengths the constructor gave them. *)
Definition table_lengths (s : t) : Prop :=
  length (page_table s) = Z.to_nat (num_virtual_pages s)
  ∧ length (frame_to_page s) = Z.to_nat (num_physical_frames s)
  ∧ length (frame_used s) = Z.to_nat (num_physical_frames s).

End PagingSpec.

Module FramesSpec.
Import VirtualMemorySimulator PagingSpec.

(** Frame [i] records page [p], and the entry of [p] is valid. *)
Definition resident_at (s : t) (i p : Z) : Prop :=
  owner s i = Some p ∧ p ≠ -1 ∧ valid (pte s p) = true.

(** The sizes of a simulator whose virtual memory is a whole number of
    pages and whose counts fit the [int] fields. *)
Record sized (s : t) : Prop := {
  sized_page : 0 < page_size s < 2 ^ 31;
  sized_pages : 0 ≤ num_virtual_pages s < 2 ^ 31;
  sized_frames : 0 ≤ num_physical_frames s < 2 ^ 31;
  sized_vm : virtual_memory_size s = num_virtual_pages s * page_size s;
  sized_pm :
    num_physical_frames s * page_size s ≤ physical_memory_size s < 2 ^ 64 }.

(** The page table and the two frame tables agree: a valid entry names a
    frame that records its page and is marked used, and a used frame
    records a page whose entry is valid and names the frame. *)
Record consistent (s : t) : Prop := {
  cons_sized : sized s;
  cons_lengths : table_lengths s;
  cons_resident : ∀ p e,
    entry s p = Some e → valid e = true →
    owner s (frame_number e) = Some p ∧ used s (frame_number e) = Some true;
  cons_occupied : ∀ f,
    used s f = Some true →
    ∃ p e, owner s f = Some p ∧ entry s p = Some e ∧ valid e = true
           ∧ frame_number e = f }.

(** The clock and the time stamps of the valid entries are at most [n]. *)
Definition timed (n : Z) (s : t) : Prop :=
  current_time s ≤ n
  ∧ ∀ p e, entry s p = Some e → valid e = true →
           load_time e ≤ n ∧ last_access_time e ≤ n.

End FramesSpec.

Module ReachSpec.
Import VirtualMemorySimulator.

(** The addresses passed are [size_t] values. *)
Definition op_sized (o : op) : bool :=
  match o with
  | TranslateAddress va | Access va => (0 <=? va) && (va <? 2 ^ 64)
  | _ => true
  end.

End ReachSpec.

Module LayoutSpec.
Import VirtualMemorySimulator.

(** What every operation keeps: the sizes and the lengths of the tables. *)
Definition frame (s : t) : Z * Z * Z * Z * Z * nat * nat * nat :=
  (virtual_memory_size s, physical_memory_size s, page_size s,
   num_virtual_pages s, num_physical_frames s,
   length (page_table s), length (frame_to_page s), length (frame_used s)).

End LayoutSpec.

Module PagedSpec.
Import VirtualMemorySimulator PagingSpec FramesSpec.

(** Constructor arguments for which the simulator is meaningful: a page
    size that fits [int], a virtual memory of a whole number of pages,
    page and frame counts that fit [int], and at least one frame. *)
Definition well_sized (vm_size pm_size pg_size : Z) : Prop :=
  0 < pg_size < 2 ^ 31
  ∧ pg_size ≤ vm_size ∧ vm_size mod pg_size = 0 ∧ vm_size / pg_size < 2 ^ 31
  ∧ pg_size ≤ pm_size < 2 ^ 64 ∧ pm_size / pg_size < 2 ^ 31.

(** The invariant of a run of at most [n] operations. *)
Definition paged (n : Z) (s : t) : Prop :=
  0 ≤ n ∧ consistent s ∧ timed n s ∧ 1 ≤ num_physical_frames s
  ∧ disk_reads s = page_faults s.

End PagedSpec.

(** ** More vocabulary: contiguous allocator *)

Module PlacementSpec.
Import MemoryManager.

(** The running candidate of the best-fit scan over the blocks seen. *)
Definition best_so_far (sz : Z) (seen : list MemoryBlock)
    (best : option nat) (min_diff : Z) : Prop :=
  match best with
  | None =>
      ∀ k c, seen !! k = Some c → fits sz c = true → min_diff ≤ size c - sz
  | Some j =>
      ∃ b, seen !! j = Some b ∧ fits sz b = true ∧ min_diff = size b - sz
           ∧ ∀ k c, seen !! k = Some c → fits sz c = true →
                    min_diff ≤ size c - sz
                    ∧ ((k < j)%nat → min_diff < size c - sz)
  end.

(** The running candidate of the worst-fit scan. *)
Definition worst_so_far (sz : Z) (seen : list MemoryBlock)
    (worst : option nat) (max_size : Z) : Prop :=
  match worst with
  | None => ∀ k c, seen !! k = Some c → fits sz c = true → size c ≤ max_size
  | Some j =>
      ∃ b, seen !! j = Some b ∧ fits sz b = true ∧ max_size = size b
           ∧ ∀ k c, seen !! k = Some c → fits sz c = true →
                    size c ≤ max_size ∧ ((k < j)%nat → size c < max_size)
  end.

End PlacementSpec.

Module UsageSpec.
Import MemoryManager.

(** The bytes in the blocks that pass a test. *)
Definition bytes (p : MemoryBlock → bool) (l : list MemoryBlock) : Z :=
  foldr (λ b n, (if p b then size b else 0) + n) 0 l.

Definition is_free (b : MemoryBlock) : bool := negb (is_allocated b).

End UsageSpec.

Module RoundTripSpec.
Import MemoryManager.

(** Free blocks carry the id -1. *)
Definition free_unnamed (l : list MemoryBlock) : Prop :=
  Forall (λ b, is_allocated b = false → block_id b = -1) l.

End RoundTripSpec.

(** ** More vocabulary: buddy allocator *)

Module ConservationSpec.
Import BuddyAllocator.

(** The bytes on one free list, on all free lists, and in the live
    allocations. *)
Definition list_bytes (l : list BuddyBlock) : Z :=
  foldr (λ blk n, size blk + n) 0 l.

Definition free_bytes (s : t) : Z :=
  foldr (λ l n, list_bytes l + n) 0 (free_lists s).

Definition allocated_bytes (s : t) : Z :=
  map_fold (λ (_ : Z) r n, actual_size r + n) 0 (allocated_blocks s).

(** The arena is 2^a bytes, the minimum block 2^b, there is one free list
    per order 0 .. a - b, a block on the list of order k has 2^(b+k)
    bytes, and so has a live allocation of order k.  There are at most 32
    orders: splitting and merging ask [getBlockSize] for the orders below
    the highest only, and up to order 30 its [int] shift is exact. *)
Record ordered (a b : Z) (s : t) : Prop := {
  ord_exp : 0 ≤ b ≤ a ∧ a ≤ 63 ∧ a - b ≤ 31;
  ord_total : total_memory s = 2 ^ a;
  ord_min : min_block_size s = 2 ^ b;
  ord_max : max_order s = a - b;
  ord_lists : length (free_lists s) = Z.to_nat (a - b + 1);
  ord_free : ∀ k blk,
    blk ∈ free_list s k → 0 ≤ k ≤ a - b → size blk = 2 ^ (b + k);
  ord_live : ∀ id r,
    allocated_blocks s !! id = Some r →
    0 ≤ order r ≤ a - b ∧ actual_size r = 2 ^ (b + order r);
  ord_keys : ∀ id, is_Some (allocated_blocks s !! id) → id < next_block_id s;
  ord_next : 1 ≤ next_block_id s }.

End ConservationSpec.

Module LedgerSpec.
Import BuddyAllocator.

(** What splitting and merging leave alone: the live allocations, the
    next id and the counters other than [splits] and [merges]. *)
Definition ledger (s : t)
    : gmap Z AllocationRecord * Z * Z * Z * Z * Z * Z :=
  (allocated_blocks s, next_block_id s, total_allocations s,
   total_deallocations s, successful_allocations s, failed_allocations s,
   total_internal_fragmentation s).

End LedgerSpec.

Module BalanceSpec.
Import BuddyAllocator ConservationSpec.

(** The sum of a quantity over the live allocations, and the bytes
    handed out beyond what was asked for. *)
Definition map_sum (g : AllocationRecord → Z) (m : gmap Z AllocationRecord)
    : Z :=
  map_fold (λ (_ : Z) r n, g r + n) 0 m.

Definition wasted_bytes (s : t) : Z :=
  map_sum (λ r, actual_size r - requested_size r) (allocated_blocks s).

(** Free and allocated bytes make up the arena, a live allocation holds
    its request, and the fragmentation counter is the waste. *)
Record balanced (a b : Z) (s : t) : Prop := {
  bal_ordered : ordered a b s;
  bal_bytes : free_bytes s + allocated_bytes s = 2 ^ a;
  bal_fit : ∀ id r,
    allocated_blocks s !! id = Some r →
    0 ≤ requested_size r ≤ actual_size r;
  bal_waste : total_internal_fragmentation s = wasted_bytes s }.

(** The record [allocate] files for a request rounded to 2^j. *)
Definition filed (b j requested : Z) (blk : BuddyBlock) : AllocationRecord :=
  {| record_address := address blk; requested_size := requested;
     actual_size := 2 ^ j; order := j - b |}.

(** A failed allocation: two counters move. *)
Definition refused (s : t) : t * Z :=
  fail (set_total_allocations (total_allocations s + 1) s).

End BalanceSpec.

Module RequestSpec.
Import BuddyAllocator.

(** A request is a [size_t]: not negative. *)
Definition natural (o : op) : Prop :=
  match o with Allocate requested => 0 ≤ requested | Deallocate _ => True end.

End RequestSpec.

Module CountSpec.
Import BuddyAllocator BuddySpec.

(** How the counters, the next id and the map of live allocations stand to
    each other. *)
Record counted (s : t) : Prop := {
  cnt_attempts :
    total_allocations s = successful_allocations s + failed_allocations s;
  cnt_next : next_block_id s = 1 + successful_allocations s;
  cnt_live :
    Z.of_nat (base.size (allocated_blocks s)) + total_deallocations s
    = successful_allocations s;
  cnt_keys : keys_below s;
  cnt_nonneg : 0 ≤ failed_allocations s ∧ 0 ≤ total_deallocations s }.

End CountSpec.

(** * Properties *)

(** ** Vectors *)

Section vectors.
Context {A : Type}.
Implicit Types (l : list A) (f : A → A) (i j : Z).

Lemma vget_valter f i j l :
  vget (valter f i l) j
  = if decide (i = j) then f <$> vget l j else vget l j.
Proof.
  unfold vget, valter.
  destruct (Z.ltb_spec i 0), (Z.ltb_spec j 0), (decide (i = j));
    try done; try lia.
  - subst. by rewrite list_lookup_alter_eq.
  - rewrite list_lookup_alter_ne; [done | lia].
Qed.

Lemma length_valter f i l : length (valter f i l) = length l.
Proof. unfold valter. case_match; [done | apply length_alter]. Qed.

Lemma Forall_valter (P : A → Prop) f i l :
  Forall P l → (∀ x, P x → P (f x)) → Forall P (valter f i l).
Proof.
  intros Hl Hf. unfold valter. case_match; [done|].
  apply Forall_alter; [done|]. intros x _. apply Hf.
Qed.
End vectors.

Section vectors_map.
Context {A B : Type}.
Lemma fmap_valter_id (g : A → B) (f : A → A) (i : Z) (l : list A) :
  (∀ x, g (f x) = g x) → g <$> valter f i l = g <$> l.
Proof.
  intros Hg. unfold valter. case_match; [done|].
  apply list_eq; intros k. rewrite !list_lookup_fmap.
  destruct (decide (k = Z.to_nat i)) as [->|].
  - rewrite list_lookup_alter_eq. destruct (l !! _); simpl; by rewrite ?Hg.
  - by rewrite list_lookup_alter_ne.
Qed.
End vectors_map.

(** ** Properties: cache level *)

Module CacheProofs.
Import Cache CacheSpec.

Lemma line_at_alter_line f s w c s' w' :
  line_at (alter_line f s w c) s' w'
  = if decide (s = s' ∧ w = w') then f <$> line_at c s' w'
    else line_at c s' w'.
Proof.
  unfold line_at, alter_line. simpl. rewrite vget_valter.
  destruct (decide (s = s')) as [->|].
  - destruct (vget (cache c) s') as [row|]; simpl.
    + rewrite vget_valter. destruct (decide (w = w')) as [->|].
      * rewrite decide_True; done.
      * rewrite decide_False; [done | tauto].
    + by case_decide.
  - rewrite decide_False; [done | tauto].
Qed.

Lemma find_hit_spec c s tg w :
  find_hit c s tg = Some w →
  ∃ l, line_at c s w = Some l ∧ line_hit tg l = true.
Proof.
  unfold find_hit. intros [_ H]%find_some. unfold line_field in H.
  destruct (line_at c s w) as [l|]; [eauto | done].
Qed.

(** C8.  [Cache::read] never inserts or evicts a line.  For every level
    state and address, after [read] the configuration and the write-side
    counters are as before, the access counter has grown by one, exactly
    one of [hits] and [misses] has grown by one, and the valid, tag, dirty
    and insertion-order fields of every line are unchanged; a line differs
    from what it was only on an LRU hit, and then it is the matched line,
    whose [last_access_time] is the new access counter. *)
Theorem read_changes_no_line (c : t) (address : Z) :
  let c' := (read c address).1 in
  let hit := (read c address).2 in
  (name c', capacity c', block_size c', associativity c',
   replacement_policy c', write_policy c', num_sets c', ways c')
  = (name c, capacity c, block_size c, associativity c,
     replacement_policy c, write_policy c, num_sets c, ways c)
  ∧ (next_insertion_order c', writes c', write_hits c', write_misses c',
     writebacks c')
    = (next_insertion_order c, writes c, write_hits c, write_misses c,
       writebacks c)
  ∧ access_counter c' = access_counter c + 1
  ∧ hits c' = hits c + (if hit then 1 else 0)
  ∧ misses c' = misses c + (if hit then 0 else 1)
  ∧ line_cores c' = line_cores c
  ∧ ∀ s w l l',
      line_at c s w = Some l → line_at c' s w = Some l' → l' ≠ l →
      hit = true ∧ replacement_policy c = LRU
      ∧ s = getSetIndex c address
      ∧ find_hit c s (getTag c address) = Some w
      ∧ l' = set_last_access_time (access_counter c + 1) l.
Proof.
  unfold read.
  change (getSetIndex (set_access_counter _ c)) with (getSetIndex c).
  change (getTag (set_access_counter _ c)) with (getTag c).
  change (find_hit (set_access_counter ?v c)) with (find_hit c).
  destruct (find_hit c _ _) as [way|] eqn:Hfind; simpl.
  - destruct (is_LRU (replacement_policy c)) eqn:Hpol; simpl.
    + split_and!; try done; try lia.
      * apply fmap_valter_id. intros row. by apply fmap_valter_id.
      * intros s w l l' H1 H2 Hne.
        rewrite line_at_alter_line in H2.
        change (line_at (set_hits _ _) s w) with (line_at c s w) in H2.
        rewrite H1 in H2. case_decide as Hsw; simplify_eq/=.
        destruct Hsw as [<- <-]. split_and!; try done.
        by destruct (replacement_policy c).
    + split_and!; try done; try lia. intros s w l l' H1 H2 Hne.
      change (line_at (set_hits _ _) s w) with (line_at c s w) in H2.
      congruence.
  - split_and!; try done; try lia. intros s w l l' H1 H2 Hne.
    change (line_at (set_misses _ _) s w) with (line_at c s w) in H2.
    congruence.
Qed.

Lemma all_clean_alter_line f s w c :
  (∀ l, dirty l = false → dirty (f l) = false) →
  all_clean c → all_clean (alter_line f s w c).
Proof.
  intros Hf Hc. unfold all_clean, alter_line. simpl.
  apply Forall_valter; [done|]. intros row Hrow.
  by apply Forall_valter.
Qed.

Lemma count_victim_writeback_wt s w c :
  write_policy c = WRITE_THROUGH → count_victim_writeback s w c = c.
Proof.
  intros Hwt. unfold count_victim_writeback.
  by rewrite Hwt, andb_false_r.
Qed.

Local Ltac clean_lines :=
  repeat (apply all_clean_alter_line; [by intros [] | ]); try done.

Lemma wt_inv_read c a : wt_inv c → wt_inv (read c a).1.
Proof.
  intros (Hwt & Hc & Hwb). unfold read.
  destruct (find_hit _ _ _); simpl; [|done].
  destruct (is_LRU _); simpl; [|done].
  split_and!; try done. clean_lines.
Qed.

Lemma wt_inv_write c a : wt_inv c → wt_inv (write c a).1.
Proof.
  intros (Hwt & Hc & Hwb). unfold write.
  destruct (find_hit _ _ _); simpl.
  - destruct (is_LRU _); simpl; rewrite Hwt; simpl; [|done].
    split_and!; try done. clean_lines.
  - rewrite count_victim_writeback_wt by done. simpl. rewrite Hwt. simpl.
    split_and!; try done. clean_lines.
Qed.

Lemma wt_inv_insert c a d : wt_inv c → wt_inv (insert c a d).
Proof.
  intros (Hwt & Hc & Hwb). unfold insert. rewrite Hwt. simpl.
  destruct (find_hit _ _ _); simpl.
  - destruct (is_LRU _); simpl; [|done].
    split_and!; try done. clean_lines.
  - rewrite count_victim_writeback_wt by done. simpl.
    split_and!; try done. clean_lines.
Qed.

Lemma wt_inv_evict c a : wt_inv c → wt_inv (evict c a).1.1.
Proof.
  intros (Hwt & Hc & Hwb). unfold evict.
  destruct (find_hit _ _ _); simpl; [|done].
  rewrite Hwt, andb_false_r. split_and!; try done. clean_lines.
Qed.

Lemma wt_inv_clear c : wt_inv c → wt_inv (clear c).
Proof.
  intros (Hwt & Hc & Hwb). unfold clear.
  generalize (s ← zrange 0 (num_sets c); (λ w, (s, w)) <$> zrange 0 (ways c)).
  intros l.
  assert (∀ c0, write_policy c0 = WRITE_THROUGH → all_clean c0 →
    let c1 := fold_left
      (λ c sw, alter_line (set_dirty false) sw.1 sw.2
                 (alter_line (set_valid false) sw.1 sw.2 c)) l c0 in
    write_policy c1 = WRITE_THROUGH ∧ all_clean c1) as Hfold.
  { induction l as [|sw l IH]; intros c0 H1 H2; simpl; [done|].
    apply IH; [done|]. clean_lines. }
  destruct (Hfold c Hwt Hc) as [H1 H2]. by split_and!.
Qed.

Lemma wt_inv_step c o : wt_inv c → wt_inv (step c o).
Proof.
  destruct o; simpl; auto using wt_inv_read, wt_inv_write, wt_inv_insert,
    wt_inv_evict, wt_inv_clear.
Qed.

Lemma wt_inv_run ops c : wt_inv c → wt_inv (run c ops).
Proof.
  revert c. induction ops as [|o ops IH]; intros c Hc; [done|].
  apply IH. by apply wt_inv_step.
Qed.

Lemma wt_inv_new nm lines blk assoc repl :
  wt_inv (new nm lines blk assoc repl WRITE_THROUGH).
Proof.
  unfold wt_inv, all_clean, new.
  destruct assoc; cbn -[replicate Z.to_nat]; split_and!; try done;
    apply Forall_replicate, Forall_replicate; done.
Qed.

(** C6.  In a level constructed with the WRITE_THROUGH policy, after any
    sequence of read, write, insert, evict and clear operations no line
    is dirty and [writebacks] is 0. *)
Theorem write_through_level_never_dirty
    (nm : string) (lines blk : Z) (assoc : AssociativityType)
    (repl : ReplacementPolicy) (ops : list op) :
  let c := run (new nm lines blk assoc repl WRITE_THROUGH) ops in
  (∀ s w l, line_at c s w = Some l → dirty l = false)
  ∧ writebacks c = 0.
Proof.
  destruct (wt_inv_run ops _ (wt_inv_new nm lines blk assoc repl))
    as (_ & Hc & Hwb).
  split; [|done]. intros s w l Hl. unfold line_at, vget in Hl.
  repeat case_match; simplify_option_eq.
  destruct (cache _ !! _) as [row|] eqn:Hrow; simplify_eq/=.
  eapply Forall_lookup_1 in Hrow; [|exact Hc].
  eapply Forall_lookup_1 in Hrow; [|exact Hl]. done.
Qed.

Lemma find_ext {A} (p q : A → bool) (l : list A) :
  (∀ x, p x = q x) → find p l = find q l.
Proof. intros H. induction l as [|x l IH]; simpl; [done|]. by rewrite H, IH. Qed.

Lemma find_hit_alter_line f s w c s' tg :
  (∀ l, line_hit tg (f l) = line_hit tg l) →
  find_hit (alter_line f s w c) s' tg = find_hit c s' tg.
Proof.
  intros Hf. unfold find_hit. apply find_ext. intros w'.
  unfold line_field. rewrite line_at_alter_line.
  case_decide; [|done]. destruct (line_at c s' w'); simpl; [apply Hf|done].
Qed.

Lemma write_hit c a : (write c a).2 = holds c a.
Proof.
  unfold write, holds.
  change (find_hit (set_writes _ _) (getSetIndex (set_writes _ _) a)
            (getTag (set_writes _ _) a))
    with (find_hit c (getSetIndex c a) (getTag c a)).
  destruct (find_hit c _ _); done.
Qed.

Lemma write_hit_dirty c a :
  holds c a = true → is_WB (write_policy c) = true →
  holds_dirty (write c a).1 a = true.
Proof.
  unfold holds. intros [way Hway]%bool_decide_eq_true Hwb.
  destruct (find_hit_spec _ _ _ _ Hway) as (l & Hl & Hhit).
  unfold write.
  change (find_hit (set_writes _ _) (getSetIndex (set_writes _ _) a)
            (getTag (set_writes _ _) a))
    with (find_hit c (getSetIndex c a) (getTag c a)).
  rewrite Hway.
  change (getSetIndex (set_writes _ _) a) with (getSetIndex c a).
  cbn zeta.
  set (c1 := set_hits _ _).
  set (c2 := if is_LRU _ then _ else _).
  assert (write_policy c2 = write_policy c
          ∧ getSetIndex c2 a = getSetIndex c a
          ∧ getTag c2 a = getTag c a
          ∧ find_hit c2 (getSetIndex c a) (getTag c a) = Some way
          ∧ ∃ l2, line_at c2 (getSetIndex c a) way = Some l2) as (E1&E2&E3&E4&l2&E5).
  { subst c2. destruct (is_LRU _).
    - split_and!; try done.
      + rewrite find_hit_alter_line; done.
      + rewrite line_at_alter_line. subst c1.
        change (line_at (set_hits _ _)) with (line_at c). rewrite Hl.
        case_decide; eauto.
    - split_and!; try done. by exists l. }
  rewrite E1, Hwb. simpl. unfold holds_dirty.
  change (getSetIndex (alter_line _ _ _ c2) a) with (getSetIndex c2 a).
  change (getTag (alter_line _ _ _ c2) a) with (getTag c2 a).
  rewrite E2, E3, find_hit_alter_line, E4 by done.
  unfold line_field. rewrite line_at_alter_line, E5.
  rewrite decide_True by done. done.
Qed.

Lemma write_policy_count_victim_writeback s w c :
  write_policy (count_victim_writeback s w c) = write_policy c.
Proof. unfold count_victim_writeback. by case_match. Qed.

Lemma write_policy_write c a : write_policy (write c a).1 = write_policy c.
Proof.
  unfold write. destruct (find_hit _ _ _); cbn [fst].
  - destruct (is_LRU _); cbn -[alter_line];
      destruct (is_WB _); reflexivity.
  - cbv zeta. cbn [fst].
    match goal with |- context [count_victim_writeback ?s ?w ?c0] =>
      transitivity (write_policy (count_victim_writeback s w c0));
      [reflexivity | exact (write_policy_count_victim_writeback s w c0)]
    end.
Qed.

Lemma write_policy_insert c a d : write_policy (insert c a d) = write_policy c.
Proof.
  unfold insert. destruct (find_hit _ _ _).
  - destruct (is_LRU _), (if is_WB _ then d else false); reflexivity.
  - cbv zeta. cbn [fst].
    match goal with |- context [count_victim_writeback ?s ?w ?c0] =>
      transitivity (write_policy (count_victim_writeback s w c0));
      [reflexivity | exact (write_policy_count_victim_writeback s w c0)]
    end.
Qed.

End CacheProofs.

(** ** Properties: cache hierarchy *)

Module HierarchyProofs.
Import Cache CacheHierarchy CacheSpec HierarchySpec CacheProofs.

(** The dirty bit of the line that a write hits: set when the level is
    write-back, left as it was when the level is write-through. *)
Lemma write_hit_dirty_eq c a :
  holds c a = true →
  holds_dirty (Cache.write c a).1 a
  = holds_dirty c a || is_WB (write_policy c).
Proof.
  unfold holds. intros [way Hway]%bool_decide_eq_true.
  destruct (find_hit_spec _ _ _ _ Hway) as (l & Hl & Hhit).
  unfold Cache.write.
  change (find_hit (set_writes _ _) (getSetIndex (set_writes _ _) a)
            (getTag (set_writes _ _) a))
    with (find_hit c (getSetIndex c a) (getTag c a)).
  rewrite Hway.
  change (getSetIndex (set_writes _ _) a) with (getSetIndex c a).
  cbn zeta.
  set (c1 := set_hits _ _).
  set (c2 := if is_LRU _ then _ else _).
  assert (write_policy c2 = write_policy c
          ∧ getSetIndex c2 a = getSetIndex c a
          ∧ getTag c2 a = getTag c a
          ∧ find_hit c2 (getSetIndex c a) (getTag c a) = Some way
          ∧ ∃ l2, line_at c2 (getSetIndex c a) way = Some l2
                  ∧ dirty l2 = dirty l) as (E1&E2&E3&E4&l2&E5&E6).
  { subst c2. destruct (is_LRU _).
    - split_and!; try done.
      + rewrite find_hit_alter_line; done.
      + rewrite line_at_alter_line. subst c1.
        change (line_at (set_hits _ _)) with (line_at c). rewrite Hl.
        case_decide; eauto.
    - split_and!; try done. by exists l. }
  assert (holds_dirty c a = dirty l) as ->.
  { unfold holds_dirty. rewrite Hway. unfold line_field. by rewrite Hl. }
  rewrite E1. destruct (is_WB (write_policy c)) eqn:Hwb; cbn [fst].
  - rewrite orb_true_r. unfold holds_dirty.
    change (getSetIndex (alter_line _ _ _ c2) a) with (getSetIndex c2 a).
    change (getTag (alter_line _ _ _ c2) a) with (getTag c2 a).
    rewrite E2, E3, find_hit_alter_line, E4 by done.
    unfold line_field. rewrite line_at_alter_line, E5.
    rewrite decide_True by done. done.
  - rewrite orb_false_r. unfold holds_dirty. rewrite E2, E3, E4.
    unfold line_field. by rewrite E5.
Qed.

(** The counters of the write path, and the dirty bit under write-back. *)
Lemma write_path_counters (h : t) (address : Z) (verbose : bool) :
  let wb := is_WB (write_policy (l1 h)) in
  let h' := (write h address verbose).1 in
  let mem := (write h address verbose).2 in
  match hit_level h address with
  | Some k =>
      mem = false
      ∧ memory_accesses h' = memory_accesses h
      ∧ memory_writes h' = memory_writes h + (if wb then 0 else 1)
      ∧ (wb = true →
         ∀ ck, level k h = Some ck → is_WB (write_policy ck) = true →
         ∃ ck', level k h' = Some ck' ∧ holds_dirty ck' address = true)
  | None =>
      mem = true
      ∧ memory_accesses h' = memory_accesses h + 1
      ∧ total_penalty_cycles h'
        = total_penalty_cycles h
          + (l1_penalty h
             + (if has_l2 h then l2_penalty h else 0)
             + (if has_l3 h then l3_penalty h else 0)
             + memory_penalty h)
      ∧ memory_writes h' = memory_writes h + (if wb then 0 else 1)
      ∧ l1 h' = Cache.insert (Cache.write (l1 h) address).1 address wb
      ∧ l2 h'
        = (λ c, Cache.insert (Cache.write c address).1 address wb) <$> l2 h
      ∧ l3 h'
        = (λ c, Cache.insert (Cache.write c address).1 address wb) <$> l3 h
  end.
Proof.
  unfold hit_level, write, holds_opt, has_l2, has_l3, getWritePolicy, finish,
    insert_opt.
  cbn zeta.
  change (l1 (set_total_writes _ _)) with (l1 h).
  pose proof (write_hit (l1 h) address) as H1.
  pose proof (write_hit_dirty (l1 h) address) as D1.
  pose proof (write_policy_write (l1 h) address) as P1.
  destruct (Cache.write (l1 h) address) as [c1 hit1]. simpl in H1, D1, P1.
  rewrite <- H1, ?P1.
  destruct (is_WB (write_policy (l1 h))) eqn:Hwb;
  (destruct hit1; simpl; rewrite ?P1, ?Hwb; simpl;
   [ split_and!; try done; try lia;
     intros _ ck Hk Hck; simplify_eq; eauto | ]);
  (destruct (l2 h) as [c2|] eqn:Hl2; simpl;
   [ pose proof (write_hit c2 address) as H2;
     pose proof (write_hit_dirty c2 address) as D2;
     destruct (Cache.write c2 address) as [c2' hit2]; simpl in H2, D2;
     rewrite <- H2; destruct hit2; simpl; rewrite ?P1, ?Hwb; simpl;
     [ split_and!; try done; try lia;
       intros _ ck Hk Hck; simplify_eq; eauto | ]
   | ]);
  (destruct (l3 h) as [c3|] eqn:Hl3; simpl;
   [ pose proof (write_hit c3 address) as H3;
     pose proof (write_hit_dirty c3 address) as D3;
     destruct (Cache.write c3 address) as [c3' hit3]; simpl in H3, D3;
     rewrite <- H3; destruct hit3; simpl; rewrite ?P1, ?Hwb; simpl;
     [ split_and!; try done; try lia;
       intros _ ck Hk Hck; simplify_eq; eauto | ]
   | ]);
  rewrite ?bool_decide_eq_true_2, ?bool_decide_eq_false_2
    by (try (by eexists); by intros [??]);
  split_and!; try done; lia.
Qed.

(** The level that serves a write is written once and not filled. *)
Lemma write_hit_level h address verbose k ck :
  hit_level h address = Some k → level k h = Some ck →
  holds ck address = true
  ∧ level k (write h address verbose).1 = Some (Cache.write ck address).1.
Proof.
  unfold hit_level, write, holds_opt, getWritePolicy, finish, insert_opt.
  cbn zeta.
  change (l1 (set_total_writes _ _)) with (l1 h).
  pose proof (write_hit (l1 h) address) as H1.
  destruct (Cache.write (l1 h) address) as [c1 hit1] eqn:E1. simpl in H1.
  destruct (holds (l1 h) address) eqn:Hh1; subst hit1; simpl.
  { intros [= <-] [= <-]. rewrite E1. split; [done|].
    by destruct (is_WB (write_policy c1)). }
  destruct (l2 h) as [c2|] eqn:Hl2; simpl.
  - pose proof (write_hit c2 address) as H2.
    destruct (Cache.write c2 address) as [c2' hit2] eqn:E2. simpl in H2.
    destruct (holds c2 address) eqn:Hh2; subst hit2; simpl.
    { intros [= <-]. simpl. rewrite Hl2. intros [= <-]. rewrite E2.
      split; [done|]. by destruct (is_WB (write_policy c1)). }
    destruct (l3 h) as [c3|] eqn:Hl3; simpl; [|done].
    pose proof (write_hit c3 address) as H3.
    destruct (Cache.write c3 address) as [c3' hit3] eqn:E3. simpl in H3.
    destruct (holds c3 address) eqn:Hh3; subst hit3; simpl; [|done].
    intros [= <-]. simpl. rewrite Hl3. intros [= <-]. rewrite E3.
    split; [done|]. by destruct (is_WB (write_policy c1)).
  - destruct (l3 h) as [c3|] eqn:Hl3; simpl; [|done].
    pose proof (write_hit c3 address) as H3.
    destruct (Cache.write c3 address) as [c3' hit3] eqn:E3. simpl in H3.
    destruct (holds c3 address) eqn:Hh3; subst hit3; simpl; [|done].
    intros [= <-]. simpl. rewrite Hl3. intros [= <-]. rewrite E3.
    split; [done|]. by destruct (is_WB (write_policy c1)).
Qed.

(** C1, as amended.  A write that hits at L1, L2 or L3 reads nothing from
    memory and increments [memory_writes] exactly when L1 is
    write-through; when L1 is write-back the write is not counted, and the
    line at the topmost hit level ends dirty provided that level is itself
    write-back.  Whatever L1 is, the level that serves the write is
    written once, and the dirty bit of the line is set when that level is
    write-back and left as it was when it is write-through: a
    write-through level that hits keeps a clean line clean.  On a total
    miss [memory_accesses] grows by one, the penalty of every present
    level and [memory_penalty] are added to [total_penalty_cycles],
    [memory_writes] grows exactly when L1 is write-through, and every
    present level is passed to [insert] with [is_dirty] equal to "L1 is
    write-back" after its own [write] has run. *)
Theorem write_path_memory_traffic (h : t) (address : Z) (verbose : bool) :
  let wb := is_WB (write_policy (l1 h)) in
  let h' := (write h address verbose).1 in
  let mem := (write h address verbose).2 in
  match hit_level h address with
  | Some k =>
      mem = false
      ∧ memory_accesses h' = memory_accesses h
      ∧ memory_writes h' = memory_writes h + (if wb then 0 else 1)
      ∧ (wb = true →
         ∀ ck, level k h = Some ck → is_WB (write_policy ck) = true →
         ∃ ck', level k h' = Some ck' ∧ holds_dirty ck' address = true)
      ∧ (∀ ck, level k h = Some ck →
         ∃ ck', level k h' = Some ck' ∧ holds ck address = true
                ∧ holds_dirty ck' address
                  = holds_dirty ck address || is_WB (write_policy ck))
  | None =>
      mem = true
      ∧ memory_accesses h' = memory_accesses h + 1
      ∧ total_penalty_cycles h'
        = total_penalty_cycles h
          + (l1_penalty h
             + (if has_l2 h then l2_penalty h else 0)
             + (if has_l3 h then l3_penalty h else 0)
             + memory_penalty h)
      ∧ memory_writes h' = memory_writes h + (if wb then 0 else 1)
      ∧ l1 h' = Cache.insert (Cache.write (l1 h) address).1 address wb
      ∧ l2 h'
        = (λ c, Cache.insert (Cache.write c address).1 address wb) <$> l2 h
      ∧ l3 h'
        = (λ c, Cache.insert (Cache.write c address).1 address wb) <$> l3 h
  end.
Proof.
  pose proof (write_path_counters h address verbose) as H. cbv zeta in *.
  destruct (hit_level h address) as [k|] eqn:Hk; [|exact H].
  destruct H as (A & B & C & D). split_and!; try done.
  intros ck Hck.
  destruct (write_hit_level h address verbose k ck Hk Hck) as [Hh Hl].
  exists (Cache.write ck address).1. split; [exact Hl|]. split; [exact Hh|].
  by apply write_hit_dirty_eq.
Qed.

(** C1, counterexample.  L1 write-back over a write-through L2 that holds
    block 0 while L1 does not: the write hits at L2, is not counted in
    [memory_writes], and the line of the hit level stays clean. *)
Lemma write_hit_in_write_through_L2_leaves_no_dirty_bit :
  is_WB (write_policy (l1 mixed_hierarchy)) = true
  ∧ hit_level mixed_hierarchy 0 = Some 2%nat
  ∧ memory_writes (write mixed_hierarchy 0 false).1
    = memory_writes mixed_hierarchy
  ∧ ∃ c2, level 2 (write mixed_hierarchy 0 false).1 = Some c2
          ∧ holds c2 0 = true ∧ holds_dirty c2 0 = false.
Proof. vm_compute. split_and!; try done. eexists. split_and!; done. Qed.

(** C3, counterexample.  With L3 present a total miss costs
    1 + 10 + 50 + 100 cycles, so the three reads do not add up to
    (100+11) + (100+11) + (1+10). *)
Lemma three_level_refill_penalty_is_not_233 :
  total_penalty_cycles
    (refill_run (refill_start DIRECT_MAPPED DIRECT_MAPPED DIRECT_MAPPED
                   LRU LRU LRU) true)
  ≠ (100 + 11) + (100 + 11) + (1 + 10).
Proof. vm_compute. done. Qed.

(** C3, as amended.  L1 = 1 line, L2 = 2 lines, L3 = 4 lines, block size
    64, all write-back, any replacement policies and any associativity
    that leaves each level at least one set.  After read 0; read 64 the
    third read misses L1 and hits L2; the counters end at [l1_hits = 0],
    [l2_hits = 1], [memory_accesses = 2] and
    [total_penalty_cycles = 161 + 161 + 11], and L1 holds block 0 again. *)
Theorem three_level_refill (a1 a2 a3 : AssociativityType)
    (r1 r2 r3 : ReplacementPolicy) (v : bool) :
  a1 ≠ TWO_WAY → a1 ≠ FOUR_WAY → a2 ≠ FOUR_WAY →
  let h2 := (read (read (refill_start a1 a2 a3 r1 r2 r3) 0 v).1 64 v).1 in
  let h3 := refill_run (refill_start a1 a2 a3 r1 r2 r3) v in
  holds (l1 h2) 0 = false
  ∧ holds_opt (l2 h2) 0 = true
  ∧ (read h2 0 v).2 = false
  ∧ l1_hits h3 = 0 ∧ l2_hits h3 = 1 ∧ l3_hits h3 = 0
  ∧ memory_accesses h3 = 2
  ∧ total_penalty_cycles h3
    = (1 + 10 + 50 + 100) + (1 + 10 + 50 + 100) + (1 + 10)
  ∧ holds (l1 h3) 0 = true.
Proof.
  intros H1 H2 H3.
  destruct a1; try done; destruct a2; try done; destruct a3, r1, r2, r3, v;
    vm_compute; split_and!; reflexivity.
Qed.

Lemma three_level_refill_witness :
  DIRECT_MAPPED ≠ TWO_WAY ∧ DIRECT_MAPPED ≠ FOUR_WAY ∧ TWO_WAY ≠ FOUR_WAY
  ∧ l1_hits
      (refill_run
         (refill_start DIRECT_MAPPED TWO_WAY FOUR_WAY FIFO LRU FIFO) false)
    = 0
  ∧ l2_hits
      (refill_run
         (refill_start DIRECT_MAPPED TWO_WAY FOUR_WAY FIFO LRU FIFO) false)
    = 1
  ∧ total_penalty_cycles
      (refill_run
         (refill_start DIRECT_MAPPED TWO_WAY FOUR_WAY FIFO LRU FIFO) false)
    = 333.
Proof.
  assert (DIRECT_MAPPED ≠ TWO_WAY) as H1 by discriminate.
  assert (DIRECT_MAPPED ≠ FOUR_WAY) as H2 by discriminate.
  assert (TWO_WAY ≠ FOUR_WAY) as H3 by discriminate.
  pose proof (three_level_refill DIRECT_MAPPED TWO_WAY FOUR_WAY FIFO LRU FIFO
                false H1 H2 H3) as H.
  cbv zeta in H. destruct H as (_ & _ & _ & E1 & E2 & _ & _ & E3 & _).
  split; [exact H1|]. split; [exact H2|]. split; [exact H3|].
  split; [exact E1|]. split; [exact E2 | exact E3].
Defined.

End HierarchyProofs.

(** ** Properties: virtual memory *)

Module VMProofs.
Import VirtualMemorySimulator VMSpec.

(** *** No page is ever dirty *)

Lemma pte_clean s p :
  Forall (λ e, dirty e = false) (page_table s) → dirty (pte s p) = false.
Proof.
  intros Hs. unfold pte, vget. destruct (p <? 0); [done|].
  destruct (page_table s !! Z.to_nat p) as [e|] eqn:He; [|done].
  simpl. exact (Forall_lookup_1 _ _ _ _ Hs He).
Qed.

Lemma clean_alter_pte f p s :
  (∀ e, dirty e = false → dirty (f e) = false) →
  Forall (λ e, dirty e = false) (page_table s) →
  Forall (λ e, dirty e = false) (page_table (alter_pte f p s)).
Proof. intros Hf Hs. unfold alter_pte. simpl. by apply Forall_valter. Qed.

Local Ltac clean_entries :=
  repeat (apply clean_alter_pte; [by intros [] | ]); try done.

Lemma vm_clean_evictPage s p : vm_clean s → vm_clean (evictPage s p).1.
Proof.
  intros [Ht Hw]. unfold evictPage.
  destruct (valid (pte s p)); simpl; [|done].
  rewrite (pte_clean s p Ht).
  destruct (verbose s); simpl; rewrite (pte_clean s p Ht);
    (split; [clean_entries | done]).
Qed.

Lemma vm_clean_loadPage s p f : vm_clean s → vm_clean (loadPage s p f).
Proof. intros [Ht Hw]. unfold loadPage. split; [clean_entries | done]. Qed.

Lemma vm_clean_handlePageFault s p :
  vm_clean s → vm_clean (handlePageFault s p).
Proof.
  intros Hs. unfold handlePageFault.
  destruct (findFreeFrame s =? -1); [|by apply vm_clean_loadPage].
  destruct (selectVictimPage s =? -1); [done|].
  pose proof (vm_clean_evictPage s (selectVictimPage s) Hs) as He.
  destruct (evictPage s (selectVictimPage s)) as [s' fr].
  by apply vm_clean_loadPage.
Qed.

Lemma vm_clean_translateAddress s va :
  vm_clean s → vm_clean (translateAddress s va).1.
Proof.
  intros [Ht Hw]. unfold translateAddress.
  case_match; simpl; [done|].
  case_match; simpl.
  - split; [clean_entries | done].
  - by apply vm_clean_handlePageFault.
Qed.

Lemma vm_clean_reset s : vm_clean s → vm_clean (reset s).
Proof.
  intros [Ht _]. unfold reset, clearStats. split; [|done]. simpl.
  set (s1 := fold_left _ (zrange 0 (num_virtual_pages s)) s).
  assert (Forall (λ e, dirty e = false) (page_table s1)) as H1.
  { subst s1. generalize (zrange 0 (num_virtual_pages s)). intros l.
    revert s Ht. induction l as [|i l IH]; intros s Ht; simpl; [done|].
    apply IH. by apply clean_alter_pte. }
  clearbody s1. generalize (zrange 0 (num_physical_frames s1)). intros l.
  revert s1 H1. induction l as [|i l IH]; intros s1 H1; simpl; [done|].
  by apply IH.
Qed.

Lemma vm_clean_step s o : vm_clean s → vm_clean (step s o).
Proof.
  intros Hs. destruct o; simpl.
  - by apply vm_clean_translateAddress.
  - by apply vm_clean_translateAddress.
  - unfold setReplacementPolicy. repeat case_match; done.
  - done.
  - by destruct Hs.
  - by apply vm_clean_reset.
Qed.

Lemma vm_clean_run ops s : vm_clean s → vm_clean (run s ops).
Proof.
  revert s. induction ops as [|o ops IH]; intros s Hs; [done|].
  apply IH. by apply vm_clean_step.
Qed.

Lemma vm_clean_new vm pm pg pol : vm_clean (new vm pm pg pol).
Proof. split; [|done]. simpl. by apply Forall_replicate. Qed.

(** C9.  No operation of the simulator sets a dirty bit: after any
    sequence of public operations on a fresh simulator every page-table
    entry is clean, so [evictPage] never meets a dirty page, and
    [disk_writes] is 0. *)
Theorem no_page_is_ever_dirty (vm_size pm_size pg_size : Z)
    (policy_str : string) (ops : list op) :
  let s := run (new vm_size pm_size pg_size policy_str) ops in
  Forall (λ e, dirty e = false) (page_table s)
  ∧ (∀ page_number, dirty (pte s page_number) = false)
  ∧ disk_writes s = 0.
Proof.
  destruct (vm_clean_run ops _ (vm_clean_new vm_size pm_size pg_size
                                  policy_str)) as [Ht Hw].
  split_and!; [done | | done]. intros p. by apply pte_clean.
Qed.

(** *** Counting accesses *)

Lemma handlePageFault_counters s p :
  let s' := handlePageFault s p in
  page_hits s' = page_hits s ∧ page_faults s' = page_faults s
  ∧ total_accesses s' = total_accesses s
  ∧ virtual_memory_size s' = virtual_memory_size s.
Proof.
  unfold handlePageFault, evictPage, loadPage.
  repeat (case_match; simpl in *; simplify_eq; try done).
Qed.

Lemma translateAddress_counters s va :
  let s' := (translateAddress s va).1 in
  total_accesses s' = total_accesses s + 1
  ∧ page_hits s' + page_faults s'
    = page_hits s + page_faults s + (if out_of_range s va then 0 else 1)
  ∧ virtual_memory_size s' = virtual_memory_size s.
Proof.
  unfold translateAddress, out_of_range. simpl.
  destruct (virtual_memory_size s <=? va); simpl.
  { split_and!; try done. lia. }
  case_match; simpl; [split_and!; try done; lia|].
  match goal with |- context [handlePageFault ?s0 ?p] =>
    destruct (handlePageFault_counters s0 p) as (-> & -> & -> & ->) end.
  simpl. split_and!; try done; lia.
Qed.

Lemma translate_all_cons s va vas :
  translate_all s (va :: vas) = translate_all (translateAddress s va).1 vas.
Proof. done. Qed.

Lemma translate_all_counters vas s :
  total_accesses (translate_all s vas)
  = total_accesses s + Z.of_nat (length vas)
  ∧ page_hits (translate_all s vas) + page_faults (translate_all s vas)
    = page_hits s + page_faults s
      + Z.of_nat (length (filter (λ va, out_of_range s va = false) vas))
  ∧ virtual_memory_size (translate_all s vas) = virtual_memory_size s.
Proof.
  revert s. induction vas as [|va vas IH]; intros s.
  { unfold translate_all, run. simpl. split_and!; try done; lia. }
  rewrite translate_all_cons.
  destruct (translateAddress_counters s va) as (E1 & E2 & E3).
  destruct (IH (translateAddress s va).1) as (F1 & F2 & F3).
  rewrite F1, F2, F3, E1, E2, E3.
  assert (∀ l, filter (λ va0, out_of_range (translateAddress s va).1 va0 = false) l
             = filter (λ va0, out_of_range s va0 = false) l) as ->.
  { intros l. apply list_filter_iff. intros x. unfold out_of_range.
    by rewrite E3. }
  rewrite filter_cons. destruct (out_of_range s va); simpl;
    split_and!; try done; lia.
Qed.

(** C5, counterexample.  One call at [virtual_memory_size] is counted in
    [total_accesses] but is neither a hit nor a fault. *)
Lemma out_of_range_call_breaks_hits_plus_faults :
  let s := (translateAddress (new 16 8 4 "fifo") 16).1 in
  page_hits s + page_faults s ≠ total_accesses s.
Proof. vm_compute. done. Qed.

Lemma in_range_split (bound : Z) (vas : list Z) :
  Z.of_nat (length (filter (λ va, (bound <=? va) = false) vas))
  + Z.of_nat (length (filter (λ va, bound ≤ va) vas))
  = Z.of_nat (length vas).
Proof.
  induction vas as [|va vas IH]; [done|].
  rewrite !filter_cons. destruct (Z.leb_spec bound va); simpl.
  - rewrite decide_True by done. simpl. lia.
  - rewrite decide_False by lia. simpl. lia.
Qed.

(** C5, as amended.  After any sequence of [translateAddress] calls on a
    fresh simulator, [page_hits + page_faults] plus the number of calls at
    or beyond [virtual_memory_size] is [total_accesses]; the two sides of
    the original equation agree when every address was in range. *)
Theorem hits_plus_faults_counts_in_range_calls
    (vm_size pm_size pg_size : Z) (policy_str : string) (vas : list Z) :
  let s := translate_all (new vm_size pm_size pg_size policy_str) vas in
  page_hits s + page_faults s
    + Z.of_nat (length (filter (λ va, vm_size ≤ va) vas))
  = total_accesses s
  ∧ (Forall (λ va, va < vm_size) vas →
     page_hits s + page_faults s = total_accesses s).
Proof.
  destruct (translate_all_counters vas (new vm_size pm_size pg_size policy_str))
    as (E1 & E2 & _).
  unfold out_of_range in E2. simpl in E1, E2.
  pose proof (in_range_split vm_size vas) as Hsplit.
  cbv zeta. split; [lia|]. intros Hall.
  assert (filter (λ va, vm_size ≤ va) vas = []) as Hnone.
  { clear -Hall. induction Hall as [|va vas Hva _ IH]; [done|].
    rewrite filter_cons, decide_False by lia. done. }
  rewrite Hnone in Hsplit. simpl in Hsplit. lia.
Qed.

(** *** Dirty evictions and the verbose flag *)

(** The verbose branch of [evictPage] holds a second [disk_writes++].
    On a state whose entry has been marked dirty by hand, [evictPage] adds
    2 to [disk_writes] when [verbose] is set and 1 when it is not.  No
    operation of the simulator marks an entry dirty, so no run reaches
    such a state. *)
Lemma dirty_eviction_counted_twice_when_verbose :
  valid (pte dirty_resident 0) = true
  ∧ dirty (pte dirty_resident 0) = true
  ∧ disk_writes (evictPage (setVerbose dirty_resident true) 0).1
    = disk_writes dirty_resident + 2
  ∧ disk_writes (evictPage (setVerbose dirty_resident false) 0).1
    = disk_writes dirty_resident + 1
  ∧ disk_writes (translateAddress (setVerbose dirty_resident true) 4).1 = 2
  ∧ disk_writes (translateAddress (setVerbose dirty_resident false) 4).1 = 1.
Proof. vm_compute. split_and!; reflexivity. Qed.

Lemma evictPage_clean s p :
  dirty (pte s p) = false → evictPage s p = evict_clean s p.
Proof.
  intros Hd. unfold evictPage, evict_clean.
  destruct (valid (pte s p)); [|done]. cbn [negb]. rewrite Hd.
  destruct (verbose s); rewrite Hd; reflexivity.
Qed.

Lemma evictPage_setVerbose s p v :
  vm_clean s →
  evictPage (setVerbose s v) p
  = (setVerbose (evictPage s p).1 v, (evictPage s p).2).
Proof.
  intros [Ht _]. pose proof (pte_clean s p Ht) as Hd.
  rewrite (evictPage_clean s p Hd), (evictPage_clean (setVerbose s v) p Hd).
  unfold evict_clean. change (pte (setVerbose s v) p) with (pte s p).
  destruct (valid (pte s p)); reflexivity.
Qed.

Lemma loadPage_setVerbose s p f v :
  loadPage (setVerbose s v) p f = setVerbose (loadPage s p f) v.
Proof. reflexivity. Qed.

Lemma handlePageFault_setVerbose s p v :
  vm_clean s →
  handlePageFault (setVerbose s v) p = setVerbose (handlePageFault s p) v.
Proof.
  intros Hs. unfold handlePageFault.
  change (findFreeFrame (setVerbose s v)) with (findFreeFrame s).
  change (selectVictimPage (setVerbose s v)) with (selectVictimPage s).
  destruct (findFreeFrame s =? -1); [|apply loadPage_setVerbose].
  destruct (selectVictimPage s =? -1); [done|].
  rewrite evictPage_setVerbose by done.
  destruct (evictPage s (selectVictimPage s)) as [s' fr]. simpl.
  apply loadPage_setVerbose.
Qed.

Lemma translateAddress_setVerbose s va v :
  vm_clean s →
  (translateAddress (setVerbose s v) va).1
  = setVerbose (translateAddress s va).1 v.
Proof.
  intros [Ht Hw]. unfold translateAddress.
  change (virtual_memory_size (set_current_time _ (set_total_accesses _
           (setVerbose s v)))) with (virtual_memory_size s).
  change (virtual_memory_size (set_current_time _ (set_total_accesses _ s)))
    with (virtual_memory_size s).
  destruct (virtual_memory_size s <=? va); [reflexivity|].
  match goal with |- context [valid (pte ?x ?p)] =>
    change (valid (pte x p)) with
      (valid (pte s (to_int (va / page_size s)))) end.
  cbv zeta.
  change (pte (set_current_time _ (set_total_accesses _ s)) ?p)
    with (pte s p).
  destruct (valid (pte s _)); [reflexivity|]. cbn [fst].
  match goal with |- handlePageFault ?x ?p = setVerbose (handlePageFault ?y _) _ =>
    change x with (setVerbose y v) end.
  apply handlePageFault_setVerbose. split; done.
Qed.

Lemma reset_setVerbose s v : reset (setVerbose s v) = setVerbose (reset s) v.
Proof.
  unfold reset.
  change (num_virtual_pages (setVerbose s v)) with (num_virtual_pages s).
  set (f := λ s i, alter_pte (λ _, PageTableEntry_new) i s).
  set (g := λ s i, set_frame_used _ (set_frame_to_page _ s)).
  assert (∀ l s, fold_left f l (setVerbose s v)
                 = setVerbose (fold_left f l s) v) as Hf.
  { induction l as [|i l IH]; intros s0; simpl; [done|]. by rewrite <- IH. }
  assert (∀ l s, fold_left g l (setVerbose s v)
                 = setVerbose (fold_left g l s) v) as Hg.
  { induction l as [|i l IH]; intros s0; simpl; [done|]. by rewrite <- IH. }
  rewrite Hf.
  change (num_physical_frames (setVerbose ?x v)) with (num_physical_frames x).
  by rewrite Hg.
Qed.

Lemma step_setVerbose s o v :
  vm_clean s → keeps_verbose o = true →
  step (setVerbose s v) o = setVerbose (step s o) v.
Proof.
  intros Hs Ho. destruct o; simpl; try done.
  - by apply translateAddress_setVerbose.
  - by apply translateAddress_setVerbose.
  - unfold setReplacementPolicy. by repeat case_match.
  - apply reset_setVerbose.
Qed.

Lemma run_setVerbose ops s v :
  vm_clean s → forallb keeps_verbose ops = true →
  run (setVerbose s v) ops = setVerbose (run s ops) v.
Proof.
  revert s. induction ops as [|o ops IH]; intros s Hs Hops; [done|].
  simpl in Hops. apply andb_true_iff in Hops as [Ho Hops].
  unfold run in *. simpl. rewrite step_setVerbose by done.
  apply IH; [|done]. by apply vm_clean_step.
Qed.

(** From a fresh simulator no page is ever dirty, so the doubled
    increment is never executed and the two runs agree. *)
Lemma verbose_runs_agree_from_fresh (vm_size pm_size pg_size : Z)
    (policy_str : string) (ops : list op) :
  forallb keeps_verbose ops = true →
  counters (run (setVerbose (new vm_size pm_size pg_size policy_str) true) ops)
  = counters (run (setVerbose (new vm_size pm_size pg_size policy_str) false)
                ops).
Proof.
  intros Hops. rewrite !run_setVerbose by (done || apply vm_clean_new). done.
Qed.




End VMProofs.

(** ** Properties: contiguous allocator *)

Module MemoryManagerProofs.
Import MemoryManager MemoryManagerSpec.

(** *** The block found by a placement strategy fits *)

Lemma findBlockFirstFit_from_spec l sz i j :
  findBlockFirstFit_from i l sz = Some j →
  ∃ b, (i ≤ j)%nat ∧ l !! (j - i)%nat = Some b ∧ fits sz b = true.
Proof.
  revert i. induction l as [|c l IH]; intros i; simpl; [done|].
  destruct (fits sz c) eqn:Hc.
  - intros [= <-]. exists c. rewrite Nat.sub_diag. by split_and!.
  - intros (b & Hle & Hb & Hfit)%IH. exists b. split_and!; [lia| |done].
    replace (j - i)%nat with (S (j - S i)) by lia. done.
Qed.

Lemma findBlockBestFit_from_spec l sz i best d j :
  findBlockBestFit_from i l sz best d = Some j →
  best = Some j
  ∨ ∃ b, (i ≤ j)%nat ∧ l !! (j - i)%nat = Some b ∧ fits sz b = true.
Proof.
  revert i best d. induction l as [|c l IH]; intros i best d; simpl; [auto|].
  destruct (fits sz c && _) eqn:Hc; intros [H|(b & Hle & Hb & Hfit)]%IH.
  - simplify_eq. right. exists c. rewrite Nat.sub_diag.
    apply andb_true_iff in Hc as [Hc _]. by split_and!.
  - right. exists b. split_and!; [lia| |done].
    replace (j - i)%nat with (S (j - S i)) by lia. done.
  - by left.
  - right. exists b. split_and!; [lia| |done].
    replace (j - i)%nat with (S (j - S i)) by lia. done.
Qed.

Lemma findBlockWorstFit_from_spec l sz i worst d j :
  findBlockWorstFit_from i l sz worst d = Some j →
  worst = Some j
  ∨ ∃ b, (i ≤ j)%nat ∧ l !! (j - i)%nat = Some b ∧ fits sz b = true.
Proof.
  revert i worst d. induction l as [|c l IH]; intros i worst d; simpl; [auto|].
  destruct (fits sz c && _) eqn:Hc; intros [H|(b & Hle & Hb & Hfit)]%IH.
  - simplify_eq. right. exists c. rewrite Nat.sub_diag.
    apply andb_true_iff in Hc as [Hc _]. by split_and!.
  - right. exists b. split_and!; [lia| |done].
    replace (j - i)%nat with (S (j - S i)) by lia. done.
  - by left.
  - right. exists b. split_and!; [lia| |done].
    replace (j - i)%nat with (S (j - S i)) by lia. done.
Qed.

Lemma find_block_fits m sz j :
  find_block m sz = Some j → ∃ b, head m !! j = Some b ∧ fits sz b = true.
Proof.
  unfold find_block, findBlockFirstFit, findBlockBestFit, findBlockWorstFit.
  destruct (strategy m).
  - intros (b & _ & Hb & Hfit)%findBlockFirstFit_from_spec.
    rewrite Nat.sub_0_r in Hb. eauto.
  - intros [?|(b & _ & Hb & Hfit)]%findBlockBestFit_from_spec; [done|].
    rewrite Nat.sub_0_r in Hb. eauto.
  - intros [?|(b & _ & Hb & Hfit)]%findBlockWorstFit_from_spec; [done|].
    rewrite Nat.sub_0_r in Hb. eauto.
Qed.

(** [allocate] in terms of the chosen block. *)
Lemma allocate_unfold m sz :
  allocate m sz
  = let m1 := set_allocation_attempts (allocation_attempts m + 1) m in
    if sz =? 0
    then (set_allocation_failures (allocation_failures m1 + 1) m1, -1)
    else match find_block m sz with
         | None =>
             (set_allocation_failures (allocation_failures m1 + 1) m1, -1)
         | Some i =>
             (set_next_block_id (next_block_id m + 1)
                (set_allocation_successes (allocation_successes m + 1)
                   (set_head
                      (split_and_mark i sz (next_block_id m) (head m)) m1)),
              next_block_id m)
         end.
Proof. done. Qed.

Lemma head_allocate m sz :
  head (allocate m sz).1 = head m
  ∨ ∃ i b, head m !! i = Some b ∧ fits sz b = true ∧ sz ≠ 0
           ∧ head (allocate m sz).1
             = split_and_mark i sz (next_block_id m) (head m)
           ∧ next_block_id (allocate m sz).1 = next_block_id m + 1.
Proof.
  rewrite allocate_unfold. cbv zeta.
  destruct (Z.eqb_spec sz 0); [by left|].
  destruct (find_block m sz) as [i|] eqn:Hfind; [|by left].
  destruct (find_block_fits _ _ _ Hfind) as (b & Hb & Hfit).
  right. exists i, b. by split_and!.
Qed.

Lemma no_adjacent_free_sound l :
  no_adjacent_free l = true → ¬ adjacent_free_pair l.
Proof.
  induction l as [|a l IH]; intros Hl (i & x & y & Hx & Hy & Fx & Fy).
  { done. }
  simpl in Hl. apply andb_true_iff in Hl as [H1 H2].
  destruct i as [|i]; simpl in Hx, Hy.
  - simplify_eq. destruct l as [|b l]; simplify_eq/=.
    by rewrite Fx, Fy in H1.
  - apply (IH H2). by exists i, x, y.
Qed.

Lemma total_size_app l1 l2 :
  total_size (l1 ++ l2) = total_size l1 + total_size l2.
Proof. induction l1 as [|b l1 IH]; simpl; [done|]. rewrite IH. lia. Qed.

Lemma tiles_app a l1 l2 :
  tiles a (l1 ++ l2) ↔ tiles a l1 ∧ tiles (a + total_size l1) l2.
Proof.
  revert a. induction l1 as [|b l1 IH]; intros a; simpl.
  - rewrite Z.add_0_r. tauto.
  - rewrite IH, Z.add_assoc. tauto.
Qed.

Lemma total_size_nonneg l : Forall (λ b, 0 ≤ size b) l → 0 ≤ total_size l.
Proof. induction 1; simpl; lia. Qed.

(** *** Coalescing *)

Lemma head_free_coalesce_from cur rest :
  head_free (coalesce_from cur rest) = negb (is_allocated cur).
Proof.
  revert cur. induction rest as [|nxt rest IH]; intros cur; simpl; [done|].
  destruct (negb (is_allocated cur) && negb (is_allocated nxt)); [|done].
  by rewrite IH.
Qed.

Lemma no_adjacent_free_coalesce_from cur rest :
  no_adjacent_free (coalesce_from cur rest) = true.
Proof.
  revert cur. induction rest as [|nxt rest IH]; intros cur; simpl.
  { by rewrite andb_false_r. }
  destruct (negb (is_allocated cur) && negb (is_allocated nxt)) eqn:Hboth.
  - apply IH.
  - simpl. rewrite head_free_coalesce_from, Hboth, IH. done.
Qed.

Lemma coalesce_from_layout a cur rest :
  Forall (λ b, 0 ≤ size b) (cur :: rest) →
  total_size (cur :: rest) < 2 ^ 64 →
  tiles a (cur :: rest) →
  Forall (λ b, 0 ≤ size b) (coalesce_from cur rest)
  ∧ total_size (coalesce_from cur rest) = total_size (cur :: rest)
  ∧ tiles a (coalesce_from cur rest).
Proof.
  revert a cur. induction rest as [|nxt rest IH]; intros a cur Hpos Hlt Ht.
  { done. }
  simpl. apply Forall_cons in Hpos as [Hc Hrest].
  pose proof Hrest as Hrest'. apply Forall_cons in Hrest' as [Hn Hrest'].
  pose proof (total_size_nonneg _ Hrest') as Hsum.
  simpl in Hlt, Ht. destruct Ht as (Hs & Hs' & Ht).
  destruct (negb (is_allocated cur) && negb (is_allocated nxt)).
  - assert (wrap64 (size cur + size nxt) = size cur + size nxt) as Hw.
    { unfold wrap64. apply Z.mod_small. lia. }
    destruct (IH a {| start_address := start_address cur;
                    size := wrap64 (size cur + size nxt);
                    is_allocated := is_allocated cur;
                    block_id := block_id cur |}) as (F1 & F2 & F3).
    + apply Forall_cons. simpl. split; [lia | done].
    + simpl. lia.
    + simpl. rewrite Hw. split; [done|]. by rewrite Z.add_assoc.
    + split_and!; [done | | done]. rewrite F2. simpl. lia.
  - destruct (IH (a + size cur) nxt) as (F1 & F2 & F3);
      [done | simpl; lia | done |].
    split_and!.
    + by apply Forall_cons.
    + simpl. rewrite F2. done.
    + simpl. done.
Qed.

(** *** Releasing a block *)

Lemma release_layout id l l' a :
  release id l = Some l' →
  (size <$> l') = (size <$> l)
  ∧ (tiles a l → tiles a l').
Proof.
  revert l' a. induction l as [|c l IH]; intros l' a; simpl; [done|].
  destruct (is_allocated c && (block_id c =? id)).
  - intros [= <-]. done.
  - destruct (release id l) as [r|] eqn:Hr; simpl; [|done].
    intros [= <-]. destruct (IH r (a + size c) eq_refl) as [E T].
    split; [by rewrite !fmap_cons, E|]. simpl. intros [? ?]. auto.
Qed.

Lemma total_size_sizes l : total_size l = foldr Z.add 0 (size <$> l).
Proof. induction l as [|b l IH]; simpl; [done|]. by rewrite IH. Qed.

Lemma nonneg_sizes l :
  Forall (λ b, 0 ≤ size b) l ↔ Forall (λ z, 0 ≤ z) (size <$> l).
Proof. by rewrite Forall_fmap. Qed.

(** *** Splitting and marking the chosen block *)

Lemma split_and_mark_middle i sz id l b :
  l !! i = Some b →
  split_and_mark i sz id l = take i l ++ placed b sz id ++ drop (S i) l.
Proof. intros Hb. unfold split_and_mark, placed. by rewrite Hb. Qed.

Lemma split_and_mark_0 sz id b l :
  split_and_mark 0 sz id (b :: l) = placed b sz id ++ l.
Proof. unfold split_and_mark, placed. simpl. by rewrite drop_0. Qed.

Lemma split_and_mark_S i sz id a l :
  split_and_mark (S i) sz id (a :: l) = a :: split_and_mark i sz id l.
Proof. unfold split_and_mark. simpl. by destruct (l !! i). Qed.

Lemma placed_layout b sz id a :
  fits sz b = true → 0 < sz → 0 ≤ a → a + size b < 2 ^ 64 →
  start_address b = a →
  Forall (λ b, 0 ≤ size b) (placed b sz id)
  ∧ total_size (placed b sz id) = size b
  ∧ tiles a (placed b sz id).
Proof.
  unfold fits, placed, splitBlock.
  intros [_ Hle%Z.leb_le]%andb_true_iff Hsz Ha Hlt Hst.
  destruct (Z.ltb_spec sz (size b)); simpl.
  - rewrite Hst. unfold wrap64. rewrite Z.mod_small by lia.
    split_and!; try done; try lia.
    repeat (apply Forall_cons; split; simpl; try lia). done.
  - split_and!; try done; try lia.
    apply Forall_cons. simpl. split; [lia | done].
Qed.

Lemma split_and_mark_layout i sz id l b :
  l !! i = Some b → fits sz b = true → 0 < sz →
  Forall (λ b, 0 ≤ size b) l → total_size l < 2 ^ 64 → tiles 0 l →
  Forall (λ b, 0 ≤ size b) (split_and_mark i sz id l)
  ∧ total_size (split_and_mark i sz id l) = total_size l
  ∧ tiles 0 (split_and_mark i sz id l).
Proof.
  intros Hb Hfit Hsz Hpos Hlt Ht.
  rewrite (split_and_mark_middle _ _ _ _ _ Hb).
  rewrite <- (take_drop_middle l i b Hb) in Hpos, Hlt, Ht.
  apply Forall_app in Hpos as [Hp1 Hp2].
  apply Forall_cons in Hp2 as [Hp2 Hp3].
  rewrite total_size_app in Hlt. simpl in Hlt.
  apply tiles_app in Ht as [Ht1 Ht2]. simpl in Ht2. destruct Ht2 as [Hst Ht3].
  pose proof (total_size_nonneg _ Hp1). pose proof (total_size_nonneg _ Hp3).
  destruct (placed_layout b sz id (0 + total_size (take i l)))
    as (Q1 & Q2 & Q3); try done; try lia.
  split_and!.
  - apply Forall_app. split; [done|]. apply Forall_app. by split.
  - rewrite <- (take_drop_middle l i b Hb) at 3.
    rewrite !total_size_app, Q2. simpl. lia.
  - apply tiles_app. split; [done|]. apply tiles_app. split; [done|].
    by rewrite Q2.
Qed.

Lemma head_free_split_and_mark i sz id l :
  head_free (split_and_mark i sz id l) = true → head_free l = true.
Proof.
  destruct l as [|a l]; [by destruct i|]. destruct i as [|i].
  - rewrite split_and_mark_0. unfold placed, splitBlock.
    destruct (sz <? size a); done.
  - by rewrite split_and_mark_S.
Qed.

Lemma no_adjacent_free_split_and_mark i sz id l b :
  l !! i = Some b → is_allocated b = false →
  no_adjacent_free l = true →
  no_adjacent_free (split_and_mark i sz id l) = true.
Proof.
  revert i. induction l as [|a l IH]; intros i Hb Hfree Hl; [done|].
  simpl in Hl. apply andb_true_iff in Hl as [H1 H2].
  destruct i as [|i]; simpl in Hb.
  - simplify_eq. rewrite split_and_mark_0. unfold placed, splitBlock.
    rewrite Hfree in H1. simpl in H1. apply negb_true_iff in H1.
    destruct (sz <? size b); simpl; by rewrite ?H1, ?H2.
  - rewrite split_and_mark_S. simpl. rewrite (IH i Hb Hfree H2), andb_true_r.
    destruct (head_free (split_and_mark i sz id l)) eqn:Hh.
    + apply head_free_split_and_mark in Hh. by rewrite Hh in H1.
    + by rewrite andb_false_r.
Qed.

(** *** The layout invariant *)

Lemma layout_inv_new sz : 0 ≤ sz < 2 ^ 64 → layout_inv (new sz).
Proof.
  intros Hsz. split; simpl; try done; try lia.
  apply Forall_cons. simpl. split; [lia | done].
Qed.

Lemma layout_inv_allocate m sz :
  0 ≤ sz < 2 ^ 64 → layout_inv m → layout_inv (allocate m sz).1.
Proof.
  intros Hsz [Hb Hp Ht Htl Hc].
  assert (total_memory (allocate m sz).1 = total_memory m) as Htm.
  { rewrite allocate_unfold. cbv zeta. by repeat case_match. }
  destruct (head_allocate m sz) as [E|(i & b & Hi & Hfit & Hnz & E & _)].
  { split; rewrite ?E, ?Htm; done. }
  destruct (split_and_mark_layout i sz (next_block_id m) (head m) b)
    as (Q1 & Q2 & Q3); try done; try lia.
  split; rewrite ?E, ?Htm; try done; try lia.
  apply (no_adjacent_free_split_and_mark _ _ _ _ b); try done.
  unfold fits in Hfit. apply andb_true_iff in Hfit as [Hfit _].
  by apply negb_true_iff.
Qed.

Lemma layout_inv_deallocate m id :
  layout_inv m → layout_inv (deallocate m id).1.
Proof.
  intros [Hb Hp Ht Htl Hc]. unfold deallocate.
  destruct (release id (head m)) as [l|] eqn:Hr; simpl; [|by split].
  destruct (release_layout id (head m) l 0 Hr) as [Hsz Htiles].
  assert (Forall (λ b, 0 ≤ size b) l) as Hp'.
  { apply nonneg_sizes. rewrite Hsz. by apply nonneg_sizes. }
  assert (total_size l = total_size (head m)) as Ht'.
  { by rewrite !total_size_sizes, Hsz. }
  destruct l as [|cur rest]; simpl.
  { split; simpl; try done. by rewrite <- Ht, <- Ht'. }
  destruct (coalesce_from_layout 0 cur rest) as (F1 & F2 & F3);
    [done | lia | by apply Htiles |].
  split; simpl; try done.
  - by rewrite F2, Ht', Ht.
  - apply no_adjacent_free_coalesce_from.
Qed.

Lemma layout_inv_step m o : op_in_range o → layout_inv m → layout_inv (step m o).
Proof.
  destruct o; simpl; intros Ho Hm.
  - by apply layout_inv_allocate.
  - by apply layout_inv_deallocate.
  - by destruct Hm.
Qed.

Lemma layout_inv_run ops m :
  Forall op_in_range ops → layout_inv m → layout_inv (run m ops).
Proof.
  intros Hops. revert m. induction Hops as [|o ops Ho _ IH]; intros m Hm.
  { done. }
  apply IH. by apply layout_inv_step.
Qed.

Lemma total_memory_run ops m : total_memory (run m ops) = total_memory m.
Proof.
  revert m. induction ops as [|o ops IH]; intros m; [done|].
  unfold run in *. simpl. rewrite IH. destruct o; simpl.
  - rewrite allocate_unfold. cbv zeta. by repeat case_match.
  - unfold deallocate. by case_match.
  - done.
Qed.

(** C7.  For every arena size and every sequence of allocate, deallocate
    and set-strategy operations: the block sizes sum to [total_memory],
    the blocks tile the arena from address 0 without gap or overlap, and
    after a further [deallocate] (of any id, found or not) no two adjacent
    blocks are both free. *)
Theorem blocks_cover_arena_and_stay_coalesced
    (sz : Z) (ops : list op) (id : Z) :
  0 ≤ sz < 2 ^ 64 → Forall op_in_range ops →
  let m := run (new sz) ops in
  total_memory m = sz
  ∧ total_size (head m) = total_memory m
  ∧ tiles 0 (head m)
  ∧ ¬ adjacent_free_pair (head (deallocate m id).1).
Proof.
  intros Hsz Hops m.
  pose proof (layout_inv_run ops _ Hops (layout_inv_new sz Hsz)) as Hm.
  fold m in Hm. destruct (layout_inv_deallocate m id Hm) as [_ _ _ _ Hc].
  destruct Hm as [_ _ Ht Htl _].
  split_and!; try done.
  - apply total_memory_run.
  - by apply no_adjacent_free_sound.
Qed.

Lemma blocks_cover_arena_and_stay_coalesced_witness :
  let ops := [Allocate 100; Allocate 200; Deallocate 1; Allocate 50;
              Deallocate 2] in
  let m := run (new 1024) ops in
  0 ≤ 1024 < 2 ^ 64 ∧ Forall op_in_range ops
  ∧ total_size (head m) = 1024
  ∧ ¬ adjacent_free_pair (head (deallocate m 3).1).
Proof.
  assert (0 ≤ 1024 < 2 ^ 64) as H1 by lia.
  assert (Forall op_in_range
            [Allocate 100; Allocate 200; Deallocate 1; Allocate 50;
             Deallocate 2]) as H2.
  { repeat (apply Forall_cons; split; [simpl; try lia; done|]). done. }
  destruct (blocks_cover_arena_and_stay_coalesced 1024 _ 3 H1 H2)
    as (E1 & E2 & _ & E3).
  split_and!; done.
Defined.

Lemma live_ids_app l1 l2 : live_ids (l1 ++ l2) = live_ids l1 ++ live_ids l2.
Proof.
  induction l1 as [|b l1 IH]; simpl; [done|].
  destruct (is_allocated b); simpl; by rewrite IH.
Qed.

Lemma live_ids_coalesce_from cur rest :
  live_ids (coalesce_from cur rest) = live_ids (cur :: rest).
Proof.
  revert cur. induction rest as [|nxt rest IH]; intros cur; [done|].
  cbn [coalesce_from].
  destruct (is_allocated cur) eqn:Hc, (is_allocated nxt) eqn:Hn;
    cbn [negb andb live_ids]; rewrite ?IH; cbn [live_ids is_allocated];
    by rewrite ?Hc, ?Hn.
Qed.

Lemma live_ids_coalesceBlocks l : live_ids (coalesceBlocks l) = live_ids l.
Proof. destruct l; [done|]. apply live_ids_coalesce_from. Qed.

Lemma release_None id l : release id l = None ↔ id ∉ live_ids l.
Proof.
  induction l as [|b l IH]; simpl.
  - split; [intros _; apply not_elem_of_nil | done].
  - destruct (is_allocated b); simpl.
    + destruct (Z.eqb_spec (block_id b) id) as [->|Hne].
      * split; [done|]. intros []. by left.
      * rewrite not_elem_of_cons, <- IH.
        destruct (release id l); simpl; split; try done. by intros [_ ?].
    + rewrite <- IH. destruct (release id l); simpl; split; done.
Qed.

Lemma release_Some id l l' :
  release id l = Some l' →
  ∃ l1 l2, live_ids l = l1 ++ id :: l2 ∧ live_ids l' = l1 ++ l2.
Proof.
  revert l'. induction l as [|b l IH]; intros l'; simpl; [done|].
  destruct (is_allocated b) eqn:Hb; simpl.
  - destruct (Z.eqb_spec (block_id b) id) as [->|Hne].
    + intros [= <-]. exists [], (live_ids l). by simpl.
    + destruct (release id l) as [r|]; simpl; [|done]. intros [= <-].
      destruct (IH r eq_refl) as (l1 & l2 & E1 & E2).
      exists (block_id b :: l1), l2. simpl. by rewrite Hb, E1, E2.
  - destruct (release id l) as [r|]; simpl; [|done]. intros [= <-].
    destruct (IH r eq_refl) as (l1 & l2 & E1 & E2).
    exists l1, l2. simpl. by rewrite Hb.
Qed.

Lemma live_ids_split_and_mark i sz id l b :
  l !! i = Some b → is_allocated b = false →
  live_ids (split_and_mark i sz id l) ≡ₚ id :: live_ids l.
Proof.
  intros Hb Hfree. rewrite (split_and_mark_middle _ _ _ _ _ Hb).
  rewrite <- (take_drop_middle l i b Hb) at 3.
  rewrite !live_ids_app. simpl. rewrite Hfree.
  assert (live_ids (placed b sz id) = [id]) as ->.
  { unfold placed, splitBlock. destruct (sz <? size b); done. }
  simpl. by rewrite Permutation_middle.
Qed.

Lemma live_ids_allocate m sz :
  (head (allocate m sz).1 = head m
   ∧ next_block_id m ≤ next_block_id (allocate m sz).1)
  ∨ (live_ids (head (allocate m sz).1) ≡ₚ next_block_id m :: live_ids (head m)
     ∧ next_block_id (allocate m sz).1 = next_block_id m + 1).
Proof.
  destruct (head_allocate m sz) as [E|(i & b & Hi & Hfit & Hnz & E & En)].
  - left. split; [done|]. rewrite allocate_unfold. cbv zeta.
    repeat case_match; simpl; lia.
  - right. split; [|done]. rewrite E. apply live_ids_split_and_mark with b.
    + done.
    + unfold fits in Hfit. apply andb_true_iff in Hfit as [Hfit _].
      by apply negb_true_iff.
Qed.

Lemma ids_inv_new sz : ids_inv (new sz).
Proof. split; simpl; constructor. Qed.

Lemma ids_inv_step m o : ids_inv m → ids_inv (step m o).
Proof.
  intros [Hnd Hlt]. destruct o as [sz|id|s]; simpl.
  - destruct (live_ids_allocate m sz) as [[E Hn]|[E Hn]].
    + split; rewrite E; [done|].
      eapply Forall_impl; [exact Hlt|]. simpl. intros. lia.
    + split; rewrite E, ?Hn.
      * apply NoDup_cons. split; [|done]. intros Hin.
        rewrite Forall_forall in Hlt. specialize (Hlt _ Hin). lia.
      * apply Forall_cons. split; [lia|].
        eapply Forall_impl; [exact Hlt|]. simpl. intros. lia.
  - unfold deallocate. destruct (release id (head m)) as [l|] eqn:Hr; simpl.
    + destruct (release_Some _ _ _ Hr) as (l1 & l2 & E1 & E2).
      rewrite E1 in Hnd, Hlt.
      split; simpl; rewrite live_ids_coalesceBlocks, E2.
      * apply NoDup_app in Hnd as (N1 & N2 & N3).
        apply NoDup_cons in N3 as [N3 N4].
        apply NoDup_app. split_and!; [done | | done].
        intros x Hx Hx2. apply (N2 x Hx). by right.
      * apply Forall_app in Hlt as [F1 F2].
        apply Forall_cons in F2 as [_ F2]. apply Forall_app. by split.
    + by split.
  - by split.
Qed.

Lemma ids_inv_run ops m : ids_inv m → ids_inv (run m ops).
Proof.
  revert m. induction ops as [|o ops IH]; intros m Hm; [done|].
  apply IH. by apply ids_inv_step.
Qed.

Lemma mm_retired_after_deallocate m id :
  ids_inv m → (deallocate m id).2 = true → retired id (deallocate m id).1.
Proof.
  intros [Hnd Hlt]. unfold deallocate.
  destruct (release id (head m)) as [l|] eqn:Hr; simpl; [|done]. intros _.
  destruct (release_Some _ _ _ Hr) as (l1 & l2 & E1 & E2).
  rewrite E1 in Hnd, Hlt. split; simpl.
  - rewrite live_ids_coalesceBlocks, E2.
    apply NoDup_app in Hnd as (N1 & N2 & N3).
    apply NoDup_cons in N3 as [N3 N4].
    rewrite elem_of_app. intros [Hx|Hx]; [|done].
    apply (N2 id Hx). by left.
  - apply Forall_app in Hlt as [_ F2]. by apply Forall_cons in F2 as [F2 _].
Qed.

Lemma mm_retired_step id m o : retired id m → retired id (step m o).
Proof.
  intros [Hnot Hlt]. destruct o as [sz|id'|s]; simpl.
  - destruct (live_ids_allocate m sz) as [[E Hn]|[E Hn]].
    + split; [by rewrite E | lia].
    + split; [|lia]. rewrite E. rewrite not_elem_of_cons. split; [lia|done].
  - unfold deallocate. destruct (release id' (head m)) as [l|] eqn:Hr; simpl.
    + split; [|done]. simpl. rewrite live_ids_coalesceBlocks.
      destruct (release_Some _ _ _ Hr) as (l1 & l2 & E1 & E2).
      rewrite E2. rewrite E1 in Hnot.
      rewrite not_elem_of_app in Hnot. destruct Hnot as [N1 N2].
      rewrite not_elem_of_cons in N2. destruct N2 as [_ N2].
      rewrite not_elem_of_app. by split.
    + by split.
  - by split.
Qed.

Lemma mm_retired_run id ops m : retired id m → retired id (run m ops).
Proof.
  revert m. induction ops as [|o ops IH]; intros m Hm; [done|].
  apply IH. by apply mm_retired_step.
Qed.

Lemma mm_deallocate_retired id m : retired id m → deallocate m id = (m, false).
Proof.
  intros [Hnot _]. unfold deallocate.
  apply release_None in Hnot. by rewrite Hnot.
Qed.

Lemma contiguous_double_free (sz : Z) (ops1 ops2 : list op) (id : Z) :
  let m1 := run (new sz) ops1 in
  (deallocate m1 id).2 = true →
  let m3 := run (deallocate m1 id).1 ops2 in
  deallocate m3 id = (m3, false).
Proof.
  intros m1 Hfreed m3. apply mm_deallocate_retired, mm_retired_run.
  apply mm_retired_after_deallocate; [|done].
  apply ids_inv_run, ids_inv_new.
Qed.

End MemoryManagerProofs.

(** ** Properties: buddy allocator *)

Module BuddyProofs.
Import BuddyAllocator BuddySpec.

Lemma book_eq s s' :
  book s = book s' →
  allocated_blocks s = allocated_blocks s'
  ∧ next_block_id s = next_block_id s'.
Proof. unfold book. by intros [= -> ->]. Qed.

Lemma book_removeFromFreeList s k addr :
  book (removeFromFreeList s k addr).1 = book s.
Proof. unfold removeFromFreeList. by repeat case_match. Qed.

Lemma book_splitBlock_rec gap k s : book (splitBlock_rec gap k s).1 = book s.
Proof.
  revert k s. induction gap as [|gap IH]; intros k s; simpl; [done|].
  destruct (is_nil (free_list s (k + 1))).
  - specialize (IH (k + 1) s).
    destruct (splitBlock_rec gap (k + 1) s) as [s' ok]. simpl in IH.
    destruct ok; simpl; [|done].
    destruct (free_list s' (k + 1)); simpl; [done|]. done.
  - simpl. destruct (free_list s (k + 1)); simpl; done.
Qed.

Lemma book_mergeBlocks_rec gap addr k s :
  book (mergeBlocks_rec gap addr k s).1 = book s.
Proof.
  revert addr k s. induction gap as [|gap IH]; intros addr k s; simpl; [done|].
  pose proof (book_removeFromFreeList s k
                (getBuddyAddress addr (getBlockSize s k))) as H1.
  destruct (removeFromFreeList s k _) as [s1 [buddy|]]; simpl in *; [|done].
  rewrite IH. unfold book. simpl.
  pose proof (book_removeFromFreeList s1 k addr) as H2.
  unfold book in H1, H2. by rewrite <- H1, <- H2.
Qed.

Lemma book_mergeBlocks s addr k : book (mergeBlocks s addr k).1 = book s.
Proof. apply book_mergeBlocks_rec. Qed.

Lemma allocate_book s requested s' id :
  allocate s requested = Some (s', id) →
  book s' = book s
  ∨ (allocated_blocks s' !! next_block_id s ≠ None
     ∧ (∀ k, k ≠ next_block_id s →
             allocated_blocks s' !! k = allocated_blocks s !! k)
     ∧ next_block_id s' = next_block_id s + 1).
Proof.
  unfold allocate, fail.
  destruct (requested =? 0); [intros [= <- <-]; by left|].
  destruct (total_memory _ <? requested); [intros [= <- <-]; by left|].
  destruct (nextPowerOfTwo _ requested) as [actual|]; simpl; [|done].
  set (s0 := set_total_allocations _ s).
  set (k := getOrder s0 actual).
  assert (∃ s1 ok, (if is_nil (free_list s0 k) then splitBlock s0 k
                    else (s0, true)) = (s1, ok) ∧ book s1 = book s)
    as (s1 & ok & -> & Hb).
  { destruct (is_nil (free_list s0 k)).
    - unfold splitBlock.
      pose proof (book_splitBlock_rec (Z.to_nat (max_order s0 - k)) k s0) as H.
      destruct (splitBlock_rec _ k s0) as [s1 ok]. by exists s1, ok.
    - by exists s0, true. }
  destruct ok; simpl; [|intros [= <- <-]; by left].
  destruct (free_list s1 k) as [|block next]; [intros [= <- <-]; by left|].
  intros [= <- <-]. right. apply book_eq in Hb as [Hb1 Hb2]. simpl.
  rewrite Hb1, Hb2. split_and!.
  - by rewrite lookup_insert_eq.
  - intros k' Hk'. by rewrite lookup_insert_ne.
  - done.
Qed.

Lemma deallocate_book s id :
  next_block_id (deallocate s id).1 = next_block_id s
  ∧ (allocated_blocks (deallocate s id).1 = allocated_blocks s
     ∨ allocated_blocks (deallocate s id).1 = delete id (allocated_blocks s)).
Proof.
  unfold deallocate. destruct (allocated_blocks s !! id) as [r|];
    cbv zeta; cbn [fst]; [|auto].
  match goal with |- context [mergeBlocks ?s0 ?a ?k] =>
    pose proof (book_mergeBlocks s0 a k) as H end.
  apply book_eq in H as [H1 H2]. rewrite H1, H2. auto.
Qed.

Lemma keys_below_new mem min : keys_below (new mem min).
Proof. intros k [r Hr]. simpl in Hr. by rewrite lookup_empty in Hr. Qed.

Lemma keys_below_step s o s' : step s o = Some s' → keys_below s → keys_below s'.
Proof.
  intros Hstep Hs. destruct o as [requested|id]; simpl in Hstep.
  - destruct (allocate s requested) as [[s1 id]|] eqn:Ha; simplify_eq/=.
    destruct (allocate_book _ _ _ _ Ha) as [E|(E1 & E2 & E3)].
    + apply book_eq in E as [E1 E2]. intros k. rewrite E1, E2. apply Hs.
    + intros k Hk. rewrite E3.
      destruct (decide (k = next_block_id s)) as [->|Hne]; [lia|].
      rewrite E2 in Hk by done. specialize (Hs k Hk). lia.
  - simplify_eq. destruct (deallocate_book s id) as [En [Ea|Ea]];
      intros k; rewrite En, Ea; [apply Hs|].
    intros Hk. apply Hs. destruct (decide (k = id)) as [->|].
    + rewrite lookup_delete_eq in Hk. by destruct Hk.
    + by rewrite lookup_delete_ne in Hk.
Qed.

Lemma run_cons s o ops : run s (o :: ops) = step s o ≫= λ s', run s' ops.
Proof.
  unfold run. simpl. destruct (step s o) as [s'|]; simpl; [done|].
  induction ops as [|o' ops IH]; simpl; done.
Qed.

Lemma keys_below_run ops s s' :
  run s ops = Some s' → keys_below s → keys_below s'.
Proof.
  revert s. induction ops as [|o ops IH]; intros s.
  { by intros [= <-]. }
  rewrite run_cons. destruct (step s o) as [s1|] eqn:Hs1; simpl; [|done].
  intros Hrun Hs. eapply IH; [done|]. by eapply keys_below_step.
Qed.

Lemma buddy_retired_step id s o s' : step s o = Some s' → retired id s → retired id s'.
Proof.
  intros Hstep [Hnone Hlt]. destruct o as [requested|id']; simpl in Hstep.
  - destruct (allocate s requested) as [[s1 i]|] eqn:Ha; simplify_eq/=.
    destruct (allocate_book _ _ _ _ Ha) as [E|(E1 & E2 & E3)].
    + apply book_eq in E as [E1 E2]. split; by rewrite ?E1, ?E2.
    + split; [|lia]. rewrite E2 by lia. done.
  - simplify_eq. destruct (deallocate_book s id') as [En [Ea|Ea]];
      (split; [rewrite Ea | by rewrite En]); [done|].
    destruct (decide (id = id')) as [->|].
    + by rewrite lookup_delete_eq.
    + by rewrite lookup_delete_ne.
Qed.

Lemma buddy_retired_run id ops s s' :
  run s ops = Some s' → retired id s → retired id s'.
Proof.
  revert s. induction ops as [|o ops IH]; intros s.
  { by intros [= <-]. }
  rewrite run_cons. destruct (step s o) as [s1|] eqn:Hs1; simpl; [|done].
  intros Hrun Hs. eapply IH; [done|]. by eapply buddy_retired_step.
Qed.

Lemma buddy_retired_after_deallocate s id :
  keys_below s → (deallocate s id).2 = true → retired id (deallocate s id).1.
Proof.
  intros Hs Hfreed.
  assert (is_Some (allocated_blocks s !! id)) as Hsome.
  { unfold deallocate in Hfreed. destruct (allocated_blocks s !! id); [eauto|done]. }
  destruct (deallocate_book s id) as [En [Ea|Ea]].
  - exfalso. unfold deallocate in Ea. destruct Hsome as [r Hr].
    rewrite Hr in Ea. cbv zeta in Ea. cbn [fst] in Ea.
    match type of Ea with context [mergeBlocks ?s0 ?a ?k] =>
      pose proof (book_mergeBlocks s0 a k) as H end.
    apply book_eq in H as [H1 H2]. rewrite H1 in Ea. simpl in Ea.
    assert (delete id (allocated_blocks s) !! id = Some r) as Hd
      by (by rewrite Ea).
    by rewrite lookup_delete_eq in Hd.
  - split; [by rewrite Ea, lookup_delete_eq | rewrite En; by apply Hs].
Qed.

Lemma buddy_deallocate_retired id s : retired id s → deallocate s id = (s, false).
Proof. intros [Hnone _]. unfold deallocate. by rewrite Hnone. Qed.

Lemma buddy_double_free (memory_size min_size : Z) (ops1 ops2 : list op)
    (id : Z) (s1 s3 : t) :
  run (new memory_size min_size) ops1 = Some s1 →
  (deallocate s1 id).2 = true →
  run (deallocate s1 id).1 ops2 = Some s3 →
  deallocate s3 id = (s3, false).
Proof.
  intros Hrun1 Hfreed Hrun2. apply buddy_deallocate_retired.
  eapply buddy_retired_run; [exact Hrun2|].
  apply buddy_retired_after_deallocate; [|done].
  eapply keys_below_run; [exact Hrun1 | apply keys_below_new].
Qed.

(** *** Every allocation terminates *)

Lemma isPowerOfTwo_spec n :
  0 ≤ n < 2 ^ 64 → isPowerOfTwo n = true → ∃ k, 0 ≤ k ≤ 63 ∧ n = 2 ^ k.
Proof.
  intros Hn [Hpos%Z.ltb_lt Hland%Z.eqb_eq]%andb_true_iff.
  unfold wrap64 in Hland. rewrite Z.mod_small in Hland by lia.
  pose proof (Z.log2_spec n Hpos) as [Hlo Hhi].
  pose proof (Z.log2_nonneg n) as Hk.
  exists (Z.log2 n). split.
  - split; [done|]. assert (Z.log2 n < 64); [|lia].
    apply Z.log2_lt_pow2; lia.
  - destruct (decide (n = 2 ^ Z.log2 n)) as [|Hne]; [done|]. exfalso.
    assert (Z.log2 (n - 1) = Z.log2 n) as Hlog.
    { apply Z.log2_unique; [done|]. rewrite <- Z.add_1_r in *. lia. }
    assert (Z.testbit (Z.land n (n - 1)) (Z.log2 n) = true) as Hbit.
    { rewrite Z.land_spec, Z.bit_log2 by lia.
      rewrite <- Hlog, Z.bit_log2 by lia. done. }
    rewrite Hland in Hbit. by rewrite Z.bits_0 in Hbit.
Qed.

Lemma double_loop_total steps j a sz :
  0 ≤ j ≤ a → a ≤ 63 → sz ≤ 2 ^ a → (Z.to_nat (a - j) ≤ steps)%nat →
  is_Some (double_loop steps (2 ^ j) sz).
Proof.
  revert j. induction steps as [|steps IH]; intros j Hj Ha Hsz Hsteps.
  - simpl. assert (j = a) as -> by lia.
    destruct (Z.ltb_spec (2 ^ a) sz); [lia | eauto].
  - simpl. destruct (Z.ltb_spec (2 ^ j) sz); [|eauto].
    assert (j < a) as Hlt.
    { apply (Z.pow_lt_mono_r_iff 2); lia. }
    assert (wrap64 (2 ^ j * 2) = 2 ^ (j + 1)) as ->.
    { rewrite Z.pow_add_r by lia. unfold wrap64. apply Z.mod_small.
      split; [lia|]. change (2 ^ 1) with 2. rewrite Z.mul_comm.
      rewrite <- Z.pow_succ_r by lia. apply Z.pow_lt_mono_r; lia. }
    apply IH; lia.
Qed.

Lemma sized_config s s' : config s' = config s → sized s → sized s'.
Proof.
  unfold config. intros [= E1 E2 _] (a & b & Ha & Hb & F1 & F2).
  exists a, b. rewrite E1, E2. done.
Qed.

Lemma config_removeFromFreeList s k addr :
  config (removeFromFreeList s k addr).1 = config s.
Proof. unfold removeFromFreeList. by repeat case_match. Qed.

Lemma config_splitBlock_rec gap k s :
  config (splitBlock_rec gap k s).1 = config s.
Proof.
  revert k s. induction gap as [|gap IH]; intros k s; simpl; [done|].
  destruct (is_nil (free_list s (k + 1))).
  - specialize (IH (k + 1) s).
    destruct (splitBlock_rec gap (k + 1) s) as [s' ok]. simpl in IH.
    destruct ok; simpl; [|done].
    destruct (free_list s' (k + 1)); simpl; done.
  - simpl. destruct (free_list s (k + 1)); simpl; done.
Qed.

Lemma config_mergeBlocks_rec gap addr k s :
  config (mergeBlocks_rec gap addr k s).1 = config s.
Proof.
  revert addr k s. induction gap as [|gap IH]; intros addr k s; simpl; [done|].
  pose proof (config_removeFromFreeList s k
                (getBuddyAddress addr (getBlockSize s k))) as H1.
  destruct (removeFromFreeList s k _) as [s1 [buddy|]]; simpl in *; [|done].
  rewrite IH. unfold config. simpl.
  pose proof (config_removeFromFreeList s1 k addr) as H2.
  unfold config in H1, H2. by rewrite <- H1, <- H2.
Qed.

Lemma config_allocate s requested s' id :
  allocate s requested = Some (s', id) → config s' = config s.
Proof.
  unfold allocate, fail.
  destruct (requested =? 0); [by intros [= <- <-]|].
  destruct (total_memory _ <? requested); [by intros [= <- <-]|].
  destruct (nextPowerOfTwo _ requested) as [actual|]; simpl; [|done].
  set (s0 := set_total_allocations _ s).
  set (k := getOrder s0 actual).
  assert (∃ s1 ok, (if is_nil (free_list s0 k) then splitBlock s0 k
                    else (s0, true)) = (s1, ok) ∧ config s1 = config s)
    as (s1 & ok & -> & Hb).
  { destruct (is_nil (free_list s0 k)).
    - unfold splitBlock.
      pose proof (config_splitBlock_rec (Z.to_nat (max_order s0 - k)) k s0)
        as H.
      destruct (splitBlock_rec _ k s0) as [s1 ok]. by exists s1, ok.
    - by exists s0, true. }
  destruct ok; simpl; [|by intros [= <- <-]].
  destruct (free_list s1 k) as [|block next]; [by intros [= <- <-]|].
  by intros [= <- <-].
Qed.

Lemma config_deallocate s id : config (deallocate s id).1 = config s.
Proof.
  unfold deallocate. destruct (allocated_blocks s !! id) as [r|];
    cbv zeta; cbn [fst]; [|done].
  unfold mergeBlocks. by rewrite config_mergeBlocks_rec.
Qed.

Lemma nextPowerOfTwo_total s requested :
  sized s → requested ≤ total_memory s →
  is_Some (nextPowerOfTwo s requested).
Proof.
  intros (a & b & Ha & Hb & F1 & F2) Hle. unfold nextPowerOfTwo.
  destruct (requested =? 0); [eauto|].
  destruct (Z.leb_spec requested (min_block_size s)); [eauto|].
  rewrite F2. rewrite F1, F2 in *.
  assert (b < a) by (apply (Z.pow_lt_mono_r_iff 2); lia).
  apply double_loop_total with a; lia.
Qed.

Lemma allocate_total s requested : sized s → is_Some (allocate s requested).
Proof.
  intros Hs. unfold allocate, fail.
  destruct (requested =? 0); [eauto|].
  set (s0 := set_total_allocations _ s).
  destruct (Z.ltb_spec (total_memory s0) requested); [eauto|].
  destruct (nextPowerOfTwo_total s0 requested) as [actual ->]; [done|done|].
  cbn [mbind option_bind].
  destruct (if is_nil _ then _ else _) as [s1 ok].
  destruct ok; cbn [negb]; [|eauto].
  destruct (free_list s1 _); eauto.
Qed.

Lemma sized_new memory_size min_size :
  0 ≤ memory_size < 2 ^ 64 → 0 ≤ min_size < 2 ^ 64 →
  sized (new memory_size min_size).
Proof.
  intros Hmem Hmin. unfold sized, new. cbn [total_memory min_block_size].
  destruct (isPowerOfTwo memory_size) eqn:E1,
           (isPowerOfTwo min_size) eqn:E2.
  - destruct (isPowerOfTwo_spec _ Hmem E1) as (a & ? & ?).
    destruct (isPowerOfTwo_spec _ Hmin E2) as (b & ? & ?). by exists a, b.
  - destruct (isPowerOfTwo_spec _ Hmem E1) as (a & ? & ?).
    exists a, 4. split_and!; try done; lia.
  - destruct (isPowerOfTwo_spec _ Hmin E2) as (b & ? & ?).
    exists 10, b. split_and!; try done; lia.
  - exists 10, 4. split_and!; try done; lia.
Qed.

Lemma run_total ops s : sized s → is_Some (run s ops).
Proof.
  revert s. induction ops as [|o ops IH]; intros s Hs; [by eexists|].
  rewrite run_cons. destruct o as [requested|id]; simpl.
  - destruct (allocate_total s requested Hs) as [[s' i] Ha].
    rewrite Ha. simpl. apply IH.
    eapply sized_config; [|exact Hs]. by eapply config_allocate.
  - apply IH. eapply sized_config; [|exact Hs]. apply config_deallocate.
Qed.

Lemma buddy_double_free_total (memory_size min_size : Z)
    (ops1 ops2 : list op) (id : Z) :
  0 ≤ memory_size < 2 ^ 64 → 0 ≤ min_size < 2 ^ 64 →
  ∃ s1, run (new memory_size min_size) ops1 = Some s1
        ∧ ((deallocate s1 id).2 = true →
           ∃ s3, run (deallocate s1 id).1 ops2 = Some s3
                 ∧ deallocate s3 id = (s3, false)).
Proof.
  intros Hmem Hmin.
  pose proof (sized_new _ _ Hmem Hmin) as Hsized.
  destruct (run_total ops1 _ Hsized) as [s1 Hs1].
  exists s1. split; [done|]. intros Hfreed.
  assert (sized s1) as Hsized1.
  { clear Hfreed. revert Hs1 Hsized. generalize (new memory_size min_size).
    induction ops1 as [|o ops IH]; intros s.
    - by intros [= <-].
    - rewrite run_cons. destruct (step s o) as [s'|] eqn:Hstep; simpl; [|done].
      intros Hrun Hs. apply (IH s' Hrun).
      eapply sized_config; [|exact Hs]. destruct o; simpl in Hstep.
      + destruct (allocate s requested) as [[? ?]|] eqn:Ha; simplify_eq/=.
        by eapply config_allocate.
      + simplify_eq. apply config_deallocate. }
  destruct (run_total ops2 (deallocate s1 id).1) as [s3 Hs3].
  { eapply sized_config; [apply config_deallocate | done]. }
  exists s3. split; [done|]. by eapply buddy_double_free.
Qed.

Lemma free_list_push s k b :
  0 ≤ k < Z.of_nat (length (free_lists s)) →
  free_list (push k b s) k = b :: free_list s k.
Proof.
  intros Hk. unfold push, set_free_list, free_list. simpl.
  rewrite vget_valter, decide_True by done.
  unfold vget. destruct (Z.ltb_spec k 0); [lia|].
  destruct (lookup_lt_is_Some_2 (free_lists s) (Z.to_nat k)) as [l ->];
    [lia | done].
Qed.

(** C2, counterexample.  The first block handed out is not at address 0. *)
Lemma buddy_first_block_is_not_at_address_0 :
  match allocate (new 1024 16) 16 with
  | Some (s1, id) => address_of s1 id ≠ Some 0
  | None => False
  end.
Proof. vm_compute. discriminate. Qed.

(** C2, as amended.  Arena 1024, minimum block 16: [allocate 16] splits
    six times and returns the block at address 1008, the upper buddy of
    every split being pushed last and so taken first; freeing it merges six
    times and leaves the free lists as constructed, one block of 1024 at
    the maximal order.  A pushed block is the new head of its list. *)
Theorem buddy_split_tree :
  match allocate (new 1024 16) 16 with
  | Some (s1, id) =>
      splits s1 = 6
      ∧ address_of s1 id = Some 1008
      ∧ free_addresses s1 = [[992]; [960]; [896]; [768]; [512]; [0]; []]
      ∧ (deallocate s1 id).2 = true
      ∧ merges (deallocate s1 id).1 = 6
      ∧ free_lists (deallocate s1 id).1 = free_lists (new 1024 16)
      ∧ free_lists (deallocate s1 id).1
        = [[]; []; []; []; []; []; [BuddyBlock_new 0 1024]]
  | None => False
  end
  ∧ ∀ s k b,
      0 ≤ k < Z.of_nat (length (free_lists s)) →
      free_list (push k b s) k = b :: free_list s k.
Proof.
  split; [|apply free_list_push]. vm_compute. split_and!; reflexivity.
Qed.

End BuddyProofs.

(** ** Properties: both allocators *)

(** C10.  In both allocators, once [deallocate id] has returned true,
    whatever operations follow, a second [deallocate id] returns false and
    leaves the state as it was; ids are never issued twice.  Every run of
    the buddy allocator terminates. *)
Theorem double_free_fails :
  (∀ (sz : Z) (ops1 ops2 : list MemoryManager.op) (id : Z),
     let m1 := MemoryManager.run (MemoryManager.new sz) ops1 in
     (MemoryManager.deallocate m1 id).2 = true →
     let m3 := MemoryManager.run (MemoryManager.deallocate m1 id).1 ops2 in
     MemoryManager.deallocate m3 id = (m3, false))
  ∧ (∀ (memory_size min_size : Z) (ops1 ops2 : list BuddyAllocator.op)
       (id : Z),
       0 ≤ memory_size < 2 ^ 64 → 0 ≤ min_size < 2 ^ 64 →
       ∃ s1,
         BuddyAllocator.run (BuddyAllocator.new memory_size min_size) ops1
         = Some s1
         ∧ ((BuddyAllocator.deallocate s1 id).2 = true →
            ∃ s3,
              BuddyAllocator.run (BuddyAllocator.deallocate s1 id).1 ops2
              = Some s3
              ∧ BuddyAllocator.deallocate s3 id = (s3, false))).
Proof.
  split.
  - apply MemoryManagerProofs.contiguous_double_free.
  - apply BuddyProofs.buddy_double_free_total.
Qed.

Lemma double_free_fails_witness :
  (let m1 :=
     MemoryManager.run (MemoryManager.new 1024)
       [MemoryManager.Allocate 100; MemoryManager.Allocate 200] in
   let m3 :=
     MemoryManager.run (MemoryManager.deallocate m1 1).1
       [MemoryManager.Allocate 50] in
   (MemoryManager.deallocate m1 1).2 = true
   ∧ MemoryManager.deallocate m3 1 = (m3, false))
  ∧ (0 ≤ 1024 < 2 ^ 64 ∧ 0 ≤ 16 < 2 ^ 64
     ∧ ∃ s1,
         BuddyAllocator.run (BuddyAllocator.new 1024 16)
           [BuddyAllocator.Allocate 16; BuddyAllocator.Allocate 100]
         = Some s1
         ∧ (BuddyAllocator.deallocate s1 1).2 = true
         ∧ ∃ s3,
             BuddyAllocator.run (BuddyAllocator.deallocate s1 1).1
               [BuddyAllocator.Allocate 16]
             = Some s3
             ∧ BuddyAllocator.deallocate s3 1 = (s3, false)).
Proof.
  destruct double_free_fails as [Hc Hb]. split.
  - assert ((MemoryManager.deallocate
               (MemoryManager.run (MemoryManager.new 1024)
                  [MemoryManager.Allocate 100; MemoryManager.Allocate 200])
               1).2 = true) as Hfreed by reflexivity.
    split; [exact Hfreed|].
    exact (Hc 1024 _ [MemoryManager.Allocate 50] 1 Hfreed).
  - assert (0 ≤ 1024 < 2 ^ 64) as H1 by lia.
    assert (0 ≤ 16 < 2 ^ 64) as H2 by lia.
    split; [exact H1|]. split; [exact H2|].
    destruct (Hb 1024 16
                [BuddyAllocator.Allocate 16; BuddyAllocator.Allocate 100]
                [BuddyAllocator.Allocate 16] 1 H1 H2) as (s1 & Hs1 & Hrest).
    exists s1. split; [exact Hs1|].
    assert ((BuddyAllocator.deallocate s1 1).2 = true) as Hfreed.
    { vm_compute in Hs1. injection Hs1 as <-. vm_compute. reflexivity. }
    split; [exact Hfreed|]. exact (Hrest Hfreed).
Defined.

(** ** More properties: cache level *)

(** *** Walking a chain of state updates *)

(** Name the outermost [let] of the goal, so that a chain of state
    updates is walked one update at a time. *)
Ltac name_let :=
  match goal with
  | |- context C [let x := ?e in @?b x] =>
      let y := fresh "st" in
      pose (y := e);
      let g := context C [b y] in
      let g := eval cbv beta in g in
      change g
  end.

(** Expose the body of a state-passing function with its [let]s kept. *)
Ltac open_body f := cbv delta [f]; cbv beta; repeat name_let.

(** *** More on loops over index ranges *)

Section ranges.

Lemma elem_of_zrange (lo hi x : Z) : x ∈ zrange lo hi ↔ lo ≤ x < hi.
Proof.
  unfold zrange. rewrite list_elem_of_fmap. split.
  - intros (k & -> & Hk). apply elem_of_seq in Hk. lia.
  - intros Hx. exists (Z.to_nat (x - lo)). split; [lia|].
    apply elem_of_seq. lia.
Qed.

Lemma zrange_snoc (lo : Z) (k : nat) :
  zrange lo (lo + Z.of_nat (S k)) = zrange lo (lo + Z.of_nat k) ++ [lo + Z.of_nat k].
Proof.
  unfold zrange.
  replace (Z.to_nat (lo + Z.of_nat (S k) - lo)) with (S k) by lia.
  replace (Z.to_nat (lo + Z.of_nat k - lo)) with k by lia.
  rewrite seq_S, fmap_app. done.
Qed.

Lemma zrange_nil (lo hi : Z) : hi ≤ lo → zrange lo hi = [].
Proof. intros H. unfold zrange. by replace (Z.to_nat (hi - lo)) with 0%nat by lia. Qed.

Lemma find_app_first {A} (p : A → bool) (l1 l2 : list A) :
  find p (l1 ++ l2)
  = match find p l1 with Some x => Some x | None => find p l2 end.
Proof. induction l1 as [|x l1 IH]; simpl; [done|]. by destruct (p x). Qed.

(** The first element that passes a test: everything before it fails. *)
Lemma find_zrange_first (p : Z → bool) (lo hi x : Z) :
  find p (zrange lo hi) = Some x →
  lo ≤ x < hi ∧ p x = true ∧ ∀ y, lo ≤ y < x → p y = false.
Proof.
  destruct (Z.le_gt_cases hi lo) as [Hle|Hlt].
  { by rewrite zrange_nil. }
  replace hi with (lo + Z.of_nat (Z.to_nat (hi - lo))) by lia.
  generalize (Z.to_nat (hi - lo)) as k. clear hi Hlt.
  induction k as [|k IH].
  { rewrite zrange_nil by lia. done. }
  rewrite zrange_snoc, find_app_first.
  destruct (find p (zrange lo (lo + Z.of_nat k))) as [x'|] eqn:Hf.
  - intros [= ->]. destruct (IH eq_refl) as (? & ? & ?).
    split; [lia|]. by split.
  - simpl. destruct (p (lo + Z.of_nat k)) eqn:Hp; [|done].
    intros [= <-]. split; [lia|]. split; [done|].
    intros y Hy. eapply find_none in Hf; [exact Hf|].
    apply list_elem_of_In, elem_of_zrange. lia.
Qed.

Lemma find_zrange_none (p : Z → bool) (lo hi : Z) :
  find p (zrange lo hi) = None ↔ ∀ y, lo ≤ y < hi → p y = false.
Proof.
  split.
  - intros Hf y Hy. eapply find_none in Hf; [exact Hf|].
    apply list_elem_of_In, elem_of_zrange. lia.
  - intros Hall. destruct (find p (zrange lo hi)) as [x|] eqn:Hf; [|done].
    apply find_zrange_first in Hf as (Hx & Hp & _).
    rewrite Hall in Hp by done. done.
Qed.

End ranges.

Module Victim.
Import Cache VictimSpec.

Lemma scan_min_spec (key : Z → Z) (n : Z) :
  0 < n →
  0 ≤ scan_min key n < n
  ∧ (∀ w, 0 ≤ w < n → key (scan_min key n) ≤ key w)
  ∧ (∀ w, 0 ≤ w < scan_min key n → key (scan_min key n) < key w).
Proof.
  intros Hn. unfold scan_min.
  replace n with (1 + Z.of_nat (Z.to_nat (n - 1))) by lia.
  generalize (Z.to_nat (n - 1)) as k. clear n Hn.
  set (f := λ (acc : Z * Z) way,
              if key way <? acc.2 then (way, key way) else acc).
  assert (∀ k, let acc := fold_left f (zrange 1 (1 + Z.of_nat k)) (0, key 0) in
               acc.2 = key acc.1
               ∧ 0 ≤ acc.1 < 1 + Z.of_nat k
               ∧ (∀ w, 0 ≤ w < 1 + Z.of_nat k → key acc.1 ≤ key w)
               ∧ (∀ w, 0 ≤ w < acc.1 → key acc.1 < key w)) as H.
  { induction k as [|k IH].
    - rewrite zrange_nil by lia. simpl. split_and!; try done; try lia.
      intros w Hw. by replace w with 0 by lia.
    - rewrite zrange_snoc, fold_left_app. cbv zeta in IH.
      destruct (fold_left f (zrange 1 (1 + Z.of_nat k)) (0, key 0))
        as [v kv]. simpl in IH. destruct IH as (-> & Hv & Hmin & Hfirst).
      simpl.
      assert (f (v, key v) (1 + Z.of_nat k)
              = if key (1 + Z.of_nat k) <? key v
                then (1 + Z.of_nat k, key (1 + Z.of_nat k))
                else (v, key v)) as -> by done.
      destruct (Z.ltb_spec (key (1 + Z.of_nat k)) (key v)); simpl.
      + split_and!; try done; try lia.
        * intros w Hw. destruct (decide (w = 1 + Z.of_nat k)) as [->|]; [lia|].
          specialize (Hmin w). lia.
        * intros w Hw. specialize (Hmin w). lia.
      + split_and!; try done; try lia.
        intros w Hw. destruct (decide (w = 1 + Z.of_nat k)) as [->|]; [lia|].
        apply Hmin. lia. }
  intros k. destruct (H k) as (_ & ? & ? & ?). done.
Qed.

End Victim.

Module Shape.
Import Cache VictimSpec ShapeSpec CacheProofs.

Lemma shape_alter_line f s w c : shape (alter_line f s w c) = shape c.
Proof.
  unfold shape, alter_line. simpl. f_equal.
  apply fmap_valter_id. intros row. apply length_valter.
Qed.

Lemma shape_count_victim_writeback s w c :
  shape (count_victim_writeback s w c) = shape c.
Proof. unfold count_victim_writeback. by case_match. Qed.

Ltac shape_peel :=
  repeat first
    [ rewrite shape_alter_line
    | rewrite shape_count_victim_writeback
    | progress change (shape (set_counters ?a ?b ?c ?d ?e ?f ?g ?h ?x))
        with (shape x)
    | progress change (shape (set_next_insertion_order ?v ?x)) with (shape x)
    | progress change (shape (set_access_counter ?v ?x)) with (shape x)
    | progress change (shape (set_hits ?v ?x)) with (shape x)
    | progress change (shape (set_misses ?v ?x)) with (shape x)
    | progress change (shape (set_writes ?v ?x)) with (shape x)
    | progress change (shape (set_write_hits ?v ?x)) with (shape x)
    | progress change (shape (set_write_misses ?v ?x)) with (shape x)
    | progress change (shape (set_writebacks ?v ?x)) with (shape x)
    | match goal with |- shape ?x = _ => is_var x; subst x end
    | match goal with |- shape (if ?b then _ else _) = _ => destruct b end ].

Lemma shape_read c a : shape (read c a).1 = shape c.
Proof.
  open_body read. destruct (find_hit _ _ _); repeat name_let; cbn [fst];
    by shape_peel.
Qed.

Lemma shape_write c a : shape (write c a).1 = shape c.
Proof.
  open_body write. destruct (find_hit _ _ _); repeat name_let; cbn [fst];
    by shape_peel.
Qed.

Lemma shape_insert c a d : shape (insert c a d) = shape c.
Proof.
  open_body insert. destruct (find_hit _ _ _); repeat name_let;
    by shape_peel.
Qed.

Lemma shape_evict c a : shape (evict c a).1.1 = shape c.
Proof.
  open_body evict. destruct (find_hit _ _ _); repeat name_let; cbn [fst];
    by shape_peel.
Qed.

Lemma shape_clear c : shape (clear c) = shape c.
Proof.
  open_body clear.
  change (shape (set_counters 0 0 0 0 0 0 0 0 st0)) with (shape st0).
  subst st0. generalize (zrange 0 (num_sets c)
       ≫= λ s : Z, (λ w : Z, (s, w)) <$> zrange 0 (ways c)).
  intros l. generalize c.
  induction l as [|sw l IH]; intros c0; simpl; [done|].
  rewrite IH. subst st. cbv beta. by rewrite !shape_alter_line.
Qed.

Lemma shape_step c o : shape (step c o) = shape c.
Proof.
  destruct o; simpl; auto using shape_read, shape_write, shape_insert,
    shape_evict, shape_clear.
Qed.

Lemma shape_run ops c : shape (run c ops) = shape c.
Proof.
  revert c. induction ops as [|o ops IH]; intros c; [done|].
  unfold run in *. simpl. by rewrite IH, shape_step.
Qed.

Lemma shaped_shape c c' : shape c' = shape c → shaped c → shaped c'.
Proof.
  unfold shape. intros [= E1 E2 E3 E4] [H1 H2 H3 H4 H5].
  split; rewrite ?E1, ?E2, ?E3; try done.
  - by rewrite <- (length_fmap length), E4, length_fmap.
  - rewrite Forall_forall in H5. apply Forall_forall. intros row Hrow.
    assert (length row ∈ length <$> cache c') as Hin
      by (apply list_elem_of_fmap; eauto).
    rewrite E4 in Hin. apply list_elem_of_fmap in Hin as (row' & -> & Hin).
    by apply H5.
Qed.

(** The constructor shapes the level when the line count fits the
    associativity. *)
Lemma shaped_new nm lines blk assoc repl wr :
  0 < lines < 2 ^ 31 → 0 < blk < 2 ^ 31 →
  0 < num_sets (new nm lines blk assoc repl wr) →
  shaped (new nm lines blk assoc repl wr).
Proof.
  intros Hl Hb. unfold new.
  destruct assoc; cbn -[replicate Z.to_nat Z.quot Z.pow]; intros Hs.
  - split; cbn -[replicate Z.to_nat Z.quot Z.pow]; try lia.
    + by rewrite length_replicate.
    + apply Forall_replicate. by rewrite length_replicate.
  - assert (Z.quot lines 2 ≤ lines) by (apply Z.quot_le_upper_bound; lia).
    split; cbn -[replicate Z.to_nat Z.quot Z.pow]; try lia.
    + by rewrite length_replicate.
    + apply Forall_replicate. by rewrite length_replicate.
  - assert (Z.quot lines 4 ≤ lines) by (apply Z.quot_le_upper_bound; lia).
    split; cbn -[replicate Z.to_nat Z.quot Z.pow]; try lia.
    + by rewrite length_replicate.
    + apply Forall_replicate. by rewrite length_replicate.
  - split; cbn -[replicate Z.to_nat Z.quot Z.pow]; try lia.
    + by rewrite length_replicate.
    + apply Forall_replicate. by rewrite length_replicate.
Qed.

(** *** Indices stay inside the table *)

Lemma getSetIndex_range c a :
  shaped c → 0 ≤ getSetIndex c a < num_sets c.
Proof.
  intros [Hs _ _ _ _]. unfold getSetIndex, to_int, wrap64.
  rewrite (Z.mod_small (num_sets c)) by lia.
  pose proof (Z.mod_pos_bound (a / (block_size c `mod` 2 ^ 64)) (num_sets c)
                ltac:(lia)) as Hm.
  rewrite (Z.mod_small (_ + 2 ^ 31)) by lia. lia.
Qed.

Lemma line_at_is_Some c s w :
  shaped c → 0 ≤ s < num_sets c → 0 ≤ w < ways c →
  is_Some (line_at c s w).
Proof.
  intros [_ _ _ Hr Hc] Hs Hw. unfold line_at, vget.
  destruct (Z.ltb_spec s 0); [lia|].
  destruct (lookup_lt_is_Some_2 (cache c) (Z.to_nat s)) as [row Hrow]; [lia|].
  rewrite Hrow. simpl. destruct (Z.ltb_spec w 0); [lia|].
  apply lookup_lt_is_Some_2.
  rewrite (Forall_lookup_1 _ _ _ _ Hc Hrow). lia.
Qed.

End Shape.

Module VictimChoice.
Import Cache VictimSpec ShapeSpec CacheProofs Victim Shape.

(** X1.  The way chosen for replacement.  On a level of the constructor's
    shape, [findVictimInSet] returns a way of the set.  If the set has an
    invalid line it returns the first one.  If every line is valid it
    returns the first among the oldest: under FIFO the way of least
    insertion order, under LRU the way of least access time, and strictly
    less than every way before it. *)
Theorem victim_is_first_invalid_else_oldest (c : t) (s : Z) :
  shaped c → 0 ≤ s < num_sets c →
  let v := findVictimInSet c s in
  0 ≤ v < ways c
  ∧ (line_field valid false c s v = false →
     ∀ w, 0 ≤ w < v → line_field valid false c s w = true)
  ∧ ((∃ w, 0 ≤ w < ways c ∧ line_field valid false c s w = false) →
     line_field valid false c s v = false)
  ∧ (line_field valid false c s v = true →
     ∀ w, 0 ≤ w < ways c →
       match replacement_policy c with
       | FIFO =>
           line_field insertion_order 0 c s v
           ≤ line_field insertion_order 0 c s w
           ∧ (w < v → line_field insertion_order 0 c s v
                      < line_field insertion_order 0 c s w)
       | LRU =>
           line_field last_access_time 0 c s v
           ≤ line_field last_access_time 0 c s w
           ∧ (w < v → line_field last_access_time 0 c s v
                      < line_field last_access_time 0 c s w)
       end).
Proof.
  intros Hc Hs. pose proof (shaped_ways c Hc) as Hw.
  unfold findVictimInSet.
  destruct (find _ (zrange 0 (ways c))) as [v|] eqn:Hfind; cbv zeta.
  - apply find_zrange_first in Hfind as (Hv & Hinv & Hbefore).
    apply negb_true_iff in Hinv.
    split; [done|]. split.
    { intros _ w Hw'. specialize (Hbefore w Hw'). by apply negb_false_iff. }
    split; [done|]. intros Hvalid. congruence.
  - rewrite find_zrange_none in Hfind.
    assert (∀ w, 0 ≤ w < ways c → line_field valid false c s w = true)
      as Hfull.
    { intros w Hw'. specialize (Hfind w Hw'). by apply negb_false_iff. }
    assert (0 ≤ match replacement_policy c with
                | FIFO => findFIFOVictimInSet c s
                | LRU => findLRUVictimInSet c s
                end < ways c) as Hv.
    { destruct (replacement_policy c);
        unfold findFIFOVictimInSet, findLRUVictimInSet;
        apply scan_min_spec; lia. }
    split; [done|]. split.
    { intros Hinv. rewrite Hfull in Hinv by done. done. }
    split.
    { intros (w & Hw' & Hinv). rewrite Hfull in Hinv by done. done. }
    intros _ w Hw'.
    destruct (replacement_policy c);
      unfold findFIFOVictimInSet, findLRUVictimInSet.
    + destruct (scan_min_spec (line_field insertion_order 0 c s) (ways c))
        as (_ & Hmin & Hfirst); [lia|].
      split; [by apply Hmin|]. intros Hlt. apply Hfirst. lia.
    + destruct (scan_min_spec (line_field last_access_time 0 c s) (ways c))
        as (_ & Hmin & Hfirst); [lia|].
      split; [by apply Hmin|]. intros Hlt. apply Hfirst. lia.
Qed.

Lemma victim_is_first_invalid_else_oldest_witness :
  let c := (write (new "L1" 2 64 FULLY_ASSOCIATIVE FIFO WRITE_BACK) 0).1 in
  let v := findVictimInSet c 0 in
  0 ≤ v < ways c
  ∧ (line_field valid false c 0 v = false →
     ∀ w, 0 ≤ w < v → line_field valid false c 0 w = true)
  ∧ ((∃ w, 0 ≤ w < ways c ∧ line_field valid false c 0 w = false) →
     line_field valid false c 0 v = false).
Proof.
  intros c.
  destruct (victim_is_first_invalid_else_oldest c 0) as (H1 & H2 & H3 & _).
  - eapply shaped_shape; [apply shape_write|].
    apply shaped_new; [lia|lia|by vm_compute].
  - by vm_compute.
  - by split_and!.
Defined.

End VictimChoice.

Module Install.
Import Cache VictimSpec ShapeSpec InstallSpec CacheProofs Victim Shape.

Lemma getSetIndex_shape c c' a :
  shape c' = shape c → getSetIndex c' a = getSetIndex c a.
Proof. unfold shape, getSetIndex. by intros [= -> _ -> _]. Qed.

Lemma getTag_shape c c' a : shape c' = shape c → getTag c' a = getTag c a.
Proof. unfold shape, getTag. by intros [= -> _ -> _]. Qed.

Lemma ways_shape c c' : shape c' = shape c → ways c' = ways c.
Proof. unfold shape. by intros [= _ -> _ _]. Qed.

Lemma line_at_count_victim_writeback s w c s' w' :
  line_at (count_victim_writeback s w c) s' w' = line_at c s' w'.
Proof. unfold count_victim_writeback. by case_match. Qed.

Lemma read_hit c a : (read c a).2 = holds c a.
Proof.
  unfold read, holds.
  change (find_hit (set_access_counter _ c)
            (getSetIndex (set_access_counter _ c) a)
            (getTag (set_access_counter _ c) a))
    with (find_hit c (getSetIndex c a) (getTag c a)).
  destruct (find_hit c _ _); done.
Qed.

Lemma holds_find_hit c a :
  holds c a = true ↔ is_Some (find_hit c (getSetIndex c a) (getTag c a)).
Proof. unfold holds. apply bool_decide_eq_true. Qed.

(** A hit found by [find_hit] lies inside the set. *)
Lemma find_hit_range c s tg w : find_hit c s tg = Some w → 0 ≤ w < ways c.
Proof. unfold find_hit. by intros (Hw & _)%find_zrange_first. Qed.

(** Whoever passes the hit test makes [find_hit] succeed. *)
Lemma find_hit_is_Some c s tg w l :
  0 ≤ w < ways c → line_at c s w = Some l → line_hit tg l = true →
  is_Some (find_hit c s tg).
Proof.
  intros Hw Hl Hhit. unfold find_hit.
  destruct (find _ (zrange 0 (ways c))) as [x|] eqn:Hf; [eauto|].
  rewrite find_zrange_none in Hf. specialize (Hf w Hw).
  unfold line_field in Hf. rewrite Hl in Hf. simpl in Hf. congruence.
Qed.

Lemma count_victim_writeback_eq s w c :
  count_victim_writeback s w c
  = set_writebacks
      (writebacks c
       + (if line_field valid false c s w && line_field dirty false c s w
             && is_WB (write_policy c) then 1 else 0)) c.
Proof.
  unfold count_victim_writeback. destruct (_ && _); [done|].
  destruct c. unfold set_writebacks, set_counters. simpl. f_equal. lia.
Qed.

Lemma find_hit_None c a :
  holds c a = false → find_hit c (getSetIndex c a) (getTag c a) = None.
Proof.
  intros Hmiss. destruct (find_hit c _ _) eqn:E; [|done].
  assert (holds c a = true) by (apply holds_find_hit; rewrite E; eauto).
  congruence.
Qed.

(** Replace the body of the named victim-accounting step by its closed
    form, so that every later state is a record built from the first. *)
Ltac close_victim_step x :=
  match goal with
  | x := count_victim_writeback ?s ?w ?c |- _ =>
      let E := fresh in
      assert (x = _) as E by apply (count_victim_writeback_eq s w c);
      clearbody x; subst x
  end.

(** Walk [line_at] down a chain of named states. *)
Ltac line_at_peel tac :=
  repeat first
    [ match goal with
      | |- context [line_at ?x _ _] => is_var x; progress unfold x
      end
    | rewrite line_at_alter_line; tac
    | progress change (line_at (set_counters ?a ?b ?c ?d ?e ?f ?g ?h ?x))
        with (line_at x)
    | progress change (line_at (set_next_insertion_order ?v ?x))
        with (line_at x)
    | progress change (line_at (set_access_counter ?v ?x)) with (line_at x)
    | progress change (line_at (set_hits ?v ?x)) with (line_at x)
    | progress change (line_at (set_misses ?v ?x)) with (line_at x)
    | progress change (line_at (set_writes ?v ?x)) with (line_at x)
    | progress change (line_at (set_write_hits ?v ?x)) with (line_at x)
    | progress change (line_at (set_write_misses ?v ?x)) with (line_at x)
    | progress change (line_at (set_writebacks ?v ?x)) with (line_at x) ].

(** [write] on a miss: the victim line becomes the written block, every
    other line stays. *)
Lemma write_miss c a :
  holds c a = false →
  let s := getSetIndex c a in
  let v := findVictimInSet c s in
  (write c a).2 = false
  ∧ (∀ l0, line_at c s v = Some l0 →
       line_at (write c a).1 s v
       = Some (installed (getTag c a) (is_WB (write_policy c))
                 (next_insertion_order c) (access_counter c + 1)))
  ∧ (∀ s' w', ¬ (s = s' ∧ v = w') →
       line_at (write c a).1 s' w' = line_at c s' w').
Proof.
  intros Hmiss%find_hit_None s v.
  remember (write c a) as r eqn:E. revert E. open_body write.
  change (find_hit st0 st1 st2)
    with (find_hit c (getSetIndex c a) (getTag c a)).
  rewrite Hmiss. intros ->. cbn [fst snd]. close_victim_step st6.
  split; [done|]. split.
  - intros l0 Hl0. line_at_peel ltac:(rewrite decide_True by done).
    fold s v. rewrite Hl0. destruct l0. reflexivity.
  - intros s' w' Hne. line_at_peel ltac:(rewrite decide_False by done).
    reflexivity.
Qed.

(** [insert] on a miss, likewise. *)
Lemma insert_miss c a d :
  holds c a = false →
  let s := getSetIndex c a in
  let v := findVictimInSet c s in
  (∀ l0, line_at c s v = Some l0 →
     line_at (insert c a d) s v
     = Some (installed (getTag c a) (is_WB (write_policy c) && d)
               (next_insertion_order c) (access_counter c + 1)))
  ∧ (∀ s' w', ¬ (s = s' ∧ v = w') →
       line_at (insert c a d) s' w' = line_at c s' w').
Proof.
  intros Hmiss%find_hit_None s v.
  remember (insert c a d) as r eqn:E. revert E. open_body insert.
  change (find_hit c st st0)
    with (find_hit c (getSetIndex c a) (getTag c a)).
  rewrite Hmiss. intros ->.
  match goal with x := count_victim_writeback _ _ _ |- _ =>
    close_victim_step x end.
  split.
  - intros l0 Hl0. line_at_peel ltac:(rewrite decide_True by done).
    fold s v. rewrite Hl0.
    destruct l0, (is_WB (write_policy c)); reflexivity.
  - intros s' w' Hne. line_at_peel ltac:(rewrite decide_False by done).
    reflexivity.
Qed.

End Install.

Module Lines.
Import Cache VictimSpec ShapeSpec LinesSpec CacheProofs Victim Shape InstallSpec Install.

Ltac use_hit H :=
  match type of H with
  | find_hit ?c0 ?s ?tg = _ =>
      match goal with
      | |- context [find_hit ?x ?y ?z] =>
          change (find_hit x y z) with (find_hit c0 s tg);
          rewrite H; cbv beta iota
      end
  end.

Ltac states_peel :=
  repeat first
    [ match goal with
      | |- context [line_at ?x _ _] => is_var x; progress unfold x
      end
    | rewrite line_at_alter_line
    | match goal with
      | |- context [line_at (if ?b then _ else _) _ _] =>
          first [change b with true | change b with false]; cbv beta iota
      end
    | name_let
    | progress change (line_at (set_counters ?a ?b ?c ?d ?e ?f ?g ?h ?x))
        with (line_at x)
    | progress change (line_at (set_next_insertion_order ?v ?x))
        with (line_at x)
    | progress change (line_at (set_access_counter ?v ?x)) with (line_at x)
    | progress change (line_at (set_hits ?v ?x)) with (line_at x)
    | progress change (line_at (set_misses ?v ?x)) with (line_at x)
    | progress change (line_at (set_writes ?v ?x)) with (line_at x)
    | progress change (line_at (set_write_hits ?v ?x)) with (line_at x)
    | progress change (line_at (set_write_misses ?v ?x)) with (line_at x)
    | progress change (line_at (set_writebacks ?v ?x)) with (line_at x) ].


(** The shared script of the hit paths: one case per pair of policies. *)
Ltac hit_path f Hhit :=
  open_body f; use_hit Hhit; intros ->; repeat name_let; cbn [fst];
  states_peel;
  repeat case_decide; try (exfalso; eauto; fail);
  try reflexivity;
  match goal with |- _ = _ <$> ?o => destruct o as [[]|] end; [|done];
  unfold touched, dropped; simpl; by rewrite ?orb_false_r, ?orb_true_r.

Lemma read_hit_lines c a w s' w' :
  find_hit c (getSetIndex c a) (getTag c a) = Some w →
  line_at (read c a).1 s' w'
  = if decide (getSetIndex c a = s' ∧ w = w')
    then touched c false <$> line_at c s' w'
    else line_at c s' w'.
Proof.
  intros Hhit. remember (read c a) as r eqn:E. revert E.
  destruct c as [nm cap bs assoc [|] [|] ns wy ch nio ac h m wr wh wm wb].
  all: hit_path read Hhit.
Qed.

Lemma read_miss_lines c a s' w' :
  find_hit c (getSetIndex c a) (getTag c a) = None →
  line_at (read c a).1 s' w' = line_at c s' w'.
Proof.
  intros Hhit. remember (read c a) as r eqn:E. revert E.
  open_body read. use_hit Hhit. by intros ->.
Qed.

Lemma write_hit_lines c a w s' w' :
  find_hit c (getSetIndex c a) (getTag c a) = Some w →
  line_at (write c a).1 s' w'
  = if decide (getSetIndex c a = s' ∧ w = w')
    then touched c (is_WB (write_policy c)) <$> line_at c s' w'
    else line_at c s' w'.
Proof.
  intros Hhit. remember (write c a) as r eqn:E. revert E.
  destruct c as [nm cap bs assoc [|] [|] ns wy ch nio ac h m wr wh wm wb].
  all: hit_path write Hhit.
Qed.

Lemma insert_hit_lines c a d w s' w' :
  find_hit c (getSetIndex c a) (getTag c a) = Some w →
  line_at (insert c a d) s' w'
  = if decide (getSetIndex c a = s' ∧ w = w')
    then touched c (is_WB (write_policy c) && d) <$> line_at c s' w'
    else line_at c s' w'.
Proof.
  intros Hhit. remember (insert c a d) as r eqn:E. revert E.
  destruct c as [nm cap bs assoc [|] [|] ns wy ch nio ac h m wr wh wm wb];
    destruct d.
  all: hit_path insert Hhit.
Qed.

Lemma evict_hit_lines c a w s' w' :
  find_hit c (getSetIndex c a) (getTag c a) = Some w →
  line_at (evict c a).1.1 s' w'
  = if decide (getSetIndex c a = s' ∧ w = w')
    then dropped <$> line_at c s' w'
    else line_at c s' w'.
Proof.
  intros Hhit. remember (evict c a) as r eqn:E. revert E.
  open_body evict. use_hit Hhit. intros ->. repeat name_let. cbn [fst].
  assert (line_at st4 s' w' = line_at st3 s' w') as ->.
  { subst st4. by destruct (_ && _). }
  states_peel. repeat case_decide; try (exfalso; eauto; fail); try done.
  by destruct (line_at c s' w').
Qed.

Lemma evict_miss c a :
  find_hit c (getSetIndex c a) (getTag c a) = None →
  evict c a = (c, false, false).
Proof. intros Hhit. unfold evict. by rewrite Hhit. Qed.

Lemma evict_flags c a :
  (evict c a).1.2 = holds c a ∧ (evict c a).2 = holds_dirty c a.
Proof.
  unfold evict, holds, holds_dirty.
  by destruct (find_hit c (getSetIndex c a) (getTag c a)).
Qed.

Lemma dropped_idemp l : dropped (dropped l) = dropped l.
Proof. done. Qed.

Lemma clear_lines c s' w' :
  line_at (clear c) s' w'
  = if decide (0 ≤ s' < num_sets c ∧ 0 ≤ w' < ways c)
    then dropped <$> line_at c s' w'
    else line_at c s' w'.
Proof.
  open_body clear.
  change (line_at (set_counters 0 0 0 0 0 0 0 0 st0)) with (line_at st0).
  assert (∀ (l : list (Z * Z)) c0,
    line_at (fold_left st l c0) s' w'
    = if decide ((s', w') ∈ l) then dropped <$> line_at c0 s' w'
      else line_at c0 s' w') as Hfold.
  { induction l as [|[s w] l IH]; intros c0; simpl; [done|].
    rewrite IH. subst st. cbv beta. cbn [fst snd].
    rewrite !line_at_alter_line.
    destruct (decide (s = s' ∧ w = w')) as [[-> ->]|Hne].
    - rewrite (decide_True (P := (s', w') ∈ (s', w') :: l)) by left.
      destruct (line_at c0 s' w'); simpl; by case_decide.
    - destruct (decide ((s', w') ∈ l)) as [Hin|Hin].
      + rewrite decide_True by (by right). done.
      + rewrite decide_False; [done|].
        intros [[= -> ->]|?]%elem_of_cons; tauto. }
  subst st0. rewrite Hfold. clear Hfold.
  assert ((s', w') ∈ (zrange 0 (num_sets c)
            ≫= λ s : Z, (λ w : Z, (s, w)) <$> zrange 0 (ways c))
          ↔ 0 ≤ s' < num_sets c ∧ 0 ≤ w' < ways c) as Hin.
  { rewrite list_elem_of_bind. split.
    - intros (s & Hw & Hs). apply elem_of_zrange in Hs.
      apply list_elem_of_fmap in Hw as (w & [= -> ->] & Hw).
      apply elem_of_zrange in Hw. done.
    - intros [Hs Hw]. exists s'. split; [|by apply elem_of_zrange].
      apply list_elem_of_fmap. exists w'. split; [done|].
      by apply elem_of_zrange. }
  destruct (decide (0 ≤ s' < num_sets c ∧ 0 ≤ w' < ways c)).
  - rewrite decide_True; [done|]. by apply Hin.
  - rewrite decide_False; [done|]. by rewrite Hin.
Qed.

End Lines.

Module Residency.
Import Cache VictimSpec ShapeSpec LinesSpec ResidencySpec CacheProofs Victim
  Shape InstallSpec Install Lines.

Lemma find_ext_in {A} (p q : A → bool) (l : list A) :
  (∀ x, x ∈ l → p x = q x) → find p l = find q l.
Proof.
  induction l as [|x l IH]; intros H; simpl; [done|].
  rewrite (H x) by left. rewrite IH; [done|].
  intros y Hy. apply H. by right.
Qed.

Lemma find_hit_lines c c' s tg :
  ways c' = ways c →
  (∀ w, 0 ≤ w < ways c →
     line_field (line_hit tg) false c' s w
     = line_field (line_hit tg) false c s w) →
  find_hit c' s tg = find_hit c s tg.
Proof.
  intros Hw H. unfold find_hit. rewrite Hw. apply find_ext_in.
  intros w Hin%elem_of_zrange. by apply H.
Qed.

Lemma find_zrange_first_intro (p : Z → bool) (hi x : Z) :
  0 ≤ x < hi → p x = true → (∀ y, 0 ≤ y < x → p y = false) →
  find p (zrange 0 hi) = Some x.
Proof.
  intros Hx Hp Hb. destruct (find p (zrange 0 hi)) as [y|] eqn:E.
  - apply find_zrange_first in E as (Hy & Hpy & Hby). f_equal.
    destruct (Z.lt_trichotomy x y) as [?|[?|?]]; [|done|].
    + rewrite Hby in Hp by lia. done.
    + rewrite Hb in Hpy by lia. done.
  - rewrite find_zrange_none in E. rewrite E in Hp by done. done.
Qed.

Lemma findVictimInSet_range c s :
  0 < ways c → 0 ≤ findVictimInSet c s < ways c.
Proof.
  intros Hw. unfold findVictimInSet.
  destruct (find _ (zrange 0 (ways c))) as [v|] eqn:Hfind.
  - by apply find_zrange_first in Hfind as (Hv & _).
  - destruct (replacement_policy c);
      unfold findFIFOVictimInSet, findLRUVictimInSet;
      by apply scan_min_spec.
Qed.

Lemma line_at_Some_range c s w l :
  shaped c → line_at c s w = Some l →
  0 ≤ s < num_sets c ∧ 0 ≤ w < ways c.
Proof.
  intros [Hs Hw _ Hr Hc] Hl. unfold line_at, vget in Hl.
  destruct (Z.ltb_spec s 0); [done|].
  destruct (cache c !! Z.to_nat s) as [row|] eqn:Hrow; [|done].
  simpl in Hl. destruct (Z.ltb_spec w 0); [done|].
  pose proof (lookup_lt_Some _ _ _ Hrow).
  pose proof (lookup_lt_Some _ _ _ Hl).
  rewrite Forall_forall in Hc.
  rewrite (Hc row) in * by (by eapply list_elem_of_lookup_2). lia.
Qed.

(** After a hit that touches the line found, the block is still held and
    its dirty bit has absorbed the one the operation brings. *)
Lemma held_after_hit c c' a w d :
  shape c' = shape c →
  find_hit c (getSetIndex c a) (getTag c a) = Some w →
  (∀ s' w', line_at c' s' w'
            = if decide (getSetIndex c a = s' ∧ w = w')
              then touched c d <$> line_at c s' w'
              else line_at c s' w') →
  holds c' a = true ∧ holds_dirty c' a = holds_dirty c a || d.
Proof.
  intros Hsh Hhit Hl.
  assert (find_hit c' (getSetIndex c' a) (getTag c' a) = Some w) as Hhit'.
  { rewrite (getSetIndex_shape _ _ _ Hsh), (getTag_shape _ _ _ Hsh), <- Hhit.
    apply find_hit_lines; [by apply ways_shape|].
    intros w0 _. unfold line_field. rewrite Hl. case_decide; [|done].
    by destruct (line_at c _ w0). }
  split.
  - apply holds_find_hit. rewrite Hhit'. eauto.
  - unfold holds_dirty. rewrite Hhit', Hhit, (getSetIndex_shape _ _ _ Hsh).
    unfold line_field. rewrite Hl, decide_True by done.
    by destruct (find_hit_spec _ _ _ _ Hhit) as (l & -> & _).
Qed.

(** After a miss that installs the block in the victim way, the block is
    held, and held in that way. *)
Lemma held_after_miss c c' a d io lat :
  shaped c → shape c' = shape c →
  find_hit c (getSetIndex c a) (getTag c a) = None →
  line_at c' (getSetIndex c a) (findVictimInSet c (getSetIndex c a))
  = Some (installed (getTag c a) d io lat) →
  (∀ s' w',
     ¬ (getSetIndex c a = s' ∧ findVictimInSet c (getSetIndex c a) = w') →
     line_at c' s' w' = line_at c s' w') →
  holds c' a = true ∧ holds_dirty c' a = d.
Proof.
  intros Hc Hsh Hmiss Hv Hrest.
  pose proof (findVictimInSet_range c (getSetIndex c a)
                ltac:(apply (shaped_ways c Hc))) as Hvr.
  assert (find_hit c' (getSetIndex c' a) (getTag c' a)
          = Some (findVictimInSet c (getSetIndex c a))) as Hhit'.
  { rewrite (getSetIndex_shape _ _ _ Hsh), (getTag_shape _ _ _ Hsh).
    unfold find_hit. rewrite (ways_shape _ _ Hsh).
    apply find_zrange_first_intro; [done| |].
    - unfold line_field. rewrite Hv. simpl. unfold line_hit. simpl.
      apply Z.eqb_refl.
    - intros y Hy. unfold line_field. rewrite Hrest by lia.
      unfold find_hit in Hmiss. rewrite find_zrange_none in Hmiss.
      apply Hmiss. lia. }
  split.
  - apply holds_find_hit. rewrite Hhit'. eauto.
  - unfold holds_dirty. rewrite Hhit', (getSetIndex_shape _ _ _ Hsh).
    unfold line_field. by rewrite Hv.
Qed.

Lemma victim_line c a :
  shaped c →
  is_Some (line_at c (getSetIndex c a) (findVictimInSet c (getSetIndex c a))).
Proof.
  intros Hc. apply line_at_is_Some; [done| |].
  - by apply getSetIndex_range.
  - apply findVictimInSet_range, (shaped_ways c Hc).
Qed.

Lemma holds_dirty_miss c a :
  find_hit c (getSetIndex c a) (getTag c a) = None → holds_dirty c a = false.
Proof. unfold holds_dirty. by intros ->. Qed.

Lemma holds_miss c a :
  find_hit c (getSetIndex c a) (getTag c a) = None → holds c a = false.
Proof. unfold holds. by intros ->. Qed.

Lemma write_holds c a :
  shaped c →
  holds (write c a).1 a = true
  ∧ holds_dirty (write c a).1 a = holds_dirty c a || is_WB (write_policy c).
Proof.
  intros Hc.
  destruct (find_hit c (getSetIndex c a) (getTag c a)) as [w|] eqn:Hhit.
  - apply (held_after_hit c _ a w); [apply shape_write|done|].
    intros s' w'. by apply write_hit_lines.
  - rewrite (holds_dirty_miss c a Hhit). simpl.
    destruct (write_miss c a (holds_miss c a Hhit)) as (_ & Hv & Hrest).
    destruct (victim_line c a Hc) as [l0 Hl0].
    eapply held_after_miss; [done|apply shape_write|done| |done].
    by eapply Hv.
Qed.

Lemma insert_holds c a d :
  shaped c →
  holds (insert c a d) a = true
  ∧ holds_dirty (insert c a d) a
    = holds_dirty c a || (is_WB (write_policy c) && d).
Proof.
  intros Hc.
  destruct (find_hit c (getSetIndex c a) (getTag c a)) as [w|] eqn:Hhit.
  - apply (held_after_hit c _ a w); [apply shape_insert|done|].
    intros s' w'. by apply insert_hit_lines.
  - rewrite (holds_dirty_miss c a Hhit). simpl.
    destruct (insert_miss c a d (holds_miss c a Hhit)) as (Hv & Hrest).
    destruct (victim_line c a Hc) as [l0 Hl0].
    eapply held_after_miss; [done|apply shape_insert|done| |done].
    by eapply Hv.
Qed.

(** A read changes no residency. *)
Lemma holds_read c a b : holds (read c a).1 b = holds c b.
Proof.
  pose proof (shape_read c a) as Hsh. unfold holds.
  rewrite (getSetIndex_shape _ _ _ Hsh), (getTag_shape _ _ _ Hsh).
  assert (find_hit (read c a).1 (getSetIndex c b) (getTag c b)
          = find_hit c (getSetIndex c b) (getTag c b)) as ->; [|done].
  apply find_hit_lines; [by apply ways_shape|].
  intros w0 _. unfold line_field.
  destruct (find_hit c (getSetIndex c a) (getTag c a)) as [w|] eqn:Hhit.
  - rewrite (read_hit_lines c a w) by done. case_decide; [|done].
    by destruct (line_at c _ w0).
  - by rewrite read_miss_lines.
Qed.

(** X2.  Write-allocate and fill.  On a level of the constructor's shape,
    [write] returns whether the block was held, and after [write] as after
    [insert] the block is held: a read of the address hits.  After
    [write] its line is dirty exactly when it was dirty before or the
    level is write-back; after [insert] exactly when it was dirty before,
    or the level is write-back and the block is inserted dirty. *)
Theorem written_and_inserted_blocks_are_held (c : t) (a : Z) (d : bool) :
  shaped c →
  (write c a).2 = holds c a
  ∧ holds (write c a).1 a = true
  ∧ (read (write c a).1 a).2 = true
  ∧ holds_dirty (write c a).1 a = holds_dirty c a || is_WB (write_policy c)
  ∧ holds (insert c a d) a = true
  ∧ (read (insert c a d) a).2 = true
  ∧ holds_dirty (insert c a d) a
    = holds_dirty c a || (is_WB (write_policy c) && d).
Proof.
  intros Hc. split; [apply write_hit|].
  destruct (write_holds c a Hc) as [H1 H2].
  destruct (insert_holds c a d Hc) as [H3 H4].
  split; [done|]. split; [by rewrite read_hit|]. split; [done|].
  split; [done|]. split; [by rewrite read_hit|done].
Qed.

Lemma written_and_inserted_blocks_are_held_witness :
  let c := new "L1" 8 16 TWO_WAY LRU WRITE_BACK in
  (write c 64).2 = holds c 64
  ∧ holds (write c 64).1 64 = true
  ∧ (read (write c 64).1 64).2 = true
  ∧ holds_dirty (write c 64).1 64
    = holds_dirty c 64 || is_WB (write_policy c)
  ∧ holds (insert c 64 true) 64 = true
  ∧ (read (insert c 64 true) 64).2 = true
  ∧ holds_dirty (insert c 64 true) 64
    = holds_dirty c 64 || (is_WB (write_policy c) && true).
Proof.
  intros c. apply (written_and_inserted_blocks_are_held c 64 true).
  apply shaped_new; [lia|lia|by vm_compute].
Defined.

End Residency.

Module Distinct.
Import Cache VictimSpec ShapeSpec LinesSpec ResidencySpec CacheProofs Victim
  Shape InstallSpec Install Lines Residency.

Lemma distinct_fade c c' :
  (∀ s w l', line_at c' s w = Some l' → valid l' = true →
     ∃ l, line_at c s w = Some l ∧ valid l = true ∧ tag l = tag l') →
  distinct_tags c → distinct_tags c'.
Proof.
  intros H Hd s w1 w2 l1 l2 H1 H2 V1 V2 T.
  destruct (H _ _ _ H1 V1) as (m1 & ? & ? & ?).
  destruct (H _ _ _ H2 V2) as (m2 & ? & ? & ?).
  eapply (Hd s w1 w2 m1 m2); eauto. congruence.
Qed.

Lemma distinct_touched c c' s w d :
  (∀ s' w', line_at c' s' w'
            = if decide (s = s' ∧ w = w')
              then touched c d <$> line_at c s' w'
              else line_at c s' w') →
  distinct_tags c → distinct_tags c'.
Proof.
  intros Hl. apply distinct_fade. intros s' w' l'. rewrite Hl.
  case_decide; [|eauto]. destruct (line_at c s' w') as [l|]; [|done].
  intros [= <-] V. eauto.
Qed.

Lemma distinct_dropped (P : Z → Z → Prop) `{∀ s w, Decision (P s w)} c c' :
  (∀ s' w', line_at c' s' w'
            = if decide (P s' w') then dropped <$> line_at c s' w'
              else line_at c s' w') →
  distinct_tags c → distinct_tags c'.
Proof.
  intros Hl. apply distinct_fade. intros s' w' l'. rewrite Hl.
  case_decide; [|eauto]. destruct (line_at c s' w') as [l|]; [|done].
  by intros [= <-] V.
Qed.

Lemma distinct_install c c' s tg v d io lat :
  shaped c →
  find_hit c s tg = None →
  line_at c' s v = Some (installed tg d io lat) →
  (∀ s' w', ¬ (s = s' ∧ v = w') → line_at c' s' w' = line_at c s' w') →
  distinct_tags c → distinct_tags c'.
Proof.
  intros Hc Hmiss Hv Hrest Hd.
  assert (∀ w l, line_at c s w = Some l → valid l = true → tag l ≠ tg)
    as Hno.
  { intros w l Hl V E.
    destruct (line_at_Some_range c s w l Hc Hl) as [_ Hw].
    unfold find_hit in Hmiss. rewrite find_zrange_none in Hmiss.
    specialize (Hmiss w Hw). unfold line_field in Hmiss.
    rewrite Hl in Hmiss. simpl in Hmiss. unfold line_hit in Hmiss.
    rewrite V, E, Z.eqb_refl in Hmiss. done. }
  intros s' w1 w2 l1 l2 H1 H2 V1 V2 T.
  destruct (decide (s = s' ∧ v = w1)) as [[E1 F1]|N1];
    destruct (decide (s = s' ∧ v = w2)) as [[E2 F2]|N2].
  - congruence.
  - subst s' w1. rewrite Hrest in H2 by done. rewrite Hv in H1.
    injection H1 as <-. simpl in T.
    destruct (Hno w2 l2 H2 V2). done.
  - subst s' w2. rewrite Hrest in H1 by done. rewrite Hv in H2.
    injection H2 as <-. simpl in T.
    destruct (Hno w1 l1 H1 V1). done.
  - rewrite Hrest in H1, H2 by done. by eapply Hd.
Qed.

Lemma distinct_read c a : distinct_tags c → distinct_tags (read c a).1.
Proof.
  destruct (find_hit c (getSetIndex c a) (getTag c a)) as [w|] eqn:Hhit.
  - eapply distinct_touched. intros s' w'. by apply read_hit_lines.
  - apply distinct_fade. intros s w l'. rewrite read_miss_lines by done.
    eauto.
Qed.

Lemma distinct_write c a :
  shaped c → distinct_tags c → distinct_tags (write c a).1.
Proof.
  intros Hc.
  destruct (find_hit c (getSetIndex c a) (getTag c a)) as [w|] eqn:Hhit.
  - eapply distinct_touched. intros s' w'. by apply write_hit_lines.
  - destruct (write_miss c a (holds_miss c a Hhit)) as (_ & Hv & Hrest).
    destruct (victim_line c a Hc) as [l0 Hl0].
    eapply distinct_install; [done|exact Hhit|by eapply Hv|done].
Qed.

Lemma distinct_insert c a d :
  shaped c → distinct_tags c → distinct_tags (insert c a d).
Proof.
  intros Hc.
  destruct (find_hit c (getSetIndex c a) (getTag c a)) as [w|] eqn:Hhit.
  - eapply distinct_touched. intros s' w'. by apply insert_hit_lines.
  - destruct (insert_miss c a d (holds_miss c a Hhit)) as (Hv & Hrest).
    destruct (victim_line c a Hc) as [l0 Hl0].
    eapply distinct_install; [done|exact Hhit|by eapply Hv|done].
Qed.

Lemma distinct_evict c a : distinct_tags c → distinct_tags (evict c a).1.1.
Proof.
  destruct (find_hit c (getSetIndex c a) (getTag c a)) as [w|] eqn:Hhit.
  - apply (distinct_dropped (λ s' w', getSetIndex c a = s' ∧ w = w')).
    intros s' w'. by apply evict_hit_lines.
  - by rewrite evict_miss.
Qed.

Lemma distinct_clear c : distinct_tags c → distinct_tags (clear c).
Proof.
  apply (distinct_dropped
           (λ s' w', 0 ≤ s' < num_sets c ∧ 0 ≤ w' < ways c)).
  apply clear_lines.
Qed.

Lemma distinct_step c o :
  shaped c → distinct_tags c → distinct_tags (step c o).
Proof.
  intros Hc Hd. destruct o; simpl;
    auto using distinct_read, distinct_write, distinct_insert,
      distinct_evict, distinct_clear.
Qed.

Lemma shaped_step c o : shaped c → shaped (step c o).
Proof. apply shaped_shape, shape_step. Qed.

Lemma distinct_run ops c :
  shaped c → distinct_tags c →
  shaped (run c ops) ∧ distinct_tags (run c ops).
Proof.
  revert c. induction ops as [|o ops IH]; intros c Hc Hd; [done|].
  apply IH; [by apply shaped_step | by apply distinct_step].
Qed.

Lemma vget_replicate {A} (n : nat) (x y : A) (i : Z) :
  vget (replicate n x) i = Some y → y = x.
Proof.
  unfold vget. destruct (i <? 0); [done|].
  by intros [-> _]%lookup_replicate.
Qed.

Lemma line_at_new nm lines blk assoc repl wr s w l :
  line_at (new nm lines blk assoc repl wr) s w = Some l → l = CacheLine_new.
Proof.
  assert (∃ n m, cache (new nm lines blk assoc repl wr)
                 = replicate n (replicate m CacheLine_new)) as (n & m & E).
  { destruct assoc; unfold new; cbv beta iota zeta; cbn [cache]; eauto. }
  unfold line_at. rewrite E.
  destruct (vget (replicate n _) s) as [row|] eqn:Hrow; [|done].
  apply vget_replicate in Hrow as ->. apply vget_replicate.
Qed.

Lemma distinct_new nm lines blk assoc repl wr :
  distinct_tags (new nm lines blk assoc repl wr).
Proof.
  intros s w1 w2 l1 l2 H1 _ V1 _ _.
  by rewrite (line_at_new _ _ _ _ _ _ _ _ _ H1) in V1.
Qed.

(** X3.  A set never holds a block twice.  A level built by the constructor
    with positive [int] sizes and at least one set keeps, under every
    sequence of reads, writes, inserts, evictions and clears, the shape the
    constructor gave it, and no two valid lines of a set carry the same
    tag. *)
Theorem set_never_holds_a_block_twice
    (nm : string) (lines blk : Z) (assoc : AssociativityType)
    (repl : ReplacementPolicy) (wr : WritePolicy) (ops : list op) :
  0 < lines < 2 ^ 31 → 0 < blk < 2 ^ 31 →
  0 < num_sets (new nm lines blk assoc repl wr) →
  shaped (run (new nm lines blk assoc repl wr) ops)
  ∧ distinct_tags (run (new nm lines blk assoc repl wr) ops).
Proof.
  intros Hl Hb Hs. apply distinct_run; [by apply shaped_new|].
  apply distinct_new.
Qed.

Lemma set_never_holds_a_block_twice_witness :
  shaped (run (new "L1" 8 16 TWO_WAY LRU WRITE_BACK)
            [Write 0; Write 64; Read 0; Insert 128 true; Evict 64])
  ∧ distinct_tags (run (new "L1" 8 16 TWO_WAY LRU WRITE_BACK)
                     [Write 0; Write 64; Read 0; Insert 128 true; Evict 64]).
Proof.
  apply set_never_holds_a_block_twice; [lia | lia | by vm_compute].
Defined.

Lemma evict_writebacks c a :
  writebacks (evict c a).1.1
  = writebacks c
    + (if holds_dirty c a && is_WB (write_policy c) then 1 else 0).
Proof.
  unfold holds_dirty.
  destruct (find_hit c (getSetIndex c a) (getTag c a)) as [w|] eqn:Hhit.
  - remember (evict c a) as r eqn:E. revert E. open_body evict.
    use_hit Hhit. intros ->. repeat name_let. cbn [fst].
    change (write_policy st3) with (write_policy c) in *.
    subst st4 st1 st. destruct (_ && _).
    + reflexivity.
    + change (writebacks st3) with (writebacks c). lia.
  - rewrite (evict_miss c a Hhit). simpl. lia.
Qed.

(** X4.  Eviction.  On a level where no set holds a block twice, [evict]
    returns whether the block was held and reports in [was_dirty] whether
    its line was dirty; afterwards the block is not held, the writeback
    counter has grown by one exactly when the line was dirty and the level
    is write-back, and every block with another set index or tag is held
    as before. *)
Theorem evicted_block_is_gone (c : t) (a : Z) :
  distinct_tags c →
  (evict c a).1.2 = holds c a
  ∧ (evict c a).2 = holds_dirty c a
  ∧ holds (evict c a).1.1 a = false
  ∧ writebacks (evict c a).1.1
    = writebacks c
      + (if holds_dirty c a && is_WB (write_policy c) then 1 else 0)
  ∧ (∀ b, (getSetIndex c b, getTag c b) ≠ (getSetIndex c a, getTag c a) →
       holds (evict c a).1.1 b = holds c b).
Proof.
  intros Hd. destruct (evict_flags c a) as [F1 F2].
  split; [done|]. split; [done|].
  destruct (find_hit c (getSetIndex c a) (getTag c a)) as [w|] eqn:Hhit.
  - pose proof (shape_evict c a) as Hsh.
    destruct (find_hit_spec _ _ _ _ Hhit) as (l & Hl & Hlh).
    apply andb_true_iff in Hlh as [Hlv Hlt]. apply Z.eqb_eq in Hlt.
    pose proof (find_hit_range _ _ _ _ Hhit) as Hw.
    split; [|split].
    + unfold holds. apply bool_decide_eq_false. intros [w' Hw'].
      rewrite (getSetIndex_shape _ _ _ Hsh), (getTag_shape _ _ _ Hsh) in Hw'.
      destruct (find_hit_spec _ _ _ _ Hw') as (l' & Hl' & Hlh').
      apply andb_true_iff in Hlh' as [Hlv' Hlt']. apply Z.eqb_eq in Hlt'.
      rewrite (evict_hit_lines c a w) in Hl' by done.
      case_decide as Hsw.
      * destruct Hsw as [_ <-]. rewrite Hl in Hl'. by injection Hl' as <-.
      * assert (w = w') by (eapply (Hd _ w w' l l'); eauto; congruence).
        tauto.
    + apply evict_writebacks.
    + intros b Hb. unfold holds.
      rewrite (getSetIndex_shape _ _ _ Hsh), (getTag_shape _ _ _ Hsh).
      assert (find_hit (evict c a).1.1 (getSetIndex c b) (getTag c b)
              = find_hit c (getSetIndex c b) (getTag c b)) as ->; [|done].
      apply find_hit_lines; [by apply ways_shape|].
      intros w0 _. unfold line_field.
      rewrite (evict_hit_lines c a w) by done.
      case_decide as Hsw; [|done]. destruct Hsw as [Hs <-].
      rewrite <- Hs, Hl. simpl. unfold line_hit. simpl.
      destruct (Z.eqb_spec (tag l) (getTag c b)); [|by rewrite andb_false_r].
      destruct Hb. congruence.
  - rewrite (evict_miss c a Hhit). cbn [fst snd].
    rewrite (holds_miss c a Hhit), (holds_dirty_miss c a Hhit).
    simpl. split_and!; [done|lia|done].
Qed.

Lemma evicted_block_is_gone_witness :
  let c := run (new "L1" 8 16 TWO_WAY LRU WRITE_BACK) [Write 0; Write 64] in
  (evict c 64).1.2 = holds c 64
  ∧ (evict c 64).2 = holds_dirty c 64
  ∧ holds (evict c 64).1.1 64 = false
  ∧ writebacks (evict c 64).1.1
    = writebacks c
      + (if holds_dirty c 64 && is_WB (write_policy c) then 1 else 0)
  ∧ (∀ b, (getSetIndex c b, getTag c b) ≠ (getSetIndex c 64, getTag c 64) →
       holds (evict c 64).1.1 b = holds c b).
Proof.
  intros c. apply evicted_block_is_gone.
  apply distinct_run; [apply shaped_new; [lia|lia|by vm_compute]|].
  apply distinct_new.
Defined.

Lemma holds_clear c a : shaped c → holds (clear c) a = false.
Proof.
  intros Hc. pose proof (shape_clear c) as Hsh.
  unfold holds. apply bool_decide_eq_false. intros [w Hw].
  pose proof (find_hit_range _ _ _ _ Hw) as Hwr.
  rewrite (ways_shape _ _ Hsh) in Hwr.
  destruct (find_hit_spec _ _ _ _ Hw) as (l & Hl & Hlh).
  rewrite clear_lines, (getSetIndex_shape _ _ _ Hsh) in Hl.
  rewrite decide_True in Hl by (split; [by apply getSetIndex_range|done]).
  destruct (line_at c _ w) as [l0|]; [|done]. by injection Hl as <-.
Qed.

(** X5.  Clear.  On a level of the constructor's shape, after [clear] no
    block is held, every counter is zero, and the shape is as before. *)
Theorem cleared_level_holds_nothing (c : t) (a : Z) :
  shaped c →
  holds (clear c) a = false
  ∧ shaped (clear c)
  ∧ getTotalAccesses (clear c) = 0 ∧ getWritebacks (clear c) = 0
  ∧ writes (clear c) = 0
  ∧ next_insertion_order (clear c) = 0 ∧ access_counter (clear c) = 0.
Proof.
  intros Hc. split; [by apply holds_clear|].
  split; [|done]. eapply shaped_shape; [apply shape_clear|done].
Qed.

Lemma cleared_level_holds_nothing_witness :
  let c := run (new "L1" 8 16 TWO_WAY LRU WRITE_BACK) [Write 0; Write 64] in
  holds (clear c) 64 = false
  ∧ shaped (clear c)
  ∧ getTotalAccesses (clear c) = 0 ∧ getWritebacks (clear c) = 0
  ∧ writes (clear c) = 0
  ∧ next_insertion_order (clear c) = 0 ∧ access_counter (clear c) = 0.
Proof.
  intros c. apply cleared_level_holds_nothing.
  apply (shaped_shape (new "L1" 8 16 TWO_WAY LRU WRITE_BACK));
    [apply shape_run|].
  apply shaped_new; [lia|lia|by vm_compute].
Defined.

End Distinct.

Module Tally.
Import Cache VictimSpec ShapeSpec LinesSpec ResidencySpec TallySpec
  CacheProofs Victim Shape InstallSpec Install Lines Residency.

Ltac split_hit c a :=
  unfold holds;
  destruct (find_hit c (getSetIndex c a) (getTag c a)) as [w|] eqn:Hhit;
  cbn [bool_decide decide_rel]; 
  [rewrite bool_decide_eq_true_2 by eauto
  |rewrite bool_decide_eq_false_2 by (by intros [? ?])].

Lemma read_tallies c a :
  tallies (read c a).1
  = if holds c a
    then (hits c + 1, misses c, writes c, write_hits c, write_misses c)
    else (hits c, misses c + 1, writes c, write_hits c, write_misses c).
Proof.
  split_hit c a; remember (read c a) as r eqn:E; revert E.
  - destruct c as [nm cap bs assoc [|] [|] ns wy ch nio ac h m wr wh wm wb].
    all: open_body read; use_hit Hhit; intros ->; repeat name_let.
    all: reflexivity.
  - open_body read. use_hit Hhit. by intros ->.
Qed.

Lemma read_clocks c a :
  clocks (read c a).1 = (next_insertion_order c, access_counter c + 1).
Proof.
  destruct (find_hit c (getSetIndex c a) (getTag c a)) as [w|] eqn:Hhit;
    remember (read c a) as r eqn:E; revert E.
  - destruct c as [nm cap bs assoc [|] [|] ns wy ch nio ac h m wr wh wm wb].
    all: open_body read; use_hit Hhit; intros ->; repeat name_let.
    all: reflexivity.
  - open_body read. use_hit Hhit. by intros ->.
Qed.

Lemma write_tallies c a :
  tallies (write c a).1
  = if holds c a
    then (hits c + 1, misses c, writes c + 1, write_hits c + 1,
          write_misses c)
    else (hits c, misses c + 1, writes c + 1, write_hits c,
          write_misses c + 1).
Proof.
  split_hit c a; remember (write c a) as r eqn:E; revert E.
  - destruct c as [nm cap bs assoc [|] [|] ns wy ch nio ac h m wr wh wm wb].
    all: open_body write; use_hit Hhit; intros ->; repeat name_let.
    all: reflexivity.
  - open_body write. use_hit Hhit. intros ->.
    match goal with x := count_victim_writeback _ _ _ |- _ =>
      close_victim_step x end.
    reflexivity.
Qed.

Lemma write_clocks c a :
  clocks (write c a).1
  = (next_insertion_order c + (if holds c a then 0 else 1),
     access_counter c + 1).
Proof.
  split_hit c a; remember (write c a) as r eqn:E; revert E.
  - destruct c as [nm cap bs assoc [|] [|] ns wy ch nio ac h m wr wh wm wb].
    all: open_body write; use_hit Hhit; intros ->; repeat name_let.
    all: apply pair_equal_spec; split; [|reflexivity].
    all: transitivity nio; [reflexivity|simpl; lia].
  - open_body write. use_hit Hhit. intros ->.
    match goal with x := count_victim_writeback _ _ _ |- _ =>
      close_victim_step x end.
    reflexivity.
Qed.

Lemma insert_tallies c a d : tallies (insert c a d) = tallies c.
Proof.
  destruct (find_hit c (getSetIndex c a) (getTag c a)) as [w|] eqn:Hhit;
    remember (insert c a d) as r eqn:E; revert E.
  - destruct c as [nm cap bs assoc [|] [|] ns wy ch nio ac h m wr wh wm wb];
      destruct d.
    all: open_body insert; use_hit Hhit; intros ->; repeat name_let.
    all: reflexivity.
  - open_body insert. use_hit Hhit. intros ->.
    match goal with x := count_victim_writeback _ _ _ |- _ =>
      close_victim_step x end.
    reflexivity.
Qed.

Lemma insert_clocks c a d :
  clocks (insert c a d)
  = if holds c a
    then (next_insertion_order c,
          access_counter c + (if is_LRU (replacement_policy c) then 1 else 0))
    else (next_insertion_order c + 1, access_counter c + 1).
Proof.
  split_hit c a; remember (insert c a d) as r eqn:E; revert E.
  - destruct c as [nm cap bs assoc [|] [|] ns wy ch nio ac h m wr wh wm wb];
      destruct d.
    all: open_body insert; use_hit Hhit; intros ->; repeat name_let.
    all: apply pair_equal_spec; split; [reflexivity|].
    all: first [reflexivity | transitivity ac; [reflexivity|simpl; lia]].
  - open_body insert. use_hit Hhit. intros ->.
    match goal with x := count_victim_writeback _ _ _ |- _ =>
      close_victim_step x end.
    reflexivity.
Qed.

Lemma evict_tallies c a :
  tallies (evict c a).1.1 = tallies c ∧ clocks (evict c a).1.1 = clocks c.
Proof.
  destruct (find_hit c (getSetIndex c a) (getTag c a)) as [w|] eqn:Hhit.
  - remember (evict c a) as r eqn:E. revert E. open_body evict.
    use_hit Hhit. intros ->. repeat name_let. cbn [fst].
    subst st4. by destruct (_ && _).
  - by rewrite (evict_miss c a Hhit).
Qed.

Lemma clear_tallies c :
  tallies (clear c) = (0, 0, 0, 0, 0) ∧ clocks (clear c) = (0, 0).
Proof. done. Qed.

Lemma step_tallies c o :
  tallies (step c o)
  = match o with
    | Read a =>
        if holds c a
        then (hits c + 1, misses c, writes c, write_hits c, write_misses c)
        else (hits c, misses c + 1, writes c, write_hits c, write_misses c)
    | Write a =>
        if holds c a
        then (hits c + 1, misses c, writes c + 1, write_hits c + 1,
              write_misses c)
        else (hits c, misses c + 1, writes c + 1, write_hits c,
              write_misses c + 1)
    | Insert _ _ | Evict _ => tallies c
    | Clear => (0, 0, 0, 0, 0)
    end.
Proof.
  destruct o; simpl.
  - apply read_tallies.
  - apply write_tallies.
  - apply insert_tallies.
  - apply evict_tallies.
  - apply clear_tallies.
Qed.

Lemma run_tallies ops c n k :
  hits c + misses c = n → writes c = k →
  write_hits c + write_misses c = writes c →
  0 ≤ write_hits c ≤ hits c → 0 ≤ write_misses c ≤ misses c →
  let c' := run c ops in
  hits c' + misses c' = fold_left (count_call is_access) ops n
  ∧ writes c' = fold_left (count_call is_write) ops k
  ∧ write_hits c' + write_misses c' = writes c'
  ∧ 0 ≤ write_hits c' ≤ hits c'
  ∧ 0 ≤ write_misses c' ≤ misses c'.
Proof.
  revert c n k. induction ops as [|o ops IH]; intros c n k H1 H2 H3 H4 H5.
  { simpl. done. }
  cbv zeta. unfold run. cbn [fold_left].
  pose proof (step_tallies c o) as Ht. unfold tallies in Ht.
  remember (step c o) as c1 eqn:E. clear E.
  apply IH; destruct o; cbn [count_call is_access is_write];
    try destruct (holds c address); injection Ht as E1 E2 E3 E4 E5; lia.
Qed.

(** X6.  The counters of a level.  At a level built by the constructor,
    after any sequence of operations, [getTotalAccesses] is the number of
    [read] and [write] calls made since the construction or the last
    [clear], [writes] is the number of [write] calls among them, every
    write was counted as exactly one of a write hit and a write miss, and
    write hits and write misses are among the hits and the misses. *)
Theorem level_counters_count_the_calls
    (nm : string) (lines blk : Z) (assoc : AssociativityType)
    (repl : ReplacementPolicy) (wr : WritePolicy) (ops : list op) :
  let c := run (new nm lines blk assoc repl wr) ops in
  getTotalAccesses c = calls_since_clear is_access ops
  ∧ writes c = calls_since_clear is_write ops
  ∧ write_hits c + write_misses c = writes c
  ∧ 0 ≤ write_hits c ≤ hits c
  ∧ 0 ≤ write_misses c ≤ misses c.
Proof.
  apply run_tallies; destruct assoc; simpl; lia.
Qed.

End Tally.

Module Stamp.
Import Cache VictimSpec ShapeSpec LinesSpec ResidencySpec TallySpec StampSpec
  CacheProofs Victim Shape InstallSpec Install Lines Residency Distinct Tally.

Lemma touched_origin c c' s w d s' w' l' :
  (∀ s' w', line_at c' s' w'
            = if decide (s = s' ∧ w = w')
              then touched c d <$> line_at c s' w'
              else line_at c s' w') →
  line_at c' s' w' = Some l' → valid l' = true →
  ∃ l, line_at c s' w' = Some l ∧ valid l = true
       ∧ insertion_order l' = insertion_order l
       ∧ ((last_access_time l' = last_access_time l
           ∧ (is_LRU (replacement_policy c) = true → ¬ (s = s' ∧ w = w')))
          ∨ (last_access_time l' = access_counter c + 1
             ∧ is_LRU (replacement_policy c) = true ∧ s = s' ∧ w = w')).
Proof.
  intros Hl H V. rewrite Hl in H. case_decide as Hsw.
  - destruct (line_at c s' w') as [l|]; [|done]. injection H as <-.
    exists l. split_and!; try done. unfold touched. simpl.
    destruct (is_LRU (replacement_policy c)); [right|left]; done.
  - exists l'. split_and!; try done. by left.
Qed.

Lemma stamped_touched c c' s w d :
  (∀ s' w', line_at c' s' w'
            = if decide (s = s' ∧ w = w')
              then touched c d <$> line_at c s' w'
              else line_at c s' w') →
  next_insertion_order c' = next_insertion_order c →
  access_counter c ≤ access_counter c' →
  (is_LRU (replacement_policy c) = true →
   access_counter c' = access_counter c + 1) →
  stamped c → stamped c'.
Proof.
  intros Hl Hn Ha HL [S1 S2 S3 S4 S5]. split.
  - lia.
  - lia.
  - intros s' w' l' H V.
    destruct (touched_origin _ _ _ _ _ _ _ _ Hl H V)
      as (l & Ho & Vo & Eio & [[Elat _]|(Elat & EL & _)]);
      destruct (S3 _ _ _ Ho Vo); [lia|].
    specialize (HL EL). lia.
  - intros s1 w1 l1 s2 w2 l2 H1 H2 V1 V2 E.
    destruct (touched_origin _ _ _ _ _ _ _ _ Hl H1 V1)
      as (m1 & Ho1 & Vo1 & Eio1 & _).
    destruct (touched_origin _ _ _ _ _ _ _ _ Hl H2 V2)
      as (m2 & Ho2 & Vo2 & Eio2 & _).
    eapply (S4 s1 w1 m1 s2 w2 m2); eauto. congruence.
  - intros s1 w1 l1 s2 w2 l2 H1 H2 V1 V2 E.
    destruct (touched_origin _ _ _ _ _ _ _ _ Hl H1 V1)
      as (m1 & Ho1 & Vo1 & _ & [[E1 N1]|(E1 & L1 & P1)]);
    destruct (touched_origin _ _ _ _ _ _ _ _ Hl H2 V2)
      as (m2 & Ho2 & Vo2 & _ & [[E2 N2]|(E2 & L2 & P2)]).
    + eapply (S5 s1 w1 m1 s2 w2 m2); eauto. congruence.
    + destruct (S3 _ _ _ Ho1 Vo1). lia.
    + destruct (S3 _ _ _ Ho2 Vo2). lia.
    + lia.
Qed.

Lemma stamped_install c c' s v tg d :
  line_at c' s v
  = Some (installed tg d (next_insertion_order c) (access_counter c + 1)) →
  (∀ s' w', ¬ (s = s' ∧ v = w') → line_at c' s' w' = line_at c s' w') →
  next_insertion_order c' = next_insertion_order c + 1 →
  access_counter c' = access_counter c + 1 →
  stamped c → stamped c'.
Proof.
  intros Hv Hrest Hn Ha [S1 S2 S3 S4 S5].
  assert (∀ s' w' l', line_at c' s' w' = Some l' → valid l' = true →
    (s = s' ∧ v = w' ∧ insertion_order l' = next_insertion_order c
     ∧ last_access_time l' = access_counter c + 1)
    ∨ (¬ (s = s' ∧ v = w') ∧ line_at c s' w' = Some l')) as Horigin.
  { intros s' w' l' H V. destruct (decide (s = s' ∧ v = w')) as [[<- <-]|N].
    - left. rewrite Hv in H. by injection H as <-.
    - right. by rewrite Hrest in H. }
  split.
  - lia.
  - lia.
  - intros s' w' l' H V.
    destruct (Horigin _ _ _ H V) as [(_ & _ & E1 & E2)|[_ Ho]]; [lia|].
    destruct (S3 _ _ _ Ho V). lia.
  - intros s1 w1 l1 s2 w2 l2 H1 H2 V1 V2 E.
    destruct (Horigin _ _ _ H1 V1) as [(? & ? & E1 & _)|[_ Ho1]];
      destruct (Horigin _ _ _ H2 V2) as [(? & ? & E2 & _)|[_ Ho2]].
    + split; congruence.
    + destruct (S3 _ _ _ Ho2 V2). lia.
    + destruct (S3 _ _ _ Ho1 V1). lia.
    + by eapply (S4 s1 w1 l1 s2 w2 l2).
  - intros s1 w1 l1 s2 w2 l2 H1 H2 V1 V2 E.
    destruct (Horigin _ _ _ H1 V1) as [(? & ? & _ & E1)|[_ Ho1]];
      destruct (Horigin _ _ _ H2 V2) as [(? & ? & _ & E2)|[_ Ho2]].
    + split; congruence.
    + destruct (S3 _ _ _ Ho2 V2). lia.
    + destruct (S3 _ _ _ Ho1 V1). lia.
    + by eapply (S5 s1 w1 l1 s2 w2 l2).
Qed.

Lemma stamped_dropped (P : Z → Z → Prop) `{∀ s w, Decision (P s w)} c c' :
  (∀ s' w', line_at c' s' w'
            = if decide (P s' w') then dropped <$> line_at c s' w'
              else line_at c s' w') →
  clocks c' = clocks c →
  stamped c → stamped c'.
Proof.
  intros Hl [= Hn Ha] [S1 S2 S3 S4 S5].
  assert (∀ s' w' l', line_at c' s' w' = Some l' → valid l' = true →
                      line_at c s' w' = Some l') as Horigin.
  { intros s' w' l'. rewrite Hl. case_decide; [|done].
    destruct (line_at c s' w'); [|done]. by intros [= <-]. }
  split.
  - lia.
  - lia.
  - intros s' w' l' Hl' V. rewrite Hn, Ha. eauto.
  - intros s1 w1 l1 s2 w2 l2 H1 H2 V1 V2 E.
    eapply (S4 s1 w1 l1 s2 w2 l2); eauto.
  - intros s1 w1 l1 s2 w2 l2 H1 H2 V1 V2 E.
    eapply (S5 s1 w1 l1 s2 w2 l2); eauto.
Qed.

Lemma stamped_empty c :
  (∀ s w l, line_at c s w = Some l → valid l = false) →
  clocks c = (0, 0) → stamped c.
Proof.
  intros He [= Hn Ha]. split.
  - lia.
  - lia.
  - intros s w l H V. rewrite (He _ _ _ H) in V. done.
  - intros s1 w1 l1 s2 w2 l2 H1 _ V1. rewrite (He _ _ _ H1) in V1. done.
  - intros s1 w1 l1 s2 w2 l2 H1 _ V1. rewrite (He _ _ _ H1) in V1. done.
Qed.

Lemma stamped_same c c' :
  (∀ s w, line_at c' s w = line_at c s w) →
  next_insertion_order c' = next_insertion_order c →
  access_counter c ≤ access_counter c' →
  stamped c → stamped c'.
Proof.
  intros Hl Hn Ha [S1 S2 S3 S4 S5]. split.
  - lia.
  - lia.
  - intros s w l. rewrite Hl. intros H V. destruct (S3 _ _ _ H V). lia.
  - intros s1 w1 l1 s2 w2 l2. rewrite !Hl. eauto.
  - intros s1 w1 l1 s2 w2 l2. rewrite !Hl. eauto.
Qed.

Lemma holds_hit c a w :
  find_hit c (getSetIndex c a) (getTag c a) = Some w → holds c a = true.
Proof. intros H. apply holds_find_hit. rewrite H. eauto. Qed.

Lemma stamped_read c a : stamped c → stamped (read c a).1.
Proof.
  pose proof (read_clocks c a) as [= Hn Ha].
  destruct (find_hit c (getSetIndex c a) (getTag c a)) as [w|] eqn:Hhit.
  - apply (stamped_touched c _ (getSetIndex c a) w false); try lia.
    intros s' w'. by apply read_hit_lines.
  - apply stamped_same; try lia. intros s w. by apply read_miss_lines.
Qed.

Lemma stamped_write c a : shaped c → stamped c → stamped (write c a).1.
Proof.
  intros Hc. pose proof (write_clocks c a) as [= Hn Ha].
  destruct (find_hit c (getSetIndex c a) (getTag c a)) as [w|] eqn:Hhit.
  - rewrite (holds_hit c a w Hhit) in Hn.
    apply (stamped_touched c _ (getSetIndex c a) w (is_WB (write_policy c)));
      try lia.
    intros s' w'. by apply write_hit_lines.
  - rewrite (holds_miss c a Hhit) in Hn.
    destruct (write_miss c a (holds_miss c a Hhit)) as (_ & Hv & Hrest).
    destruct (victim_line c a Hc) as [l0 Hl0].
    eapply stamped_install; [by eapply Hv|done|lia|lia].
Qed.

Lemma stamped_insert c a d : shaped c → stamped c → stamped (insert c a d).
Proof.
  intros Hc. pose proof (insert_clocks c a d) as Hclk.
  destruct (find_hit c (getSetIndex c a) (getTag c a)) as [w|] eqn:Hhit.
  - rewrite (holds_hit c a w Hhit) in Hclk. injection Hclk as Hn Ha.
    apply (stamped_touched c _ (getSetIndex c a) w
             (is_WB (write_policy c) && d)).
    + intros s' w'. by apply insert_hit_lines.
    + done.
    + destruct (is_LRU _); lia.
    + intros EL. rewrite EL in Ha. done.
  - rewrite (holds_miss c a Hhit) in Hclk. injection Hclk as Hn Ha.
    destruct (insert_miss c a d (holds_miss c a Hhit)) as (Hv & Hrest).
    destruct (victim_line c a Hc) as [l0 Hl0].
    eapply stamped_install; [by eapply Hv|done|lia|lia].
Qed.

Lemma stamped_evict c a : stamped c → stamped (evict c a).1.1.
Proof.
  destruct (find_hit c (getSetIndex c a) (getTag c a)) as [w|] eqn:Hhit.
  - apply (stamped_dropped (λ s' w', getSetIndex c a = s' ∧ w = w')).
    + intros s' w'. by apply evict_hit_lines.
    + apply evict_tallies.
  - by rewrite evict_miss.
Qed.

Lemma stamped_clear c : shaped c → stamped (clear c).
Proof.
  intros Hc. apply stamped_empty; [|done].
  intros s w l. rewrite clear_lines. case_decide as Hr.
  - destruct (line_at c s w); [|done]. by intros [= <-].
  - intros Hl. destruct Hr. by eapply line_at_Some_range.
Qed.

Lemma stamped_step c o : shaped c → stamped c → stamped (step c o).
Proof.
  intros Hc Hd. destruct o; simpl;
    auto using stamped_read, stamped_write, stamped_insert,
      stamped_evict, stamped_clear.
Qed.

Lemma stamped_run ops c : shaped c → stamped c → stamped (run c ops).
Proof.
  revert c. induction ops as [|o ops IH]; intros c Hc Hd; [done|].
  apply IH; [by apply shaped_step | by apply stamped_step].
Qed.

Lemma stamped_new nm lines blk assoc repl wr :
  stamped (new nm lines blk assoc repl wr).
Proof.
  apply stamped_empty; [|by destruct assoc].
  intros s w l H. by rewrite (line_at_new _ _ _ _ _ _ _ _ _ H).
Qed.

(** X7.  The victim of a full set is unique.  At a level built by the
    constructor with positive [int] sizes and at least one set, after any
    sequence of operations, in a set whose lines are all valid the way
    chosen for replacement has, under FIFO, an insertion order strictly
    below that of every other way, and under LRU an access time strictly
    below that of every other way: no tie is ever broken by position. *)
Theorem full_set_victim_is_strictly_oldest
    (nm : string) (lines blk : Z) (assoc : AssociativityType)
    (repl : ReplacementPolicy) (wr : WritePolicy) (ops : list op) (s : Z) :
  0 < lines < 2 ^ 31 → 0 < blk < 2 ^ 31 →
  0 < num_sets (new nm lines blk assoc repl wr) →
  let c := run (new nm lines blk assoc repl wr) ops in
  0 ≤ s < num_sets c →
  (∀ w, 0 ≤ w < ways c → line_field valid false c s w = true) →
  ∀ w, 0 ≤ w < ways c → w ≠ findVictimInSet c s →
    match replacement_policy c with
    | FIFO =>
        line_field insertion_order 0 c s (findVictimInSet c s)
        < line_field insertion_order 0 c s w
    | LRU =>
        line_field last_access_time 0 c s (findVictimInSet c s)
        < line_field last_access_time 0 c s w
    end.
Proof.
  intros Hl Hb Hn c Hs Hfull w Hw Hne.
  assert (shaped c) as Hc.
  { apply (shaped_shape (new nm lines blk assoc repl wr));
      [apply shape_run | by apply shaped_new]. }
  assert (stamped c) as Hst.
  { apply stamped_run; [by apply shaped_new | apply stamped_new]. }
  pose proof (shaped_ways c Hc) as Hways.
  pose proof (findVictimInSet_range c s ltac:(lia)) as Hv.
  destruct (line_at_is_Some c s w Hc Hs Hw) as [lw Hlw].
  destruct (line_at_is_Some c s _ Hc Hs Hv) as [lv Hlv].
  pose proof (Hfull w Hw) as Vw. pose proof (Hfull _ Hv) as Vv.
  unfold line_field in Vw, Vv. rewrite Hlw in Vw. rewrite Hlv in Vv.
  simpl in Vw, Vv.
  assert (find (λ way, negb (line_field valid false c s way))
            (zrange 0 (ways c)) = None) as Hnone.
  { apply find_zrange_none. intros y Hy. by rewrite Hfull. }
  revert Hne Hlv. unfold findVictimInSet. rewrite Hnone.
  destruct (replacement_policy c);
    unfold findFIFOVictimInSet, findLRUVictimInSet; intros Hne Hlv.
  - destruct (scan_min_spec (line_field insertion_order 0 c s) (ways c))
      as (_ & Hmin & _); [lia|].
    specialize (Hmin w Hw).
    destruct (Z.eq_dec
                (line_field insertion_order 0 c s
                   (scan_min (line_field insertion_order 0 c s) (ways c)))
                (line_field insertion_order 0 c s w)) as [E|]; [|lia].
    unfold line_field in E at 1 3. rewrite Hlv, Hlw in E. simpl in E.
    destruct (stamped_io c Hst _ _ _ _ _ _ Hlv Hlw Vv Vw E). congruence.
  - destruct (scan_min_spec (line_field last_access_time 0 c s) (ways c))
      as (_ & Hmin & _); [lia|].
    specialize (Hmin w Hw).
    destruct (Z.eq_dec
                (line_field last_access_time 0 c s
                   (scan_min (line_field last_access_time 0 c s) (ways c)))
                (line_field last_access_time 0 c s w)) as [E|]; [|lia].
    unfold line_field in E at 1 3. rewrite Hlv, Hlw in E. simpl in E.
    destruct (stamped_lat c Hst _ _ _ _ _ _ Hlv Hlw Vv Vw E). congruence.
Qed.

Lemma full_set_victim_is_strictly_oldest_witness :
  let c := run (new "L1" 2 16 FULLY_ASSOCIATIVE LRU WRITE_BACK)
             [Write 0; Write 16; Read 0] in
  findVictimInSet c 0 = 1
  ∧ match replacement_policy c with
    | FIFO =>
        line_field insertion_order 0 c 0 (findVictimInSet c 0)
        < line_field insertion_order 0 c 0 0
    | LRU =>
        line_field last_access_time 0 c 0 (findVictimInSet c 0)
        < line_field last_access_time 0 c 0 0
    end.
Proof.
  intros c. split; [by vm_compute|].
  apply (full_set_victim_is_strictly_oldest "L1" 2 16 FULLY_ASSOCIATIVE LRU
           WRITE_BACK [Write 0; Write 16; Read 0] 0).
  - lia.
  - lia.
  - by vm_compute.
  - by vm_compute.
  - intros w Hw. change (0 ≤ w < 2) in Hw.
    assert (w = 0 ∨ w = 1) as [-> | ->] by lia; by vm_compute.
  - by vm_compute.
  - by vm_compute.
Defined.

End Stamp.

(** ** More properties: cache hierarchy *)

Module Path.
Import Cache CacheHierarchy PathSpec CacheProofs InstallSpec Install.

(** The case analysis of [read]: which level serves. *)
Ltac read_cases h address fin :=
  unfold served, missed, path_cost, hit_level, read, holds_opt,
    has_l2, has_l3, finish, insert_opt;
  cbn zeta;
  change (l1 (set_total_reads _ _)) with (l1 h);
  let H1 := fresh "H1" in let E1 := fresh "E1" in
  let H2 := fresh "H2" in let E2 := fresh "E2" in
  let H3 := fresh "H3" in let E3 := fresh "E3" in
  let Hl2 := fresh "Hl2" in let Hl3 := fresh "Hl3" in
  pose proof (read_hit (l1 h) address) as H1;
  destruct (Cache.read (l1 h) address) as [? [|]] eqn:E1; simpl in H1;
  rewrite <- ?H1; simpl;
  [ destruct (l2 h) eqn:Hl2; destruct (l3 h) eqn:Hl3; fin | ];
  (destruct (l2 h) as [c2|] eqn:Hl2; simpl;
   [ pose proof (read_hit c2 address) as H2;
     destruct (Cache.read c2 address) as [? [|]] eqn:E2; simpl in H2;
     rewrite <- ?H2; simpl;
     [ destruct (l3 h) eqn:Hl3; fin | ]
   | ]);
  (destruct (l3 h) as [c3|] eqn:Hl3; simpl;
   [ pose proof (read_hit c3 address) as H3;
     destruct (Cache.read c3 address) as [? [|]] eqn:E3; simpl in H3;
     rewrite <- ?H3; simpl;
     [ fin | ]
   | ]);
  rewrite ?bool_decide_eq_true_2, ?bool_decide_eq_false_2
    by (try (by eexists); by intros [??]);
  fin.

Lemma read_result h address verbose :
  (read h address verbose).2 = bool_decide (hit_level h address = None).
Proof. read_cases h address ltac:(done). Qed.

Lemma read_counters h address verbose :
  let h' := (read h address verbose).1 in
  total_accesses h' = total_accesses h + 1
  ∧ total_reads h' = total_reads h + 1
  ∧ total_writes h' = total_writes h
  ∧ memory_writes h' = memory_writes h
  ∧ l1_hits h' = l1_hits h + served h address 1
  ∧ l2_hits h' = l2_hits h + served h address 2
  ∧ l3_hits h' = l3_hits h + served h address 3
  ∧ memory_accesses h' = memory_accesses h + missed h address
  ∧ total_penalty_cycles h' = total_penalty_cycles h + path_cost h address.
Proof. read_cases h address ltac:(simpl; split_and!; try done; lia). Qed.

Lemma read_levels h address verbose :
  let h' := (read h address verbose).1 in
  l1 h' = (match hit_level h address with
           | Some 1%nat => probe address
           | _ => fill address
           end) (l1 h)
  ∧ l2 h' = (match hit_level h address with
             | Some 1%nat => id
             | Some 2%nat => probe address
             | _ => fill address
             end) <$> l2 h
  ∧ l3 h' = (match hit_level h address with
             | Some 1%nat | Some 2%nat => id
             | Some _ => probe address
             | None => fill address
             end) <$> l3 h.
Proof.
  read_cases h address
    ltac:(simpl; unfold probe, fill;
          repeat match goal with E : Cache.read _ _ = _ |- _ =>
            rewrite E; clear E end; done).
Qed.

(** X8.  The read path.  [CacheHierarchy::read] is served by the topmost
    level that holds the block: it returns true exactly when no level
    holds it, counts one access and one read, one hit at the serving level
    or one memory access, never a memory write, and adds the cost of the
    path; the levels above the serving one are filled, the serving one is
    only looked up, the ones below are untouched. *)
Theorem read_is_served_by_the_topmost_holder
    (h : t) (address : Z) (verbose : bool) :
  let h' := (read h address verbose).1 in
  (read h address verbose).2 = bool_decide (hit_level h address = None)
  ∧ total_accesses h' = total_accesses h + 1
  ∧ total_reads h' = total_reads h + 1
  ∧ total_writes h' = total_writes h
  ∧ memory_writes h' = memory_writes h
  ∧ l1_hits h' = l1_hits h + served h address 1
  ∧ l2_hits h' = l2_hits h + served h address 2
  ∧ l3_hits h' = l3_hits h + served h address 3
  ∧ memory_accesses h' = memory_accesses h + missed h address
  ∧ total_penalty_cycles h' = total_penalty_cycles h + path_cost h address
  ∧ l1 h' = (match hit_level h address with
             | Some 1%nat => probe address
             | _ => fill address
             end) (l1 h)
  ∧ l2 h' = (match hit_level h address with
             | Some 1%nat => id
             | Some 2%nat => probe address
             | _ => fill address
             end) <$> l2 h
  ∧ l3 h' = (match hit_level h address with
             | Some 1%nat | Some 2%nat => id
             | Some _ => probe address
             | None => fill address
             end) <$> l3 h.
Proof.
  split; [apply read_result|].
  destruct (read_counters h address verbose)
    as (R1 & R2 & R3 & R4 & R5 & R6 & R7 & R8 & R9).
  destruct (read_levels h address verbose) as (L1 & L2 & L3).
  split_and!; assumption.
Qed.

(** The case analysis of [write]. *)
Ltac write_cases h address fin :=
  unfold served, missed, path_cost, hit_level, write, holds_opt,
    has_l2, has_l3, getWritePolicy, finish, insert_opt;
  cbn zeta;
  change (l1 (set_total_writes _ _)) with (l1 h);
  let H1 := fresh "H1" in let E1 := fresh "E1" in
  let P1 := fresh "P1" in let Hwb := fresh "Hwb" in
  let H2 := fresh "H2" in let E2 := fresh "E2" in
  let H3 := fresh "H3" in let E3 := fresh "E3" in
  let Hl2 := fresh "Hl2" in let Hl3 := fresh "Hl3" in
  pose proof (write_hit (l1 h) address) as H1;
  pose proof (write_policy_write (l1 h) address) as P1;
  destruct (Cache.write (l1 h) address) as [? [|]] eqn:E1;
  simpl in H1, P1; rewrite <- ?H1;
  (destruct (is_WB (write_policy (l1 h))) eqn:Hwb);
  simpl; rewrite ?P1, ?Hwb; simpl;
  try (destruct (l2 h) eqn:Hl2; destruct (l3 h) eqn:Hl3; fin; fail);
  (destruct (l2 h) as [c2|] eqn:Hl2; simpl;
   [ pose proof (write_hit c2 address) as H2;
     destruct (Cache.write c2 address) as [? [|]] eqn:E2; simpl in H2;
     rewrite <- ?H2; simpl; rewrite ?P1, ?Hwb; simpl;
     [ destruct (l3 h) eqn:Hl3; fin | ]
   | ]);
  (destruct (l3 h) as [c3|] eqn:Hl3; simpl;
   [ pose proof (write_hit c3 address) as H3;
     destruct (Cache.write c3 address) as [? [|]] eqn:E3; simpl in H3;
     rewrite <- ?H3; simpl; rewrite ?P1, ?Hwb; simpl;
     [ fin | ]
   | ]);
  rewrite ?bool_decide_eq_true_2, ?bool_decide_eq_false_2
    by (try (by eexists); by intros [??]);
  fin.

Lemma write_result h address verbose :
  (write h address verbose).2 = bool_decide (hit_level h address = None).
Proof. write_cases h address ltac:(done). Qed.

Lemma write_counters h address verbose :
  let h' := (write h address verbose).1 in
  total_accesses h' = total_accesses h + 1
  ∧ total_reads h' = total_reads h
  ∧ total_writes h' = total_writes h + 1
  ∧ memory_writes h'
    = memory_writes h + (if is_WB (write_policy (l1 h)) then 0 else 1)
  ∧ l1_hits h' = l1_hits h + served h address 1
  ∧ l2_hits h' = l2_hits h + served h address 2
  ∧ l3_hits h' = l3_hits h + served h address 3
  ∧ memory_accesses h' = memory_accesses h + missed h address
  ∧ total_penalty_cycles h' = total_penalty_cycles h + path_cost h address.
Proof. write_cases h address ltac:(simpl; split_and!; try done; lia). Qed.

Lemma write_levels h address verbose :
  let h' := (write h address verbose).1 in
  let wb := is_WB (write_policy (l1 h)) in
  l1 h' = (match hit_level h address with
           | Some 1%nat => store address
           | _ => store_fill address wb
           end) (l1 h)
  ∧ l2 h' = (match hit_level h address with
             | Some 1%nat => id
             | Some 2%nat => store address
             | _ => store_fill address wb
             end) <$> l2 h
  ∧ l3 h' = (match hit_level h address with
             | Some 1%nat | Some 2%nat => id
             | Some _ => store address
             | None => store_fill address wb
             end) <$> l3 h.
Proof.
  write_cases h address
    ltac:(simpl; unfold store, store_fill;
          repeat match goal with E : Cache.write _ _ = _ |- _ =>
            rewrite E; clear E end; done).
Qed.

End Path.

Module Account.
Import Cache CacheHierarchy PathSpec HierarchyRun AccountSpec InstallSpec
  CacheProofs Install Path.

Lemma write_policy_read c a : write_policy (Cache.read c a).1 = write_policy c.
Proof.
  unfold Cache.read. cbn zeta.
  destruct (find_hit _ _ _); simpl; [|done]. by destruct (is_LRU _).
Qed.

Lemma write_policy_clear c : write_policy (Cache.clear c) = write_policy c.
Proof.
  unfold Cache.clear. cbn zeta.
  change (write_policy (set_counters 0 0 0 0 0 0 0 0 ?x))
    with (write_policy x).
  generalize (zrange 0 (num_sets c)
                ≫= λ s : Z, (λ w : Z, (s, w)) <$> zrange 0 (ways c)).
  intros l. revert c. induction l as [|sw l IH]; intros c; [done|].
  simpl. by rewrite IH.
Qed.

Lemma has_fmap (f : Cache.t → Cache.t) (o o' : option Cache.t) :
  o' = f <$> o → bool_decide (is_Some o') = bool_decide (is_Some o).
Proof.
  intros ->. by destruct o.
Qed.

Lemma read_penalties h a v :
  l1_penalty (read h a v).1 = l1_penalty h
  ∧ l2_penalty (read h a v).1 = l2_penalty h
  ∧ l3_penalty (read h a v).1 = l3_penalty h
  ∧ memory_penalty (read h a v).1 = memory_penalty h.
Proof. read_cases h a ltac:(done). Qed.

Lemma write_penalties h a v :
  l1_penalty (write h a v).1 = l1_penalty h
  ∧ l2_penalty (write h a v).1 = l2_penalty h
  ∧ l3_penalty (write h a v).1 = l3_penalty h
  ∧ memory_penalty (write h a v).1 = memory_penalty h.
Proof. write_cases h a ltac:(done). Qed.

Lemma read_config h a v : config (read h a v).1 = config h.
Proof.
  destruct (read_penalties h a v) as (P1 & P2 & P3 & P4).
  destruct (read_levels h a v) as (L1 & L2 & L3).
  unfold config, has_l2, has_l3. rewrite P1, P2, P3, P4.
  rewrite (has_fmap _ _ _ L2), (has_fmap _ _ _ L3), L1.
  f_equal.
  destruct (hit_level h a) as [[|[|[|?]]]|]; unfold probe, fill;
    by rewrite ?write_policy_insert, write_policy_read.
Qed.

Lemma write_config h a v : config (write h a v).1 = config h.
Proof.
  destruct (write_penalties h a v) as (P1 & P2 & P3 & P4).
  destruct (write_levels h a v) as (L1 & L2 & L3).
  unfold config, has_l2, has_l3. rewrite P1, P2, P3, P4.
  rewrite (has_fmap _ _ _ L2), (has_fmap _ _ _ L3), L1.
  f_equal.
  destruct (hit_level h a) as [[|[|[|?]]]|]; unfold store, store_fill;
    by rewrite ?write_policy_insert, write_policy_write.
Qed.

Lemma clearAll_config h : config (clearAll h) = config h.
Proof.
  unfold config, clearAll, has_l2, has_l3. cbn zeta.
  cbn [l1 l2 l3 l1_penalty l2_penalty l3_penalty memory_penalty set_stats
       set_levels].
  rewrite write_policy_clear. by destruct (l2 h), (l3 h).
Qed.

Lemma step_config h o : config (step h o) = config h.
Proof.
  destruct o; simpl;
    auto using read_config, write_config, clearAll_config.
Qed.

(** What one access adds, seen through the counters. *)
Lemma path_facts h a :
  served h a 1 + served h a 2 + served h a 3 + missed h a = 1
  ∧ 0 ≤ served h a 1 ∧ 0 ≤ served h a 2 ∧ 0 ≤ served h a 3
  ∧ 0 ≤ missed h a
  ∧ (has_l2 h = false → served h a 2 = 0)
  ∧ (has_l3 h = false → served h a 3 = 0)
  ∧ path_cost h a
    = served h a 1
      + (l1_penalty h + 10) * served h a 2
      + (l1_penalty h + (if has_l2 h then l2_penalty h else 0) + 50)
        * served h a 3
      + (l1_penalty h + (if has_l2 h then l2_penalty h else 0)
         + (if has_l3 h then l3_penalty h else 0) + memory_penalty h)
        * missed h a.
Proof.
  unfold served, missed, path_cost, hit_level, holds_opt, has_l2, has_l3.
  destruct (holds (l1 h) a); simpl.
  { split_and!; try done; destruct (l2 h), (l3 h); simpl; lia. }
  destruct (l2 h) as [c2|]; simpl; [destruct (holds c2 a); simpl|].
  - split_and!; try done; destruct (l3 h); simpl; lia.
  - destruct (l3 h) as [c3|]; simpl; [destruct (holds c3 a); simpl|];
      rewrite ?bool_decide_eq_true_2, ?bool_decide_eq_false_2
        by (try (by eexists); by intros [??]);
      split_and!; try done; lia.
  - destruct (l3 h) as [c3|]; simpl; [destruct (holds c3 a); simpl|];
      rewrite ?bool_decide_eq_true_2, ?bool_decide_eq_false_2
        by (try (by eexists); by intros [??]);
      split_and!; try done; lia.
Qed.

Lemma accounted_step h o :
  standard_penalties h → accounted h → accounted (step h o).
Proof.
  intros (Q1 & Q2 & Q3 & Q4) [A1 A2 A3 A4 A5 A6 A7].
  pose proof (step_config h o) as Hcfg. unfold config in Hcfg.
  injection Hcfg as _ _ _ _ C5 C6 C7.
  destruct o as [a v|a v|].
  - destruct (read_counters h a v) as (R1 & R2 & R3 & R4 & R5 & R6 & R7 & R8
                                       & R9).
    destruct (path_facts h a) as (F1 & F2 & F3 & F4 & F5 & F6 & F7 & F8).
    simpl in C5, C6, C7 |- *.
    remember (read h a v).1 as h' eqn:E. clear E.
    rewrite F8, Q1, Q2, Q3, Q4 in R9.
    split; rewrite ?C5, ?C6, ?C7; try lia.
    + rewrite A3 in R4. rewrite R4, R3. done.
    + rewrite R9, A4. destruct (has_l2 h), (has_l3 h); lia.
    + intros E. specialize (F6 E). specialize (A5 E). lia.
    + intros E. specialize (F7 E). specialize (A6 E). lia.
  - destruct (write_counters h a v) as (R1 & R2 & R3 & R4 & R5 & R6 & R7 & R8
                                        & R9).
    destruct (path_facts h a) as (F1 & F2 & F3 & F4 & F5 & F6 & F7 & F8).
    simpl in C5, C6, C7 |- *.
    remember (write h a v).1 as h' eqn:E. clear E.
    rewrite F8, Q1, Q2, Q3, Q4 in R9.
    split; rewrite ?C5, ?C6, ?C7; try lia.
    + rewrite A3 in R4. rewrite R4, R3.
      destruct (is_WB (write_policy (l1 h))); lia.
    + rewrite R9, A4. destruct (has_l2 h), (has_l3 h); lia.
    + intros E. specialize (F6 E). specialize (A5 E). lia.
    + intros E. specialize (F7 E). specialize (A6 E). lia.
  - simpl. split; try done; simpl; try lia.
    match goal with |- _ = if ?b then _ else _ => by destruct b end.
Qed.

Lemma accounted_run ops h :
  standard_penalties h → accounted h → accounted (run h ops).
Proof.
  revert h. induction ops as [|o ops IH]; intros h Hp Ha; [done|].
  apply IH; [|by apply accounted_step].
  pose proof (step_config h o) as Hcfg. unfold config in Hcfg.
  injection Hcfg as C1 C2 C3 C4 _ _ _.
  destruct Hp as (Q1 & Q2 & Q3 & Q4). unfold standard_penalties.
  by rewrite C1, C2, C3, C4.
Qed.

Lemma run_config ops h : config (run h ops) = config h.
Proof.
  revert h. induction ops as [|o ops IH]; intros h; [done|].
  unfold run in *. simpl. by rewrite IH, step_config.
Qed.

(** X9.  The counters of a hierarchy add up.  In a hierarchy built by the
    constructor, after any sequence of reads, writes and [clearAll]:
    every access is a read or a write and was served by exactly one of
    L1, L2, L3 and memory; an absent level has no hits; [memory_writes]
    is the number of writes when L1 is write-through and zero when it is
    write-back; and [total_penalty_cycles] is 1 per L1 hit, 11 per L2
    hit, 50 plus the miss penalties above it per L3 hit, and 100 plus the
    miss penalty of every present level per memory access. *)
Theorem hierarchy_counters_add_up
    (l1_lines l1_block : Z) (l1_assoc : AssociativityType)
    (l1_repl : ReplacementPolicy) (l1_write : WritePolicy)
    (l2_lines l2_block : Z) (l2_assoc : AssociativityType)
    (l2_repl : ReplacementPolicy) (l2_write : WritePolicy)
    (l3_lines l3_block : Z) (l3_assoc : AssociativityType)
    (l3_repl : ReplacementPolicy) (l3_write : WritePolicy)
    (ops : list op) :
  let h := run (new l1_lines l1_block l1_assoc l1_repl l1_write
                  l2_lines l2_block l2_assoc l2_repl l2_write
                  l3_lines l3_block l3_assoc l3_repl l3_write) ops in
  let with_l2 := 0 <? l2_lines in
  let with_l3 := 0 <? l3_lines in
  total_accesses h = total_reads h + total_writes h
  ∧ l1_hits h + l2_hits h + l3_hits h + memory_accesses h = total_accesses h
  ∧ memory_writes h = (if is_WB l1_write then 0 else total_writes h)
  ∧ total_penalty_cycles h
    = l1_hits h + 11 * l2_hits h
      + (if with_l2 then 61 else 51) * l3_hits h
      + (101 + (if with_l2 then 10 else 0) + (if with_l3 then 50 else 0))
        * memory_accesses h
  ∧ (with_l2 = false → l2_hits h = 0)
  ∧ (with_l3 = false → l3_hits h = 0)
  ∧ 0 ≤ total_reads h ∧ 0 ≤ total_writes h ∧ 0 ≤ l1_hits h ∧ 0 ≤ l2_hits h
  ∧ 0 ≤ l3_hits h ∧ 0 ≤ memory_accesses h.
Proof.
  intros h with_l2 with_l3.
  set (h0 := new l1_lines l1_block l1_assoc l1_repl l1_write
               l2_lines l2_block l2_assoc l2_repl l2_write
               l3_lines l3_block l3_assoc l3_repl l3_write) in *.
  assert (config h0 = (1, 10, 50, 100, with_l2, with_l3, l1_write)) as Hc0.
  { unfold config, has_l2, has_l3, h0, new, with_l2, with_l3.
    cbn [l1_penalty l2_penalty l3_penalty memory_penalty l1 l2 l3].
    destruct (0 <? l2_lines), (0 <? l3_lines), l1_assoc; done. }
  assert (accounted h) as [A1 A2 A3 A4 A5 A6 A7].
  { apply accounted_run; [done|].
    split; try done; simpl; try lia.
    all: try match goal with |- _ = if ?b then _ else _ => by destruct b end. }
  pose proof (run_config ops h0) as Hc. fold h in Hc. rewrite Hc0 in Hc.
  unfold config in Hc. injection Hc as _ _ _ _ C5 C6 C7.
  rewrite C5 in *. rewrite C6 in *. rewrite C7 in *.
  split_and!; try done; lia.
Qed.

End Account.

Module Inclusion.
Import Cache CacheHierarchy VictimSpec ShapeSpec PathSpec HierarchyRun
  InclusionSpec CacheProofs Shape InstallSpec Install Residency Distinct Path AccountSpec Account.

Lemma shaped_read c a : shaped c → shaped (Cache.read c a).1.
Proof. apply shaped_shape, shape_read. Qed.

Lemma shaped_write c a : shaped c → shaped (Cache.write c a).1.
Proof. apply shaped_shape, shape_write. Qed.

Lemma holds_fill c a : shaped c → holds (fill a c) a = true.
Proof. intros Hc. by apply insert_holds, shaped_read. Qed.

Lemma holds_store c a : shaped c → holds (store a c) a = true.
Proof. intros Hc. by apply write_holds. Qed.

Lemma holds_store_fill c a d : shaped c → holds (store_fill a d c) a = true.
Proof. intros Hc. by apply insert_holds, shaped_write. Qed.

Lemma hit_level_1 h a : hit_level h a = Some 1%nat ↔ holds (l1 h) a = true.
Proof.
  unfold hit_level. destruct (holds (l1 h) a); [done|].
  by destruct (holds_opt (l2 h) a), (holds_opt (l3 h) a).
Qed.

Lemma hit_level_None h a :
  hit_level h a = None →
  holds (l1 h) a = false ∧ holds_opt (l2 h) a = false
  ∧ holds_opt (l3 h) a = false.
Proof.
  unfold hit_level.
  by destruct (holds (l1 h) a), (holds_opt (l2 h) a), (holds_opt (l3 h) a).
Qed.

Lemma read_reaches_L1 h address verbose :
  shaped_levels h → hit_level (read h address verbose).1 address = Some 1%nat.
Proof.
  intros (S1 & S2 & S3).
  destruct (read_levels h address verbose) as (R1 & _ & _).
  apply hit_level_1. rewrite R1.
  destruct (hit_level h address) as [[|[|k]]|] eqn:Hk;
    try by apply holds_fill.
  unfold probe. rewrite holds_read. by apply hit_level_1.
Qed.

Lemma write_reaches_L1 h address verbose :
  shaped_levels h →
  hit_level (write h address verbose).1 address = Some 1%nat.
Proof.
  intros (S1 & S2 & S3).
  destruct (write_levels h address verbose) as (W1 & _ & _).
  cbv zeta in W1. apply hit_level_1. rewrite W1.
  destruct (hit_level h address) as [[|[|k]]|] eqn:Hk;
    try by apply holds_store_fill.
  by apply holds_store.
Qed.

(** X10.  An accessed block reaches L1.  In a hierarchy whose levels have
    the constructor's shape, after a read or a write of an address L1
    holds its block, so the next read of it is an L1 hit that does not go
    to memory; and after an access that no level could serve, every level
    present holds the block. *)
Theorem accessed_block_reaches_L1 (h : t) (address : Z) (verbose : bool) :
  shaped_levels h →
  let hr := (read h address verbose).1 in
  let hw := (write h address verbose).1 in
  hit_level hr address = Some 1%nat
  ∧ hit_level hw address = Some 1%nat
  ∧ (read hr address verbose).2 = false
  ∧ (read hw address verbose).2 = false
  ∧ (hit_level h address = None →
     holds_opt (l2 hr) address = has_l2 h
     ∧ holds_opt (l3 hr) address = has_l3 h
     ∧ holds_opt (l2 hw) address = has_l2 h
     ∧ holds_opt (l3 hw) address = has_l3 h).
Proof.
  intros Hs hr hw.
  pose proof (read_reaches_L1 h address verbose Hs) as Hr.
  pose proof (write_reaches_L1 h address verbose Hs) as Hw.
  destruct Hs as (S1 & S2 & S3).
  destruct (read_levels h address verbose) as (R1 & R2 & R3).
  destruct (write_levels h address verbose) as (W1 & W2 & W3).
  fold hr in R1, R2, R3, Hr. fold hw in W1, W2, W3, Hw.
  cbv zeta in W1, W2, W3.
  split; [done|]. split; [done|].
  rewrite !read_result, Hr, Hw.
  split; [done|]. split; [done|].
  intros Hnone. rewrite Hnone in R2, R3, W2, W3.
  rewrite R2, R3, W2, W3. unfold has_l2, has_l3, holds_opt.
  destruct (l2 h) as [c2|], (l3 h) as [c3|]; simpl;
    rewrite ?holds_fill, ?holds_store_fill by eauto; done.
Qed.

Lemma accessed_block_reaches_L1_witness :
  let h := new 4 64 TWO_WAY LRU WRITE_BACK 8 64 FOUR_WAY FIFO WRITE_BACK
             0 64 DIRECT_MAPPED FIFO WRITE_BACK in
  hit_level (read h 4096 false).1 4096 = Some 1%nat
  ∧ hit_level (write h 4096 false).1 4096 = Some 1%nat
  ∧ (read (read h 4096 false).1 4096 false).2 = false
  ∧ (read (write h 4096 false).1 4096 false).2 = false
  ∧ (hit_level h 4096 = None →
     holds_opt (l2 (read h 4096 false).1) 4096 = has_l2 h
     ∧ holds_opt (l3 (read h 4096 false).1) 4096 = has_l3 h
     ∧ holds_opt (l2 (write h 4096 false).1) 4096 = has_l2 h
     ∧ holds_opt (l3 (write h 4096 false).1) 4096 = has_l3 h).
Proof.
  intros h. apply (accessed_block_reaches_L1 h 4096 false).
  split; [|split].
  - apply shaped_new; [lia|lia|by vm_compute].
  - intros c [= <-]. apply shaped_new; [lia|lia|by vm_compute].
  - intros c [=].
Defined.

(** X11.  ClearAll.  In a hierarchy whose levels have the constructor's
    shape, after [clearAll] no level holds any block and the nine
    counters are zero, while the penalties, the levels present and the
    write policy of L1 are as before. *)
Theorem cleared_hierarchy_holds_nothing (h : t) (address : Z) :
  shaped_levels h →
  hit_level (clearAll h) address = None
  ∧ shaped_levels (clearAll h)
  ∧ config (clearAll h) = config h
  ∧ total_accesses (clearAll h) = 0 ∧ total_reads (clearAll h) = 0
  ∧ total_writes (clearAll h) = 0 ∧ l1_hits (clearAll h) = 0
  ∧ l2_hits (clearAll h) = 0 ∧ l3_hits (clearAll h) = 0
  ∧ memory_accesses (clearAll h) = 0 ∧ memory_writes (clearAll h) = 0
  ∧ total_penalty_cycles (clearAll h) = 0.
Proof.
  intros (S1 & S2 & S3).
  split; [|split; [|split; [apply clearAll_config|done]]].
  - unfold hit_level, clearAll, holds_opt. cbn zeta.
    cbn [l1 l2 l3 set_stats set_levels].
    rewrite holds_clear by done.
    destruct (l2 h) as [c2|], (l3 h) as [c3|]; simpl;
      rewrite ?holds_clear by eauto; done.
  - unfold shaped_levels, clearAll. cbn zeta.
    cbn [l1 l2 l3 set_stats set_levels]. split; [|split].
    + eapply shaped_shape; [apply shape_clear|done].
    + intros c Hc. destruct (l2 h) as [c2|]; [|done].
      injection Hc as <-. eapply shaped_shape; [apply shape_clear|eauto].
    + intros c Hc. destruct (l3 h) as [c3|]; [|done].
      injection Hc as <-. eapply shaped_shape; [apply shape_clear|eauto].
Qed.

Lemma cleared_hierarchy_holds_nothing_witness :
  let h := (write (new 4 64 TWO_WAY LRU WRITE_BACK
                     8 64 FOUR_WAY FIFO WRITE_BACK
                     0 64 DIRECT_MAPPED FIFO WRITE_BACK) 4096 false).1 in
  hit_level h 4096 = Some 1%nat
  ∧ hit_level (clearAll h) 4096 = None
  ∧ total_accesses h = 1 ∧ total_accesses (clearAll h) = 0.
Proof.
  intros h.
  assert (shaped_levels h) as Hs.
  { split; [|split].
    - split; vm_compute; try done. repeat constructor.
    - intros c Hc. vm_compute in Hc. injection Hc as <-.
      split; vm_compute; try done. repeat constructor.
    - intros c Hc. by vm_compute in Hc. }
  pose proof (cleared_hierarchy_holds_nothing h 4096 Hs) as (H1 & _ & _ & H2 & _).
  split; [by vm_compute|]. split; [done|]. split; [by vm_compute|done].
Defined.

End Inclusion.

(** ** More properties: virtual memory *)

Section vectors_more.
Context {A : Type}.
Implicit Types (l : list A) (f g : A → A) (i j : Z).

Lemma valter_valter f g i l :
  valter f i (valter g i l) = valter (f ∘ g) i l.
Proof.
  unfold valter. destruct (i <? 0); [done|].
  apply list_eq. intros k. destruct (decide (k = Z.to_nat i)) as [->|].
  - rewrite !list_lookup_alter_eq. by destruct (l !! _).
  - by rewrite !list_lookup_alter_ne.
Qed.

Lemma valter_ext f g i l : (∀ x, f x = g x) → valter f i l = valter g i l.
Proof.
  intros H. unfold valter. destruct (i <? 0); [done|].
  apply list_eq. intros k. destruct (decide (k = Z.to_nat i)) as [->|].
  - rewrite !list_lookup_alter_eq. destruct (l !! _); simpl; by rewrite ?H.
  - by rewrite !list_lookup_alter_ne.
Qed.

Lemma vget_is_Some l i :
  is_Some (vget l i) ↔ 0 ≤ i < Z.of_nat (length l).
Proof.
  unfold vget. destruct (Z.ltb_spec i 0).
  - split; [by intros [? ?]|lia].
  - rewrite lookup_lt_is_Some. lia.
Qed.

Lemma vget_replicate_Some (n : nat) (x : A) i :
  0 ≤ i < Z.of_nat n → vget (replicate n x) i = Some x.
Proof.
  intros Hi. unfold vget. destruct (Z.ltb_spec i 0); [lia|].
  apply lookup_replicate_2. lia.
Qed.

Lemma vget_eq l l' :
  length l = length l' → (∀ i, vget l i = vget l' i) → l = l'.
Proof.
  intros Hlen H. apply list_eq. intros k.
  specialize (H (Z.of_nat k)). unfold vget in H.
  destruct (Z.ltb_spec (Z.of_nat k) 0); [lia|]. by rewrite Nat2Z.id in H.
Qed.

End vectors_more.

Module Paging.
Import VirtualMemorySimulator PagingSpec.

Lemma loadPage_tables s p f :
  page_table (loadPage s p f)
  = valter (loaded f (current_time s)) p (page_table s)
  ∧ frame_to_page (loadPage s p f) = valter (λ _, p) f (frame_to_page s)
  ∧ frame_used (loadPage s p f) = valter (λ _, true) f (frame_used s).
Proof.
  unfold loadPage, alter_pte. cbn zeta.
  cbn [page_table frame_to_page frame_used set_frame_used set_frame_to_page
       set_page_table set_tables set_disk_reads set_stats current_time].
  split; [|done]. rewrite !valter_valter. apply valter_ext.
  by intros [].
Qed.

Lemma loadPage_scalars s p f :
  dims (loadPage s p f) = dims s ∧ policy (loadPage s p f) = policy s
  ∧ verbose (loadPage s p f) = verbose s
  ∧ current_time (loadPage s p f) = current_time s
  ∧ disk_reads (loadPage s p f) = disk_reads s + 1
  ∧ disk_writes (loadPage s p f) = disk_writes s
  ∧ page_faults (loadPage s p f) = page_faults s
  ∧ page_hits (loadPage s p f) = page_hits s
  ∧ total_accesses (loadPage s p f) = total_accesses s.
Proof. done. Qed.

Lemma evictPage_invalid s p :
  valid (pte s p) = false → evictPage s p = (s, -1).
Proof. unfold evictPage. by intros ->. Qed.

Lemma pte_entry s p e : entry s p = Some e → pte s p = e.
Proof. unfold pte, entry. by intros ->. Qed.

Lemma pte_valid s p :
  valid (pte s p) = true → ∃ e, entry s p = Some e ∧ valid e = true.
Proof.
  unfold pte, entry. destruct (vget (page_table s) p) as [e|]; [eauto|done].
Qed.

Lemma evictPage_tables s p e :
  entry s p = Some e → valid e = true →
  (evictPage s p).2 = frame_number e
  ∧ page_table (evictPage s p).1 = valter evicted p (page_table s)
  ∧ frame_to_page (evictPage s p).1
    = valter (λ _, -1) (frame_number e) (frame_to_page s)
  ∧ frame_used (evictPage s p).1
    = valter (λ _, false) (frame_number e) (frame_used s).
Proof.
  intros He Hv. unfold evictPage. rewrite (pte_entry s p e He), Hv.
  cbn [negb]. cbv beta iota. cbn zeta.
  destruct (verbose s), (dirty e) eqn:Hd; cbv beta iota;
    try change (pte (set_disk_writes (disk_writes s + 1) s) p)
      with (pte s p);
    rewrite ?(pte_entry s p e He), ?Hd; cbv beta iota;
    cbn [fst snd page_table frame_to_page frame_used set_frame_used
         set_frame_to_page set_page_table set_tables set_disk_writes
         set_stats alter_pte];
    (split; [done|split; [|done]]);
    rewrite !valter_valter; apply valter_ext; by intros [].
Qed.

Lemma evictPage_scalars s p :
  dims (evictPage s p).1 = dims s ∧ policy (evictPage s p).1 = policy s
  ∧ verbose (evictPage s p).1 = verbose s
  ∧ current_time (evictPage s p).1 = current_time s
  ∧ disk_reads (evictPage s p).1 = disk_reads s
  ∧ page_faults (evictPage s p).1 = page_faults s
  ∧ page_hits (evictPage s p).1 = page_hits s
  ∧ total_accesses (evictPage s p).1 = total_accesses s.
Proof.
  unfold evictPage. destruct (negb _); [done|]. cbn zeta.
  destruct (verbose s) eqn:Hvb, (dirty (pte s p)) eqn:Hd; cbv beta iota;
    try change (pte (set_disk_writes (disk_writes s + 1) s) p)
      with (pte s p);
    rewrite ?Hd; simpl; rewrite ?Hvb; done.
Qed.

End Paging.

Module Frames.
Import VirtualMemorySimulator PagingSpec FramesSpec Paging.

Lemma findFreeFrame_spec s :
  table_lengths s →
  (findFreeFrame s = -1
   ∧ ∀ i, 0 ≤ i < num_physical_frames s → used s i = Some true)
  ∨ (0 ≤ findFreeFrame s < num_physical_frames s
     ∧ used s (findFreeFrame s) = Some false).
Proof.
  intros (_ & _ & Hlen). unfold findFreeFrame.
  destruct (find _ (zrange 0 (num_physical_frames s))) as [f|] eqn:Hf.
  - right. apply find_zrange_first in Hf as (Hr & Hfree & _). simpl.
    split; [done|]. unfold used.
    destruct (vget (frame_used s) f) as [[]|]; done.
  - left. split; [done|]. intros i Hi.
    rewrite find_zrange_none in Hf. specialize (Hf i Hi). unfold used.
    destruct (vget_is_Some (frame_used s) i) as [_ [b Hb]]; [lia|].
    rewrite Hb in Hf |- *. simpl in Hf. by destruct b.
Qed.

Lemma scan_victim_spec key s :
  let v := scan_victim key s in
  (v = -1
   ∧ ∀ i p, 0 ≤ i < num_physical_frames s → resident_at s i p →
            INT32_MAX ≤ key (pte s p))
  ∨ (key (pte s v) < INT32_MAX
     ∧ (∃ i, 0 ≤ i < num_physical_frames s ∧ resident_at s i v
             ∧ ∀ j p, 0 ≤ j < i → resident_at s j p →
                      key (pte s v) < key (pte s p))
     ∧ ∀ j p, 0 ≤ j < num_physical_frames s → resident_at s j p →
              key (pte s v) ≤ key (pte s p)).
Proof.
  unfold scan_victim.
  destruct (Z.le_gt_cases (num_physical_frames s) 0) as [Hle|Hgt].
  { rewrite zrange_nil by lia. simpl. left. split; [done|]. intros; lia. }
  replace (num_physical_frames s)
    with (0 + Z.of_nat (Z.to_nat (num_physical_frames s))) by lia.
  generalize (Z.to_nat (num_physical_frames s)) as k. clear Hgt.
  set (f := λ (acc : Z * Z) i,
              let page_idx := default (-1) (vget (frame_to_page s) i) in
              if negb (page_idx =? -1) && valid (pte s page_idx)
              then if key (pte s page_idx) <? acc.2
                   then (page_idx, key (pte s page_idx))
                   else acc
              else acc).
  assert (∀ k,
    let acc := fold_left f (zrange 0 (0 + Z.of_nat k)) (-1, INT32_MAX) in
    (acc.1 = -1 ∧ acc.2 = INT32_MAX
     ∧ ∀ i p, 0 ≤ i < Z.of_nat k → resident_at s i p →
              INT32_MAX ≤ key (pte s p))
    ∨ (acc.2 = key (pte s acc.1) ∧ acc.2 < INT32_MAX
       ∧ (∃ i, 0 ≤ i < Z.of_nat k ∧ resident_at s i acc.1
               ∧ ∀ j p, 0 ≤ j < i → resident_at s j p →
                        acc.2 < key (pte s p))
       ∧ ∀ j p, 0 ≤ j < Z.of_nat k → resident_at s j p →
                acc.2 ≤ key (pte s p))) as H.
  { induction k as [|k IH].
    - rewrite zrange_nil by lia. simpl. left. split_and!; try done.
      intros; lia.
    - rewrite zrange_snoc, fold_left_app. cbv zeta in IH.
      destruct (fold_left f (zrange 0 (0 + Z.of_nat k)) (-1, INT32_MAX))
        as [v m]. cbn [fst snd] in IH. cbn [fold_left].
      replace (0 + Z.of_nat k) with (Z.of_nat k) by lia.
      set (q := default (-1) (vget (frame_to_page s) (Z.of_nat k))).
      assert (f (v, m) (Z.of_nat k)
              = if negb (q =? -1) && valid (pte s q)
                then if key (pte s q) <? m then (q, key (pte s q))
                     else (v, m)
                else (v, m)) as -> by done.
      assert (∀ p, resident_at s (Z.of_nat k) p →
                   p = q ∧ negb (q =? -1) && valid (pte s q) = true)
        as Honly.
      { intros p (Ho & Hp & Hv). unfold owner in Ho. subst q.
        rewrite Ho. simpl. split; [done|]. rewrite Hv, andb_true_r.
        apply negb_true_iff, Z.eqb_neq. done. }
      destruct (negb (q =? -1) && valid (pte s q)) eqn:Hcand.
      + apply andb_true_iff in Hcand as [Hq Hv].
        apply negb_true_iff, Z.eqb_neq in Hq.
        assert (resident_at s (Z.of_nat k) q) as Hres.
        { split; [|done]. unfold owner. subst q.
          destruct (vget (frame_to_page s) (Z.of_nat k)); [done|].
          simpl in Hq. done. }
        destruct (Z.ltb_spec (key (pte s q)) m) as [Hlt|Hge]; cbn [fst snd].
        * right. split; [done|].
          destruct IH as [(-> & -> & Hnone)|(-> & Hm & Hex & Hmin)].
          -- split; [done|]. split.
             ++ exists (Z.of_nat k). split; [lia|]. split; [done|].
                intros j p Hj Hp. specialize (Hnone j p Hj Hp). lia.
             ++ intros j p Hj Hp.
                destruct (decide (j = Z.of_nat k)) as [->|].
                ** destruct (Honly p Hp) as [-> _]. lia.
                ** specialize (Hnone j p ltac:(lia) Hp). lia.
          -- split; [lia|]. split.
             ++ exists (Z.of_nat k). split; [lia|]. split; [done|].
                intros j p Hj Hp. specialize (Hmin j p Hj Hp). lia.
             ++ intros j p Hj Hp.
                destruct (decide (j = Z.of_nat k)) as [->|].
                ** destruct (Honly p Hp) as [-> _]. lia.
                ** specialize (Hmin j p ltac:(lia) Hp). lia.
        * destruct IH as [(-> & -> & Hnone)|(-> & Hm & Hex & Hmin)].
          -- left. split_and!; try done. intros i p Hi Hp.
             destruct (decide (i = Z.of_nat k)) as [->|].
             ++ destruct (Honly p Hp) as [-> _]. done.
             ++ apply (Hnone i p); [lia|done].
          -- right. split; [done|]. split; [done|]. split.
             ++ destruct Hex as (i & Hi & Hr & Hf). exists i.
                split; [lia|]. done.
             ++ intros j p Hj Hp.
                destruct (decide (j = Z.of_nat k)) as [->|].
                ** destruct (Honly p Hp) as [-> _]. done.
                ** apply (Hmin j p); [lia|done].
      + cbn [fst snd].
        destruct IH as [(-> & -> & Hnone)|(-> & Hm & Hex & Hmin)].
        * left. split_and!; try done. intros i p Hi Hp.
          destruct (decide (i = Z.of_nat k)) as [->|].
          -- destruct (Honly p Hp) as [_ ?]. done.
          -- apply (Hnone i p); [lia|done].
        * right. split; [done|]. split; [done|]. split.
          -- destruct Hex as (i & Hi & Hr & Hf). exists i.
             split; [lia|]. done.
          -- intros j p Hj Hp.
             destruct (decide (j = Z.of_nat k)) as [->|].
             ++ destruct (Honly p Hp) as [_ ?]. done.
             ++ apply (Hmin j p); [lia|done]. }
  intros k. specialize (H k). cbv zeta in H.
  replace (0 + Z.of_nat k) with (Z.of_nat k) in * by lia.
  destruct (fold_left f (zrange 0 (Z.of_nat k)) (-1, INT32_MAX)) as [v m].
  cbn [fst snd] in *.
  destruct H as [(-> & -> & Hnone)|(-> & Hm & Hex & Hmin)].
  - left. done.
  - right. done.
Qed.

End Frames.

Module Consistency.
Import VirtualMemorySimulator PagingSpec FramesSpec Paging Frames.

Lemma sized_dims s s' : dims s' = dims s → sized s → sized s'.
Proof.
  unfold dims. intros [= E1 E2 E3 E4 E5] [H1 H2 H3 H4 H5].
  split; rewrite ?E1, ?E2, ?E3, ?E4, ?E5; done.
Qed.

Lemma lengths_tables s s' :
  dims s' = dims s →
  length (page_table s') = length (page_table s) →
  length (frame_to_page s') = length (frame_to_page s) →
  length (frame_used s') = length (frame_used s) →
  table_lengths s → table_lengths s'.
Proof.
  unfold dims, table_lengths. intros [= E1 E2 E3 E4 E5] L1 L2 L3.
  rewrite L1, L2, L3, E4, E5. done.
Qed.

Lemma owner_range s f p :
  table_lengths s → owner s f = Some p → 0 ≤ f < num_physical_frames s.
Proof.
  intros (_ & L & _) Ho. unfold owner in Ho.
  assert (is_Some (vget (frame_to_page s) f)) as Hs by eauto.
  apply vget_is_Some in Hs. lia.
Qed.

Lemma entry_range s p e :
  table_lengths s → entry s p = Some e → 0 ≤ p < num_virtual_pages s.
Proof.
  intros (L & _ & _) Ho. unfold entry in Ho.
  assert (is_Some (vget (page_table s) p)) as Hs by eauto.
  apply vget_is_Some in Hs. lia.
Qed.

Lemma entry_is_Some s p :
  table_lengths s → 0 ≤ p < num_virtual_pages s → is_Some (entry s p).
Proof. intros (L & _ & _) Hp. apply vget_is_Some. lia. Qed.

Lemma owner_is_Some s f :
  table_lengths s → 0 ≤ f < num_physical_frames s → is_Some (owner s f).
Proof. intros (_ & L & _) Hp. apply vget_is_Some. lia. Qed.

Lemma used_is_Some s f :
  table_lengths s → 0 ≤ f < num_physical_frames s → is_Some (used s f).
Proof. intros (_ & _ & L) Hp. apply vget_is_Some. lia. Qed.

(** Tables and sizes unchanged. *)
Lemma consistent_same s s' :
  dims s' = dims s → page_table s' = page_table s →
  frame_to_page s' = frame_to_page s → frame_used s' = frame_used s →
  consistent s → consistent s'.
Proof.
  intros Hd T1 T2 T3 [C1 C2 C3 C4]. split.
  - by eapply sized_dims.
  - eapply lengths_tables; [done|by rewrite ?T1, ?T2, ?T3..|done].
  - unfold entry, owner, used. rewrite T1, T2, T3. apply C3.
  - unfold entry, owner, used. rewrite T1, T2, T3. apply C4.
Qed.

(** A page hit: the entry is touched. *)
Lemma consistent_touch s s' p now :
  dims s' = dims s →
  page_table s' = valter (touched now) p (page_table s) →
  frame_to_page s' = frame_to_page s → frame_used s' = frame_used s →
  consistent s → consistent s'.
Proof.
  intros Hd T1 T2 T3 [C1 C2 C3 C4]. split.
  - by eapply sized_dims.
  - eapply lengths_tables; [done|by rewrite ?T1, ?T2, ?T3, ?length_valter..
                            |done].
  - intros p' e'. unfold entry, owner, used. rewrite T1, T2, T3, vget_valter.
    case_decide as Hp; [|apply C3]. subst p'.
    destruct (vget (page_table s) p) as [e|] eqn:He; [|done].
    intros [= <-] Hv. simpl in *. by apply (C3 p e).
  - intros f Hf. unfold used in Hf. rewrite T3 in Hf.
    destruct (C4 f Hf) as (p' & e' & Ho & He & Hv & Hfn).
    destruct (decide (p = p')) as [->|].
    + exists p', (touched now e'). unfold entry, owner in *.
      rewrite T1, T2, vget_valter, decide_True, He by done. done.
    + exists p', e'. unfold entry, owner in *.
      rewrite T1, T2, vget_valter, decide_False by done. done.
Qed.

(** A page loaded into a free frame. *)
Lemma consistent_load s s' p f e now :
  dims s' = dims s →
  page_table s' = valter (loaded f now) p (page_table s) →
  frame_to_page s' = valter (λ _, p) f (frame_to_page s) →
  frame_used s' = valter (λ _, true) f (frame_used s) →
  entry s p = Some e → valid e = false → used s f = Some false →
  consistent s →
  consistent s' ∧ entry s' p = Some (loaded f now e).
Proof.
  intros Hd T1 T2 T3 He Hinv Hfree [C1 C2 C3 C4].
  assert (0 ≤ f < num_physical_frames s) as Hf.
  { destruct C2 as (_ & _ & L). unfold used in Hfree.
    assert (is_Some (vget (frame_used s) f)) as Hs by eauto.
    apply vget_is_Some in Hs. lia. }
  destruct (owner_is_Some s f C2 Hf) as [p0 Hp0].
  assert (entry s' p = Some (loaded f now e)) as He'.
  { unfold entry in *. rewrite T1, vget_valter, decide_True, He by done.
    done. }
  split; [|done]. split.
  - by eapply sized_dims.
  - eapply lengths_tables; [done|by rewrite ?T1, ?T2, ?T3, ?length_valter..
                            |done].
  - intros p' e' He2 Hv. destruct (decide (p = p')) as [<-|Hne].
    + rewrite He' in He2. injection He2 as <-. simpl.
      unfold owner, used in *.
      rewrite T2, T3, !vget_valter, !decide_True, Hp0, Hfree by done. done.
    + unfold entry in He2. rewrite T1, vget_valter, decide_False in He2
        by done.
      destruct (C3 p' e' He2 Hv) as [Ho Hu].
      assert (f ≠ frame_number e')
        by (intros E; rewrite <- E in Hu; congruence).
      unfold owner, used in *.
      rewrite T2, T3, !vget_valter, !decide_False by done. done.
  - intros f' Hf'. unfold used in Hf'. rewrite T3, vget_valter in Hf'.
    destruct (decide (f = f')) as [<-|Hne].
    + exists p, (loaded f now e). unfold owner in *.
      rewrite T2, vget_valter, decide_True, Hp0 by done. done.
    + destruct (C4 f' Hf') as (p' & e' & Ho & He2 & Hv & Hfn).
      assert (p ≠ p') by (intros <-; congruence).
      exists p', e'. unfold owner, entry in *.
      rewrite T1, T2, !vget_valter, !decide_False by done. done.
Qed.

(** A valid page evicted: its frame becomes free. *)
Lemma consistent_evict s s' v ev :
  dims s' = dims s →
  page_table s' = valter evicted v (page_table s) →
  frame_to_page s' = valter (λ _, -1) (frame_number ev) (frame_to_page s) →
  frame_used s' = valter (λ _, false) (frame_number ev) (frame_used s) →
  entry s v = Some ev → valid ev = true →
  consistent s →
  consistent s' ∧ used s' (frame_number ev) = Some false
  ∧ ∀ p, p ≠ v → entry s' p = entry s p.
Proof.
  intros Hd T1 T2 T3 He Hvalid [C1 C2 C3 C4].
  destruct (C3 v ev He Hvalid) as [Ho Hu].
  split; [|split].
  - split.
    + by eapply sized_dims.
    + eapply lengths_tables; [done|by rewrite ?T1, ?T2, ?T3, ?length_valter..
                              |done].
    + intros p' e' He2 Hv. unfold entry in He2.
      rewrite T1, vget_valter in He2. case_decide as Hp.
      { subst p'. unfold entry in He. rewrite He in He2.
        by injection He2 as <-. }
      destruct (C3 p' e' He2 Hv) as [Ho' Hu'].
      assert (frame_number ev ≠ frame_number e')
        by (intros E; rewrite E in Ho; congruence).
      unfold owner, used in *.
      rewrite T2, T3, !vget_valter, !decide_False by done. done.
    + intros f' Hf'. unfold used in Hf'. rewrite T3, vget_valter in Hf'.
      case_decide as Hf.
      { unfold used in Hu. subst f'. rewrite Hu in Hf'. done. }
      destruct (C4 f' Hf') as (p' & e' & Ho' & He2 & Hv & Hfn).
      assert (v ≠ p') by (intros <-; congruence).
      exists p', e'. unfold owner, entry in *.
      rewrite T1, T2, !vget_valter, !decide_False by done. done.
  - unfold used in *. by rewrite T3, vget_valter, decide_True, Hu.
  - intros p Hp. unfold entry. by rewrite T1, vget_valter, decide_False.
Qed.

End Consistency.

Module Translation.
Import VirtualMemorySimulator PagingSpec FramesSpec Paging Frames Consistency.

Lemma to_int_small z : - 2 ^ 31 ≤ z < 2 ^ 31 → to_int z = z.
Proof. intros Hz. unfold to_int. rewrite Z.mod_small; lia. Qed.

Lemma wrap64_small z : 0 ≤ z < 2 ^ 64 → wrap64 z = z.
Proof. intros Hz. unfold wrap64. by rewrite Z.mod_small. Qed.

(** The page of an address in range is a page of the table. *)
Lemma page_in_range s va :
  sized s → 0 ≤ va < virtual_memory_size s →
  0 ≤ va / page_size s < num_virtual_pages s
  ∧ 0 ≤ va mod page_size s < page_size s.
Proof.
  intros [H1 H2 H3 H4 H5] Hva. split.
  - split; [apply Z.div_pos; lia|].
    apply Z.div_lt_upper_bound; [lia|]. rewrite H4 in Hva. lia.
  - apply Z.mod_pos_bound. lia.
Qed.

Lemma frame_in_range s p e :
  consistent s → entry s p = Some e → valid e = true →
  0 ≤ frame_number e < num_physical_frames s.
Proof.
  intros [C1 C2 C3 C4] He Hv. destruct (C3 p e He Hv) as [Ho _].
  by eapply owner_range.
Qed.

(** The physical address of offset [off] in frame [f] needs no
    wrap-around and lies in physical memory. *)
Lemma frame_address s f off :
  sized s → 0 ≤ f < num_physical_frames s → 0 ≤ off < page_size s →
  wrap64 (f * page_size s + off) = f * page_size s + off
  ∧ 0 ≤ f * page_size s + off < physical_memory_size s.
Proof.
  intros [H1 H2 H3 H4 H5] Hf Hoff.
  assert (0 ≤ f * page_size s + off < physical_memory_size s) by nia.
  split; [|done]. apply wrap64_small. lia.
Qed.

(** What a page fault does when the tables agree and the clock has not
    reached [INT32_MAX]: the page is loaded into a frame, after the
    eviction of a victim when no frame is free. *)
Lemma handlePageFault_loads s p e n :
  consistent s → timed n s → n < INT32_MAX →
  1 ≤ num_physical_frames s →
  entry s p = Some e → valid e = false →
  let s' := handlePageFault s p in
  ∃ f, consistent s'
       ∧ entry s' p = Some (loaded f (current_time s) e)
       ∧ (∀ p', p' ≠ p →
            entry s' p' = entry s p'
            ∨ ∃ e0, entry s p' = Some e0 ∧ entry s' p' = Some (evicted e0))
       ∧ dims s' = dims s ∧ policy s' = policy s ∧ verbose s' = verbose s
       ∧ current_time s' = current_time s
       ∧ disk_reads s' = disk_reads s + 1
       ∧ page_faults s' = page_faults s ∧ page_hits s' = page_hits s
       ∧ total_accesses s' = total_accesses s.
Proof.
  intros Hc Ht Hn Hframes He Hinv. cbv zeta. unfold handlePageFault.
  destruct (findFreeFrame_spec s (cons_lengths s Hc))
    as [[Hnone Hall]|[Hf Hfree]].
  - rewrite Hnone. cbn [Z.eqb Pos.eqb]. cbv beta iota zeta.
    (* frame 0 is used, so a victim exists *)
    destruct (cons_occupied s Hc 0 (Hall 0 ltac:(lia)))
      as (p0 & e0 & Ho0 & He0 & Hv0 & Hf0).
    assert (resident_at s 0 p0) as Hres0.
    { split; [done|]. split.
      - pose proof (entry_range s p0 e0 (cons_lengths s Hc) He0). lia.
      - by rewrite (pte_entry s p0 e0 He0). }
    assert (∃ i, resident_at s i (selectVictimPage s)) as [i Hres].
    { unfold selectVictimPage. destruct Ht as [_ Ht].
      destruct (Ht p0 e0 He0 Hv0) as [Hl Ha].
      destruct (policy s).
      - destruct (scan_victim_spec load_time s) as [[_ Hno]|(_ & Hex & _)].
        + specialize (Hno 0 p0 ltac:(lia) Hres0).
          rewrite (pte_entry s p0 e0 He0) in Hno. lia.
        + destruct Hex as (i & _ & Hr & _). eauto.
      - destruct (scan_victim_spec last_access_time s)
          as [[_ Hno]|(_ & Hex & _)].
        + specialize (Hno 0 p0 ltac:(lia) Hres0).
          rewrite (pte_entry s p0 e0 He0) in Hno. lia.
        + destruct Hex as (i & _ & Hr & _). eauto. }
    destruct Hres as (Hov & Hvne & Hvv).
    destruct (pte_valid s _ Hvv) as (ev & Hev & Hevv).
    destruct (Z.eqb_spec (selectVictimPage s) (-1)); [done|].
    destruct (evictPage_tables s _ ev Hev Hevv) as (E0 & E1 & E2 & E3).
    destruct (evictPage_scalars s (selectVictimPage s))
      as (D1 & D2 & D3 & D4 & D5 & D6 & D7 & D8).
    destruct (evictPage s (selectVictimPage s)) as [s1 f1].
    cbn [fst snd] in *. subst f1.
    destruct (consistent_evict s s1 _ ev D1 E1 E2 E3 Hev Hevv Hc)
      as (Hc1 & Hfree1 & Hrest1).
    assert (p ≠ selectVictimPage s) as Hpv by (intros ->; congruence).
    assert (entry s1 p = Some e) as He1 by (by rewrite Hrest1).
    destruct (loadPage_tables s1 p (frame_number ev)) as (L1 & L2 & L3).
    destruct (loadPage_scalars s1 p (frame_number ev))
      as (S1 & S2 & S3 & S4 & S5 & S6 & S7 & S8 & S9).
    destruct (consistent_load s1 _ p (frame_number ev) e (current_time s1)
                S1 L1 L2 L3 He1 Hinv Hfree1 Hc1) as [Hc2 He2].
    exists (frame_number ev). rewrite <- D4.
    split; [done|]. split; [done|]. split.
    { intros p' Hp'.
      assert (entry (loadPage s1 p (frame_number ev)) p' = entry s1 p')
        as ->.
      { unfold entry. by rewrite L1, vget_valter, decide_False. }
      destruct (decide (p' = selectVictimPage s)) as [->|Hne].
      - right. exists ev. split; [done|]. unfold entry.
        rewrite E1, vget_valter, decide_True by done.
        unfold entry in Hev. by rewrite Hev.
      - left. by apply Hrest1. }
    rewrite S1, S2, S3, S4, S5, S7, S8, S9. split_and!; congruence.
  - destruct (Z.eqb_spec (findFreeFrame s) (-1)) as [E|_]; [lia|].
    destruct (loadPage_tables s p (findFreeFrame s)) as (L1 & L2 & L3).
    destruct (loadPage_scalars s p (findFreeFrame s))
      as (S1 & S2 & S3 & S4 & S5 & S6 & S7 & S8 & S9).
    destruct (consistent_load s _ p (findFreeFrame s) e (current_time s)
                S1 L1 L2 L3 He Hinv Hfree Hc) as [Hc2 He2].
    exists (findFreeFrame s).
    split; [done|]. split; [done|]. split.
    { intros p' Hp'. left. unfold entry. rewrite L1, vget_valter.
      by rewrite decide_False. }
    split_and!; done.
Qed.

End Translation.

Module Translate.
Import VirtualMemorySimulator PagingSpec FramesSpec Paging Frames Consistency
  Translation.

Lemma translateAddress_out s va :
  virtual_memory_size s ≤ va →
  translateAddress s va
  = (set_current_time (current_time s + 1)
       (set_total_accesses (total_accesses s + 1) s), wrap64 (-1)).
Proof.
  intros H. unfold translateAddress. cbn zeta.
  change (virtual_memory_size (set_current_time _ _))
    with (virtual_memory_size s).
  destruct (Z.leb_spec (virtual_memory_size s) va); [done|lia].
Qed.

Lemma translateAddress_in s va n e :
  consistent s → timed n s → n + 1 < INT32_MAX →
  1 ≤ num_physical_frames s →
  0 ≤ va < virtual_memory_size s →
  entry s (va / page_size s) = Some e →
  let r := translateAddress s va in
  consistent r.1 ∧ timed (n + 1) r.1 ∧ dims r.1 = dims s
  ∧ policy r.1 = policy s ∧ verbose r.1 = verbose s
  ∧ current_time r.1 = current_time s + 1
  ∧ total_accesses r.1 = total_accesses s + 1
  ∧ ∃ f, entry r.1 (va / page_size s)
         = Some (if valid e then touched (current_time s + 1) e
                 else loaded f (current_time s + 1) e)
       ∧ (valid e = true → f = frame_number e)
       ∧ r.2 = f * page_size s + va mod page_size s
       ∧ page_hits r.1 = page_hits s + (if valid e then 1 else 0)
       ∧ page_faults r.1 = page_faults s + (if valid e then 0 else 1)
       ∧ disk_reads r.1 = disk_reads s + (if valid e then 0 else 1).
Proof.
  intros Hc Ht Hn Hframes Hva He.
  pose proof (cons_sized s Hc) as Hs.
  destruct (page_in_range s va Hs Hva) as [Hp Hoff].
  pose proof (sized_page s Hs) as Hpg.
  pose proof (sized_pages s Hs) as Hpages.
  unfold translateAddress. cbv zeta.
  set (s0 := set_total_accesses (total_accesses s + 1) s).
  set (s1 := set_current_time (current_time s0 + 1) s0).
  change (virtual_memory_size s1) with (virtual_memory_size s).
  change (page_size s1) with (page_size s).
  destruct (Z.leb_spec (virtual_memory_size s) va); [lia|].
  rewrite !to_int_small by lia.
  assert (consistent s1) as Hc1 by (by apply (consistent_same s)).
  assert (timed (n + 1) s1) as Ht1.
  { destruct Ht as [Ht1 Ht2]. split; [simpl; lia|].
    intros p' e' He' Hv'. destruct (Ht2 p' e' He' Hv'). lia. }
  assert (entry s1 (va / page_size s) = Some e) as He1 by done.
  rewrite (pte_entry s1 _ e He1).
  destruct (valid e) eqn:Hv.
  - (* hit *)
    set (s2 := alter_pte _ _ (alter_pte _ _ (set_page_hits _ s1))).
    assert (page_table s2
            = valter (touched (current_time s + 1)) (va / page_size s)
                (page_table s)) as T1.
    { subst s2. unfold alter_pte.
      cbn [page_table set_page_table set_tables set_page_hits set_stats].
      rewrite valter_valter. apply valter_ext. by intros []. }
    assert (consistent s2) as Hc2.
    { by apply (consistent_touch s s2 (va / page_size s)
                  (current_time s + 1)). }
    assert (entry s2 (va / page_size s)
            = Some (touched (current_time s + 1) e)) as He2.
    { unfold entry in *. by rewrite T1, vget_valter, decide_True, He. }
    cbn [fst snd]. split; [done|]. split.
    { destruct Ht as [Ht1' Ht2]. split; [simpl; lia|].
      intros p' e'. unfold entry. rewrite T1, vget_valter.
      case_decide as Hpp.
      - subst p'. unfold entry in He. rewrite He. intros [= <-] _.
        simpl. destruct (Ht2 _ e He Hv). lia.
      - intros He' Hv'. destruct (Ht2 p' e' He' Hv'). lia. }
    split; [done|]. split; [done|]. split; [done|]. split; [done|].
    split; [done|]. exists (frame_number e).
    split; [done|]. split; [done|].
    rewrite (pte_entry s2 _ _ He2).
    change (page_size s2) with (page_size s). cbn [frame_number touched].
    split; [|subst s2 s1 s0; simpl; split_and!; lia].
    apply (frame_address s); [done| |done].
    by eapply frame_in_range.
  - (* fault *)
    set (s2 := set_page_faults (page_faults s1 + 1) s1).
    assert (consistent s2) as Hc2 by (by apply (consistent_same s)).
    assert (timed (n + 1) s2) as Ht2 by done.
    assert (entry s2 (va / page_size s) = Some e) as He2 by done.
    destruct (handlePageFault_loads s2 (va / page_size s) e (n + 1)
                Hc2 Ht2 Hn Hframes He2 Hv)
      as (f & Hc3 & He3 & Hrest & D1 & D2 & D3 & D4 & D5 & D6 & D7 & D8).
    set (s3 := handlePageFault s2 (va / page_size s)) in *.
    cbn [fst snd]. split; [done|]. split.
    { split; [rewrite D4; pose proof (proj1 Ht); simpl; lia|].
      intros p' e' He' Hv'.
      destruct (decide (p' = va / page_size s)) as [->|Hne].
      - rewrite He3 in He'. injection He' as <-. pose proof (proj1 Ht).
        unfold s2, s1, s0. simpl. lia.
      - destruct (Hrest p' Hne) as [E|(e0 & _ & E)]; rewrite E in He'.
        + destruct Ht as [_ Ht]. destruct (Ht p' e' He' Hv'). lia.
        + injection He' as <-. done. }
    split; [by rewrite D1|]. split; [by rewrite D2|].
    split; [by rewrite D3|]. split; [by rewrite D4|].
    split; [by rewrite D8|]. exists f.
    split; [done|]. split; [done|].
    rewrite (pte_entry s3 _ _ He3).
    assert (page_size s3 = page_size s) as ->.
    { unfold dims in D1. by injection D1. }
    cbn [frame_number loaded].
    split; [|rewrite D5, D6, D7; simpl; split_and!; lia].
    apply (frame_address s); [done| |done].
    assert (num_physical_frames s3 = num_physical_frames s) as <-.
    { unfold dims in D1. by injection D1. }
    by apply (frame_in_range s3 (va / page_size s)
                (loaded f (current_time s2) e)).
Qed.

End Translate.

Module Reach.
Import VirtualMemorySimulator PagingSpec FramesSpec ReachSpec Paging Frames
  Consistency Translation Translate.

Section overwrite.
Context {A : Type}.

(** A loop that overwrites the cells of an index range. *)
Lemma vget_overwrite (x : A) (n : Z) (l : list A) (j : Z) :
  vget (fold_left (λ l i, valter (λ _, x) i l) (zrange 0 n) l) j
  = if decide (0 ≤ j < n) then (λ _, x) <$> vget l j else vget l j.
Proof.
  destruct (Z.le_gt_cases n 0) as [Hle|Hgt].
  { rewrite zrange_nil by lia. simpl. by rewrite decide_False by lia. }
  replace n with (0 + Z.of_nat (Z.to_nat n)) at 1 by lia.
  assert (∀ k : nat,
    vget (fold_left (λ l i, valter (λ _, x) i l)
            (zrange 0 (0 + Z.of_nat k)) l) j
    = if decide (0 ≤ j < Z.of_nat k) then (λ _, x) <$> vget l j
      else vget l j) as H.
  { induction k as [|k IH].
    - rewrite zrange_nil by lia. simpl. by rewrite decide_False by lia.
    - rewrite zrange_snoc, fold_left_app. cbn [fold_left].
      rewrite vget_valter, IH.
      replace (0 + Z.of_nat k) with (Z.of_nat k) by lia.
      destruct (decide (Z.of_nat k = j)) as [<-|Hne].
      + rewrite decide_False, decide_True by lia. by destruct (vget l _).
      + destruct (decide (0 ≤ j < Z.of_nat k)).
        * by rewrite decide_True by lia.
        * by rewrite decide_False by lia. }
  rewrite H. destruct (decide (0 ≤ j < n)).
  - by rewrite decide_True by lia.
  - by rewrite decide_False by lia.
Qed.

Lemma length_overwrite (x : A) (n : Z) (l : list A) :
  length (fold_left (λ l i, valter (λ _, x) i l) (zrange 0 n) l) = length l.
Proof.
  generalize (zrange 0 n). intros ix. revert l.
  induction ix as [|i ix IH]; intros l; [done|].
  simpl. by rewrite IH, length_valter.
Qed.

Lemma overwrite_all (x : A) (n : Z) (l : list A) :
  length l = Z.to_nat n →
  fold_left (λ l i, valter (λ _, x) i l) (zrange 0 n) l
  = replicate (Z.to_nat n) x.
Proof.
  intros Hlen. apply vget_eq.
  { by rewrite length_overwrite, length_replicate. }
  intros j. rewrite vget_overwrite.
  destruct (decide (0 ≤ j < n)) as [Hj|Hj].
  - rewrite vget_replicate_Some by lia.
    destruct (vget_is_Some l j) as [_ [y ->]]; [lia|]. done.
  - assert (vget l j = None) as ->.
    { apply eq_None_not_Some. rewrite vget_is_Some. lia. }
    symmetry. apply eq_None_not_Some.
    rewrite vget_is_Some, length_replicate. lia.
Qed.

End overwrite.

Lemma reset_pages ix s :
  let s' := fold_left (λ s i, alter_pte (λ _, PageTableEntry_new) i s) ix s in
  page_table s'
  = fold_left (λ l i, valter (λ _, PageTableEntry_new) i l) ix (page_table s)
  ∧ set_page_table (page_table s') s = s'.
Proof.
  revert s. induction ix as [|i ix IH]; intros s.
  { simpl. split; [done|]. by destruct s. }
  cbn [fold_left]. destruct (IH (alter_pte (λ _, PageTableEntry_new) i s))
    as [E1 E2].
  cbv zeta. split; [by rewrite E1|]. rewrite <- E2 at 2. done.
Qed.

Lemma reset_frames ix s :
  let s' :=
    fold_left
      (λ s i,
         set_frame_used (valter (λ _, false) i (frame_used s))
           (set_frame_to_page (valter (λ _, -1) i (frame_to_page s)) s))
      ix s in
  frame_to_page s'
  = fold_left (λ l i, valter (λ _, -1) i l) ix (frame_to_page s)
  ∧ frame_used s'
    = fold_left (λ l i, valter (λ _, false) i l) ix (frame_used s)
  ∧ set_tables (page_table s) (frame_to_page s') (frame_used s') s = s'.
Proof.
  revert s. induction ix as [|i ix IH]; intros s.
  { simpl. split; [done|]. split; [done|]. by destruct s. }
  cbn [fold_left].
  destruct (IH (set_frame_used (valter (λ _, false) i (frame_used s))
                  (set_frame_to_page
                     (valter (λ _, -1) i (frame_to_page s)) s)))
    as (E1 & E2 & E3).
  cbv zeta. split; [by rewrite E1|]. split; [by rewrite E2|].
  rewrite <- E3 at 3. done.
Qed.

(** [reset] puts the three tables and the six counters back to what the
    constructor makes of the sizes. *)
Lemma reset_closed s :
  table_lengths s →
  reset s
  = set_stats 0 0 0 0 0 0
      (set_tables
         (replicate (Z.to_nat (num_virtual_pages s)) PageTableEntry_new)
         (replicate (Z.to_nat (num_physical_frames s)) (-1))
         (replicate (Z.to_nat (num_physical_frames s)) false) s).
Proof.
  intros (L1 & L2 & L3). unfold reset. cbv zeta.
  destruct (reset_pages (zrange 0 (num_virtual_pages s)) s) as [P1 P2].
  cbv zeta in P1, P2.
  set (s1 := fold_left _ (zrange 0 (num_virtual_pages s)) s) in *.
  rewrite overwrite_all in P1 by done.
  assert (num_physical_frames s1 = num_physical_frames s) as EF.
  { by rewrite <- P2. }
  rewrite EF.
  destruct (reset_frames (zrange 0 (num_physical_frames s)) s1)
    as (F1 & F2 & F3).
  cbv zeta in F1, F2, F3.
  set (s2 := fold_left _ (zrange 0 (num_physical_frames s)) s1) in *.
  rewrite overwrite_all in F1 by (by rewrite <- P2).
  rewrite overwrite_all in F2 by (by rewrite <- P2).
  rewrite <- F3, F1, F2, P1, <- P2, P1. done.
Qed.

End Reach.

Module ShapeVM.
Import VirtualMemorySimulator PagingSpec FramesSpec ReachSpec LayoutSpec
  Paging Frames Consistency Translation Translate Reach.

Lemma frame_loadPage s p f : frame (loadPage s p f) = frame s.
Proof.
  destruct (loadPage_tables s p f) as (L1 & L2 & L3).
  unfold frame. rewrite L1, L2, L3, !length_valter. reflexivity.
Qed.

Lemma frame_evictPage s p : frame (evictPage s p).1 = frame s.
Proof.
  destruct (valid (pte s p)) eqn:Hv.
  - destruct (pte_valid s p Hv) as (e & He & Hve).
    destruct (evictPage_tables s p e He Hve) as (_ & L1 & L2 & L3).
    destruct (evictPage_scalars s p) as (S1 & _).
    unfold frame, dims in *. rewrite L1, L2, L3, !length_valter.
    by injection S1 as -> -> -> -> ->.
  - by rewrite evictPage_invalid.
Qed.

Lemma frame_handlePageFault s p : frame (handlePageFault s p) = frame s.
Proof.
  unfold handlePageFault. cbv zeta.
  destruct (findFreeFrame s =? -1); [|apply frame_loadPage].
  destruct (selectVictimPage s =? -1); [done|].
  pose proof (frame_evictPage s (selectVictimPage s)) as E.
  destruct (evictPage s (selectVictimPage s)) as [s1 f1].
  by rewrite frame_loadPage.
Qed.

Lemma modes_handlePageFault s p :
  policy (handlePageFault s p) = policy s
  ∧ verbose (handlePageFault s p) = verbose s.
Proof.
  unfold handlePageFault. cbv zeta.
  destruct (findFreeFrame s =? -1); [|done].
  destruct (selectVictimPage s =? -1); [done|].
  destruct (evictPage_scalars s (selectVictimPage s)) as (_ & E1 & E2 & _).
  destruct (evictPage s (selectVictimPage s)) as [s1 f1]. done.
Qed.

Lemma frame_translateAddress s va :
  frame (translateAddress s va).1 = frame s
  ∧ policy (translateAddress s va).1 = policy s
  ∧ verbose (translateAddress s va).1 = verbose s.
Proof.
  unfold translateAddress. cbv zeta.
  set (s0 := set_total_accesses (total_accesses s + 1) s).
  set (s1 := set_current_time (current_time s0 + 1) s0).
  destruct (virtual_memory_size s1 <=? va); [done|].
  destruct (valid (pte s1 _)); cbn [fst].
  - unfold frame, alter_pte.
    cbn [page_table frame_to_page frame_used set_page_table set_tables
         set_page_hits set_stats virtual_memory_size physical_memory_size
         page_size num_virtual_pages num_physical_frames policy verbose].
    by rewrite !length_valter.
  - rewrite frame_handlePageFault.
    destruct (modes_handlePageFault
                (set_page_faults (page_faults s1 + 1) s1)
                (to_int (va / page_size s1))) as [-> ->].
    done.
Qed.

Lemma frame_reset s : frame (reset s) = frame s.
Proof.
  unfold reset. cbv zeta.
  destruct (reset_pages (zrange 0 (num_virtual_pages s)) s) as [P1 P2].
  cbv zeta in P1, P2.
  set (s1 := fold_left _ (zrange 0 (num_virtual_pages s)) s) in *.
  destruct (reset_frames (zrange 0 (num_physical_frames s1)) s1)
    as (F1 & F2 & F3).
  cbv zeta in F1, F2, F3.
  set (s2 := fold_left _ (zrange 0 (num_physical_frames s1)) s1) in *.
  transitivity (frame s1).
  - rewrite <- F3. unfold frame.
    cbn [page_table frame_to_page frame_used set_tables clearStats set_stats
         virtual_memory_size physical_memory_size
         page_size num_virtual_pages num_physical_frames].
    by rewrite F1, F2, !length_overwrite.
  - rewrite <- P2. unfold frame.
    cbn [page_table frame_to_page frame_used set_tables set_page_table
         virtual_memory_size physical_memory_size
         page_size num_virtual_pages num_physical_frames].
    by rewrite P1, length_overwrite.
Qed.

Lemma frame_step s o : frame (step s o) = frame s.
Proof.
  destruct o; simpl.
  - apply frame_translateAddress.
  - apply frame_translateAddress.
  - unfold setReplacementPolicy. by repeat case_match.
  - done.
  - done.
  - apply frame_reset.
Qed.

Lemma frame_run ops s : frame (run s ops) = frame s.
Proof.
  revert s. induction ops as [|o ops IH]; intros s; [done|].
  unfold run in *. simpl. by rewrite IH, frame_step.
Qed.

Lemma frame_new_lengths vm pm pg pol : table_lengths (new vm pm pg pol).
Proof.
  unfold table_lengths, new. cbv zeta.
  cbn [page_table frame_to_page frame_used num_virtual_pages
       num_physical_frames].
  by rewrite !length_replicate.
Qed.

Lemma frame_lengths s s' :
  frame s' = frame s → table_lengths s → table_lengths s'.
Proof.
  unfold frame, table_lengths. intros [= E1 E2 E3 E4 E5 E6 E7 E8].
  by rewrite E4, E5, E6, E7, E8.
Qed.

(** X12.  Reset.  Whatever was done to a simulator since its construction,
    [reset] puts back the state the constructor built: the sizes, the
    all-invalid page table, the free frames and the zero counters.  Only
    the replacement policy and the verbose flag stay as they were last
    set. *)
Theorem reset_restores_the_constructed_state
    (vm_size pm_size pg_size : Z) (policy_str : string) (ops : list op) :
  let s := run (new vm_size pm_size pg_size policy_str) ops in
  reset s = set_mode (policy s) (verbose s)
              (new vm_size pm_size pg_size policy_str).
Proof.
  intros s.
  pose proof (frame_run ops (new vm_size pm_size pg_size policy_str)) as Hf.
  fold s in Hf.
  rewrite reset_closed
    by (eapply frame_lengths; [exact Hf|apply frame_new_lengths]).
  unfold frame in Hf. injection Hf as E1 E2 E3 E4 E5 _ _ _.
  unfold set_stats, set_tables, set_mode.
  cbn [virtual_memory_size physical_memory_size page_size num_virtual_pages
       num_physical_frames policy page_table frame_to_page frame_used
       page_faults page_hits total_accesses disk_reads disk_writes
       current_time verbose].
  rewrite E1, E2, E3, E4, E5. reflexivity.
Qed.

End ShapeVM.

Module Paged.
Import VirtualMemorySimulator PagingSpec FramesSpec ReachSpec PagedSpec
  Paging Frames Consistency Translation Translate Reach LayoutSpec ShapeVM.

Lemma timed_mono n m s : n ≤ m → timed n s → timed m s.
Proof.
  intros Hnm [H1 H2]. split; [lia|].
  intros p e He Hv. destruct (H2 p e He Hv). lia.
Qed.

Lemma consistent_empty s :
  sized s →
  page_table s
  = replicate (Z.to_nat (num_virtual_pages s)) PageTableEntry_new →
  frame_to_page s = replicate (Z.to_nat (num_physical_frames s)) (-1) →
  frame_used s = replicate (Z.to_nat (num_physical_frames s)) false →
  consistent s
  ∧ ∀ p e, entry s p = Some e → valid e = false.
Proof.
  intros Hs T1 T2 T3.
  assert (∀ p e, entry s p = Some e → valid e = false) as Hinv.
  { intros p e. unfold entry, vget. rewrite T1.
    destruct (p <? 0); [done|]. by intros [-> _]%lookup_replicate. }
  split; [|done]. split.
  - done.
  - unfold table_lengths. by rewrite T1, T2, T3, !length_replicate.
  - intros p e He Hv. rewrite (Hinv p e He) in Hv. done.
  - intros f. unfold used, vget. rewrite T3.
    destruct (f <? 0); [done|]. by intros [? _]%lookup_replicate.
Qed.

Lemma paged_new vm pm pg pol :
  well_sized vm pm pg → paged 0 (new vm pm pg pol).
Proof.
  intros (Hpg & Hvm & Hmod & Hpages & Hpm & Hframes).
  assert (0 < vm / pg) by (apply Z.div_str_pos; lia).
  assert (0 < pm / pg) by (apply Z.div_str_pos; lia).
  assert (vm = vm / pg * pg) as Evm.
  { rewrite (Z.div_mod vm pg) at 1 by lia. lia. }
  assert (pm / pg * pg ≤ pm).
  { rewrite (Z.div_mod pm pg) at 2 by lia.
    pose proof (Z.mod_pos_bound pm pg ltac:(lia)). lia. }
  assert (sized (new vm pm pg pol)
          ∧ 1 ≤ num_physical_frames (new vm pm pg pol)) as [Hs Hf].
  { unfold new. cbv zeta. rewrite !to_int_small by lia.
    destruct (Z.ltb_spec (vm / pg) (pm / pg)).
    - split; [|simpl; lia]. split; simpl; try lia.
      rewrite wrap64_small; nia.
    - split; [|simpl; lia]. split; simpl; try lia. }
  destruct (consistent_empty (new vm pm pg pol) Hs) as [Hc Hinv];
    try done.
  split; [done|]. split; [done|]. split; [|done]. split; [done|].
  intros p e He Hv. rewrite (Hinv p e He) in Hv. done.
Qed.

Lemma paged_same n s s' :
  frame s' = frame s → page_table s' = page_table s →
  frame_to_page s' = frame_to_page s → frame_used s' = frame_used s →
  current_time s' ≤ n + 1 → disk_reads s' = page_faults s' →
  paged n s → paged (n + 1) s'.
Proof.
  intros Hfr T1 T2 T3 Hct Hdr (Hn & Hc & Ht & Hf & Hd).
  assert (dims s' = dims s) as Hdims.
  { unfold frame in Hfr. unfold dims. by injection Hfr as -> -> -> -> ->. }
  split; [lia|]. split; [by apply (consistent_same s)|]. split; [|split].
  - split; [done|]. intros p e. unfold entry. rewrite T1. intros He Hv.
    destruct Ht as [_ Ht]. destruct (Ht p e He Hv). lia.
  - unfold dims in Hdims. by injection Hdims as _ _ _ _ ->.
  - done.
Qed.

Lemma paged_step n s o :
  paged n s → n + 1 < INT32_MAX → op_sized o = true →
  paged (n + 1) (step s o).
Proof.
  intros Hp Hn Ho. pose proof Hp as (Hn0 & Hc & Ht & Hf & Hd).
  assert (∀ va, 0 ≤ va → paged (n + 1) (translateAddress s va).1) as Htr.
  { intros va Hva.
    destruct (Z.le_gt_cases (virtual_memory_size s) va) as [Hout|Hin].
    - rewrite translateAddress_out by done. cbn [fst].
      apply (paged_same n s); try done. simpl. destruct Ht. lia.
    - destruct (page_in_range s va (cons_sized s Hc) ltac:(lia))
        as [Hpg _].
      destruct (entry_is_Some s _ (cons_lengths s Hc) Hpg) as [e He].
      destruct (translateAddress_in s va n e Hc Ht Hn Hf ltac:(lia) He)
        as (Hc' & Ht' & D & _ & _ & _ & _ & f & _ & _ & _ & _ & Hpf & Hdr).
      split; [lia|]. split; [done|]. split; [done|]. split.
      + unfold dims in D. injection D as _ _ _ _ ->. done.
      + lia. }
  destruct o as [va|va|pol|v| |]; simpl in Ho |- *.
  - apply Htr. lia.
  - apply Htr. lia.
  - destruct Ht. unfold setReplacementPolicy.
    repeat case_match; apply (paged_same n s); try done; simpl; lia.
  - destruct Ht. apply (paged_same n s); try done. simpl. lia.
  - apply (paged_same n s); try done. simpl. lia.
  - rewrite reset_closed by apply (cons_lengths s Hc).
    match goal with |- paged _ ?s' =>
      assert (sized s') as Hs' by (by apply (sized_dims s), Hc);
      destruct (consistent_empty s' Hs') as [Hc' Hinv]; try done end.
    split; [lia|]. split; [done|]. split; [|done]. split.
    + simpl. lia.
    + intros p e He Hv. rewrite (Hinv p e He) in Hv. done.
Qed.

Lemma paged_run ops n s :
  paged n s → n + Z.of_nat (length ops) < INT32_MAX →
  forallb op_sized ops = true →
  paged (n + Z.of_nat (length ops)) (run s ops).
Proof.
  revert n s. induction ops as [|o ops IH]; intros n s Hp Hn Hops.
  { simpl. by rewrite Z.add_0_r. }
  cbn [forallb] in Hops. apply andb_true_iff in Hops as [Ho Hops].
  cbn [length] in *. unfold run. cbn [fold_left].
  replace (n + Z.of_nat (S (length ops)))
    with (n + 1 + Z.of_nat (length ops)) in * by lia.
  apply IH; [|lia|done]. apply paged_step; [done|lia|done].
Qed.

End Paged.

Module PagingProofs.
Import VirtualMemorySimulator PagingSpec FramesSpec ReachSpec PagedSpec
  Paging Frames Consistency Translation Translate Reach LayoutSpec ShapeVM Paged.

(** X13.  Victim page.  [selectVictimPage] returns -1 only when no frame
    records a valid page whose key is below [INT32_MAX]; otherwise it
    returns a valid page recorded by a frame whose key, the load time
    under FIFO and the last access time under LRU, is the least among
    the valid pages recorded by frames, and strictly below that of every
    such page in an earlier frame. *)
Theorem victim_page_is_the_oldest_resident (s : t) :
  let key := match policy s with
             | FIFO => load_time
             | LRU => last_access_time
             end in
  let v := selectVictimPage s in
  (v = -1
   ∧ ∀ i p, 0 ≤ i < num_physical_frames s → resident_at s i p →
            INT32_MAX ≤ key (pte s p))
  ∨ (key (pte s v) < INT32_MAX
     ∧ (∃ i, 0 ≤ i < num_physical_frames s ∧ resident_at s i v
             ∧ ∀ j p, 0 ≤ j < i → resident_at s j p →
                      key (pte s v) < key (pte s p))
     ∧ ∀ j p, 0 ≤ j < num_physical_frames s → resident_at s j p →
              key (pte s v) ≤ key (pte s p)).
Proof.
  unfold selectVictimPage. destruct (policy s); apply scan_victim_spec.
Qed.

Lemma distinct_frames s p1 p2 e1 e2 :
  consistent s →
  entry s p1 = Some e1 → entry s p2 = Some e2 →
  valid e1 = true → valid e2 = true →
  frame_number e1 = frame_number e2 → p1 = p2.
Proof.
  intros Hc H1 H2 V1 V2 E.
  destruct (cons_resident s Hc p1 e1 H1 V1) as [O1 _].
  destruct (cons_resident s Hc p2 e2 H2 V2) as [O2 _].
  rewrite E in O1. congruence.
Qed.

(** X14.  The tables agree.  In a simulator built with well-sized arguments,
    after fewer than [INT32_MAX] operations on [size_t] addresses, the
    tables have the constructor's lengths; every valid page-table entry
    names a frame that records the page and is marked used; every used
    frame records a page whose entry is valid and names the frame; and
    no two valid pages share a frame. *)
Theorem page_table_and_frames_agree
    (vm_size pm_size pg_size : Z) (policy_str : string) (ops : list op) :
  well_sized vm_size pm_size pg_size →
  Z.of_nat (length ops) < INT32_MAX →
  forallb op_sized ops = true →
  let s := run (new vm_size pm_size pg_size policy_str) ops in
  consistent s
  ∧ ∀ p1 p2 e1 e2,
      entry s p1 = Some e1 → entry s p2 = Some e2 →
      valid e1 = true → valid e2 = true →
      frame_number e1 = frame_number e2 → p1 = p2.
Proof.
  intros Hw Hn Hops s.
  destruct (paged_run ops 0 (new vm_size pm_size pg_size policy_str))
    as (_ & Hc & _); [by apply paged_new|lia|done|].
  split; [done|]. intros p1 p2 e1 e2. by apply distinct_frames.
Qed.

Lemma page_table_and_frames_agree_witness :
  consistent (run (new 64 32 16 "fifo")
                [TranslateAddress 0; TranslateAddress 16; Access 40;
                 TranslateAddress 70]).
Proof.
  apply (page_table_and_frames_agree 64 32 16 "fifo"
           [TranslateAddress 0; TranslateAddress 16; Access 40;
            TranslateAddress 70]).
  - unfold well_sized. split_and!; try lia; reflexivity.
  - by vm_compute.
  - reflexivity.
Defined.

(** X15.  Every page fault reads the disk once.  In a simulator built with
    well-sized arguments, after fewer than [INT32_MAX] operations on
    [size_t] addresses, [disk_reads] equals [page_faults]. *)
Theorem every_page_fault_reads_the_disk_once
    (vm_size pm_size pg_size : Z) (policy_str : string) (ops : list op) :
  well_sized vm_size pm_size pg_size →
  Z.of_nat (length ops) < INT32_MAX →
  forallb op_sized ops = true →
  let s := run (new vm_size pm_size pg_size policy_str) ops in
  disk_reads s = page_faults s.
Proof.
  intros Hw Hn Hops s.
  destruct (paged_run ops 0 (new vm_size pm_size pg_size policy_str))
    as (_ & _ & _ & _ & Hd); [by apply paged_new|lia|done|].
  done.
Qed.

Lemma every_page_fault_reads_the_disk_once_witness :
  disk_reads (run (new 64 32 16 "lru")
                [TranslateAddress 0; TranslateAddress 16; Access 40;
                 ClearStats; TranslateAddress 70; Access 1])
  = page_faults (run (new 64 32 16 "lru")
                   [TranslateAddress 0; TranslateAddress 16; Access 40;
                    ClearStats; TranslateAddress 70; Access 1]).
Proof.
  apply (every_page_fault_reads_the_disk_once 64 32 16 "lru").
  - unfold well_sized. split_and!; try lia; reflexivity.
  - by vm_compute.
  - reflexivity.
Defined.

Lemma translation_in s n va :
  consistent s → timed n s → n + 1 < INT32_MAX →
  1 ≤ num_physical_frames s → 0 ≤ va < virtual_memory_size s →
  let r := translateAddress s va in
  ∃ f e',
    entry r.1 (va / page_size s) = Some e' ∧ valid e' = true
    ∧ frame_number e' = f ∧ owner r.1 f = Some (va / page_size s)
    ∧ 0 ≤ f < num_physical_frames s
    ∧ r.2 = f * page_size s + va mod page_size s
    ∧ r.2 mod page_size s = va mod page_size s
    ∧ 0 ≤ r.2 < physical_memory_size s
    ∧ r.2 ≠ 2 ^ 64 - 1
    ∧ consistent r.1.
Proof.
  intros Hc Ht Hn Hf Hin. cbv zeta.
  pose proof (cons_sized s Hc) as Hs.
  destruct (page_in_range s va Hs ltac:(lia)) as [Hpg Hoff].
  destruct (entry_is_Some s _ (cons_lengths s Hc) Hpg) as [e He].
  destruct (translateAddress_in s va n e Hc Ht Hn Hf ltac:(lia) He)
    as (Hc' & Ht' & D & _ & _ & _ & _ & f & He' & Hfe & Hr & _).
  unfold dims in D. injection D as D1 D2 D3 D4 D5.
  set (e' := if valid e then touched (current_time s + 1) e
             else loaded f (current_time s + 1) e) in *.
  assert (valid e' = true ∧ frame_number e' = f) as [Hv' Hf'].
  { subst e'. destruct (valid e) eqn:Hv; [|done].
    split; [done|]. simpl. symmetry. by apply Hfe. }
  destruct (cons_resident _ Hc' _ e' He' Hv') as [Ho' _].
  pose proof (frame_in_range _ _ e' Hc' He' Hv') as Hfr.
  rewrite Hf', D5 in Hfr. rewrite Hf' in Ho'.
  destruct (frame_address s f (va mod page_size s) Hs Hfr Hoff)
    as [_ Hpa].
  pose proof (sized_pm s Hs).
  exists f, e'. rewrite Hr. split_and!; try done; try lia.
  rewrite Z.add_comm, Z.mod_add by (pose proof (sized_page s Hs); lia).
  apply Z.mod_mod. pose proof (sized_page s Hs). lia.
Qed.

(** X16.  Address translation.  When the tables agree, the clock is below
    [INT32_MAX] and there is at least one frame, [translateAddress]
    returns the failure value 2^64 - 1 for an address at or beyond the
    virtual memory size, leaving the tables alone; for an address inside
    it returns frame * page size + offset for the frame that holds the
    page afterwards, keeps the offset of the address, stays inside
    physical memory, and never returns the failure value. *)
Theorem translation_keeps_the_offset_and_lands_in_a_frame
    (s : t) (n va : Z) :
  consistent s → timed n s → n + 1 < INT32_MAX →
  1 ≤ num_physical_frames s → 0 ≤ va →
  let r := translateAddress s va in
  (virtual_memory_size s ≤ va →
   r.2 = 2 ^ 64 - 1 ∧ page_table r.1 = page_table s
   ∧ frame_to_page r.1 = frame_to_page s ∧ frame_used r.1 = frame_used s)
  ∧ (va < virtual_memory_size s →
     ∃ f e',
       entry r.1 (va / page_size s) = Some e' ∧ valid e' = true
       ∧ frame_number e' = f ∧ owner r.1 f = Some (va / page_size s)
       ∧ 0 ≤ f < num_physical_frames s
       ∧ r.2 = f * page_size s + va mod page_size s
       ∧ r.2 mod page_size s = va mod page_size s
       ∧ 0 ≤ r.2 < physical_memory_size s
       ∧ r.2 ≠ 2 ^ 64 - 1
       ∧ consistent r.1).
Proof.
  intros Hc Ht Hn Hf Hva. cbv zeta. split.
  - intros Hout. rewrite translateAddress_out by done. done.
  - intros Hin. by apply (translation_in s n va).
Qed.

Lemma translation_keeps_the_offset_and_lands_in_a_frame_witness :
  let s := run (new 64 32 16 "fifo")
             [TranslateAddress 0; TranslateAddress 16] in
  (translateAddress s 70).2 = 2 ^ 64 - 1
  ∧ ∃ f, 0 ≤ f < 2 ∧ (translateAddress s 40).2 = f * 16 + 8.
Proof.
  intros s.
  assert (paged 2 s) as (_ & Hc & Ht & Hf & _).
  { apply (paged_run [TranslateAddress 0; TranslateAddress 16] 0).
    - apply paged_new. unfold well_sized. split_and!; try lia; reflexivity.
    - by vm_compute.
    - reflexivity. }
  split.
  - apply (translation_keeps_the_offset_and_lands_in_a_frame s 2 70);
      try done; by vm_compute.
  - destruct (translation_keeps_the_offset_and_lands_in_a_frame s 2 40)
      as [_ Hin]; try done; try by vm_compute.
    destruct Hin as (f & e' & _ & _ & _ & _ & Hfr & Hr & _);
      [by vm_compute|].
    exists f. split; [exact Hfr|exact Hr].
Defined.

(** X17.  A translated page stays resident.  When the tables agree, the
    clock has room for two more ticks below [INT32_MAX] and there is at
    least one frame,
    after the translation of an address inside the virtual memory, the
    translation of any address of the same page is a page hit that reads
    nothing from disk and lands in the same frame. *)
Theorem second_translation_is_a_hit_in_the_same_frame
    (s : t) (n va va' : Z) :
  consistent s → timed n s → n + 2 < INT32_MAX →
  1 ≤ num_physical_frames s →
  0 ≤ va < virtual_memory_size s → 0 ≤ va' < virtual_memory_size s →
  va' / page_size s = va / page_size s →
  let r := translateAddress s va in
  let r' := translateAddress r.1 va' in
  r'.2 - va' mod page_size s = r.2 - va mod page_size s
  ∧ page_hits r'.1 = page_hits r.1 + 1
  ∧ page_faults r'.1 = page_faults r.1
  ∧ disk_reads r'.1 = disk_reads r.1.
Proof.
  intros Hc Ht Hn Hf Hva Hva' Hsame. cbv zeta.
  pose proof (cons_sized s Hc) as Hs.
  destruct (page_in_range s va Hs Hva) as [Hpg Hoff].
  destruct (entry_is_Some s _ (cons_lengths s Hc) Hpg) as [e He].
  destruct (translateAddress_in s va n e Hc Ht ltac:(lia) Hf Hva He)
    as (Hc' & Ht' & D & _ & _ & _ & _ & f & He' & Hfe & Hr & _).
  set (s1 := (translateAddress s va).1) in *.
  assert (page_size s1 = page_size s
          ∧ virtual_memory_size s1 = virtual_memory_size s
          ∧ num_physical_frames s1 = num_physical_frames s)
    as (D3 & D1 & D5).
  { unfold dims in D. by injection D as -> _ -> _ ->. }
  set (e' := if valid e then touched (current_time s + 1) e
             else loaded f (current_time s + 1) e) in *.
  assert (valid e' = true ∧ frame_number e' = f) as [Hv' Hf'].
  { subst e'. destruct (valid e) eqn:Hv; [|done].
    split; [done|]. simpl. symmetry. by apply Hfe. }
  rewrite <- Hsame, <- D3 in He'.
  destruct (translateAddress_in s1 va' (n + 1) e' Hc' Ht'
              ltac:(lia) ltac:(lia) ltac:(lia) He')
    as (_ & _ & _ & _ & _ & _ & _ & f' & _ & Hfe' & Hr' & Hh & Hpf & Hdr).
  rewrite Hv' in Hh, Hpf, Hdr. rewrite (Hfe' Hv'), Hf' in Hr'.
  rewrite Hr, Hr', D3. split_and!; lia.
Qed.

Lemma second_translation_is_a_hit_in_the_same_frame_witness :
  let s := run (new 64 32 16 "fifo")
             [TranslateAddress 0; TranslateAddress 16] in
  (translateAddress (translateAddress s 40).1 35).2 - 35 mod 16
  = (translateAddress s 40).2 - 40 mod 16.
Proof.
  intros s.
  assert (paged 2 s) as (_ & Hc & Ht & Hf & _).
  { apply (paged_run [TranslateAddress 0; TranslateAddress 16] 0).
    - apply paged_new. unfold well_sized. split_and!; try lia; reflexivity.
    - by vm_compute.
    - reflexivity. }
  apply (second_translation_is_a_hit_in_the_same_frame s 2 40 35);
    try done; by vm_compute.
Defined.

End PagingProofs.

(** ** More properties: contiguous allocator *)

Module Placement.
Import MemoryManager MemoryManagerSpec PlacementSpec.

Lemma lookup_snoc_cases {A} (l : list A) (x y : A) (k : nat) :
  (l ++ [x]) !! k = Some y →
  ((k < length l)%nat ∧ l !! k = Some y) ∨ (k = length l ∧ y = x).
Proof.
  intros H. destruct (decide (k < length l)%nat) as [Hk|Hk].
  - left. by rewrite lookup_app_l in H.
  - right. rewrite lookup_app_r in H by lia.
    destruct (k - length l)%nat as [|n] eqn:E; simpl in H; [|done].
    split; [lia|congruence].
Qed.

Lemma first_from_spec l sz pre :
  (∀ k c, pre !! k = Some c → fits sz c = false) →
  match findBlockFirstFit_from (length pre) l sz with
  | None => ∀ k c, (pre ++ l) !! k = Some c → fits sz c = false
  | Some j =>
      ∃ b, (pre ++ l) !! j = Some b ∧ fits sz b = true
           ∧ ∀ k c, (pre ++ l) !! k = Some c → fits sz c = true → (j ≤ k)%nat
  end.
Proof.
  revert pre. induction l as [|c l IH]; intros pre Hpre; simpl.
  { by rewrite app_nil_r. }
  destruct (fits sz c) eqn:Hc.
  - exists c. split; [by rewrite lookup_app_r, Nat.sub_diag by lia|].
    split; [done|]. intros k c0 Hk Hfit.
    destruct (decide (k < length pre)%nat); [|lia].
    rewrite lookup_app_l in Hk by done. rewrite (Hpre k c0 Hk) in Hfit. done.
  - specialize (IH (pre ++ [c])). rewrite length_app in IH. simpl in IH.
    replace (length pre + 1)%nat with (S (length pre)) in IH by lia.
    rewrite <- app_assoc in IH. simpl in IH. apply IH.
    intros k c0 [[_ Hk]|[_ ->]]%lookup_snoc_cases; [eauto|done].
Qed.

Lemma best_from_spec l sz pre best d :
  best_so_far sz pre best d →
  ∃ d', best_so_far sz (pre ++ l)
          (findBlockBestFit_from (length pre) l sz best d) d'
        ∧ (findBlockBestFit_from (length pre) l sz best d = None → d' = d).
Proof.
  revert pre best d. induction l as [|c l IH]; intros pre best d Hpre; simpl.
  { rewrite app_nil_r. eauto. }
  assert (∀ best' d',
    best_so_far sz (pre ++ [c]) best' d' →
    (best' = None → d' = d) →
    ∃ d'', best_so_far sz (pre ++ c :: l)
             (findBlockBestFit_from (S (length pre)) l sz best' d') d''
           ∧ (findBlockBestFit_from (S (length pre)) l sz best' d' = None →
              d'' = d)) as Hnext.
  { intros best' d' Hb Hd. specialize (IH (pre ++ [c]) best' d' Hb).
    rewrite length_app in IH. simpl in IH.
    replace (length pre + 1)%nat with (S (length pre)) in IH by lia.
    rewrite <- app_assoc in IH. simpl in IH.
    destruct IH as (d'' & H1 & H2). exists d''. split; [done|].
    intros Hn. specialize (H2 Hn). subst d''. apply Hd.
    destruct best' as [j|]; [|done].
    clear -Hn. exfalso. revert Hn. generalize (S (length pre)), j, d'.
    induction l as [|x l IHl]; intros i j0 d0; simpl; [done|].
    destruct (_ && _); apply IHl. }
  destruct (fits sz c && (size c - sz <? d)) eqn:Hc.
  - apply andb_true_iff in Hc as [Hfit Hlt]. apply Z.ltb_lt in Hlt.
    apply Hnext; [|done].
    exists c. split; [by rewrite lookup_app_r, Nat.sub_diag by lia|].
    split; [done|]. split; [done|].
    intros k c0 [[Hk Hc0]|[-> ->]]%lookup_snoc_cases Hfit0.
    + assert (d ≤ size c0 - sz); [|lia].
      destruct best as [j|].
      * destruct Hpre as (b & _ & _ & _ & Hall).
        by destruct (Hall k c0 Hc0 Hfit0).
      * by apply (Hpre k c0).
    + split; [lia|lia].
  - apply Hnext; [|done].
    assert (fits sz c = true → d ≤ size c - sz) as Hkeep.
    { intros Hfit. rewrite Hfit in Hc. simpl in Hc.
      by apply Z.ltb_ge in Hc. }
    destruct best as [j|].
    + destruct Hpre as (b & Hb & Hfb & Hd & Hall).
      exists b. split; [by apply lookup_app_l_Some|].
      split; [done|]. split; [done|].
      intros k c0 [[Hk Hc0]|[-> ->]]%lookup_snoc_cases Hfit0.
      * by apply Hall.
      * split; [by apply Hkeep|].
        pose proof (lookup_lt_Some _ _ _ Hb). lia.
    + intros k c0 [[Hk Hc0]|[-> ->]]%lookup_snoc_cases Hfit0.
      * by apply (Hpre k c0).
      * by apply Hkeep.
Qed.

Lemma worst_from_spec l sz pre worst mx :
  worst_so_far sz pre worst mx →
  ∃ mx', worst_so_far sz (pre ++ l)
           (findBlockWorstFit_from (length pre) l sz worst mx) mx'
         ∧ (findBlockWorstFit_from (length pre) l sz worst mx = None →
            mx' = mx).
Proof.
  revert pre worst mx.
  induction l as [|c l IH]; intros pre worst mx Hpre; simpl.
  { rewrite app_nil_r. eauto. }
  assert (∀ worst' mx',
    worst_so_far sz (pre ++ [c]) worst' mx' →
    (worst' = None → mx' = mx) →
    ∃ mx'', worst_so_far sz (pre ++ c :: l)
              (findBlockWorstFit_from (S (length pre)) l sz worst' mx') mx''
            ∧ (findBlockWorstFit_from (S (length pre)) l sz worst' mx' = None
               → mx'' = mx)) as Hnext.
  { intros worst' mx' Hb Hd. specialize (IH (pre ++ [c]) worst' mx' Hb).
    rewrite length_app in IH. simpl in IH.
    replace (length pre + 1)%nat with (S (length pre)) in IH by lia.
    rewrite <- app_assoc in IH. simpl in IH.
    destruct IH as (d'' & H1 & H2). exists d''. split; [done|].
    intros Hn. specialize (H2 Hn). subst d''. apply Hd.
    destruct worst' as [j|]; [|done].
    clear -Hn. exfalso. revert Hn. generalize (S (length pre)), j, mx'.
    induction l as [|x l IHl]; intros i j0 d0; simpl; [done|].
    destruct (_ && _); apply IHl. }
  destruct (fits sz c && (mx <? size c)) eqn:Hc.
  - apply andb_true_iff in Hc as [Hfit Hlt]. apply Z.ltb_lt in Hlt.
    apply Hnext; [|done].
    exists c. split; [by rewrite lookup_app_r, Nat.sub_diag by lia|].
    split; [done|]. split; [done|].
    intros k c0 [[Hk Hc0]|[-> ->]]%lookup_snoc_cases Hfit0.
    + assert (size c0 ≤ mx); [|lia].
      destruct worst as [j|].
      * destruct Hpre as (b & _ & _ & _ & Hall).
        by destruct (Hall k c0 Hc0 Hfit0).
      * by apply (Hpre k c0).
    + split; [lia|lia].
  - apply Hnext; [|done].
    assert (fits sz c = true → size c ≤ mx) as Hkeep.
    { intros Hfit. rewrite Hfit in Hc. simpl in Hc.
      by apply Z.ltb_ge in Hc. }
    destruct worst as [j|].
    + destruct Hpre as (b & Hb & Hfb & Hd & Hall).
      exists b. split; [by apply lookup_app_l_Some|].
      split; [done|]. split; [done|].
      intros k c0 [[Hk Hc0]|[-> ->]]%lookup_snoc_cases Hfit0.
      * by apply Hall.
      * split; [by apply Hkeep|].
        pose proof (lookup_lt_Some _ _ _ Hb). lia.
    + intros k c0 [[Hk Hc0]|[-> ->]]%lookup_snoc_cases Hfit0.
      * by apply (Hpre k c0).
      * by apply Hkeep.
Qed.

(** X18.  The three placement strategies.  For a request of [sz > 0] bytes
    on a manager whose blocks are no larger than [total_memory], itself
    below 2^64 - 1: the strategy finds no block exactly when no free block
    has [sz] bytes; otherwise first fit returns the first free block that
    fits, best fit the first among the smallest that fit, worst fit the
    first among the largest that fit. *)
Theorem placement_strategies_choose_as_named (m : t) (sz : Z) :
  0 < sz → total_memory m + 1 < 2 ^ 64 → 0 ≤ total_memory m →
  Forall (λ b, size b ≤ total_memory m) (head m) →
  match find_block m sz with
  | None => ∀ k c, head m !! k = Some c → fits sz c = false
  | Some j =>
      ∃ b, head m !! j = Some b ∧ fits sz b = true
           ∧ ∀ k c, head m !! k = Some c → fits sz c = true →
               match strategy m with
               | FIRST_FIT => (j ≤ k)%nat
               | BEST_FIT =>
                   size b ≤ size c ∧ ((k < j)%nat → size b < size c)
               | WORST_FIT =>
                   size c ≤ size b ∧ ((k < j)%nat → size c < size b)
               end
  end.
Proof.
  intros Hsz Htot Htot0 Hsizes. unfold find_block.
  destruct (strategy m).
  - unfold findBlockFirstFit. apply (first_from_spec (head m) sz []). done.
  - unfold findBlockBestFit.
    destruct (best_from_spec (head m) sz [] None
                (wrap64 (total_memory m + 1))) as (d' & Hb & Hd); [done|].
    simpl in Hb, Hd.
    destruct (findBlockBestFit_from 0 (head m) sz None _) as [j|].
    + destruct Hb as (b & Hj & Hfit & -> & Hall). exists b.
      split; [done|]. split; [done|]. intros k c Hk Hc.
      destruct (Hall k c Hk Hc). split; lia.
    + rewrite Hd in Hb by done. intros k c Hk.
      destruct (fits sz c) eqn:Hc; [|done]. specialize (Hb k c Hk Hc).
      rewrite Forall_forall in Hsizes.
      pose proof (Hsizes c (list_elem_of_lookup_2 _ _ _ Hk)).
      unfold wrap64 in Hb. rewrite Z.mod_small in Hb by lia. lia.
  - unfold findBlockWorstFit.
    destruct (worst_from_spec (head m) sz [] None 0) as (d' & Hb & Hd);
      [done|].
    simpl in Hb, Hd.
    destruct (findBlockWorstFit_from 0 (head m) sz None 0) as [j|].
    + destruct Hb as (b & Hj & Hfit & -> & Hall). exists b.
      split; [done|]. split; [done|]. intros k c Hk Hc.
      destruct (Hall k c Hk Hc). split; lia.
    + rewrite Hd in Hb by done. intros k c Hk.
      destruct (fits sz c) eqn:Hc; [|done]. specialize (Hb k c Hk Hc).
      unfold fits in Hc. apply andb_true_iff in Hc as [_ Hc].
      apply Z.leb_le in Hc. lia.
Qed.

Lemma placement_strategies_choose_as_named_witness :
  let m := run (new 100)
             [Allocate 30; Allocate 10; Allocate 20; Deallocate 1;
              SetStrategy BEST_FIT] in
  match find_block m 25 with
  | None => ∀ k c, head m !! k = Some c → fits 25 c = false
  | Some j =>
      ∃ b, head m !! j = Some b ∧ fits 25 b = true
           ∧ ∀ k c, head m !! k = Some c → fits 25 c = true →
               match strategy m with
               | FIRST_FIT => (j ≤ k)%nat
               | BEST_FIT =>
                   size b ≤ size c ∧ ((k < j)%nat → size b < size c)
               | WORST_FIT =>
                   size c ≤ size b ∧ ((k < j)%nat → size c < size b)
               end
  end.
Proof.
  intros m. apply (placement_strategies_choose_as_named m 25);
    [lia | by vm_compute | by vm_compute |].
  vm_compute. repeat constructor; discriminate.
Defined.

End Placement.

Module Usage.
Import MemoryManager MemoryManagerStats MemoryManagerSpec UsageSpec
  PlacementSpec MemoryManagerProofs Placement.

Lemma step_counters m o :
  let m' := step m o in
  match o with
  | Allocate _ =>
      allocation_attempts m' = allocation_attempts m + 1
      ∧ ((allocation_successes m' = allocation_successes m + 1
          ∧ allocation_failures m' = allocation_failures m
          ∧ next_block_id m' = next_block_id m + 1)
         ∨ (allocation_successes m' = allocation_successes m
            ∧ allocation_failures m' = allocation_failures m + 1
            ∧ next_block_id m' = next_block_id m))
  | _ =>
      allocation_attempts m' = allocation_attempts m
      ∧ allocation_successes m' = allocation_successes m
      ∧ allocation_failures m' = allocation_failures m
      ∧ next_block_id m' = next_block_id m
  end.
Proof.
  destruct o; simpl.
  - rewrite allocate_unfold. cbv zeta.
    destruct (sz =? 0); [split; [done|by right]|].
    destruct (find_block m sz); simpl; (split; [done|]); [by left|by right].
  - unfold deallocate. by destruct (release id (head m)).
  - done.
Qed.

(** X19.  Allocation statistics.  In a manager built by the constructor,
    after any sequence of operations, every allocation attempt was counted
    as exactly one success or failure, the ids handed out are 1, 2, ... in
    order of success, so that [next_block_id] is one more than the number
    of successes. *)
Theorem allocation_attempts_split_into_successes_and_failures
    (sz : Z) (ops : list op) :
  let m := run (new sz) ops in
  getAllocationAttempts m
  = getAllocationSuccesses m + getAllocationFailures m
  ∧ next_block_id m = 1 + getAllocationSuccesses m
  ∧ 0 ≤ getAllocationSuccesses m ∧ 0 ≤ getAllocationFailures m.
Proof.
  unfold getAllocationAttempts, getAllocationSuccesses,
    getAllocationFailures.
  assert (∀ ops m,
    allocation_attempts m = allocation_successes m + allocation_failures m →
    next_block_id m = 1 + allocation_successes m →
    0 ≤ allocation_successes m → 0 ≤ allocation_failures m →
    allocation_attempts (run m ops)
    = allocation_successes (run m ops) + allocation_failures (run m ops)
    ∧ next_block_id (run m ops) = 1 + allocation_successes (run m ops)
    ∧ 0 ≤ allocation_successes (run m ops)
    ∧ 0 ≤ allocation_failures (run m ops)) as H.
  { clear. induction ops as [|o ops IH]; intros m H1 H2 H3 H4; [done|].
    unfold run. cbn [fold_left]. pose proof (step_counters m o) as Hs.
    cbv zeta in Hs. apply IH; destruct o; lia. }
  apply H; simpl; lia.
Qed.

Lemma find_block_None m sz :
  0 < sz → total_memory m + 1 < 2 ^ 64 → 0 ≤ total_memory m →
  Forall (λ b, size b ≤ total_memory m) (head m) →
  find_block m sz = None →
  ∀ k c, head m !! k = Some c → fits sz c = false.
Proof.
  intros Hsz Htot Htot0 Hsizes. unfold find_block.
  destruct (strategy m).
  - unfold findBlockFirstFit. intros Hn.
    pose proof (first_from_spec (head m) sz [] ltac:(done)) as H.
    simpl in H. by rewrite Hn in H.
  - unfold findBlockBestFit. intros Hn.
    destruct (best_from_spec (head m) sz [] None
                (wrap64 (total_memory m + 1))) as (d' & Hb & Hd); [done|].
    simpl in Hb, Hd. rewrite Hn in Hb, Hd. rewrite Hd in Hb by done.
    intros k c Hk.
    destruct (fits sz c) eqn:Hc; [|done]. specialize (Hb k c Hk Hc).
    rewrite Forall_forall in Hsizes.
    pose proof (Hsizes c (list_elem_of_lookup_2 _ _ _ Hk)).
    unfold wrap64 in Hb. rewrite Z.mod_small in Hb by lia. lia.
  - unfold findBlockWorstFit. intros Hn.
    destruct (worst_from_spec (head m) sz [] None 0) as (d' & Hb & Hd);
      [done|].
    simpl in Hb, Hd. rewrite Hn in Hb, Hd. rewrite Hd in Hb by done.
    intros k c Hk.
    destruct (fits sz c) eqn:Hc; [|done]. specialize (Hb k c Hk Hc).
    unfold fits in Hc. apply andb_true_iff in Hc as [_ Hc].
    apply Z.leb_le in Hc. lia.
Qed.

Lemma placed_head b sz id :
  ∃ tl, placed b sz id
        = {| start_address := start_address b;
             size := if sz <? size b then sz else size b;
             is_allocated := true; block_id := id |} :: tl.
Proof.
  unfold placed, splitBlock. destruct (sz <? size b); simpl; eauto.
Qed.

(** X20.  When allocation fails.  For a request of [sz] bytes on a manager
    whose blocks are no larger than [total_memory], itself below
    2^64 - 1, and whose next id is positive: [allocate] returns -1 exactly
    when [sz] is zero or no free block has [sz] bytes, and then the block
    list and the next id are unchanged; otherwise it returns the next id,
    and the list holds an allocated block with that id and exactly [sz]
    bytes at the start of the chosen free block. *)
Theorem allocate_fails_only_without_room (m : t) (sz : Z) :
  0 ≤ sz → total_memory m + 1 < 2 ^ 64 → 0 ≤ total_memory m →
  Forall (λ b, size b ≤ total_memory m) (head m) →
  0 < next_block_id m →
  let r := allocate m sz in
  (r.2 = -1 ↔ sz = 0 ∨ ∀ k c, head m !! k = Some c → fits sz c = false)
  ∧ (r.2 = -1 → head r.1 = head m ∧ next_block_id r.1 = next_block_id m)
  ∧ (r.2 ≠ -1 →
     r.2 = next_block_id m ∧ next_block_id r.1 = next_block_id m + 1
     ∧ ∃ i b, head m !! i = Some b ∧ fits sz b = true
              ∧ head r.1
                = take i (head m) ++ placed b sz r.2 ++ drop (S i) (head m)
              ∧ {| start_address := start_address b; size := sz;
                   is_allocated := true; block_id := r.2 |} ∈ head r.1).
Proof.
  intros Hsz Htot Htot0 Hsizes Hid. cbv zeta. rewrite allocate_unfold.
  cbv zeta. destruct (Z.eqb_spec sz 0) as [->|Hnz]; cbn [fst snd].
  { split; [by split; [left|]|]. split; [done|]. done. }
  destruct (find_block m sz) as [i|] eqn:Hfind; cbn [fst snd].
  - destruct (find_block_fits _ _ _ Hfind) as (b & Hb & Hfit).
    split; [|split; [lia|]].
    + split; [lia|]. intros [?|Hno]; [done|].
      rewrite (Hno i b Hb) in Hfit. done.
    + intros _. split; [done|]. split; [done|].
      exists i, b. split; [done|]. split; [done|].
      cbn [head set_next_block_id set_allocation_successes set_head].
      unfold split_and_mark. rewrite Hb. fold (placed b sz (next_block_id m)).
      split; [done|].
      destruct (placed_head b sz (next_block_id m)) as [tl ->].
      apply elem_of_app. right. apply elem_of_app. left.
      assert ((if sz <? size b then sz else size b) = sz) as ->.
      { unfold fits in Hfit. apply andb_true_iff in Hfit as [_ Hle].
        apply Z.leb_le in Hle. destruct (Z.ltb_spec sz (size b)); lia. }
      left.
  - split; [|split; [done|done]].
    split; [|done]. intros _. right.
    apply find_block_None; try done. lia.
Qed.

Lemma allocate_fails_only_without_room_witness :
  (allocate (new 100) 30).2 ≠ -1
  ∧ (allocate (new 100) 200).2 = -1.
Proof.
  assert (Forall (λ b, size b ≤ total_memory (new 100)) (head (new 100)))
    as Hs by (by repeat constructor).
  destruct (allocate_fails_only_without_room (new 100) 30)
    as (H1 & _); [lia|by vm_compute|by vm_compute|done|by vm_compute|].
  destruct (allocate_fails_only_without_room (new 100) 200)
    as (H2 & _); [lia|by vm_compute|by vm_compute|done|by vm_compute|].
  split.
  - intros E. apply H1 in E as [?|Hno]; [done|].
    specialize (Hno 0%nat _ eq_refl). by vm_compute in Hno.
  - apply H2. right. intros [|k] c Hk; [|done].
    injection Hk as <-. by vm_compute.
Defined.

End Usage.

Module RoundTrip.
Import MemoryManager MemoryManagerStats MemoryManagerSpec UsageSpec
  PlacementSpec RoundTripSpec MemoryManagerProofs Placement Usage.

(** *** Used and free bytes *)

Lemma total_size_bytes l :
  total_size l = bytes is_allocated l + bytes is_free l.
Proof.
  induction l as [|b l IH]; simpl; [done|]. rewrite IH. unfold is_free.
  destruct (is_allocated b); simpl; lia.
Qed.

Lemma bytes_nonneg p l : Forall (λ b, 0 ≤ size b) l → 0 ≤ bytes p l.
Proof. induction 1 as [|b l Hb _ IH]; simpl; [done|]. destruct (p b); lia. Qed.

Lemma used_fold l acc :
  Forall (λ b, 0 ≤ size b) l → 0 ≤ acc →
  acc + bytes is_allocated l < 2 ^ 64 →
  fold_left (λ used b, if is_allocated b then wrap64 (used + size b)
                       else used) l acc
  = acc + bytes is_allocated l.
Proof.
  intros Hl. revert acc. induction Hl as [|b l Hb Hl IH]; intros acc Ha Hlt.
  { simpl. lia. }
  simpl in *. pose proof (bytes_nonneg is_allocated l Hl).
  destruct (is_allocated b).
  - unfold wrap64. rewrite Z.mod_small by lia. rewrite IH; lia.
  - rewrite IH; lia.
Qed.

Lemma free_count l acc :
  fold_left (λ count b, if is_allocated b then count else count + 1) l acc
  = acc + Z.of_nat (length (filter (λ b, is_allocated b = false) l)).
Proof.
  revert acc. induction l as [|b l IH]; intros acc; simpl; [lia|].
  rewrite IH. rewrite filter_cons.
  destruct (is_allocated b); repeat case_decide; try done; simpl; lia.
Qed.

Lemma free_between_allocated l :
  no_adjacent_free l = true →
  Z.of_nat (length (filter (λ b, is_allocated b = false) l))
  ≤ Z.of_nat (length (filter (λ b, is_allocated b = true) l))
    + (if head_free l then 1 else 0).
Proof.
  induction l as [|a l IH]; simpl; [done|].
  intros [H1 H2]%andb_true_iff. specialize (IH H2).
  rewrite !filter_cons.
  destruct (is_allocated a) eqn:Ha; repeat case_decide; try done;
    simpl in *; destruct (head_free l); try done; lia.
Qed.

(** X21.  Used and free memory.  In a manager built over [sz < 2^64] bytes,
    after any sequence of operations with [size_t] requests:
    [getUsedMemory] is the sum of the allocated block sizes, without
    wrap-around, [getFreeMemory] is the sum of the free block sizes, the
    two add up to the arena, and since no two neighbours are both free
    the free blocks number at most one more than the allocated ones. *)
Theorem used_and_free_memory_add_up (sz : Z) (ops : list op) :
  0 ≤ sz < 2 ^ 64 → Forall op_in_range ops →
  let m := run (new sz) ops in
  getUsedMemory m = bytes is_allocated (head m)
  ∧ getFreeMemory m = bytes is_free (head m)
  ∧ getUsedMemory m + getFreeMemory m = sz
  ∧ 0 ≤ getUsedMemory m ∧ 0 ≤ getFreeMemory m
  ∧ countFreeBlocks m
    ≤ Z.of_nat (length (filter (λ b, is_allocated b = true) (head m))) + 1.
Proof.
  intros Hsz Hops m.
  pose proof (layout_inv_run ops _ Hops (layout_inv_new sz Hsz))
    as [Hb Hp Ht Htl Hc].
  fold m in Hb, Hp, Ht, Htl, Hc.
  assert (total_memory m = sz) as Htm by apply total_memory_run.
  pose proof (total_size_bytes (head m)) as Hsum.
  pose proof (bytes_nonneg is_allocated _ Hp).
  pose proof (bytes_nonneg is_free _ Hp).
  assert (getUsedMemory m = bytes is_allocated (head m)) as Hu.
  { unfold getUsedMemory. rewrite used_fold; try done; lia. }
  assert (getFreeMemory m = bytes is_free (head m)) as Hf.
  { unfold getFreeMemory. rewrite Hu. unfold wrap64.
    rewrite Z.mod_small; lia. }
  split; [done|]. split; [done|]. rewrite Hu, Hf.
  split; [lia|]. split; [done|]. split; [done|].
  unfold countFreeBlocks. rewrite free_count.
  pose proof (free_between_allocated (head m) Hc).
  destruct (head_free (head m)); lia.
Qed.

Lemma used_and_free_memory_add_up_witness :
  let m := run (new 1024) [Allocate 100; Allocate 200; Deallocate 1] in
  getUsedMemory m + getFreeMemory m = 1024.
Proof.
  intros m.
  apply (used_and_free_memory_add_up 1024
           [Allocate 100; Allocate 200; Deallocate 1]).
  - lia.
  - repeat (apply Forall_cons; split; [simpl; try lia; done|]). done.
Defined.

End RoundTrip.

Module Undo.
Import MemoryManager MemoryManagerStats MemoryManagerSpec UsageSpec
  PlacementSpec RoundTripSpec MemoryManagerProofs Placement Usage RoundTrip.

(** *** Free blocks carry no id *)

Lemma free_unnamed_coalesce_from cur rest :
  free_unnamed (cur :: rest) → free_unnamed (coalesce_from cur rest).
Proof.
  revert cur. induction rest as [|nxt rest IH]; intros cur H; [done|].
  cbn [coalesce_from]. apply Forall_cons in H as [Hc H].
  pose proof H as H'. apply Forall_cons in H' as [Hn Hrest].
  destruct (negb (is_allocated cur) && negb (is_allocated nxt)).
  - apply IH. apply Forall_cons. by split.
  - apply Forall_cons. split; [done|]. by apply IH.
Qed.

Lemma free_unnamed_release id l l' :
  release id l = Some l' → free_unnamed l → free_unnamed l'.
Proof.
  revert l'. induction l as [|c l IH]; intros l'; simpl; [done|].
  destruct (is_allocated c && (block_id c =? id)).
  - intros [= <-] [_ H]%Forall_cons. apply Forall_cons. by split.
  - destruct (release id l) as [r|]; simpl; [|done].
    intros [= <-] [Hc H]%Forall_cons. apply Forall_cons. split; [done|].
    by apply IH.
Qed.

Lemma free_unnamed_placed b sz id : free_unnamed (placed b sz id).
Proof.
  unfold placed, splitBlock.
  destruct (sz <? size b); repeat (apply Forall_cons; split; [done|]); done.
Qed.

Lemma free_unnamed_step m o :
  free_unnamed (head m) → free_unnamed (head (step m o)).
Proof.
  intros H. destruct o as [sz|id|s]; simpl; [| |done].
  - destruct (head_allocate m sz) as [E|(i & b & Hi & Hfit & Hnz & E & _)].
    + by rewrite E.
    + rewrite E, (split_and_mark_middle _ _ _ _ _ Hi).
      rewrite <- (take_drop_middle (head m) i b Hi) in H.
      apply Forall_app in H as [H1 H2]. apply Forall_cons in H2 as [_ H2].
      apply Forall_app. split; [done|]. apply Forall_app. split; [|done].
      apply free_unnamed_placed.
  - unfold deallocate. destruct (release id (head m)) as [l|] eqn:Hr; [|done].
    simpl. pose proof (free_unnamed_release _ _ _ Hr H) as Hl.
    destruct l; [done|]. by apply free_unnamed_coalesce_from.
Qed.

Lemma free_unnamed_run ops m :
  free_unnamed (head m) → free_unnamed (head (run m ops)).
Proof.
  revert m. induction ops as [|o ops IH]; intros m Hm; [done|].
  apply IH. by apply free_unnamed_step.
Qed.

(** *** Coalescing a list that differs from a coalesced one at one place *)

Lemma no_adjacent_free_flags l l' :
  is_allocated <$> l = is_allocated <$> l' →
  no_adjacent_free l = no_adjacent_free l'.
Proof.
  revert l'. induction l as [|a l IH]; intros [|a' l']; try done.
  rewrite !fmap_cons. intros [= Ha Hl]. simpl. rewrite (IH l' Hl), Ha.
  destruct l as [|b l], l' as [|b' l']; try done.
  rewrite !fmap_cons in Hl. injection Hl as Hb _. simpl. by rewrite Hb.
Qed.

Lemma no_adjacent_free_app l1 l2 :
  no_adjacent_free (l1 ++ l2) = true →
  no_adjacent_free l1 = true ∧ no_adjacent_free l2 = true.
Proof.
  induction l1 as [|a l1 IH]; simpl; [done|].
  intros [H1 H2]%andb_true_iff. destruct (IH H2) as [I1 I2].
  split; [|done]. rewrite I1, andb_true_r.
  destruct l1 as [|b l1]; simpl in *; [by rewrite andb_false_r|done].
Qed.

Lemma coalesce_from_id cur rest :
  no_adjacent_free (cur :: rest) = true → coalesce_from cur rest = cur :: rest.
Proof.
  revert cur. induction rest as [|nxt rest IH]; intros cur; [done|].
  intros H. cbn [coalesce_from]. simpl in H.
  apply andb_true_iff in H as [H1 H2]. apply negb_true_iff in H1.
  rewrite H1. f_equal. by apply IH.
Qed.

Lemma coalesce_from_prefix cur rest1 x rest :
  no_adjacent_free (cur :: rest1 ++ [x]) = true →
  coalesce_from cur (rest1 ++ x :: rest)
  = cur :: rest1 ++ coalesce_from x rest.
Proof.
  revert cur. induction rest1 as [|y r IH]; intros cur H.
  - simpl in *. rewrite andb_true_r in H.
    apply andb_true_iff in H as [H _]. apply negb_true_iff in H.
    by rewrite H.
  - simpl in H. apply andb_true_iff in H as [H1 H2].
    apply negb_true_iff in H1. cbn [app coalesce_from]. rewrite H1.
    f_equal. by apply IH.
Qed.

Lemma coalesceBlocks_at l1 x rest :
  no_adjacent_free (l1 ++ [x]) = true →
  coalesceBlocks (l1 ++ x :: rest) = l1 ++ coalesce_from x rest.
Proof.
  destruct l1 as [|cur rest1]; [done|]. apply coalesce_from_prefix.
Qed.

Lemma release_skip id l1 l :
  id ∉ live_ids l1 → release id (l1 ++ l) = (l1 ++.) <$> release id l.
Proof.
  induction l1 as [|c l1 IH]; intros Hid; simpl.
  { by destruct (release id l). }
  simpl in Hid. destruct (is_allocated c) eqn:Hc; simpl.
  - apply not_elem_of_cons in Hid as [Hne Hid].
    destruct (Z.eqb_spec (block_id c) id); [done|].
    rewrite IH by done. by destruct (release id l).
  - rewrite IH by done. by destruct (release id l).
Qed.

(** X22.  Allocate, then free.  In a manager built over [sz0 < 2^64] bytes,
    after any sequence of operations with [size_t] requests, a successful
    allocation followed by the deallocation of the id it returned
    succeeds and leaves the block list exactly as it was before the
    allocation. *)
Theorem allocate_then_deallocate_restores_the_blocks
    (sz0 : Z) (ops : list op) (sz : Z) :
  0 ≤ sz0 < 2 ^ 64 → Forall op_in_range ops → 0 ≤ sz < 2 ^ 64 →
  let m := run (new sz0) ops in
  let r := allocate m sz in
  r.2 ≠ -1 →
  (deallocate r.1 r.2).2 = true ∧ head (deallocate r.1 r.2).1 = head m.
Proof.
  intros Hsz0 Hops Hsz m r Hok.
  pose proof (layout_inv_run ops _ Hops (layout_inv_new sz0 Hsz0))
    as [Hb Hp Ht Htl Hc].
  pose proof (ids_inv_run ops _ (ids_inv_new sz0)) as [Hnd Hlt].
  assert (free_unnamed (head m)) as Hfu.
  { apply free_unnamed_run. by repeat constructor. }
  fold m in Hb, Hp, Ht, Htl, Hc, Hnd, Hlt.
  subst r. revert Hok. rewrite allocate_unfold. cbv zeta.
  destruct (Z.eqb_spec sz 0) as [->|Hnz]; [done|].
  destruct (find_block m sz) as [i|] eqn:Hfind; [|done].
  intros _. cbn [fst snd].
  destruct (find_block_fits _ _ _ Hfind) as (b & Hi & Hfit).
  unfold fits in Hfit. apply andb_true_iff in Hfit as [Hfree Hle].
  apply negb_true_iff in Hfree. apply Z.leb_le in Hle.
  unfold deallocate.
  cbn [head set_next_block_id set_allocation_successes set_head].
  rewrite (split_and_mark_middle _ _ _ _ _ Hi).
  set (l1 := take i (head m)). set (l2 := drop (S i) (head m)).
  assert (head m = l1 ++ b :: l2) as Hm.
  { symmetry. apply take_drop_middle. done. }
  (* facts about the neighbourhood of [b] *)
  rewrite Hm in Hp, Hc, Hfu, Hlt, Ht.
  rewrite live_ids_app in Hlt. apply Forall_app in Hlt as [Hlt1 _].
  assert (next_block_id m ∉ live_ids l1) as Hfresh.
  { intros Hin. rewrite Forall_forall in Hlt1. specialize (Hlt1 _ Hin). lia. }
  apply Forall_app in Hp as [Hp1 Hp2]. apply Forall_cons in Hp2 as [Hpb Hp2].
  apply Forall_app in Hfu as [_ Hfu2]. apply Forall_cons in Hfu2 as [Hidb _].
  specialize (Hidb Hfree).
  rewrite total_size_app in Ht. simpl in Ht.
  pose proof (total_size_nonneg _ Hp1). pose proof (total_size_nonneg _ Hp2).
  assert (no_adjacent_free (l1 ++ [b]) = true ∧ no_adjacent_free (b :: l2) = true)
    as [Hc1 Hc2].
  { split.
    - replace (l1 ++ b :: l2) with ((l1 ++ [b]) ++ l2) in Hc
        by (by rewrite <- app_assoc).
      by apply no_adjacent_free_app in Hc as [? _].
    - by apply no_adjacent_free_app in Hc as [_ ?]. }
  rewrite release_skip by done.
  unfold placed, splitBlock.
  destruct (Z.ltb_spec sz (size b)) as [Hlt|Hge].
  - (* the block was split *)
    cbn [app release mark_allocated is_allocated block_id andb].
    rewrite Z.eqb_refl. cbn [fmap option_fmap option_map].
    cbn [start_address size fst snd head set_head].
    split; [done|].
    rewrite coalesceBlocks_at.
    2:{ rewrite <- Hc1. apply no_adjacent_free_flags.
        rewrite !fmap_app. simpl. by rewrite Hfree. }
    cbn [coalesce_from is_allocated negb andb start_address size block_id].
    rewrite coalesce_from_id.
    2:{ rewrite <- Hc2. apply no_adjacent_free_flags. simpl.
        by rewrite Hfree. }
    rewrite Hm. f_equal. f_equal. destruct b as [sa sb ab ib].
    simpl in *. subst ab ib. f_equal.
    unfold wrap64. rewrite Z.mod_small; lia.
  - (* the block was taken whole *)
    cbn [app release mark_allocated is_allocated block_id andb].
    rewrite Z.eqb_refl. cbn [fmap option_fmap option_map].
    cbn [start_address size fst snd head set_head].
    split; [done|].
    rewrite coalesceBlocks_at.
    2:{ rewrite <- Hc1. apply no_adjacent_free_flags.
        rewrite !fmap_app. simpl. by rewrite Hfree. }
    rewrite coalesce_from_id.
    2:{ rewrite <- Hc2. apply no_adjacent_free_flags. simpl.
        by rewrite Hfree. }
    rewrite Hm. f_equal. f_equal. destruct b as [sa sb ab ib].
    simpl in *. by subst ab ib.
Qed.

Lemma allocate_then_deallocate_restores_the_blocks_witness :
  let m := run (new 1024) [Allocate 100; Allocate 200; Deallocate 1] in
  head (deallocate (allocate m 50).1 (allocate m 50).2).1 = head m.
Proof.
  intros m.
  apply (allocate_then_deallocate_restores_the_blocks 1024
           [Allocate 100; Allocate 200; Deallocate 1] 50).
  - lia.
  - repeat (apply Forall_cons; split; [simpl; try lia; done|]). done.
  - lia.
  - by vm_compute.
Defined.

End Undo.

(** ** More properties: buddy allocator *)

Module Rounding.
Import BuddyAllocator BuddySpec BuddyProofs.

Lemma halve_loop_pow2 steps n ord :
  0 ≤ n → (Z.to_nat n ≤ steps)%nat → halve_loop steps (2 ^ n) ord = ord + n.
Proof.
  revert n ord. induction steps as [|steps IH]; intros n ord Hn Hsteps.
  { simpl. assert (n = 0) by lia. lia. }
  simpl. destruct (Z.ltb_spec 1 (2 ^ n)) as [Hlt|Hge].
  - assert (0 < n).
    { destruct (Z.eq_dec n 0) as [->|]; [simpl in Hlt; lia|lia]. }
    replace (2 ^ n / 2) with (2 ^ (n - 1)).
    + rewrite IH by lia. lia.
    + replace n with (1 + (n - 1)) at 2 by lia.
      rewrite Z.pow_add_r by lia. rewrite Z.mul_comm, Z.div_mul; lia.
  - assert (n = 0); [|lia].
    destruct (Z.eq_dec n 0) as [->|]; [done|].
    assert (2 ^ 1 ≤ 2 ^ n) by (apply Z.pow_le_mono_r; lia). lia.
Qed.

Lemma double_loop_spec steps j a sz :
  0 ≤ j ≤ a → a ≤ 63 → sz ≤ 2 ^ a → (Z.to_nat (a - j) ≤ steps)%nat →
  ∃ j', j ≤ j' ≤ a ∧ double_loop steps (2 ^ j) sz = Some (2 ^ j')
        ∧ sz ≤ 2 ^ j' ∧ (j < j' → 2 ^ (j' - 1) < sz).
Proof.
  revert j. induction steps as [|steps IH]; intros j Hj Ha Hsz Hsteps.
  - simpl. assert (j = a) as -> by lia.
    destruct (Z.ltb_spec (2 ^ a) sz); [lia|].
    exists a. split_and!; try done; lia.
  - simpl. destruct (Z.ltb_spec (2 ^ j) sz) as [Hlt|Hge].
    + assert (j < a).
      { destruct (Z.eq_dec j a) as [->|]; lia. }
      assert (wrap64 (2 ^ j * 2) = 2 ^ (j + 1)) as ->.
      { rewrite Z.pow_add_r by lia. unfold wrap64. apply Z.mod_small.
        assert (2 ^ (j + 1) ≤ 2 ^ 63) by (apply Z.pow_le_mono_r; lia).
        rewrite Z.pow_add_r in * by lia. lia. }
      destruct (IH (j + 1)) as (j' & Hj' & E & H1 & H2); try lia.
      exists j'. split; [lia|]. split; [done|]. split; [done|].
      intros _. destruct (Z.eq_dec j' (j + 1)) as [->|].
      * by replace (j + 1 - 1) with j by lia.
      * apply H2. lia.
    + exists j. split_and!; try done; lia.
Qed.

Lemma to_int_pow2 k : 0 ≤ k ≤ 30 → to_int (2 ^ k) = 2 ^ k.
Proof.
  intros Hk. assert (2 ^ k ≤ 2 ^ 30) by (apply Z.pow_le_mono_r; lia).
  unfold to_int. rewrite Z.mod_small; lia.
Qed.

(** [getBlockSize] where the shift of an [int] is exact, and at order 31,
    where [1 << 31] is negative. *)
Lemma getBlockSize_exact s b k :
  min_block_size s = 2 ^ b → 0 ≤ b → 0 ≤ k ≤ 30 → b + k ≤ 63 →
  getBlockSize s k = 2 ^ (b + k).
Proof.
  intros Hm Hb Hk Hbk. unfold getBlockSize.
  rewrite Hm, Z.shiftl_1_l, to_int_pow2, <- Z.pow_add_r by lia.
  unfold wrap64. apply Z.mod_small.
  assert (2 ^ (b + k) ≤ 2 ^ 63) by (apply Z.pow_le_mono_r; lia). lia.
Qed.

Lemma getBlockSize_31 s b :
  min_block_size s = 2 ^ b → 0 ≤ b → b + 31 ≤ 63 →
  getBlockSize s 31 = 2 ^ 64 - 2 ^ (b + 31).
Proof.
  intros Hm Hb Hbk. unfold getBlockSize. rewrite Hm.
  change (to_int (Z.shiftl 1 31)) with (- 2 ^ 31).
  rewrite Z.mul_opp_r, <- Z.pow_add_r by lia.
  assert (2 ^ (b + 31) ≤ 2 ^ 63) by (apply Z.pow_le_mono_r; lia).
  unfold wrap64.
  replace (- 2 ^ (b + 31)) with (2 ^ 64 - 2 ^ (b + 31) + (-1) * 2 ^ 64)
    by lia.
  rewrite Z.mod_add by lia. apply Z.mod_small. lia.
Qed.

Lemma rounded_request
    (s : t) (a b requested : Z) :
  0 ≤ b ≤ a → a ≤ 63 →
  total_memory s = 2 ^ a → min_block_size s = 2 ^ b →
  0 ≤ requested ≤ total_memory s →
  ∃ j, b ≤ j ≤ a
       ∧ nextPowerOfTwo s requested = Some (2 ^ j)
       ∧ requested ≤ 2 ^ j
       ∧ (b < j → 2 ^ (j - 1) < requested)
       ∧ getOrder s (2 ^ j) = j - b
       ∧ (j - b ≤ 30 → getBlockSize s (j - b) = 2 ^ j)
       ∧ (j - b = 31 → getBlockSize s (j - b) = 2 ^ 64 - 2 ^ j).
Proof.
  intros Hb Ha Ht Hm Hreq.
  assert (∀ j, b ≤ j ≤ a →
               getOrder s (2 ^ j) = j - b
               ∧ (j - b ≤ 30 → getBlockSize s (j - b) = 2 ^ j)
               ∧ (j - b = 31 → getBlockSize s (j - b) = 2 ^ 64 - 2 ^ j))
    as Horder.
  { intros j Hj. split; [|split].
    - unfold getOrder. rewrite Hm.
      destruct (Z.leb_spec (2 ^ j) (2 ^ b)) as [Hle|Hgt].
      + assert (j = b); [|lia].
        destruct (Z.eq_dec j b); [done|].
        assert (2 ^ b < 2 ^ j) by (apply Z.pow_lt_mono_r; lia). lia.
      + replace (2 ^ j / 2 ^ b) with (2 ^ (j - b)).
        * rewrite halve_loop_pow2 by lia. lia.
        * replace j with ((j - b) + b) at 2 by lia.
          rewrite Z.pow_add_r by lia. rewrite Z.div_mul; lia.
    - intros Hk. rewrite (getBlockSize_exact s b (j - b)) by (done || lia).
      f_equal. lia.
    - intros Hk. rewrite Hk, (getBlockSize_31 s b) by (done || lia).
      do 2 f_equal. lia. }
  unfold nextPowerOfTwo. rewrite Hm.
  assert (0 < 2 ^ b) by lia.
  destruct (Z.eqb_spec requested 0) as [->|Hnz].
  { exists b. destruct (Horder b ltac:(lia)) as (? & ? & ?).
    split_and!; try done; try lia. }
  destruct (Z.leb_spec requested (2 ^ b)) as [Hle|Hgt].
  { exists b. destruct (Horder b ltac:(lia)) as (? & ? & ?).
    split_and!; try done; try lia. }
  destruct (double_loop_spec 64 b a requested) as (j & Hj & E & H1 & H2);
    try lia.
  exists j. destruct (Horder j Hj) as (? & ? & ?).
  split_and!; try done; lia.
Qed.

(** X23.  Rounding a request.  In an allocator whose arena is 2^a bytes and
    whose minimum block is 2^b bytes, b ≤ a ≤ 63, a request of at most the
    arena is rounded by [nextPowerOfTwo] to the least block size 2^j,
    b ≤ j ≤ a, that holds it, and [getOrder] of that size is j - b.
    [getBlockSize] of that order is the size again as long as the order
    is at most 30; at order 31, where [1 << 31] is negative, it is
    2^64 - 2^j instead. *)
Theorem request_is_rounded_to_the_least_block_size
    (s : t) (a b requested : Z) :
  0 ≤ b ≤ a → a ≤ 63 →
  total_memory s = 2 ^ a → min_block_size s = 2 ^ b →
  0 ≤ requested ≤ total_memory s →
  ∃ j, b ≤ j ≤ a
       ∧ nextPowerOfTwo s requested = Some (2 ^ j)
       ∧ requested ≤ 2 ^ j
       ∧ (b < j → 2 ^ (j - 1) < requested)
       ∧ getOrder s (2 ^ j) = j - b
       ∧ (j - b ≤ 30 → getBlockSize s (j - b) = 2 ^ j)
       ∧ (j - b = 31 → getBlockSize s (j - b) = 2 ^ 64 - 2 ^ j).
Proof. apply rounded_request. Qed.

Lemma request_is_rounded_to_the_least_block_size_witness :
  (∃ j, 4 ≤ j ≤ 10
        ∧ nextPowerOfTwo (new 1024 16) 100 = Some (2 ^ j)
        ∧ 100 ≤ 2 ^ j
        ∧ (4 < j → 2 ^ (j - 1) < 100)
        ∧ getOrder (new 1024 16) (2 ^ j) = j - 4
        ∧ (j - 4 ≤ 30 → getBlockSize (new 1024 16) (j - 4) = 2 ^ j)
        ∧ (j - 4 = 31
           → getBlockSize (new 1024 16) (j - 4) = 2 ^ 64 - 2 ^ j))
  ∧ (∃ j, 4 ≤ j ≤ 36
          ∧ nextPowerOfTwo (new (2 ^ 36) 16) (2 ^ 35) = Some (2 ^ j)
          ∧ 2 ^ 35 ≤ 2 ^ j
          ∧ (4 < j → 2 ^ (j - 1) < 2 ^ 35)
          ∧ getOrder (new (2 ^ 36) 16) (2 ^ j) = j - 4
          ∧ (j - 4 ≤ 30 → getBlockSize (new (2 ^ 36) 16) (j - 4) = 2 ^ j)
          ∧ (j - 4 = 31
             → getBlockSize (new (2 ^ 36) 16) (j - 4) = 2 ^ 64 - 2 ^ j)).
Proof.
  split.
  - apply (request_is_rounded_to_the_least_block_size
             (new 1024 16) 10 4 100); try lia; try reflexivity.
    by vm_compute.
  - apply (request_is_rounded_to_the_least_block_size
             (new (2 ^ 36) 16) 36 4 (2 ^ 35)); try lia; try reflexivity.
    by vm_compute.
Defined.

End Rounding.

Module Conservation.
Import BuddyAllocator BuddySpec ConservationSpec BuddyProofs Rounding.

Section sums.
Context {A : Type} (g : A → Z).

Lemma sum_alter (f : A → A) (k : nat) (L : list A) (x : A) :
  L !! k = Some x →
  foldr (λ y n, g y + n) 0 (alter f k L)
  = foldr (λ y n, g y + n) 0 L - g x + g (f x).
Proof.
  revert k. induction L as [|y L IH]; intros k Hk; [done|].
  destruct k as [|k].
  - simpl in Hk. injection Hk as ->. simpl. lia.
  - change (alter f (S k) (y :: L)) with (y :: alter f k L).
    cbn [foldr]. rewrite (IH k Hk). lia.
Qed.

End sums.

Lemma free_list_set s k l k' :
  0 ≤ k < Z.of_nat (length (free_lists s)) →
  free_list (set_free_list k l s) k' = if decide (k = k') then l
                                         else free_list s k'.
Proof.
  intros Hk. unfold free_list, set_free_list.
  cbn [free_lists set_free_lists]. rewrite vget_valter.
  case_decide as E; [|done]. subst k'.
  destruct (vget_is_Some (free_lists s) k) as [_ [x ->]]; [lia|]. done.
Qed.

Lemma free_bytes_set s k l :
  0 ≤ k < Z.of_nat (length (free_lists s)) →
  free_bytes (set_free_list k l s)
  = free_bytes s - list_bytes (free_list s k) + list_bytes l.
Proof.
  intros Hk. unfold free_bytes, set_free_list, free_list, valter, vget.
  cbn [free_lists set_free_lists].
  destruct (Z.ltb_spec k 0); [lia|].
  destruct (lookup_lt_is_Some_2 (free_lists s) (Z.to_nat k)) as [x Hx];
    [lia|].
  rewrite (sum_alter list_bytes _ _ _ x Hx), Hx. done.
Qed.

Lemma length_set s k l :
  length (free_lists (set_free_list k l s)) = length (free_lists s).
Proof. unfold set_free_list. cbn [free_lists set_free_lists].
  apply length_valter. Qed.

Lemma getBlockSize_pow a b s k :
  ordered a b s → 0 ≤ k < a - b → getBlockSize s k = 2 ^ (b + k).
Proof.
  intros [He Ht Hm _ _ _ _ _ _] Hk.
  apply getBlockSize_exact; [done|lia|lia|lia].
Qed.

(** Changing one free list. *)
Lemma ordered_set a b s k l :
  ordered a b s → 0 ≤ k ≤ a - b →
  (∀ blk, blk ∈ l → size blk = 2 ^ (b + k)) →
  ordered a b (set_free_list k l s).
Proof.
  intros [He Ht Hm Hx Hl Hf Hr Hk Hn] Hkr Hsz.
  split; try done.
  - by rewrite length_set.
  - intros k' blk. rewrite free_list_set by lia.
    case_decide as E; [subst k'; intros; by apply Hsz|apply Hf].
Qed.

Lemma counters_keep a b s nid ta td sa fa sp mg tif :
  ordered a b s → next_block_id s ≤ nid →
  ordered a b (set_counters nid ta td sa fa sp mg tif s).
Proof.
  intros [He Ht Hm Hx Hl Hf Hr Hk Hn1] Hn. split; try done.
  - intros id Hid. specialize (Hk id Hid). simpl. lia.
  - simpl. lia.
Qed.

End Conservation.

Module Splitting.
Import BuddyAllocator BuddySpec ConservationSpec LedgerSpec BuddyProofs
  Rounding Conservation.

Lemma lists_length a b s :
  ordered a b s → Z.of_nat (length (free_lists s)) = a - b + 1.
Proof. intros [He _ _ _ Hl _ _ _ _]. rewrite Hl. lia. Qed.

Lemma ordered_push a b s k blk :
  ordered a b s → 0 ≤ k ≤ a - b → size blk = 2 ^ (b + k) →
  ordered a b (push k blk s)
  ∧ free_bytes (push k blk s) = free_bytes s + size blk
  ∧ (∀ k', free_list (push k blk s) k'
           = if decide (k = k') then blk :: free_list s k
             else free_list s k')
  ∧ ledger (push k blk s) = ledger s.
Proof.
  intros Hs Hk Hsz. pose proof (lists_length a b s Hs) as Hlen.
  unfold push. split; [|split; [|split]].
  - apply ordered_set; [done|done|].
    intros x [->|Hx]%elem_of_cons; [done|].
    by apply (ord_free a b s Hs k).
  - rewrite free_bytes_set by lia. simpl. lia.
  - intros k'. by rewrite free_list_set by lia.
  - done.
Qed.

Lemma ordered_pop a b s k blk next :
  ordered a b s → 0 ≤ k ≤ a - b → free_list s k = blk :: next →
  ordered a b (set_free_list k next s)
  ∧ free_bytes (set_free_list k next s) = free_bytes s - size blk
  ∧ (∀ k', free_list (set_free_list k next s) k'
           = if decide (k = k') then next else free_list s k')
  ∧ size blk = 2 ^ (b + k)
  ∧ ledger (set_free_list k next s) = ledger s.
Proof.
  intros Hs Hk Hl. pose proof (lists_length a b s Hs) as Hlen.
  split; [|split; [|split; [|split]]].
  - apply ordered_set; [done|done|].
    intros x Hx. apply (ord_free a b s Hs k); [|done].
    rewrite Hl. by right.
  - rewrite free_bytes_set, Hl by lia. simpl. lia.
  - intros k'. by rewrite free_list_set by lia.
  - apply (ord_free a b s Hs k); [|done]. rewrite Hl. by left.
  - done.
Qed.

(** One split: a block of order [k + 1] becomes two of order [k]. *)
Lemma split_one a b s k block next :
  ordered a b s → 0 ≤ k < a - b →
  free_list s (k + 1) = block :: next →
  let s1 := set_free_list (k + 1) next s in
  let new_size := getBlockSize s1 k in
  let s2 := push k (BuddyBlock_new (address block) new_size) s1 in
  let s3 :=
    push k (BuddyBlock_new (wrap64 (address block + new_size)) new_size) s2 in
  let s4 := set_splits (splits s3 + 1) s3 in
  ordered a b s4 ∧ free_bytes s4 = free_bytes s ∧ free_list s4 k ≠ []
  ∧ ledger s4 = ledger s.
Proof.
  intros Hs Hk Hl. cbv zeta. pose proof (ord_exp a b s Hs) as He.
  destruct (ordered_pop a b s (k + 1) block next Hs ltac:(lia) Hl)
    as (O1 & B1 & L1 & Sz & G1).
  set (s1 := set_free_list (k + 1) next s) in *.
  rewrite (getBlockSize_pow a b s1 k O1) by lia.
  destruct (ordered_push a b s1 k
              (BuddyBlock_new (address block) (2 ^ (b + k))) O1 ltac:(lia)
              eq_refl) as (O2 & B2 & L2 & G2).
  set (s2 := push k _ s1) in *.
  destruct (ordered_push a b s2 k
              (BuddyBlock_new (wrap64 (address block + 2 ^ (b + k)))
                 (2 ^ (b + k))) O2 ltac:(lia) eq_refl)
    as (O3 & B3 & L3 & G3).
  set (s3 := push k _ s2) in *.
  split; [|split; [|split]].
  - apply counters_keep; [done|]. simpl. lia.
  - change (free_bytes (set_splits _ s3)) with (free_bytes s3).
    rewrite B3, B2, B1, Sz. cbn [size BuddyBlock_new].
    replace (b + (k + 1)) with (b + k + 1) by lia.
    rewrite (Z.pow_add_r 2 (b + k) 1) by lia. change (2 ^ 1) with 2. lia.
  - change (free_list (set_splits _ s3) k) with (free_list s3 k).
    rewrite L3, decide_True by done. done.
  - change (ledger (set_splits _ s3)) with (ledger s3).
    by rewrite G3, G2, G1.
Qed.

Lemma splitBlock_rec_spec a b gap k s :
  ordered a b s → 0 ≤ k → k + Z.of_nat gap = a - b →
  let r := splitBlock_rec gap k s in
  if r.2
  then ordered a b r.1 ∧ free_bytes r.1 = free_bytes s
       ∧ free_list r.1 k ≠ [] ∧ ledger r.1 = ledger s
       ∧ ∃ i, k < i ≤ a - b ∧ free_list s i ≠ []
  else r.1 = s ∧ ∀ i, k < i ≤ a - b → free_list s i = [].
Proof.
  revert k s. induction gap as [|gap IH]; intros k s Hs Hk Hgap.
  { simpl. split; [done|]. intros; lia. }
  cbn [splitBlock_rec].
  assert (∀ s1, ordered a b s1 → free_bytes s1 = free_bytes s →
                ledger s1 = ledger s → free_list s1 (k + 1) ≠ [] →
                (∃ i, k < i ≤ a - b ∧ free_list s i ≠ []) →
    let r :=
      match free_list s1 (k + 1) with
      | [] => (s1, false)
      | block :: next =>
          let s2 := set_free_list (k + 1) next s1 in
          let new_size := getBlockSize s2 k in
          let buddy1 := BuddyBlock_new (address block) new_size in
          let buddy2 :=
            BuddyBlock_new (wrap64 (address block + new_size)) new_size in
          let s3 := push k buddy1 s2 in
          let s4 := push k buddy2 s3 in
          (set_splits (splits s4 + 1) s4, true)
      end in
    r.2 = true ∧ ordered a b r.1 ∧ free_bytes r.1 = free_bytes s
    ∧ free_list r.1 k ≠ [] ∧ ledger r.1 = ledger s
    ∧ ∃ i, k < i ≤ a - b ∧ free_list s i ≠ []) as Hone.
  { intros s1 O1 B1 G1 Hne Hex. cbv zeta.
    destruct (free_list s1 (k + 1)) as [|block next] eqn:Hl; [done|].
    destruct (split_one a b s1 k block next O1 ltac:(lia) Hl)
      as (O & B & L & G).
    cbn [fst snd]. rewrite <- B1, <- G1. done. }
  destruct (is_nil (free_list s (k + 1))) eqn:Hnil.
  - specialize (IH (k + 1) s Hs ltac:(lia) ltac:(lia)). cbv zeta in IH.
    destruct (splitBlock_rec gap (k + 1) s) as [s1 ok]. cbn [fst snd] in IH.
    destruct ok; cbn [negb].
    + destruct IH as (O1 & B1 & L1 & G1 & i & Hi & Hne).
      destruct (Hone s1 O1 B1 G1 L1) as (E & H); [exists i; split; [lia|done]|].
      cbv zeta in E, H. 
      destruct (match free_list s1 (k + 1) with [] => _ | _ => _ end)
        as [s5 ok5].
      cbn [fst snd] in *. subst ok5. done.
    + destruct IH as [-> Hall]. cbn [fst snd]. split; [done|].
      intros i Hi. destruct (decide (i = k + 1)) as [->|].
      * by destruct (free_list s (k + 1)).
      * apply Hall. lia.
  - cbn [negb].
    assert (free_list s (k + 1) ≠ []) as Hne
      by (by destruct (free_list s (k + 1))).
    destruct (Hone s Hs eq_refl eq_refl Hne) as (E & H);
      [exists (k + 1); split; [lia|done]|].
    cbv zeta in E, H.
    destruct (match free_list s (k + 1) with [] => _ | _ => _ end)
      as [s5 ok5].
    cbn [fst snd] in *. subst ok5. done.
Qed.

End Splitting.

Module Merging.
Import BuddyAllocator BuddySpec ConservationSpec LedgerSpec BuddyProofs
  Rounding Conservation Splitting.

Lemma unlink_Some addr l blk l' :
  unlink addr l = Some (blk, l') →
  blk ∈ l ∧ address blk = addr
  ∧ list_bytes l = size blk + list_bytes l'
  ∧ (∀ x, x ∈ l' → x ∈ l)
  ∧ (∀ x, x ∈ l → address x ≠ addr → x ∈ l').
Proof.
  revert l'. induction l as [|c l IH]; intros l'; simpl; [done|].
  destruct (Z.eqb_spec (address c) addr) as [E|Hne].
  - intros [= <- <-]. split; [by left|]. split; [done|]. split; [done|].
    split; [by right|]. intros x [->|Hx]%elem_of_cons; [done|done].
  - destruct (unlink addr l) as [[b0 l0]|]; simpl; [|done].
    intros [= <- <-]. destruct (IH l0 eq_refl) as (H1 & H2 & H3 & H4 & H5).
    split; [by right|]. split; [done|]. split; [simpl; lia|]. split.
    + intros x [->|Hx]%elem_of_cons; [by left|right; by apply H4].
    + intros x [->|Hx]%elem_of_cons Hax; [by left|right; by apply H5].
Qed.

Lemma unlink_None addr l :
  unlink addr l = None → ∀ x, x ∈ l → address x ≠ addr.
Proof.
  induction l as [|c l IH]; simpl; [by intros _ x Hx%elem_of_nil|].
  destruct (Z.eqb_spec (address c) addr) as [E|Hne]; [done|].
  destruct (unlink addr l) as [[b0 l0]|]; simpl; [done|].
  intros _ x [->|Hx]%elem_of_cons; [done|by apply IH].
Qed.

Lemma removeFromFreeList_spec a b s k addr :
  ordered a b s → 0 ≤ k ≤ a - b →
  match removeFromFreeList s k addr with
  | (s', Some blk) =>
      ordered a b s' ∧ free_bytes s' = free_bytes s - 2 ^ (b + k)
      ∧ address blk = addr
      ∧ (∀ x, x ∈ free_list s k → address x ≠ addr → x ∈ free_list s' k)
      ∧ ledger s' = ledger s
  | (s', None) => s' = s ∧ ∀ x, x ∈ free_list s k → address x ≠ addr
  end.
Proof.
  intros Hs Hk. pose proof (lists_length a b s Hs) as Hlen.
  unfold removeFromFreeList.
  destruct (unlink addr (free_list s k)) as [[blk l']|] eqn:Hu.
  - destruct (unlink_Some _ _ _ _ Hu) as (H1 & H2 & H3 & H4 & H5).
    split; [|split; [|split; [|split]]].
    + apply ordered_set; [done|done|]. intros x Hx.
      apply (ord_free a b s Hs k); [by apply H4|done].
    + rewrite free_bytes_set, H3 by lia.
      rewrite (ord_free a b s Hs k blk H1 Hk). lia.
    + done.
    + intros x Hx Hax. rewrite free_list_set, decide_True by (done || lia).
      by apply H5.
    + done.
  - split; [done|]. by apply unlink_None.
Qed.

Lemma lxor_moves addr sz : sz ≠ 0 → Z.lxor addr sz ≠ addr.
Proof.
  intros Hsz E. apply Hsz.
  assert (Z.lxor addr (Z.lxor addr sz) = Z.lxor addr addr) as H
    by (by rewrite E).
  rewrite <- Z.lxor_assoc in H.
  by rewrite Z.lxor_nilpotent, Z.lxor_0_l in H.
Qed.

Lemma mergeBlocks_rec_spec a b gap addr k s :
  ordered a b s → 0 ≤ k → k + Z.of_nat gap = a - b →
  (∃ x, x ∈ free_list s k ∧ address x = addr) →
  let r := mergeBlocks_rec gap addr k s in
  ordered a b r.1 ∧ free_bytes r.1 = free_bytes s ∧ ledger r.1 = ledger s.
Proof.
  revert addr k s.
  induction gap as [|gap IH]; intros addr k s Hs Hk Hgap Hex; [done|].
  cbn [mergeBlocks_rec]. cbv zeta.
  pose proof (ord_exp a b s Hs) as He.
  rewrite (getBlockSize_pow a b s k Hs) by lia.
  pose proof (removeFromFreeList_spec a b s k
                (getBuddyAddress addr (2 ^ (b + k))) Hs ltac:(lia)) as H1.
  destruct (removeFromFreeList s k (getBuddyAddress addr (2 ^ (b + k))))
    as [s1 [buddy|]]; [|by destruct H1 as [-> _]].
  destruct H1 as (O1 & B1 & A1 & K1 & G1).
  destruct Hex as (x & Hx & Hax).
  assert (x ∈ free_list s1 k) as Hx1.
  { apply K1; [done|]. rewrite Hax. unfold getBuddyAddress.
    intros E. symmetry in E. revert E. apply lxor_moves. lia. }
  pose proof (removeFromFreeList_spec a b s1 k addr O1 ltac:(lia)) as H2.
  destruct (removeFromFreeList s1 k addr) as [s2 [blk|]].
  2:{ destruct H2 as [_ H2]. destruct (H2 x Hx1 Hax). }
  destruct H2 as (O2 & B2 & A2 & K2 & G2). cbn [fst].
  set (merged_addr := if addr <? getBuddyAddress addr (2 ^ (b + k))
                      then addr else getBuddyAddress addr (2 ^ (b + k))).
  assert (wrap64 (2 ^ (b + k) * 2) = 2 ^ (b + (k + 1))) as Ew.
  { replace (b + (k + 1)) with (b + k + 1) by lia.
    rewrite (Z.pow_add_r 2 (b + k) 1) by lia. change (2 ^ 1) with 2.
    unfold wrap64. apply Z.mod_small.
    assert (2 ^ (b + k + 1) ≤ 2 ^ 63) by (apply Z.pow_le_mono_r; lia).
    rewrite (Z.pow_add_r 2 (b + k) 1) in * by lia.
    change (2 ^ 1) with 2 in *. lia. }
  rewrite Ew.
  destruct (ordered_push a b s2 (k + 1)
              (BuddyBlock_new merged_addr (2 ^ (b + (k + 1)))) O2
              ltac:(lia) eq_refl) as (O3 & B3 & L3 & G3).
  set (s3 := push (k + 1) _ s2) in *.
  set (s4 := set_merges (merges s3 + 1) s3).
  assert (ordered a b s4) as O4 by (apply counters_keep; [done|simpl; lia]).
  destruct (IH merged_addr (k + 1) s4 O4 ltac:(lia) ltac:(lia))
    as (O5 & B5 & G5).
  { exists (BuddyBlock_new merged_addr (2 ^ (b + (k + 1)))).
    split; [|done].
    change (free_list s4 (k + 1)) with (free_list s3 (k + 1)).
    rewrite L3, decide_True by done. by left. }
  split; [done|]. split.
  - rewrite B5. change (free_bytes s4) with (free_bytes s3).
    rewrite B3, B2, B1. cbn [size BuddyBlock_new].
    replace (b + (k + 1)) with (b + k + 1) by lia.
    rewrite (Z.pow_add_r 2 (b + k) 1) by lia. change (2 ^ 1) with 2. lia.
  - rewrite G5. change (ledger s4) with (ledger s3). by rewrite G3, G2, G1.
Qed.

End Merging.

Module Balance.
Import BuddyAllocator BuddySpec ConservationSpec LedgerSpec BalanceSpec
  BuddyProofs Rounding Conservation Splitting Merging.

Section map_sums.
Context (g : AllocationRecord → Z).

Lemma map_sum_empty : map_sum g ∅ = 0.
Proof. unfold map_sum. by rewrite map_fold_empty. Qed.

Lemma map_sum_insert m id r :
  m !! id = None → map_sum g (<[id := r]> m) = g r + map_sum g m.
Proof.
  intros Hid. unfold map_sum.
  rewrite map_fold_insert_L; [done| |done]. intros. lia.
Qed.

Lemma map_sum_delete m id r :
  m !! id = Some r → map_sum g m = g r + map_sum g (delete id m).
Proof.
  intros Hid. rewrite <- (insert_delete_id m id r Hid) at 1.
  apply map_sum_insert. apply lookup_delete_eq.
Qed.

End map_sums.

Lemma map_sum_le g h m :
  (∀ id r, m !! id = Some r → g r ≤ h r) → map_sum g m ≤ map_sum h m.
Proof.
  induction m as [|id r m Hid IH] using map_ind; intros Hle.
  { by rewrite !map_sum_empty. }
  rewrite !map_sum_insert by done.
  pose proof (Hle id r (lookup_insert_eq m id r)).
  assert (map_sum g m ≤ map_sum h m); [|lia].
  apply IH. intros id' r' Hr'. apply (Hle id').
  rewrite lookup_insert_ne; [done|]. intros ->. congruence.
Qed.

Lemma map_sum_zero m : map_sum (λ _, 0) m = 0.
Proof.
  induction m as [|id r m Hid IH] using map_ind.
  { by rewrite map_sum_empty. }
  rewrite map_sum_insert by done. lia.
Qed.

Lemma list_bytes_nonneg l :
  (∀ x, x ∈ l → 0 ≤ size x) → 0 ≤ list_bytes l.
Proof.
  induction l as [|x l IH]; intros H; simpl; [done|].
  pose proof (H x ltac:(by left)).
  assert (0 ≤ list_bytes l); [|lia]. apply IH. intros y Hy. apply H. by right.
Qed.

Lemma free_bytes_nonneg a b s : ordered a b s → 0 ≤ free_bytes s.
Proof.
  intros Hs. pose proof (lists_length a b s Hs) as Hlen.
  pose proof (ord_exp a b s Hs) as He.
  assert (∀ (i : nat) l, free_lists s !! i = Some l → 0 ≤ list_bytes l)
    as Hall.
  { intros i l Hl. apply list_bytes_nonneg. intros x Hx.
    pose proof (lookup_lt_Some _ _ _ Hl) as Hlt.
    rewrite (ord_free a b s Hs (Z.of_nat i) x); [lia| |lia].
    unfold free_list, vget. destruct (Z.ltb_spec (Z.of_nat i) 0); [lia|].
    by rewrite Nat2Z.id, Hl. }
  unfold free_bytes. revert Hall. generalize (free_lists s) as L.
  induction L as [|l L IH]; intros Hall; simpl; [done|].
  pose proof (Hall 0%nat l eq_refl).
  assert (0 ≤ foldr (λ l n, list_bytes l + n) 0 L); [|lia].
  apply IH. intros i l' Hl'. by apply (Hall (S i)).
Qed.

Lemma ordered_insert a b s id r :
  ordered a b s → id < next_block_id s →
  0 ≤ order r ≤ a - b → actual_size r = 2 ^ (b + order r) →
  ordered a b (set_allocated_blocks (<[id := r]> (allocated_blocks s)) s).
Proof.
  intros [He Ht Hm Hx Hl Hf Hr Hk Hn] Hid Ho Hsz. split; try done.
  - intros id' r'. cbn [allocated_blocks set_allocated_blocks].
    destruct (decide (id = id')) as [<-|Hne].
    + rewrite lookup_insert_eq. by intros [= <-].
    + rewrite lookup_insert_ne by done. apply Hr.
  - intros id'. cbn [allocated_blocks set_allocated_blocks next_block_id].
    destruct (decide (id = id')) as [<-|Hne]; [done|].
    rewrite lookup_insert_ne by done. apply Hk.
Qed.

Lemma ordered_delete a b s id :
  ordered a b s →
  ordered a b (set_allocated_blocks (delete id (allocated_blocks s)) s).
Proof.
  intros [He Ht Hm Hx Hl Hf Hr Hk Hn]. split; try done.
  - intros id' r'. cbn [allocated_blocks set_allocated_blocks].
    intros [_ H]%lookup_delete_Some. by apply (Hr id').
  - intros id'. cbn [allocated_blocks set_allocated_blocks next_block_id].
    intros [r' [_ H]%lookup_delete_Some]. apply Hk. by exists r'.
Qed.

(** [allocate], case by case. *)
Lemma allocate_spec a b s requested :
  ordered a b s → 0 ≤ requested →
  (allocate s requested = Some (refused s)
   ∧ (requested = 0 ∨ 2 ^ a < requested
      ∨ ∃ j, b ≤ j ≤ a ∧ nextPowerOfTwo s requested = Some (2 ^ j)
             ∧ getOrder s (2 ^ j) = j - b
             ∧ ∀ i, j - b ≤ i ≤ a - b → free_list s i = []))
  ∨ (∃ s' j blk,
       allocate s requested = Some (s', next_block_id s)
       ∧ 0 < requested ≤ 2 ^ j ∧ b ≤ j ≤ a
       ∧ nextPowerOfTwo s requested = Some (2 ^ j)
       ∧ getOrder s (2 ^ j) = j - b
       ∧ (∃ i, j - b ≤ i ≤ a - b ∧ free_list s i ≠ [])
       ∧ ordered a b s'
       ∧ free_bytes s' = free_bytes s - 2 ^ j
       ∧ ledger s'
         = (<[next_block_id s := filed b j requested blk]>
              (allocated_blocks s),
            next_block_id s + 1, total_allocations s + 1,
            total_deallocations s, successful_allocations s + 1,
            failed_allocations s,
            wrap64 (total_internal_fragmentation s
                    + wrap64 (2 ^ j - requested)))).
Proof.
  intros Hs Hreq. pose proof (ord_exp a b s Hs) as He.
  pose proof (ord_total a b s Hs) as Ht.
  unfold allocate, refused.
  set (s0 := set_total_allocations (total_allocations s + 1) s).
  assert (ordered a b s0) as O0 by (apply counters_keep; [done|simpl; lia]).
  destruct (Z.eqb_spec requested 0) as [->|Hnz]; [left; split; auto|].
  change (total_memory s0) with (total_memory s). rewrite Ht.
  destruct (Z.ltb_spec (2 ^ a) requested) as [Hbig|Hfits];
    [left; split; auto|].
  destruct (rounded_request s a b requested)
    as (j & Hj & Hn & Hle & _ & Hord & _);
    [lia|lia|done|apply (ord_min a b s Hs)|lia|].
  change (nextPowerOfTwo s0 requested) with (nextPowerOfTwo s requested).
  rewrite Hn. cbn [mbind option_bind].
  change (getOrder s0 (2 ^ j)) with (getOrder s (2 ^ j)).
  pose proof Hord as Hord'. rewrite Hord.
  set (k := j - b).
  assert (∃ s1 ok,
            (if is_nil (free_list s0 k) then splitBlock s0 k else (s0, true))
            = (s1, ok)
            ∧ if ok
              then ordered a b s1 ∧ free_bytes s1 = free_bytes s
                   ∧ free_list s1 k ≠ [] ∧ ledger s1 = ledger s0
                   ∧ ∃ i, k ≤ i ≤ a - b ∧ free_list s i ≠ []
              else s1 = s0 ∧ ∀ i, k ≤ i ≤ a - b → free_list s i = [])
    as (s1 & ok & -> & Hok).
  { destruct (free_list s0 k) as [|x l] eqn:El; cbn [is_nil].
    - unfold splitBlock. rewrite (ord_max a b s0 O0).
      pose proof (splitBlock_rec_spec a b (Z.to_nat (a - b - k)) k s0 O0
                    ltac:(lia) ltac:(lia)) as H. cbv zeta in H.
      destruct (splitBlock_rec (Z.to_nat (a - b - k)) k s0) as [s1 ok].
      exists s1, ok. split; [done|]. cbn [fst snd] in H. destruct ok.
      + destruct H as (H1 & H2 & H3 & H4 & i & Hi & H5).
        split_and!; try done. exists i. split; [lia|done].
      + destruct H as [-> H]. split; [done|]. intros i Hi.
        destruct (decide (i = k)) as [->|]; [done|]. apply H. lia.
    - exists s0, true. split; [done|]. split_and!; try done.
      + by rewrite El.
      + exists k. split; [lia|]. change (free_list s k) with (free_list s0 k).
        by rewrite El. }
  destruct ok; cbn [negb].
  2:{ destruct Hok as [-> Hok]. left. split; [done|].
      right. right. exists j. split_and!; try done; lia. }
  destruct Hok as (O1 & B1 & Hne & G1 & Hex).
  destruct (free_list s1 k) as [|blk next] eqn:El; [done|].
  right.
  destruct (ordered_pop a b s1 k blk next O1 ltac:(lia) El)
    as (O2 & B2 & _ & Hsz & G2).
  set (s2 := set_free_list k next s1) in *.
  assert (next_block_id s2 = next_block_id s
          ∧ allocated_blocks s2 = allocated_blocks s
          ∧ total_allocations s2 = total_allocations s + 1
          ∧ total_deallocations s2 = total_deallocations s
          ∧ successful_allocations s2 = successful_allocations s
          ∧ failed_allocations s2 = failed_allocations s
          ∧ total_internal_fragmentation s2 = total_internal_fragmentation s)
    as (N1 & N2 & N3 & N4 & N5 & N6 & N7).
  { assert (ledger s2 = ledger s0) as G by (by rewrite G2, G1).
    unfold ledger in G. injection G as E1 E2 E3 E4 E5 E6 E7.
    split_and!; assumption. }
  eexists _, j, blk. split.
  { rewrite N1. reflexivity. }
  split; [lia|]. split; [done|]. split; [done|]. split; [done|].
  split; [done|]. split; [|split].
  - apply ordered_insert.
    + apply counters_keep; [|simpl; lia].
      apply counters_keep; [|simpl; lia].
      apply counters_keep; [done|lia].
    + simpl. lia.
    + simpl. lia.
    + simpl. f_equal. lia.
  - change (free_bytes s2 = free_bytes s - 2 ^ j).
    rewrite B2, B1, Hsz. f_equal. unfold k. f_equal. lia.
  - clearbody s2. unfold ledger, filed. cbn.
    rewrite ?N1, N2, N3, N4, N5, N6, N7. done.
Qed.

(** [deallocate] of a live block. *)
Lemma deallocate_spec a b s id r :
  ordered a b s → allocated_blocks s !! id = Some r →
  (deallocate s id).2 = true
  ∧ ordered a b (deallocate s id).1
  ∧ free_bytes (deallocate s id).1 = free_bytes s + actual_size r
  ∧ ledger (deallocate s id).1
    = (delete id (allocated_blocks s), next_block_id s,
       total_allocations s, total_deallocations s + 1,
       successful_allocations s, failed_allocations s,
       wrap64 (total_internal_fragmentation s
               - wrap64 (actual_size r - requested_size r))).
Proof.
  intros Hs Hr. pose proof (ord_exp a b s Hs) as He.
  destruct (ord_live a b s Hs id r Hr) as [Ho Hsz].
  unfold deallocate. rewrite Hr. cbv zeta. cbn [fst snd].
  split; [done|].
  destruct (ordered_push a b s (order r)
              (BuddyBlock_new (record_address r) (actual_size r)) Hs Ho Hsz)
    as (O1 & B1 & L1 & G1).
  set (s1 := push (order r) _ s) in *.
  set (s2 := set_total_deallocations (total_deallocations s1 + 1) s1).
  set (s3 := set_total_internal_fragmentation _ s2).
  set (s4 := set_allocated_blocks _ s3).
  assert (ordered a b s4) as O4.
  { apply ordered_delete. apply counters_keep; [|simpl; lia].
    apply counters_keep; [done|simpl; lia]. }
  unfold mergeBlocks. rewrite (ord_max a b s4 O4).
  destruct (mergeBlocks_rec_spec a b (Z.to_nat (a - b - order r))
              (record_address r) (order r) s4 O4 ltac:(lia) ltac:(lia))
    as (O5 & B5 & G5).
  { exists (BuddyBlock_new (record_address r) (actual_size r)).
    split; [|done]. change (free_list s4 (order r))
      with (free_list s1 (order r)).
    rewrite L1, decide_True by done. by left. }
  split; [done|]. split.
  - rewrite B5. change (free_bytes s4) with (free_bytes s1). by rewrite B1.
  - rewrite G5. reflexivity.
Qed.

End Balance.

Module BalanceRun.
Import BuddyAllocator BuddySpec ConservationSpec LedgerSpec BalanceSpec
  RequestSpec BuddyProofs Rounding Conservation Splitting Merging Balance.

Lemma allocated_bytes_sum s :
  allocated_bytes s = map_sum actual_size (allocated_blocks s).
Proof. done. Qed.

Lemma wasted_bytes_sum s :
  wasted_bytes s
  = map_sum (λ r, actual_size r - requested_size r) (allocated_blocks s).
Proof. done. Qed.

Lemma wasted_bounds a b s :
  balanced a b s →
  0 ≤ wasted_bytes s ∧ wasted_bytes s ≤ allocated_bytes s
  ∧ allocated_bytes s ≤ 2 ^ a.
Proof.
  intros [Ho Hb Hf Hw]. rewrite wasted_bytes_sum, allocated_bytes_sum.
  split; [|split].
  - rewrite <- (map_sum_zero (allocated_blocks s)).
    apply map_sum_le. intros id r Hr. specialize (Hf id r Hr). lia.
  - apply map_sum_le.
    intros id r Hr. specialize (Hf id r Hr). lia.
  - rewrite <- allocated_bytes_sum.
    pose proof (free_bytes_nonneg a b s Ho). lia.
Qed.

Lemma balanced_refused a b s : balanced a b s → balanced a b (refused s).1.
Proof.
  intros [Ho Hb Hf Hw]. split; try done.
  unfold refused, fail. cbn [fst].
  apply counters_keep; [|simpl; lia]. apply counters_keep; [done|lia].
Qed.

Lemma balanced_allocate a b s requested :
  balanced a b s → 0 ≤ requested →
  ∃ s' id, allocate s requested = Some (s', id) ∧ balanced a b s'.
Proof.
  intros Hs Hreq. pose proof Hs as [Ho Hb Hf Hw].
  pose proof (ord_exp a b s Ho) as He.
  destruct (allocate_spec a b s requested Ho Hreq)
    as [[-> _]|(s' & j & blk & -> & Hr & Hj & _ & _ & _ & O1 & B1 & G1)].
  { eexists _, _. split; [done|]. by apply balanced_refused. }
  exists s', (next_block_id s). split; [done|].
  unfold ledger in G1. injection G1 as E1 _ _ _ _ _ E7.
  assert (allocated_blocks s !! next_block_id s = None) as Hfresh.
  { destruct (allocated_blocks s !! next_block_id s) eqn:E; [|done].
    pose proof (ord_keys a b s Ho (next_block_id s) ltac:(by eexists)). lia. }
  destruct (wasted_bounds a b s Hs) as (W1 & W2 & W3).
  pose proof (free_bytes_nonneg a b s' O1) as Hfree.
  assert (2 ^ j ≤ 2 ^ 63) by (apply Z.pow_le_mono_r; lia).
  assert (2 ^ a ≤ 2 ^ 63) by (apply Z.pow_le_mono_r; lia).
  split; [done| | |].
  - rewrite allocated_bytes_sum, E1, map_sum_insert by done.
    rewrite <- allocated_bytes_sum. cbn [filed actual_size]. lia.
  - intros id r. rewrite E1.
    destruct (decide (next_block_id s = id)) as [<-|Hne].
    + rewrite lookup_insert_eq. intros [= <-]. cbn. lia.
    + rewrite lookup_insert_ne by done. apply Hf.
  - rewrite E7, wasted_bytes_sum, E1, map_sum_insert by done.
    rewrite <- wasted_bytes_sum.
    cbn [filed actual_size requested_size]. rewrite Hw.
    unfold wrap64. rewrite (Z.mod_small (2 ^ j - requested)) by lia.
    rewrite Z.mod_small; lia.
Qed.

Lemma balanced_deallocate a b s id :
  balanced a b s → balanced a b (deallocate s id).1.
Proof.
  intros Hs. pose proof Hs as [Ho Hb Hf Hw].
  pose proof (ord_exp a b s Ho) as He.
  destruct (allocated_blocks s !! id) as [r|] eqn:Hr.
  2:{ unfold deallocate. by rewrite Hr. }
  destruct (deallocate_spec a b s id r Ho Hr) as (_ & O1 & B1 & G1).
  unfold ledger in G1. injection G1 as E1 _ _ _ _ _ E7.
  destruct (wasted_bounds a b s Hs) as (W1 & W2 & W3).
  pose proof (Hf id r Hr) as Hfit.
  destruct (ord_live a b s Ho id r Hr) as [Hor Hsz].
  assert (2 ^ a ≤ 2 ^ 63) by (apply Z.pow_le_mono_r; lia).
  assert (actual_size r ≤ 2 ^ a)
    by (rewrite Hsz; apply Z.pow_le_mono_r; lia).
  pose proof (map_sum_delete actual_size _ _ _ Hr) as Ha.
  pose proof (map_sum_delete (λ r, actual_size r - requested_size r)
                _ _ _ Hr) as Hd.
  rewrite <- allocated_bytes_sum in Ha. rewrite <- wasted_bytes_sum in Hd.
  assert (0 ≤ map_sum (λ r, actual_size r - requested_size r)
                (delete id (allocated_blocks s))) as Hpos.
  { rewrite <- (map_sum_zero (delete id (allocated_blocks s))).
    apply map_sum_le. intros id' r' [_ Hr']%lookup_delete_Some.
    specialize (Hf id' r' Hr'). lia. }
  split; [done| | |].
  - rewrite allocated_bytes_sum, E1. lia.
  - intros id' r'. rewrite E1. intros [_ Hr']%lookup_delete_Some.
    by apply (Hf id').
  - rewrite E7, (wasted_bytes_sum (deallocate s id).1), E1.
    rewrite Hw. unfold wrap64.
    rewrite (Z.mod_small (actual_size r - requested_size r)) by lia.
    rewrite Z.mod_small; lia.
Qed.

Lemma balanced_step a b s o :
  balanced a b s → natural o → ∃ s', step s o = Some s' ∧ balanced a b s'.
Proof.
  intros Hs Ho. destruct o as [requested|id]; simpl.
  - destruct (balanced_allocate a b s requested Hs Ho) as (s' & id & -> & H).
    by exists s'.
  - eexists. split; [done|]. by apply balanced_deallocate.
Qed.

Lemma balanced_run a b ops s :
  balanced a b s → Forall natural ops →
  ∃ s', run s ops = Some s' ∧ balanced a b s'.
Proof.
  revert s. induction ops as [|o ops IH]; intros s Hs Hops.
  { by exists s. }
  apply Forall_cons in Hops as [Ho Hops]. rewrite run_cons.
  destruct (balanced_step a b s o Hs Ho) as (s1 & -> & H1).
  simpl. by apply IH.
Qed.

Lemma free_bytes_replicate n :
  foldr (λ (l : list BuddyBlock) z, list_bytes l + z) 0 (replicate n []) = 0.
Proof. induction n as [|n IH]; simpl; [done|]. by rewrite IH. Qed.

Lemma balanced_new memory_size min_size :
  0 ≤ memory_size < 2 ^ 64 → 0 ≤ min_size < 2 ^ 64 →
  min_block_size (new memory_size min_size)
  ≤ total_memory (new memory_size min_size) →
  max_order (new memory_size min_size) ≤ 31 →
  ∃ a b, balanced a b (new memory_size min_size).
Proof.
  intros Hmem Hmin.
  destruct (sized_new memory_size min_size Hmem Hmin)
    as (a & b & Ha & Hb & F1 & F2).
  intros Hle Hmax. rewrite F1, F2 in Hle. exists a, b.
  assert (b ≤ a) as Hba by (apply (Z.pow_le_mono_r_iff 2); lia).
  revert F1 F2 Hmax. unfold new. cbv zeta.
  cbn [total_memory min_block_size max_order].
  generalize (if isPowerOfTwo memory_size then memory_size else 1024).
  generalize (if isPowerOfTwo min_size then min_size else 16).
  intros mn total -> ->.
  assert (2 ^ a / 2 ^ b = 2 ^ (a - b)) as ->.
  { replace a with ((a - b) + b) at 1 by lia.
    rewrite Z.pow_add_r by lia. rewrite Z.div_mul; lia. }
  rewrite halve_loop_pow2 by lia. rewrite Z.add_0_l. intros Hmax.
  assert (∀ k blk,
            blk ∈ default [] (vget (valter (λ _, [BuddyBlock_new 0 (2 ^ a)])
                                      (a - b)
                                      (replicate (Z.to_nat (a - b + 1)) []))
                                k) →
            k = a - b ∧ blk = BuddyBlock_new 0 (2 ^ a)) as Hlist.
  { intros k blk. rewrite vget_valter. case_decide as E.
    - subst k. rewrite vget_replicate_Some by lia. simpl.
      by intros ->%list_elem_of_singleton.
    - destruct (vget _ k) as [l|] eqn:El; simpl.
      + unfold vget in El. destruct (k <? 0); [done|].
        apply lookup_replicate in El as [-> _]. by intros ?%elem_of_nil.
      + by intros ?%elem_of_nil. }
  split; [split| | |].
  - lia.
  - done.
  - done.
  - done.
  - cbn [free_lists]. by rewrite length_valter, length_replicate.
  - intros k blk Hin _. destruct (Hlist k blk Hin) as [-> ->].
    cbn. f_equal. lia.
  - intros id r. cbn [allocated_blocks]. by rewrite lookup_empty.
  - intros id [r Hr]. cbn [allocated_blocks] in Hr.
    by rewrite lookup_empty in Hr.
  - done.
  - unfold allocated_bytes, free_bytes. cbn [allocated_blocks free_lists].
    rewrite map_fold_empty. unfold valter.
    destruct (Z.ltb_spec (a - b) 0); [lia|].
    rewrite (sum_alter list_bytes _ _ _ [])
      by (apply lookup_replicate_2; lia).
    rewrite free_bytes_replicate. cbn. lia.
  - intros id r. cbn [allocated_blocks]. by rewrite lookup_empty.
  - unfold wasted_bytes, map_sum.
    cbn [allocated_blocks total_internal_fragmentation].
    by rewrite map_fold_empty.
Qed.

(** What a run from the constructor reaches. *)
Lemma run_balanced memory_size min_size ops :
  0 ≤ memory_size < 2 ^ 64 → 0 ≤ min_size < 2 ^ 64 →
  min_block_size (new memory_size min_size)
  ≤ total_memory (new memory_size min_size) →
  max_order (new memory_size min_size) ≤ 31 →
  Forall natural ops →
  ∃ s a b, run (new memory_size min_size) ops = Some s ∧ balanced a b s.
Proof.
  intros Hmem Hmin Hle Hmax Hops.
  destruct (balanced_new memory_size min_size Hmem Hmin Hle Hmax)
    as (a & b & H).
  destruct (balanced_run a b ops _ H Hops) as (s & Hs & Hb).
  by exists s, a, b.
Qed.

End BalanceRun.

Module BuddyInvariants.
Import BuddyAllocator BuddySpec ConservationSpec LedgerSpec BalanceSpec
  RequestSpec BuddyProofs Rounding Conservation Splitting Merging Balance
  BalanceRun.

(** X24.  Conservation of bytes.  In an allocator constructed with a minimum
    block no larger than the arena and at most 32 orders
    ([max_order ≤ 31], so that [getBlockSize] is asked only for orders
    where its [int] shift is exact), after any sequence of allocations and
    deallocations the bytes on the free lists and the bytes of the live
    allocations add up to the arena: splitting and merging move bytes
    between lists, allocation and deallocation between the lists and the
    map, and nothing is lost or counted twice. *)
Theorem free_and_allocated_bytes_make_up_the_arena
    (memory_size min_size : Z) (ops : list op) :
  0 ≤ memory_size < 2 ^ 64 → 0 ≤ min_size < 2 ^ 64 →
  min_block_size (new memory_size min_size)
  ≤ total_memory (new memory_size min_size) →
  max_order (new memory_size min_size) ≤ 31 →
  Forall natural ops →
  ∃ s, run (new memory_size min_size) ops = Some s
       ∧ free_bytes s + allocated_bytes s = total_memory s.
Proof.
  intros Hmem Hmin Hle Hmax Hops.
  destruct (run_balanced memory_size min_size ops Hmem Hmin Hle Hmax Hops)
    as (s & a & b & Hs & [Ho Hb _ _]).
  exists s. split; [done|]. by rewrite (ord_total a b s Ho).
Qed.

Lemma free_and_allocated_bytes_make_up_the_arena_witness :
  ∃ s, run (new 1024 16) [Allocate 100; Allocate 16; Deallocate 1] = Some s
       ∧ free_bytes s + allocated_bytes s = total_memory s.
Proof.
  apply (free_and_allocated_bytes_make_up_the_arena 1024 16
           [Allocate 100; Allocate 16; Deallocate 1]);
    [lia | lia | by vm_compute | by vm_compute
    | repeat constructor; simpl; lia].
Defined.

(** X25.  The fragmentation counter.  In an allocator constructed with a
    minimum block no larger than the arena and at most 32 orders
    ([max_order ≤ 31]), after any sequence of allocations and
    deallocations [total_internal_fragmentation] is the
    sum over the live allocations of actual size minus requested size: no
    addition or subtraction of the counter wraps around, and every live
    allocation holds its request. *)
Theorem fragmentation_counter_is_the_waste_of_live_blocks
    (memory_size min_size : Z) (ops : list op) :
  0 ≤ memory_size < 2 ^ 64 → 0 ≤ min_size < 2 ^ 64 →
  min_block_size (new memory_size min_size)
  ≤ total_memory (new memory_size min_size) →
  max_order (new memory_size min_size) ≤ 31 →
  Forall natural ops →
  ∃ s, run (new memory_size min_size) ops = Some s
       ∧ total_internal_fragmentation s = wasted_bytes s
       ∧ ∀ id r, allocated_blocks s !! id = Some r →
                 0 ≤ requested_size r ≤ actual_size r.
Proof.
  intros Hmem Hmin Hle Hmax Hops.
  destruct (run_balanced memory_size min_size ops Hmem Hmin Hle Hmax Hops)
    as (s & a & b & Hs & [Ho Hb Hf Hw]).
  by exists s.
Qed.

Lemma fragmentation_counter_is_the_waste_of_live_blocks_witness :
  ∃ s, run (new 1024 16) [Allocate 100; Allocate 17; Deallocate 1] = Some s
       ∧ total_internal_fragmentation s = wasted_bytes s
       ∧ ∀ id r, allocated_blocks s !! id = Some r →
                 0 ≤ requested_size r ≤ actual_size r.
Proof.
  apply (fragmentation_counter_is_the_waste_of_live_blocks 1024 16
           [Allocate 100; Allocate 17; Deallocate 1]);
    [lia | lia | by vm_compute | by vm_compute
    | repeat constructor; simpl; lia].
Defined.

(** X26.  Block sizes.  In an allocator constructed with a minimum block no
    larger than the arena and at most 32 orders ([max_order ≤ 31]), after
    any sequence of allocations and deallocations there is one free list
    per order 0 .. [max_order], every block on the free list of order k
    has [min_block_size * 2^k] bytes, and every live allocation records
    an order within range and that many bytes as its actual size.  Up to
    order 30 that is [getBlockSize] of the order. *)
Theorem blocks_have_the_size_of_their_order
    (memory_size min_size : Z) (ops : list op) :
  0 ≤ memory_size < 2 ^ 64 → 0 ≤ min_size < 2 ^ 64 →
  min_block_size (new memory_size min_size)
  ≤ total_memory (new memory_size min_size) →
  max_order (new memory_size min_size) ≤ 31 →
  Forall natural ops →
  ∃ s, run (new memory_size min_size) ops = Some s
       ∧ Z.of_nat (length (free_lists s)) = max_order s + 1
       ∧ (∀ k blk, 0 ≤ k ≤ max_order s → blk ∈ free_list s k →
                   size blk = min_block_size s * 2 ^ k
                   ∧ (k ≤ 30 → size blk = getBlockSize s k))
       ∧ (∀ id r, allocated_blocks s !! id = Some r →
                  0 ≤ order r ≤ max_order s
                  ∧ actual_size r = min_block_size s * 2 ^ order r
                  ∧ (order r ≤ 30
                     → actual_size r = getBlockSize s (order r))).
Proof.
  intros Hmem Hmin Hle Hmax Hops.
  destruct (run_balanced memory_size min_size ops Hmem Hmin Hle Hmax Hops)
    as (s & a & b & Hs & [Ho Hb Hf Hw]).
  pose proof (ord_exp a b s Ho) as He.
  pose proof (ord_min a b s Ho) as Hm.
  exists s. rewrite (ord_max a b s Ho). split; [done|]. split; [|split].
  - apply (lists_length a b s Ho).
  - intros k blk Hk Hin. rewrite (ord_free a b s Ho k blk Hin Hk).
    split; [by rewrite Hm, Z.pow_add_r by lia|].
    intros Hk'. symmetry. apply getBlockSize_exact; [done|lia|lia|lia].
  - intros id r Hr. destruct (ord_live a b s Ho id r Hr) as [H1 H2].
    split; [done|]. rewrite H2.
    split; [by rewrite Hm, Z.pow_add_r by lia|].
    intros Hk'. symmetry. apply getBlockSize_exact; [done|lia|lia|lia].
Qed.

Lemma blocks_have_the_size_of_their_order_witness :
  ∃ s, run (new 1024 16) [Allocate 100; Allocate 16; Deallocate 2] = Some s
       ∧ Z.of_nat (length (free_lists s)) = max_order s + 1
       ∧ (∀ k blk, 0 ≤ k ≤ max_order s → blk ∈ free_list s k →
                   size blk = min_block_size s * 2 ^ k
                   ∧ (k ≤ 30 → size blk = getBlockSize s k))
       ∧ (∀ id r, allocated_blocks s !! id = Some r →
                  0 ≤ order r ≤ max_order s
                  ∧ actual_size r = min_block_size s * 2 ^ order r
                  ∧ (order r ≤ 30
                     → actual_size r = getBlockSize s (order r))).
Proof.
  apply (blocks_have_the_size_of_their_order 1024 16
           [Allocate 100; Allocate 16; Deallocate 2]);
    [lia | lia | by vm_compute | by vm_compute
    | repeat constructor; simpl; lia].
Defined.

(** X27.  When an allocation is refused.  In a state with the block sizes in
    order, at most 32 orders and a request that is a [size_t], [allocate]
    returns.  It returns -1 exactly when the request is 0, or exceeds the
    arena, or no free list from the order of the rounded request up to
    [max_order] has a block; the state is then the old one with
    [total_allocations] and [failed_allocations] one higher.  Otherwise
    it returns [next_block_id] and files under it a record with the
    request, the rounded size and its order, and the free bytes drop by
    the rounded size. *)
Theorem allocation_is_refused_exactly_without_a_free_block
    (a b : Z) (s : t) (requested : Z) :
  ordered a b s → 0 ≤ requested →
  ∃ s' id,
    allocate s requested = Some (s', id)
    ∧ (id = -1 ↔
       requested = 0 ∨ total_memory s < requested
       ∨ ∃ sz, nextPowerOfTwo s requested = Some sz
               ∧ ∀ i, getOrder s sz ≤ i ≤ max_order s → free_list s i = [])
    ∧ (id = -1 → (s', id) = refused s)
    ∧ (id ≠ -1 →
       id = next_block_id s
       ∧ ∃ r, allocated_blocks s' = <[id := r]> (allocated_blocks s)
              ∧ requested_size r = requested
              ∧ nextPowerOfTwo s requested = Some (actual_size r)
              ∧ order r = getOrder s (actual_size r)
              ∧ free_bytes s' = free_bytes s - actual_size r).
Proof.
  intros Hs Hreq. pose proof (ord_next a b s Hs) as Hn.
  pose proof (ord_exp a b s Hs) as He.
  rewrite (ord_total a b s Hs), (ord_max a b s Hs).
  destruct (allocate_spec a b s requested Hs Hreq)
    as [[E H]|(s' & j & blk & E & Hr & Hj & Hp & Hord & Hex & O1 & B1 & G1)].
  - exists (refused s).1, (-1). split; [done|]. split; [|split].
    + split; [intros _|done].
      destruct H as [H|[H|(j & Hj & Hp & Hord & H)]]; [auto|auto|].
      right. right. exists (2 ^ j). split; [done|]. by rewrite Hord.
    + done.
    + done.
  - exists s', (next_block_id s). split; [done|]. split; [|split].
    + split; [lia|]. intros [H|[H|(sz & Hsz & H)]]; [lia| |].
      { assert (2 ^ j ≤ 2 ^ a) by (apply Z.pow_le_mono_r; lia). lia. }
      rewrite Hp in Hsz. injection Hsz as <-. rewrite Hord in H.
      destruct Hex as (i & Hi & Hne). by destruct (Hne (H i Hi)).
    + lia.
    + intros _. split; [done|]. exists (filed b j requested blk).
      unfold ledger in G1. injection G1 as E1 _ _ _ _ _ _.
      split; [done|]. split; [done|]. split; [done|].
      split; [symmetry; exact Hord|exact B1].
Qed.

Lemma allocation_is_refused_exactly_without_a_free_block_witness :
  ∃ s' id,
    allocate (new 1024 16) 100 = Some (s', id)
    ∧ (id = -1 ↔
       100 = 0 ∨ total_memory (new 1024 16) < 100
       ∨ ∃ sz, nextPowerOfTwo (new 1024 16) 100 = Some sz
               ∧ ∀ i, getOrder (new 1024 16) sz ≤ i
                      ≤ max_order (new 1024 16) →
                      free_list (new 1024 16) i = [])
    ∧ (id = -1 → (s', id) = refused (new 1024 16))
    ∧ (id ≠ -1 →
       id = next_block_id (new 1024 16)
       ∧ ∃ r, allocated_blocks s'
              = <[id := r]> (allocated_blocks (new 1024 16))
              ∧ requested_size r = 100
              ∧ nextPowerOfTwo (new 1024 16) 100 = Some (actual_size r)
              ∧ order r = getOrder (new 1024 16) (actual_size r)
              ∧ free_bytes s' = free_bytes (new 1024 16) - actual_size r).
Proof.
  apply (allocation_is_refused_exactly_without_a_free_block 10 4
           (new 1024 16) 100); [|lia].
  split; try (by vm_compute).
  - intros k blk Hin Hk.
    assert (k ∈ [0; 1; 2; 3; 4; 5; 6]) as Hk'.
    { change (k ∈ zrange 0 7). apply elem_of_zrange. lia. }
    repeat (apply elem_of_cons in Hk' as [->|Hk']);
      try (by apply elem_of_nil in Hk');
      try (by vm_compute in Hin; apply elem_of_nil in Hin).
    vm_compute in Hin. by apply list_elem_of_singleton in Hin as ->.
  - intros id [r Hr]. by vm_compute in Hr.
Defined.

End BuddyInvariants.

Module Count.
Import BuddyAllocator BuddySpec LedgerSpec BalanceSpec CountSpec BuddyProofs.

Lemma ledger_removeFromFreeList s k addr :
  ledger (removeFromFreeList s k addr).1 = ledger s.
Proof. unfold removeFromFreeList. by repeat case_match. Qed.

Lemma ledger_splitBlock_rec gap k s :
  ledger (splitBlock_rec gap k s).1 = ledger s.
Proof.
  revert k s. induction gap as [|gap IH]; intros k s; simpl; [done|].
  destruct (is_nil (free_list s (k + 1))).
  - specialize (IH (k + 1) s).
    destruct (splitBlock_rec gap (k + 1) s) as [s' ok]. simpl in IH.
    destruct ok; simpl; [|done].
    destruct (free_list s' (k + 1)); simpl; [done|]. done.
  - simpl. destruct (free_list s (k + 1)); simpl; done.
Qed.

Lemma ledger_mergeBlocks_rec gap addr k s :
  ledger (mergeBlocks_rec gap addr k s).1 = ledger s.
Proof.
  revert addr k s. induction gap as [|gap IH]; intros addr k s; simpl; [done|].
  pose proof (ledger_removeFromFreeList s k
                (getBuddyAddress addr (getBlockSize s k))) as H1.
  destruct (removeFromFreeList s k _) as [s1 [buddy|]]; simpl in *; [|done].
  rewrite IH. rewrite <- H1, <- (ledger_removeFromFreeList s1 k addr). done.
Qed.

Lemma allocate_ledger s requested s' id :
  allocate s requested = Some (s', id) →
  (id = -1 ∧ ledger s' = ledger (refused s).1)
  ∨ (id = next_block_id s
     ∧ ∃ r tif,
         ledger s'
         = (<[id := r]> (allocated_blocks s), next_block_id s + 1,
            total_allocations s + 1, total_deallocations s,
            successful_allocations s + 1, failed_allocations s, tif)).
Proof.
  unfold allocate, refused, fail.
  set (s0 := set_total_allocations (total_allocations s + 1) s).
  destruct (requested =? 0); [intros [= <- <-]; by left|].
  destruct (total_memory _ <? requested); [intros [= <- <-]; by left|].
  destruct (nextPowerOfTwo _ requested) as [actual|]; simpl; [|done].
  set (k := getOrder s0 actual).
  assert (∃ s1 ok, (if is_nil (free_list s0 k) then splitBlock s0 k
                    else (s0, true)) = (s1, ok) ∧ ledger s1 = ledger s0)
    as (s1 & ok & -> & Hl).
  { destruct (is_nil (free_list s0 k)).
    - pose proof (ledger_splitBlock_rec (Z.to_nat (max_order s0 - k)) k s0)
        as H. unfold splitBlock.
      destruct (splitBlock_rec _ k s0) as [s1 ok]. by exists s1, ok.
    - by exists s0, true. }
  unfold ledger in Hl. injection Hl as E1 E2 E3 E4 E5 E6 E7.
  assert (ledger (set_failed_allocations (failed_allocations s1 + 1) s1)
          = ledger (set_failed_allocations (failed_allocations s0 + 1) s0))
    as Hfail.
  { unfold ledger. simpl. by rewrite E1, E2, E3, E4, E5, E6, E7. }
  destruct ok; simpl; [|intros [= <- <-]; by left].
  destruct (free_list s1 k) as [|blk next]; [intros [= <- <-]; by left|].
  intros [= <- <-]. right. cbn [next_block_id set_free_list set_free_lists].
  split; [done|]. eexists _, _. unfold ledger. cbn.
  rewrite E1, E2, E3, E4, E5, E6. reflexivity.
Qed.

Lemma deallocate_ledger s id r :
  allocated_blocks s !! id = Some r →
  ∃ tif,
    ledger (deallocate s id).1
    = (delete id (allocated_blocks s), next_block_id s,
       total_allocations s, total_deallocations s + 1,
       successful_allocations s, failed_allocations s, tif).
Proof.
  intros Hr. unfold deallocate. rewrite Hr. cbv zeta. cbn [fst].
  unfold mergeBlocks. rewrite ledger_mergeBlocks_rec.
  eexists. reflexivity.
Qed.

Lemma counted_step s o s' : step s o = Some s' → counted s → counted s'.
Proof.
  intros Hstep [H1 H2 H3 H4 H5].
  pose proof (keys_below_step s o s' Hstep H4) as Hkeys.
  destruct o as [requested|id]; simpl in Hstep.
  - destruct (allocate s requested) as [[s1 i]|] eqn:Ha; simplify_eq/=.
    destruct (allocate_ledger _ _ _ _ Ha) as [[_ E]|[-> (r & tif & E)]];
      unfold ledger in E; injection E as E1 E2 E3 E4 E5 E6 E7.
    + split; try done; rewrite ?E1, ?E2, ?E3, ?E4, ?E5, ?E6; simpl; lia.
    + assert (allocated_blocks s !! next_block_id s = None) as Hfresh.
      { destruct (allocated_blocks s !! next_block_id s) eqn:E; [|done].
        pose proof (H4 (next_block_id s) ltac:(by eexists)). lia. }
      split; try done; rewrite ?E1, ?E2, ?E3, ?E4, ?E5, ?E6; try lia.
      rewrite map_size_insert_None by done. lia.
  - simplify_eq. destruct (allocated_blocks s !! id) as [r|] eqn:Hr.
    2:{ unfold deallocate. rewrite Hr. cbn [fst]. by split. }
    destruct (deallocate_ledger s id r Hr) as (tif & E).
    unfold ledger in E; injection E as E1 E2 E3 E4 E5 E6 E7.
    split; try done; rewrite ?E1, ?E2, ?E3, ?E4, ?E5, ?E6; try lia.
    rewrite map_size_delete_Some by done.
    assert (base.size (allocated_blocks s) ≠ 0%nat).
    { intros Hz%map_size_empty_inv. rewrite Hz in Hr.
      by rewrite lookup_empty in Hr. }
    lia.
Qed.

Lemma counted_run ops s s' : run s ops = Some s' → counted s → counted s'.
Proof.
  revert s. induction ops as [|o ops IH]; intros s.
  { by intros [= <-]. }
  rewrite run_cons. destruct (step s o) as [s1|] eqn:Hs1; simpl; [|done].
  intros Hrun Hs. eapply IH; [done|]. by eapply counted_step.
Qed.

Lemma counted_new memory_size min_size : counted (new memory_size min_size).
Proof.
  split; try done. apply keys_below_new.
Qed.

(** X28.  The counters of the buddy allocator.  After any sequence of
    allocations and deallocations on a constructed allocator every
    allocation was counted once as successful or failed, the next id is
    one more than the successful allocations, so ids are handed out as
    1, 2, 3, ..., and the live allocations are the successful ones less
    the deallocations that found their block. *)
Theorem buddy_counters_add_up
    (memory_size min_size : Z) (ops : list op) :
  0 ≤ memory_size < 2 ^ 64 → 0 ≤ min_size < 2 ^ 64 →
  ∃ s, run (new memory_size min_size) ops = Some s
       ∧ total_allocations s
         = successful_allocations s + failed_allocations s
       ∧ next_block_id s = 1 + successful_allocations s
       ∧ Z.of_nat (base.size (allocated_blocks s))
         = successful_allocations s - total_deallocations s.
Proof.
  intros Hmem Hmin.
  destruct (run_total ops _ (sized_new _ _ Hmem Hmin)) as [s Hs].
  exists s. split; [done|].
  destruct (counted_run ops _ s Hs (counted_new memory_size min_size))
    as [H1 H2 H3 _ _].
  split_and!; [done|done|lia].
Qed.

Lemma buddy_counters_add_up_witness :
  ∃ s, run (new 1024 16)
         [Allocate 100; Allocate 2000; Deallocate 1; Deallocate 1] = Some s
       ∧ total_allocations s
         = successful_allocations s + failed_allocations s
       ∧ next_block_id s = 1 + successful_allocations s
       ∧ Z.of_nat (base.size (allocated_blocks s))
         = successful_allocations s - total_deallocations s.
Proof.
  apply (buddy_counters_add_up 1024 16
           [Allocate 100; Allocate 2000; Deallocate 1; Deallocate 1]); lia.
Defined.

End Count.

(** ** More properties: unified system *)

Module SystemProofs.
Import UnifiedMemorySystem.

Lemma isPowerOfTwo_pow2 j : 0 ≤ j ≤ 63 → isPowerOfTwo (2 ^ j) = true.
Proof.
  intros Hj. unfold isPowerOfTwo.
  assert (0 < 2 ^ j) by lia.
  assert (2 ^ j ≤ 2 ^ 63) by (apply Z.pow_le_mono_r; lia).
  apply andb_true_iff. split; [by apply Z.ltb_lt|]. apply Z.eqb_eq.
  unfold wrap64. rewrite Z.mod_small by lia.
  replace (2 ^ j - 1) with (Z.ones j) by (rewrite Z.ones_equiv; lia).
  rewrite Z.land_ones by lia. apply Z.mod_same. lia.
Qed.

Lemma isPowerOfTwo_buddy n : BuddyAllocator.isPowerOfTwo n = isPowerOfTwo n.
Proof. done. Qed.

Lemma double_loop_diverges steps j sz :
  0 ≤ j ≤ 63 → Z.of_nat steps = 64 - j → 2 ^ 63 < sz →
  BuddyAllocator.double_loop steps (2 ^ j) sz = None.
Proof.
  revert j. induction steps as [|steps IH]; intros j Hj Hsteps Hsz; [lia|].
  simpl. assert (2 ^ j ≤ 2 ^ 63) by (apply Z.pow_le_mono_r; lia).
  destruct (Z.ltb_spec (2 ^ j) sz); [|lia].
  destruct (decide (j = 63)) as [->|Hne].
  - assert (steps = 0%nat) as -> by lia. simpl.
    change (wrap64 (2 ^ 63 * 2)) with 0.
    destruct (Z.ltb_spec 0 sz); [done|lia].
  - assert (wrap64 (2 ^ j * 2) = 2 ^ (j + 1)) as ->.
    { rewrite Z.pow_add_r by lia. change (2 ^ 1) with 2.
      unfold wrap64. apply Z.mod_small.
      assert (2 ^ j ≤ 2 ^ 62) by (apply Z.pow_le_mono_r; lia). lia. }
    apply IH; lia.
Qed.

(** The size handed to the buddy allocator. *)
Lemma adjusted_size size :
  0 ≤ size ≤ 2 ^ 63 →
  ∃ j, 0 ≤ j ≤ 63
       ∧ (if negb (isPowerOfTwo size) then nextPowerOfTwo size
          else Some size) = Some (2 ^ j)
       ∧ size ≤ 2 ^ j ∧ (0 < j → 2 ^ (j - 1) < size).
Proof.
  intros Hsize. destruct (isPowerOfTwo size) eqn:Hp; cbn [negb].
  - destruct (BuddyProofs.isPowerOfTwo_spec size ltac:(lia) Hp)
      as (k & Hk & ->).
    exists k. split_and!; try done; try lia. intros Hpos.
    apply Z.pow_lt_mono_r; lia.
  - unfold nextPowerOfTwo. destruct (Z.leb_spec size 1).
    + exists 0. split_and!; try done; lia.
    + destruct (Rounding.double_loop_spec 64 0 63 size)
        as (j & Hj & E & H1 & H2); try lia.
      exists j. split_and!; try done; try lia.
Qed.

(** X29.  The arena of the buddy system.  [initializeMemory] with the buddy
    system, for a size of at most 2^63, builds the buddy allocator on the
    least power of two that is at least the size, with minimum block 16,
    records that power as the physical memory size and leaves the classic
    allocator alone; the allocator's fallback to 1024 bytes is never
    taken.  For a larger size the rounding loop never ends. *)
Theorem buddy_arena_is_the_least_power_of_two (u : t) (size : Z) :
  0 ≤ size < 2 ^ 64 →
  (size ≤ 2 ^ 63 →
   ∃ u' j s,
     initializeMemory u size true = Some u'
     ∧ 0 ≤ j ≤ 63 ∧ size ≤ 2 ^ j ∧ (0 < j → 2 ^ (j - 1) < size)
     ∧ physical_memory_size u' = 2 ^ j
     ∧ use_buddy u' = true
     ∧ buddy_allocator u' = Some s
     ∧ BuddyAllocator.total_memory s = 2 ^ j
     ∧ BuddyAllocator.min_block_size s = 16
     ∧ classic_allocator u' = classic_allocator u)
  ∧ (2 ^ 63 < size → initializeMemory u size true = None).
Proof.
  intros Hsize. split.
  - intros Hle. destruct (adjusted_size size ltac:(lia))
      as (j & Hj & E & H1 & H2).
    unfold initializeMemory. rewrite E. cbn [mbind option_bind].
    eexists _, j, _. split; [done|]. split_and!; try done; try lia.
    unfold BuddyAllocator.new. cbv zeta. cbn [BuddyAllocator.total_memory].
    by rewrite isPowerOfTwo_buddy, isPowerOfTwo_pow2.
  - intros Hbig. unfold initializeMemory.
    assert (isPowerOfTwo size = false) as ->.
    { destruct (isPowerOfTwo size) eqn:Hp; [|done].
      destruct (BuddyProofs.isPowerOfTwo_spec size Hsize Hp)
        as (k & Hk & ->).
      assert (2 ^ k ≤ 2 ^ 63) by (apply Z.pow_le_mono_r; lia). lia. }
    cbn [negb]. unfold nextPowerOfTwo.
    destruct (Z.leb_spec size 1); [lia|].
    change 1 with (2 ^ 0) at 1.
    by rewrite (double_loop_diverges 64 0 size).
Qed.

Lemma buddy_arena_is_the_least_power_of_two_witness :
  (∃ u' j s,
     initializeMemory new 1000 true = Some u'
     ∧ 0 ≤ j ≤ 63 ∧ 1000 ≤ 2 ^ j ∧ (0 < j → 2 ^ (j - 1) < 1000)
     ∧ physical_memory_size u' = 2 ^ j
     ∧ use_buddy u' = true
     ∧ buddy_allocator u' = Some s
     ∧ BuddyAllocator.total_memory s = 2 ^ j
     ∧ BuddyAllocator.min_block_size s = 16
     ∧ classic_allocator u' = classic_allocator new)
  ∧ initializeMemory new (2 ^ 63 + 1) true = None.
Proof.
  split.
  - apply (buddy_arena_is_the_least_power_of_two new 1000); lia.
  - apply (buddy_arena_is_the_least_power_of_two new (2 ^ 63 + 1)); lia.
Defined.

Import VirtualMemorySimulator CacheHierarchy PagingSpec FramesSpec PagedSpec
  InclusionSpec.

(** X30.  The access pipeline.  With virtual memory and the cache both
    enabled, the simulator in the invariant of its runs and the cache
    levels in the constructor's shape, [accessMemory] of a [size_t]
    address always stores the simulator after the translation.  An
    address outside the virtual memory ends the access there: the cache
    hierarchy is untouched.  An address inside is translated to a
    physical address below the physical memory size with the same page
    offset, the cache hierarchy is read or written once at that physical
    address, and L1 holds its block afterwards. *)
Theorem access_translates_then_goes_to_the_cache
    (u : UnifiedMemorySystem.t) (vm : VirtualMemorySimulator.t)
    (h : CacheHierarchy.t) (n va : Z) (is_write : bool) :
  vm_enabled u = true → vm_simulator u = Some vm →
  cache_enabled u = true → cache_hierarchy u = Some h →
  paged n vm → n + 1 < INT32_MAX → shaped_levels h → 0 ≤ va →
  let u' := accessMemory u va is_write in
  let r := translateAddress vm va in
  vm_simulator u' = Some r.1
  ∧ (virtual_memory_size vm ≤ va → cache_hierarchy u' = Some h)
  ∧ (va < virtual_memory_size vm →
     0 ≤ r.2 < VirtualMemorySimulator.physical_memory_size vm
     ∧ r.2 mod page_size vm = va mod page_size vm
     ∧ ∃ h',
         cache_hierarchy u' = Some h'
         ∧ h' = (if is_write then write h r.2 (UnifiedMemorySystem.verbose u)
                 else read h r.2 (UnifiedMemorySystem.verbose u)).1
         ∧ hit_level h' r.2 = Some 1%nat).
Proof.
  intros Hve Hvm Hce Hch (Hn0 & Hc & Ht & Hf & _) Hn Hsh Hva.
  unfold accessMemory. rewrite Hve, Hvm. cbv zeta.
  destruct (Z.le_gt_cases (virtual_memory_size vm) va) as [Hout|Hin].
  - rewrite Translate.translateAddress_out by done. cbn [fst snd].
    rewrite Z.eqb_refl. cbn. split; [done|]. split; [by intros _|lia].
  - destruct (PagingProofs.translation_in vm n va Hc Ht Hn Hf
                ltac:(lia)) as (f & e' & _ & _ & _ & _ & _ & _ & Hoff
                                & Hpa & Hne & _).
    destruct (translateAddress vm va) as [vm' pa] eqn:E. cbn [fst snd] in *.
    destruct (Z.eqb_spec pa (wrap64 (-1))) as [Heq|_].
    { exfalso. apply Hne. by rewrite Heq. }
    cbn [cache_enabled cache_hierarchy set_vm_simulator
         UnifiedMemorySystem.verbose vm_simulator set_cache_hierarchy].
    rewrite Hce, Hch. cbn [vm_simulator set_cache_hierarchy cache_hierarchy].
    split; [done|]. split; [lia|]. intros _. split; [done|]. split; [done|].
    eexists. split; [done|]. split; [done|].
    destruct is_write;
      [by apply Inclusion.write_reaches_L1
      |by apply Inclusion.read_reaches_L1].
Qed.

Lemma access_translates_then_goes_to_the_cache_witness :
  let vm := VirtualMemorySimulator.new 64 32 16 "fifo" in
  let h := CacheHierarchy.new 4 64 Cache.TWO_WAY Cache.LRU Cache.WRITE_BACK
             8 64 Cache.FOUR_WAY Cache.FIFO Cache.WRITE_BACK
             0 64 Cache.DIRECT_MAPPED Cache.FIFO Cache.WRITE_BACK in
  let u := {| classic_allocator := Some (MemoryManager.new 32);
              buddy_allocator := None; use_buddy := false;
              vm_simulator := Some vm; cache_hierarchy := Some h;
              vm_enabled := true; cache_enabled := true;
              UnifiedMemorySystem.verbose := false;
              UnifiedMemorySystem.physical_memory_size := 32 |} in
  cache_hierarchy (accessMemory u 70 false) = Some h
  ∧ ∃ h', cache_hierarchy (accessMemory u 40 true) = Some h'
          ∧ hit_level h' (translateAddress vm 40).2 = Some 1%nat.
Proof.
  intros vm h u.
  assert (paged 0 vm) as Hvm.
  { apply Paged.paged_new. unfold well_sized.
    split_and!; try lia; reflexivity. }
  assert (shaped_levels h) as Hh.
  { split; [|split].
    - apply Shape.shaped_new; [lia|lia|by vm_compute].
    - intros c [= <-]. apply Shape.shaped_new; [lia|lia|by vm_compute].
    - intros c [=]. }
  split.
  - pose proof (access_translates_then_goes_to_the_cache u vm h 0 70 false
                  eq_refl eq_refl eq_refl eq_refl Hvm ltac:(by vm_compute)
                  Hh ltac:(lia)) as (_ & Hout & _).
    apply Hout. by vm_compute.
  - pose proof (access_translates_then_goes_to_the_cache u vm h 0 40 true
                  eq_refl eq_refl eq_refl eq_refl Hvm ltac:(by vm_compute)
                  Hh ltac:(lia)) as (_ & _ & Hin).
    destruct Hin as (_ & _ & h' & H1 & _ & H2); [by vm_compute|].
    by exists h'.
Defined.

End SystemProofs.
